(** * Prompt Battle: the round orchestration engine, verified against its specification

    A shallow embedding of the server side of the repository
    (roomManager.js, imageGenerator.js, gameLogic.js and the socket handlers
    of index.js) together with the properties its specification states.

    Conventions of the embedding:
    - a JavaScript string is a [string] of 8-bit code units (the Latin-1
      range of UTF-16); [toLowerCase] and the class [\W] are exact there;
    - JavaScript numbers that hold integers (scores, sizes, round counters)
      are [Z]; the one genuinely fractional computation, the percentage in
      [calculateSimilarity], is carried out in IEEE-754 binary64 with the
      operations of [SpecFloat];
    - a [Map] is an association list in insertion order; a plain object used
      as a dictionary is a [gmap]; a [Set] is a [gset];
    - [null] and [undefined] are [None];
    - room objects live in a heap and are referred to by address, because
      the game loop keeps its room after the registry has dropped it. *)

From Stdlib Require Import ZArith Lia Bool List String Ascii.
From Stdlib Require Import Floats.SpecFloat.
From stdpp Require Import gmap strings list fin_maps.

Local Open Scope Z_scope.
Local Open Scope string_scope.

(* ===================================================================== *)
(** * JavaScript primitives used by the server *)
(* ===================================================================== *)

Module JS.

(** Truthiness of a string value: only the empty string is falsy. *)
Definition truthy (s : string) : bool :=
  match s with
  | EmptyString => false
  | String _ _ => true
  end.

(** Truthiness of a possibly absent string ([undefined], [null] or a string). *)
Definition truthy_opt (o : option string) : bool :=
  match o with
  | None => false
  | Some s => truthy s
  end.

(** [x || d] on strings. *)
Definition or_string (o : option string) (d : string) : string :=
  match o with
  | Some s => if truthy s then s else d
  | None => d
  end.

(** [x || d] on numbers: [0] is falsy. *)
Definition or_number (o : option Z) (d : Z) : Z :=
  match o with
  | Some n => if Z.eqb n 0 then d else n
  | None => d
  end.

(** [x || d] on arrays: every array, the empty one included, is truthy. *)
Definition or_array {A} (o : option (list A)) (d : list A) : list A :=
  match o with
  | Some l => l
  | None => d
  end.

(** ** Characters *)

Definition code (c : ascii) : N := N_of_ascii c.

Definition between (lo hi : N) (c : ascii) : bool :=
  (N.leb lo (code c) && N.leb (code c) hi)%bool.

(** The class [\w] of a regular expression without the [u] flag:
    [A-Za-z0-9_]. *)
Definition isWordChar (c : ascii) : bool :=
  (between 65 90 c || between 97 122 c || between 48 57 c
   || N.eqb (code c) 95)%bool.

(** [String.prototype.toLowerCase] on one code unit below 256: the letters
    [A-Z], and [U+00C0-U+00DE] except the multiplication sign [U+00D7],
    move up by 32. *)
Definition lowerChar (c : ascii) : ascii :=
  if (between 65 90 c
      || (between 192 222 c && negb (N.eqb (code c) 215)))%bool
  then ascii_of_N (code c + 32)
  else c.

Fixpoint toLowerCase (s : string) : string :=
  match s with
  | EmptyString => EmptyString
  | String c s' => String (lowerChar c) (toLowerCase s')
  end.

(** ** [s.split(/\W+/)]

    The scan of [RegExp.prototype[Symbol.split]] for the pattern [\W+]:
    [cur] is the piece being collected since the end of the last match,
    [insep] tells that the previous code unit belonged to a match. A match
    closes the current piece (also when that piece is empty, at the start of
    the string); the piece after the last match is always pushed (also when
    it is empty, at the end of the string). *)
Fixpoint split_go (insep : bool) (cur : string) (s : string) : list string :=
  match s with
  | EmptyString => [cur]
  | String c s' =>
      if isWordChar c then split_go false (cur ++ String c EmptyString) s'
      else if insep then split_go true cur s'
      else cur :: split_go true EmptyString s'
  end.

Definition splitNonWord (s : string) : list string := split_go false EmptyString s.

(** ** Numbers: IEEE-754 binary64 *)

Definition prec : Z := 53.
Definition emax : Z := 1024.

Definition number := spec_float.

(** The Number holding an integer. *)
Definition ofZ (n : Z) : number := binary_normalize prec emax n 0 false.

Definition div (x y : number) : number := SFdiv prec emax x y.
Definition mul (x y : number) : number := SFmul prec emax x y.

(** [Math.round]: the integer nearest to the argument, a tie going to the
    larger one; [floor (x + 1/2)] computed exactly. The score is an integer,
    so the result is returned in [Z] ([NaN] and the infinities, which
    [calculateSimilarity] cannot produce, are sent to [0]). *)
Definition Math_round (x : number) : Z :=
  match x with
  | S754_finite s m e =>
      let v := if s then Z.neg m else Z.pos m in
      if Z.leb 0 e then v * 2 ^ e
      else (2 * v + 2 ^ (- e)) / 2 ^ (- e + 1)
  | _ => 0
  end.

End JS.

(* ===================================================================== *)
(** * gameLogic.js: the scoring engine *)
(* ===================================================================== *)

Module Scoring.

(** [calculateSimilarity(a, b)] of gameLogic.js.

    [wordsA] and [wordsB] are the arrays produced by [split]; [setA] is
    [new Set(wordsA)]; the [for ... of] loop over [wordsB] increments
    [overlap] for every element that [setA] has; the quotient, the product
    by 100 and [Math.round] are the binary64 operations of JavaScript. *)
Definition calculateSimilarity (a b : option string) : Z :=
  match a, b with
  | Some a, Some b =>
      if (negb (JS.truthy a) || negb (JS.truthy b))%bool then 0
      else
        let wordsA := JS.splitNonWord (JS.toLowerCase a) in
        let wordsB := JS.splitNonWord (JS.toLowerCase b) in
        let setA : gset string := list_to_set wordsA in
        let overlap :=
          foldl (fun overlap word =>
                   if bool_decide (word ∈ setA) then overlap + 1 else overlap)
                0 wordsB in
        let maxWords := Z.max (Z.of_nat (length wordsA)) (Z.of_nat (length wordsB)) in
        JS.Math_round (JS.mul (JS.div (JS.ofZ overlap) (JS.ofZ maxWords)) (JS.ofZ 100))
  | _, _ => 0
  end.

(** ** The reference definitions

    Two readings of the specification's sentence are written out: the one
    of its words, under which a token is a word, and the one that the code
    implements, under which the pieces around the separator runs are the
    tokens, the empty ones included. Both use the lower case of this
    section, which is stated on its own and not taken from the code. *)

(** The capital letters of the first 256 code points, and their lower-case
    forms in the same order: [A]-[Z], [U+00C0]-[U+00D6] and
    [U+00D8]-[U+00DE]. *)
Definition capitals : list ascii :=
  (list_ascii_of_string "ABCDEFGHIJKLMNOPQRSTUVWXYZ"
   ++ map ascii_of_nat (seq 192 23 ++ seq 216 7))%list.

Definition smalls : list ascii :=
  (list_ascii_of_string "abcdefghijklmnopqrstuvwxyz"
   ++ map ascii_of_nat (seq 224 23 ++ seq 248 7))%list.

Definition lowerOf (c : ascii) : ascii :=
  match List.find (fun p => Ascii.eqb (fst p) c) (combine capitals smalls) with
  | Some p => snd p
  | None => c
  end.

Fixpoint lowerCase (s : string) : string :=
  match s with
  | EmptyString => EmptyString
  | String c s' => String (lowerOf c) (lowerCase s')
  end.

Definition allWord (s : string) : Prop :=
  Forall (fun c => JS.isWordChar c = true) (list_ascii_of_string s).

Definition allNonWord (s : string) : Prop :=
  Forall (fun c => JS.isWordChar c = false) (list_ascii_of_string s).

(** The rest of a string after a separator run: it is empty or starts
    with a word character, so that the run before it is maximal. *)
Definition afterRun (s : string) : Prop :=
  match s with
  | EmptyString => True
  | String c _ => JS.isWordChar c = true
  end.

(** The string is cut at its maximal non-empty runs of non-word
    characters; the pieces between the cuts are the result, the piece
    before a leading run and the piece after a trailing run included
    (they are empty). *)
Inductive splitOnRuns : string -> list string -> Prop :=
| split_last w :
    allWord w -> splitOnRuns w [w]
| split_run w sep rest pieces :
    allWord w -> sep <> EmptyString -> allNonWord sep -> afterRun rest ->
    splitOnRuns rest pieces ->
    splitOnRuns (w ++ sep ++ rest) (w :: pieces).

(** The tokens as the code has them: every piece, in lower case. *)
Definition tokens (s : string) (ts : list string) : Prop :=
  exists pieces, splitOnRuns s pieces /\ ts = map lowerCase pieces.

(** "tokenizes both strings into lowercase word sequences split on
    non-word-character runs", read to the letter: the tokens are the words
    of the string, its maximal non-empty runs of word characters, in lower
    case; [cur] is the word being read. *)
Fixpoint wordsFrom (cur : string) (s : string) : list string :=
  match s with
  | EmptyString =>
      match cur with
      | EmptyString => []
      | _ => [cur]
      end
  | String c s' =>
      if JS.isWordChar c then wordsFrom (cur ++ String c EmptyString) s'
      else match cur with
           | EmptyString => wordsFrom EmptyString s'
           | _ => cur :: wordsFrom EmptyString s'
           end
  end.

Definition words (s : string) : list string := wordsFrom EmptyString (lowerCase s).

Definition wordTokens (s : string) (ts : list string) : Prop := ts = words s.

(** "counts tokens in candidate that also appear in the token set of
    original (set membership, no duplicate counting beyond presence)":
    every token of the candidate counts when it is present among the
    tokens of the original, however often it occurs there. *)
Definition overlapCount (tokensOriginal tokensCandidate : list string) : Z :=
  Z.of_nat (length (filter (fun w => w ∈ tokensOriginal) tokensCandidate)).

(** [r] is an integer nearest to the fraction [num / den] ([den > 0]). *)
Definition nearestInteger (num den r : Z) : Prop :=
  Z.abs (2 * (r * den - num)) <= den.

(** The score of the specification for a way of tokenizing: the count is
    divided by the larger token count (the score is 0 if that is 0),
    scaled to 0-100 and rounded to a nearest integer; an absent or empty
    input gives 0. *)
Definition similarityBy (tokenize : string -> list string -> Prop)
    (original candidate : option string) (score : Z) : Prop :=
  match original, candidate with
  | Some a, Some b =>
      if (JS.truthy a && JS.truthy b)%bool then
        exists tokensOriginal tokensCandidate,
          tokenize a tokensOriginal /\ tokenize b tokensCandidate /\
          let count := overlapCount tokensOriginal tokensCandidate in
          let maxLen := Z.max (Z.of_nat (length tokensOriginal))
                              (Z.of_nat (length tokensCandidate)) in
          if Z.eqb maxLen 0 then score = 0
          else nearestInteger (100 * count) maxLen score
      else score = 0
  | _, _ => score = 0
  end.

(** The reference definition as the specification words it: the tokens
    are the words. *)
Definition similarityOfWords : option string -> option string -> Z -> Prop :=
  similarityBy wordTokens.

(** The reference definition that the code implements: the tokens are the
    pieces. *)
Definition similarity : option string -> option string -> Z -> Prop :=
  similarityBy tokens.

(** The largest string the engine can hold is far below this bound. *)
Definition MAX_STRING_LENGTH : Z := 2 ^ 32.

Definition fits (o : option string) : Prop :=
  match o with
  | Some s => Z.of_nat (String.length s) < MAX_STRING_LENGTH
  | None => True
  end.

End Scoring.

(* ===================================================================== *)
(** * shared/constants.js and the data model *)
(* ===================================================================== *)

(** The keys of [GAME_STATES] of shared/constants.js; [gameLogic.js] uses
    the states by key only. The string values, which the client reads, are
    in [Constants.GAME_STATES_value]. *)
Inductive GAME_STATES : Set :=
| WAITING | STARTING | SHOWING_IMAGE | WRITING_PROMPT
| GENERATING_IMAGES | VOTING | SHOWING_RESULTS | GAME_OVER.

(** What the process takes from its surroundings: [MAX_PLAYERS_PER_ROOM] of
    the environment when it is set (already parsed), the category
    catalogue [CATEGORIES] that [gameLogic.js] imports (the one of
    shared/constants.js is [Constants.CATEGORIES]), and whether an OpenAI
    client was configured. *)
Record Env : Type := {
  MAX_PLAYERS_PER_ROOM : option Z;
  CATEGORIES : list string;
  openai : bool
}.

(** ** [Map] with string keys, in insertion order *)

Module Map.
Section Map.
Context {V : Type}.

Definition t := list (string * V).

Fixpoint get (k : string) (m : t) : option V :=
  match m with
  | [] => None
  | (k', v) :: m' => if String.eqb k k' then Some v else get k m'
  end.

Definition has (k : string) (m : t) : bool :=
  match get k m with Some _ => true | None => false end.

(** [set] keeps the position of a key that is present and appends a new one. *)
Fixpoint set (k : string) (v : V) (m : t) : t :=
  match m with
  | [] => [(k, v)]
  | (k', v') :: m' =>
      if String.eqb k k' then (k, v) :: m' else (k', v') :: set k v m'
  end.

Fixpoint delete (k : string) (m : t) : t :=
  match m with
  | [] => []
  | (k', v') :: m' =>
      if String.eqb k k' then delete k m' else (k', v') :: delete k m'
  end.

Definition keys (m : t) : list string := map fst m.
Definition values (m : t) : list V := map snd m.
Definition size (m : t) : Z := Z.of_nat (length m).
End Map.
Arguments t : clear implicits.
End Map.

(** ** Players, rooms *)

Record Player : Type := {
  p_id : string;
  p_name : string;
  p_score : Z;
  p_ready : bool;
  p_prompt : option string;
  p_image : option string
}.

Definition add_score (d : Z) (p : Player) : Player :=
  {| p_id := p_id p; p_name := p_name p; p_score := p_score p + d;
     p_ready := p_ready p; p_prompt := p_prompt p; p_image := p_image p |}.

(** The configuration a client sends with [create-room]: any field may be
    missing. *)
Record ClientConfig : Type := {
  cc_rounds : option Z;
  cc_difficulty : option string;
  cc_categories : option (list string);
  cc_mode : option string;
  cc_playerName : option string
}.

Record Config : Type := {
  rounds : Z;
  difficulty : string;
  categories : list string;
  mode : string
}.

(** [room.roundData]: [createRoom] installs the empty object, in which
    every field is [undefined]; [startGame] installs, at the start of a
    round, a record whose [prompts], [images] and [scores] are objects keyed
    by socket id. *)
Record RoundData : Type := {
  originalPrompt : option string;
  originalImage : option string;
  prompts : option (gmap string string);
  images : option (gmap string (option string));
  scores : option (gmap string Z)
}.

Definition emptyObject : RoundData :=
  {| originalPrompt := None; originalImage := None;
     prompts := None; images := None; scores := None |}.

(** The function stored in [room._resolvePromptPromise]: the [resolve] of
    the promise that one activation of [startGame] awaits in one round. *)
Record Resolver : Type := {
  res_task : nat;
  res_round : Z
}.

Record Room : Type := {
  code : string;
  host : string;
  config : Config;
  players : Map.t Player;
  state : GAME_STATES;
  currentRound : Z;
  roundData : RoundData;
  _resolvePromptPromise : option Resolver
}.

Definition with_players (r : Room) (ps : Map.t Player) : Room :=
  {| code := code r; host := host r; config := config r; players := ps;
     state := state r; currentRound := currentRound r;
     roundData := roundData r;
     _resolvePromptPromise := _resolvePromptPromise r |}.

Definition with_host (r : Room) (h : string) : Room :=
  {| code := code r; host := h; config := config r; players := players r;
     state := state r; currentRound := currentRound r;
     roundData := roundData r;
     _resolvePromptPromise := _resolvePromptPromise r |}.

Definition with_state (r : Room) (s : GAME_STATES) : Room :=
  {| code := code r; host := host r; config := config r; players := players r;
     state := s; currentRound := currentRound r;
     roundData := roundData r;
     _resolvePromptPromise := _resolvePromptPromise r |}.

Definition with_currentRound (r : Room) (n : Z) : Room :=
  {| code := code r; host := host r; config := config r; players := players r;
     state := state r; currentRound := n;
     roundData := roundData r;
     _resolvePromptPromise := _resolvePromptPromise r |}.

Definition with_roundData (r : Room) (d : RoundData) : Room :=
  {| code := code r; host := host r; config := config r; players := players r;
     state := state r; currentRound := currentRound r;
     roundData := d;
     _resolvePromptPromise := _resolvePromptPromise r |}.

Definition with_resolver (r : Room) (f : option Resolver) : Room :=
  {| code := code r; host := host r; config := config r; players := players r;
     state := state r; currentRound := currentRound r;
     roundData := roundData r;
     _resolvePromptPromise := f |}.

(** ** The store of room objects

    [rooms] is the [Map] of roomManager.js from room code to room object;
    the objects themselves are in [heap], addressed by position. A room that
    is deleted from [rooms] stays in the heap, where a running game loop
    still reaches it. *)
Record Store : Type := {
  heap : list Room;
  rooms : Map.t nat
}.

Definition deref (st : Store) (a : nat) : option Room := heap st !! a.

Definition update (a : nat) (r : Room) (st : Store) : Store :=
  {| heap := <[a := r]> (heap st); rooms := rooms st |}.

(** What a thrown value carries: the [message] of the [Error]. *)
Inductive Exception : Type :=
| Error (message : string)
| TypeError (message : string).

Definition message_of (e : Exception) : string :=
  match e with Error m => m | TypeError m => m end.

(* ===================================================================== *)
(** * roomManager.js: the session registry *)
(* ===================================================================== *)

Module RoomManager.

Definition chars : string := "ABCDEFGHIJKLMNOPQRSTUVWXYZ0123456789".

(** [s.charAt(i)]: the empty string when [i] is out of range. *)
Definition charAt (s : string) (i : nat) : string :=
  match String.get i s with
  | Some c => String c EmptyString
  | None => EmptyString
  end.

(** [generateRoomCode()]; [draws] are the values that
    [Math.floor(Math.random() * chars.length)] takes in the six turns of
    the loop. *)
Definition generateRoomCode (draws : list nat) : string :=
  foldl (fun code d => code ++ charAt chars d) EmptyString (take 6 draws).

(** The [do ... while (rooms.has(code))] loop of [createRoom]; [attempts]
    holds the draws of the successive calls of [generateRoomCode]. [None]:
    every attempt given collided, the loop is still running. *)
Fixpoint freshCode (attempts : list (list nat)) (rooms : Map.t nat) : option string :=
  match attempts with
  | [] => None
  | draws :: more =>
      let code := generateRoomCode draws in
      if Map.has code rooms then freshCode more rooms else Some code
  end.

Definition newPlayer (id name : string) : Player :=
  {| p_id := id; p_name := name; p_score := 0; p_ready := false;
     p_prompt := None; p_image := None |}.

(** [createRoom(config, socket)]. The result is [None] while the code loop
    has not ended; otherwise the store after the call and either the
    thrown exception or the code returned. An absent [config] passes
    [config?.playerName] but throws at [config.rounds], before anything is
    stored. *)
Definition createRoom (config : option ClientConfig) (socket_id : string)
    (attempts : list (list nat)) (st : Store)
  : option (Store * (Exception + string)) :=
  match freshCode attempts (rooms st) with
  | None => None
  | Some code =>
      let hostPlayer :=
        newPlayer socket_id
          (JS.or_string (match config with
                         | Some c => cc_playerName c
                         | None => None
                         end) "Host") in
      match config with
      | None =>
          Some (st, inl (TypeError
                  "Cannot read properties of undefined (reading 'rounds')"))
      | Some c =>
          let room :=
            {| code := code;
               host := socket_id;
               config := {| rounds := JS.or_number (cc_rounds c) 3;
                            difficulty := JS.or_string (cc_difficulty c) "medium";
                            categories := JS.or_array (cc_categories c) ["random"];
                            mode := JS.or_string (cc_mode c) "classic" |};
               players := [(socket_id, hostPlayer)];
               state := WAITING;
               currentRound := 0;
               roundData := emptyObject;
               _resolvePromptPromise := None |} in
          Some ({| heap := heap st ++ [room];
                   rooms := Map.set code (length (heap st)) (rooms st) |},
                inr code)
      end
  end.

(** [rooms.get(roomCode)], as a room object. *)
Definition lookupRoom (roomCode : string) (st : Store) : option (nat * Room) :=
  match Map.get roomCode (rooms st) with
  | Some a => match deref st a with
              | Some room => Some (a, room)
              | None => None
              end
  | None => None
  end.

(** [getRoom(roomCode)]. *)
Definition getRoom (roomCode : string) (st : Store) : option Room :=
  match lookupRoom roomCode st with
  | Some (_, room) => Some room
  | None => None
  end.

(** [parseInt(process.env.MAX_PLAYERS_PER_ROOM || '6', 10)]. *)
Definition MAX_PLAYERS (env : Env) : Z :=
  match MAX_PLAYERS_PER_ROOM env with
  | Some n => n
  | None => 6
  end.

Record Result : Type := { success : bool; message : string }.

(** [joinRoom(roomCode, socket, playerName)]. *)
Definition joinRoom (env : Env) (roomCode socket_id : string)
    (playerName : option string) (st : Store) : Store * Result :=
  match lookupRoom roomCode st with
  | None => (st, {| success := false; message := "Room does not exist." |})
  | Some (a, room) =>
      if Z.geb (Map.size (players room)) (MAX_PLAYERS env) then
        (st, {| success := false; message := "Room is full." |})
      else
        let room' :=
          with_players room
            (Map.set socket_id
               (newPlayer socket_id (JS.or_string playerName "Player"))
               (players room)) in
        (update a room' st,
         {| success := true; message := "Joined room successfully." |})
  end.

(** The body of the loop of [removePlayer] for one entry of [rooms]; the
    boolean tells that the loop is left ([break]). *)
Definition removeFrom (socketId : string) (entry : string * nat) (st : Store)
  : Store * bool :=
  let '(code, a) := entry in
  match deref st a with
  | None => (st, false)
  | Some room =>
      if Map.has socketId (players room) then
        let room1 := with_players room (Map.delete socketId (players room)) in
        let st1 := update a room1 st in
        if String.eqb (host room1) socketId then
          match Map.keys (players room1) with
          | nextPlayer :: _ =>
              if JS.truthy nextPlayer
              then (update a (with_host room1 nextPlayer) st1, false)
              else ({| heap := heap st1; rooms := Map.delete code (rooms st1) |},
                    true)
          | [] =>
              ({| heap := heap st1; rooms := Map.delete code (rooms st1) |},
               true)
          end
        else (st1, false)
      else (st, false)
  end.

Fixpoint removeLoop (socketId : string) (entries : list (string * nat))
    (st : Store) : Store :=
  match entries with
  | [] => st
  | entry :: more =>
      let '(st', stop) := removeFrom socketId entry st in
      if stop then st' else removeLoop socketId more st'
  end.

(** [removePlayer(socketId)]: the loop runs over the entries of [rooms] as
    they are when it starts (an entry is deleted only on the way out). *)
Definition removePlayer (socketId : string) (st : Store) : Store :=
  removeLoop socketId (rooms st) st.

(** [getRoomByPlayer(socketId)]: the first room, in the order of [rooms],
    that has the player. *)
Fixpoint findByPlayer (socketId : string) (entries : list (string * nat))
    (st : Store) : option Room :=
  match entries with
  | [] => None
  | (_, a) :: more =>
      match deref st a with
      | Some room =>
          if Map.has socketId (players room) then Some room
          else findByPlayer socketId more st
      | None => findByPlayer socketId more st
      end
  end.

Definition getRoomByPlayer (socketId : string) (st : Store) : option Room :=
  findByPlayer socketId (rooms st) st.

End RoomManager.

(* ===================================================================== *)
(** * imageGenerator.js: the image generation gateway *)
(* ===================================================================== *)

Module ImageGenerator.

Definition PLACEHOLDER : string :=
  "data:image/png;base64,iVBORw0KGgoAAAANSUhEUgAAAAEAAAABCAQAAAC1HAwCAAAAC0lEQVR4nGNgYAAAAAMAASsJTYQAAAAASUVORK5CYII=".

(** How a call of [openai.images.generate] ends: it resolves with a
    response, whose first [url] may be missing, or it throws (an error of
    the service, or the abort after [IMAGE_GENERATION_TIMEOUT]). The
    embedding keeps both ways of ending and lets a call end in the turn in
    which it is made or in a later one; on the client that
    imageGenerator.js builds the call throws at once (see [inTurn]). *)
Inductive ApiOutcome : Type :=
| Resolved (url : option string)
| Failed.

(** [generateOriginalImage(category)]; [api] is [None] when no client is
    configured. The result is the pair [(prompt, image)]; the function
    never throws. *)
Definition generateOriginalImage (category : string) (api : option ApiOutcome)
  : string * option string :=
  let prompt :=
    "A detailed " ++ category ++ " scene generated for a prompt battle game." in
  match api with
  | None => (prompt, Some PLACEHOLDER)
  | Some (Resolved url) => (prompt, url)
  | Some Failed => (prompt, Some PLACEHOLDER)
  end.

(** [generateImageFromPrompt(prompt)]: the [image] of the result; the
    function never throws. *)
Definition generateImageFromPrompt (prompt : string) (api : option ApiOutcome)
  : option string :=
  match api with
  | None => Some PLACEHOLDER
  | Some (Resolved url) => url
  | Some Failed => Some PLACEHOLDER
  end.

End ImageGenerator.

(* ===================================================================== *)
(** * gameLogic.js: the submission gate and the round orchestrator *)
(* ===================================================================== *)

Module GameLogic.

(** ** Code that mutates one room object and may throw *)

Definition M (A : Type) : Type := Room -> Room * (Exception + A).

Definition ret {A} (x : A) : M A := fun r => (r, inr x).
Definition throw {A} (e : Exception) : M A := fun r => (r, inl e).
Definition bind {A B} (m : M A) (k : A -> M B) : M B :=
  fun r => match m r with
           | (r', inl e) => (r', inl e)
           | (r', inr x) => k x r'
           end.
Definition get : M Room := fun r => (r, inr r).
Definition modify (f : Room -> Room) : M unit := fun r => (f r, inr tt).

Notation "x <- m ;; k" := (bind m (fun x => k))
  (at level 100, m at next level, right associativity).
Notation "m ;;; k" := (bind m (fun _ => k))
  (at level 100, k at level 200, right associativity).

(** What the callbacks registered with [setTimeout] do when they run:
    [delay(ms)] resumes the activation of [startGame] that awaits it; the
    callback of [waitForPrompts] looks at the room it closed over. *)
Inductive Callback : Type :=
| ResumeTask (task : nat)
| PromptTimeout (room : nat).

(** How an awaited promise settles. *)
Inductive Settled (A : Type) : Type :=
| Fulfilled (v : A)
| Rejected (e : Exception).
Arguments Fulfilled {A} v.
Arguments Rejected {A} e.

(** Where an activation of [startGame] is suspended, with the local
    variables that are live there ([round], [category], [originalPrompt],
    [playerIds], the ids the image loop has still to visit, the id whose
    image is awaited and the prompt sent for it), or how it ended. *)
Inductive Await : Type :=
| AwaitOriginal (round : Z) (category : string)
| AwaitView (round : Z) (originalPrompt : string)
| AwaitPrompts (round : Z) (originalPrompt : string)
| AwaitImage (round : Z) (originalPrompt : string)
    (playerIds rest : list string) (playerId prompt : string)
| AwaitPause (round : Z)
| Finished
| Threw (e : Exception).

(** The suspension reached and the timers set on the way, as
    [(milliseconds, callback)]. *)
Definition Step : Type := Await * list (Z * Callback).

(** ** Reading and writing [room.roundData] *)

Definition cannotRead (key : string) : Exception :=
  TypeError ("Cannot read properties of undefined (reading '" ++ key ++ "')").
Definition cannotSet (key : string) : Exception :=
  TypeError ("Cannot set properties of undefined (setting '" ++ key ++ "')").

Definition with_prompts (d : RoundData) (x : gmap string string) : RoundData :=
  {| originalPrompt := originalPrompt d; originalImage := originalImage d;
     prompts := Some x; images := images d; scores := scores d |}.
Definition with_images (d : RoundData) (x : gmap string (option string)) : RoundData :=
  {| originalPrompt := originalPrompt d; originalImage := originalImage d;
     prompts := prompts d; images := Some x; scores := scores d |}.
Definition with_scores (d : RoundData) (x : gmap string Z) : RoundData :=
  {| originalPrompt := originalPrompt d; originalImage := originalImage d;
     prompts := prompts d; images := images d; scores := Some x |}.
Definition with_original (d : RoundData) (p : string) (i : option string) : RoundData :=
  {| originalPrompt := Some p; originalImage := i;
     prompts := prompts d; images := images d; scores := scores d |}.

(** [room.roundData.prompts[id]] *)
Definition readPrompt (id : string) : M (option string) :=
  fun r => match prompts (roundData r) with
           | Some ps => (r, inr (ps !! id))
           | None => (r, inl (cannotRead id))
           end.

(** [room.roundData.prompts[id] = prompt] *)
Definition writePrompt (id prompt : string) : M unit :=
  fun r => match prompts (roundData r) with
           | Some ps =>
               (with_roundData r (with_prompts (roundData r) (<[id := prompt]> ps)),
                inr tt)
           | None => (r, inl (cannotSet id))
           end.

(** [room.roundData.images[id] = image] *)
Definition writeImage (id : string) (image : option string) : M unit :=
  fun r => match images (roundData r) with
           | Some im =>
               (with_roundData r (with_images (roundData r) (<[id := image]> im)),
                inr tt)
           | None => (r, inl (cannotSet id))
           end.

(** [room.roundData.scores[id] = similarity] *)
Definition writeScore (id : string) (similarity : Z) : M unit :=
  fun r => match scores (roundData r) with
           | Some sc =>
               (with_roundData r (with_scores (roundData r) (<[id := similarity]> sc)),
                inr tt)
           | None => (r, inl (cannotSet id))
           end.

(** [room.roundData.scores[id]]; the loop before the only use has written
    an entry for the id, so that the value is never [undefined] there. *)
Definition readScore (id : string) : M Z :=
  fun r => match scores (roundData r) with
           | Some sc => (r, inr (default 0 (sc !! id)))
           | None => (r, inl (cannotRead id))
           end.

(** ** The submission gate *)

(** [Array.from(room.players.keys()).every((id) => room.roundData.prompts[id])] *)
Definition allSubmitted (r : Room) (ps : gmap string string) : bool :=
  forallb (fun id => JS.truthy_opt (ps !! id)) (Map.keys (players r)).

(** [handlePromptSubmission(room, socketId, prompt)] for a room object (the
    guard [!room || !room.roundData] never holds for one: [roundData] is
    always an object). The value is the resolver that was called, if any. *)
Definition handlePromptSubmission (socketId prompt : string) : M (option Resolver) :=
  writePrompt socketId prompt ;;;
  r <- get ;;
  match _resolvePromptPromise r with
  | Some resolve =>
      if allSubmitted r (default ∅ (prompts (roundData r))) then
        modify (fun r => with_resolver r None) ;;;
        ret (Some resolve)
      else ret None
  | None => ret None
  end.

(** [getWriteDuration(difficulty)], in milliseconds. *)
Definition getWriteDuration (difficulty : string) : Z :=
  if String.eqb difficulty "easy" then 5 * 60 * 1000
  else if String.eqb difficulty "medium" then 3 * 60 * 1000
  else if String.eqb difficulty "hard" then 2 * 60 * 1000
  else if String.eqb difficulty "extreme" then 1 * 60 * 1000
  else 3 * 60 * 1000.

(** [waitForPrompts(room, io, ms)], called by activation [task] in round
    [round] on the room at address [a]: the resolver is saved on the room
    and the timer is set. *)
Definition waitForPrompts (task : nat) (a : nat) (round : Z) (ms : Z)
  : M (list (Z * Callback)) :=
  modify (fun r => with_resolver r (Some {| res_task := task; res_round := round |})) ;;;
  ret [(ms, PromptTimeout a)].

(** The callback of the timer of [waitForPrompts]. The value is the
    resolver that was called, if any. *)
Definition promptTimeout : M (option Resolver) :=
  r <- get ;;
  match _resolvePromptPromise r with
  | Some resolve =>
      modify (fun r => with_resolver r None) ;;;
      ret (Some resolve)
  | None => ret None
  end.

(** ** [startGame], cut at its [await]s *)

Definition freshRoundData : RoundData :=
  {| originalPrompt := None; originalImage := None;
     prompts := Some ∅; images := Some ∅; scores := Some ∅ |}.

(** [list[Math.floor(Math.random() * list.length)]]; [draw] stands for the
    random number. An element that does not exist reads [undefined], which
    the prompt template prints as such. *)
Definition pick (l : list string) (draw : nat) : string :=
  default "undefined" (l !! (draw mod length l)%nat).

(** Lines 54-60: the category of the round. *)
Definition chooseCategory (env : Env) (categories : list string) (draw : nat) : string :=
  if (Nat.eqb (length categories) 0
      || existsb (String.eqb "random") categories)%bool
  then pick (CATEGORIES env) draw
  else pick categories draw.

(** Lines 66-72: the original is stored and shown; [delay(10000)]. *)
Definition showOriginal (task : nat) (round : Z) (original : string * option string)
  : M Step :=
  let '(originalPrompt, originalImage) := original in
  modify (fun r => with_roundData r
                     (with_original (roundData r) originalPrompt originalImage)) ;;;
  ret (AwaitView round originalPrompt, [(10000, ResumeTask task)]).

(** Lines 38-65: the round is set up and the original is requested. Without
    a client the gateway answers at once and the activation runs on to the
    view delay. *)
Definition beginRound (env : Env) (task : nat) (round : Z) (draw : nat) : M Step :=
  modify (fun r => with_currentRound r round) ;;;
  modify (fun r => with_roundData r freshRoundData) ;;;
  modify (fun r => with_state r SHOWING_IMAGE) ;;;
  r <- get ;;
  let category := chooseCategory env (categories (config r)) draw in
  if openai env then ret (AwaitOriginal round category, [])
  else showOriginal task round (ImageGenerator.generateOriginalImage category None).

(** Lines 142-148: game over. *)
Definition gameOver : M Step :=
  modify (fun r => with_state r GAME_OVER) ;;;
  ret (Finished, []).

(** The head of the [for] loop, line 37, entered with [round]. *)
Definition roundsFrom (env : Env) (task : nat) (round : Z) (draw : nat) : M Step :=
  r <- get ;;
  if Z.leb round (rounds (config r)) then beginRound env task round draw
  else gameOver.

(** [startGame(room, io)] up to its first suspension. The outer result is
    the exception of line 31 when there is no room. *)
Definition startGame (env : Env) (task : nat) (draw : nat) (room : option Room)
  : Exception + Room * (Exception + Step) :=
  match room with
  | None => inl (Error "Cannot start game: room is undefined")
  | Some room =>
      inr ((modify (fun r => with_state r STARTING) ;;;
            roundsFrom env task 1 draw) room)
  end.

(** Lines 77-84, after the view delay: the writing phase opens the gate. *)
Definition writingPhase (task a : nat) (round : Z) (originalPrompt : string) : M Step :=
  modify (fun r => with_state r WRITING_PROMPT) ;;;
  r <- get ;;
  let writeDuration := getWriteDuration (difficulty (config r)) in
  timers <- waitForPrompts task a round writeDuration ;;
  ret (AwaitPrompts round originalPrompt, timers).

(** Lines 96-102: the [try]/[catch] around the gateway call, given how the
    awaited promise settled. *)
Definition storeImage (playerId : string) (settled : Settled (option string)) : M unit :=
  match settled with
  | Fulfilled image => writeImage playerId image
  | Rejected _ => writeImage playerId None
  end.

(** Lines 122-126: the similarity scores of the round. *)
Fixpoint scoreLoop (originalPrompt : string) (playerIds : list string) : M unit :=
  match playerIds with
  | [] => ret tt
  | playerId :: more =>
      prompt <- readPrompt playerId ;;
      let similarity :=
        if JS.truthy_opt prompt
        then Scoring.calculateSimilarity (Some originalPrompt) prompt
        else 0 in
      writeScore playerId similarity ;;;
      scoreLoop originalPrompt more
  end.

(** Lines 128-132: the round scores are added to the players' totals.
    [room.players.get(playerId)] is [undefined] for a player who has left,
    and reading [score] of it throws. *)
Fixpoint accumulateLoop (playerIds : list string) : M unit :=
  match playerIds with
  | [] => ret tt
  | playerId :: more =>
      r <- get ;;
      let player := Map.get playerId (players r) in
      roundScore <- readScore playerId ;;
      match player with
      | None => throw (cannotRead "score")
      | Some p =>
          modify (fun r => with_players r
                             (Map.set playerId (add_score roundScore p) (players r))) ;;;
          accumulateLoop more
      end
  end.

(** Lines 133-136: [totalScores] of the [round-results] message reads the
    score of every id of [playerIds] again. *)
Fixpoint totalScores (playerIds : list string) : M (list (string * Z)) :=
  match playerIds with
  | [] => ret []
  | id :: more =>
      r <- get ;;
      match Map.get id (players r) with
      | None => throw (cannotRead "score")
      | Some p =>
          rest <- totalScores more ;;
          ret ((id, p_score p) :: rest)
      end
  end.

(** Lines 110-139: voting, accumulation, results; [delay(5000)]. *)
Definition votingPhase (task : nat) (round : Z) (originalPrompt : string)
    (playerIds : list string) : M Step :=
  modify (fun r => with_state r VOTING) ;;;
  scoreLoop originalPrompt playerIds ;;;
  accumulateLoop playerIds ;;;
  _ <- totalScores playerIds ;;
  ret (AwaitPause round, [(5000, ResumeTask task)]).

(** Lines 92-106: the image loop, entered with the ids still to visit.
    With a client the activation is suspended on the gateway call of the
    first id that has a prompt; without one the gateway answers at once. *)
Fixpoint imagesFrom (env : Env) (task : nat) (round : Z) (originalPrompt : string)
    (playerIds rest : list string) : M Step :=
  match rest with
  | [] => votingPhase task round originalPrompt playerIds
  | playerId :: more =>
      prompt <- readPrompt playerId ;;
      match prompt with
      | Some prompt =>
          if JS.truthy prompt then
            if openai env then
              ret (AwaitImage round originalPrompt playerIds more playerId prompt, [])
            else
              storeImage playerId
                (Fulfilled (ImageGenerator.generateImageFromPrompt prompt None)) ;;;
              imagesFrom env task round originalPrompt playerIds more
          else
            writeImage playerId None ;;;
            imagesFrom env task round originalPrompt playerIds more
      | None =>
          writeImage playerId None ;;;
          imagesFrom env task round originalPrompt playerIds more
      end
  end.

(** Lines 88-91, after the gate has resolved: the ids are snapshotted and
    the image loop starts. *)
Definition afterPrompts (env : Env) (task : nat) (round : Z) (originalPrompt : string)
  : M Step :=
  modify (fun r => with_state r GENERATING_IMAGES) ;;;
  r <- get ;;
  let playerIds := Map.keys (players r) in
  imagesFrom env task round originalPrompt playerIds playerIds.

(** After the gateway call of line 97 has settled. *)
Definition afterImage (env : Env) (task : nat) (round : Z) (originalPrompt : string)
    (playerIds rest : list string) (playerId : string)
    (settled : Settled (option string)) : M Step :=
  storeImage playerId settled ;;;
  imagesFrom env task round originalPrompt playerIds rest.

(** After [delay(5000)]: [round++] and the head of the loop. *)
Definition afterPause (env : Env) (task : nat) (round : Z) (draw : nat) : M Step :=
  roundsFrom env task (round + 1) draw.

End GameLogic.

(* ===================================================================== *)
(** * index.js: the socket handlers, on the event loop *)
(* ===================================================================== *)

Module Server.
Import GameLogic.

Record Timer : Type := {
  tm_id : nat;
  tm_due : Z;
  tm_cb : Callback
}.

(** An activation of [startGame]: its room object, the socket whose
    [start-game] request awaits it, and where it stands. *)
Record Task : Type := {
  t_room : nat;
  t_socket : string;
  t_at : Await
}.

Inductive Request : Type := CreateRoomReq | JoinRoomReq | StartGameReq | SubmitPromptReq.

(** What a handler passes to the acknowledgement callback of a request. *)
Record Reply : Type := {
  r_socket : string;
  r_request : Request;
  r_success : bool;
  r_message : option string;
  r_roomCode : option string
}.

Record State : Type := {
  store : Store;
  tasks : list Task;
  timers : list Timer;
  nextTimer : nat;
  now : Z;
  replies : list Reply
}.

Definition initial : State :=
  {| store := {| heap := []; rooms := [] |};
     tasks := []; timers := []; nextTimer := 0; now := 0; replies := [] |}.

Definition with_store (s : State) (st : Store) : State :=
  {| store := st; tasks := tasks s; timers := timers s;
     nextTimer := nextTimer s; now := now s; replies := replies s |}.

Definition with_tasks (s : State) (ts : list Task) : State :=
  {| store := store s; tasks := ts; timers := timers s;
     nextTimer := nextTimer s; now := now s; replies := replies s |}.

Definition with_timers (s : State) (tm : list Timer) : State :=
  {| store := store s; tasks := tasks s; timers := tm;
     nextTimer := nextTimer s; now := now s; replies := replies s |}.

Definition with_now (s : State) (t : Z) : State :=
  {| store := store s; tasks := tasks s; timers := timers s;
     nextTimer := nextTimer s; now := t; replies := replies s |}.

(** [callback({ success, ... })] *)
Definition reply (socket : string) (req : Request) (ok : bool)
    (msg code : option string) (s : State) : State :=
  {| store := store s; tasks := tasks s; timers := timers s;
     nextTimer := nextTimer s; now := now s;
     replies := replies s ++
       [{| r_socket := socket; r_request := req; r_success := ok;
           r_message := msg; r_roomCode := code |}] |}.

(** [setTimeout(callback, ms)] *)
Definition setTimeout (s : State) (timer : Z * Callback) : State :=
  {| store := store s; tasks := tasks s;
     timers := timers s ++
       [{| tm_id := nextTimer s; tm_due := now s + fst timer; tm_cb := snd timer |}];
     nextTimer := S (nextTimer s); now := now s; replies := replies s |}.

(** ** Running an activation of [startGame] to its next suspension *)

(** The outcome of a stretch of [startGame] is put back: the room object
    as the stretch left it, the timers it set, and the place where the
    activation now stands. When the activation has ended, the [start-game]
    handler that awaited it answers the request: [{ success: true }] after
    [startGame] has returned, [{ success: false, message }] from its
    [catch] when [startGame] has thrown. *)
Definition settle (task : nat) (a : nat) (socket : string)
    (out : Room * (Exception + Step)) (s : State) : State :=
  let '(room, res) := out in
  let s := with_store s (update a room (store s)) in
  let '(at_, armed) :=
    match res with
    | inr step => step
    | inl e => (Threw e, [])
    end in
  let s := foldl setTimeout s armed in
  let s := with_tasks s (<[task := {| t_room := a; t_socket := socket; t_at := at_ |}]> (tasks s)) in
  match at_ with
  | Finished => reply socket StartGameReq true None None s
  | Threw e => reply socket StartGameReq false (Some (message_of e)) None s
  | _ => s
  end.

(** An activation is resumed with the stretch [k] of [startGame] that
    follows its suspension. *)
Definition resume (task : nat) (k : nat -> Await -> option (M Step)) (s : State) : State :=
  match tasks s !! task with
  | Some t =>
      match k (t_room t) (t_at t), deref (store s) (t_room t) with
      | Some m, Some room => settle task (t_room t) (t_socket t) (m room) s
      | _, _ => s
      end
  | None => s
  end.

(** Calling a resolver fulfils the promise of [waitForPrompts]; the
    activation that awaits it goes on after the current handler has
    returned. *)
Definition resolvePromise (env : Env) (f : Resolver) (s : State) : State :=
  resume (res_task f)
    (fun _ at_ =>
       match at_ with
       | AwaitPrompts round originalPrompt =>
           if Z.eqb round (res_round f)
           then Some (afterPrompts env (res_task f) round originalPrompt)
           else None
       | _ => None
       end) s.

(** ** The handlers *)

(** [socket.on('create-room', ...)]. While the code loop of [createRoom]
    has not ended nothing has happened yet. *)
Definition onCreateRoom (socket : string) (config : option ClientConfig)
    (attempts : list (list nat)) (s : State) : State :=
  match RoomManager.createRoom config socket attempts (store s) with
  | None => s
  | Some (st, inr roomCode) =>
      reply socket CreateRoomReq true None (Some roomCode) (with_store s st)
  | Some (st, inl e) =>
      reply socket CreateRoomReq false (Some (message_of e)) None (with_store s st)
  end.

(** [socket.on('join-room', ...)] *)
Definition onJoinRoom (env : Env) (socket roomCode : string)
    (playerName : option string) (s : State) : State :=
  let '(st, res) := RoomManager.joinRoom env roomCode socket playerName (store s) in
  reply socket JoinRoomReq (RoomManager.success res)
        (Some (RoomManager.message res)) None (with_store s st).

(** [socket.on('start-game', ...)]: the room is looked up and [startGame]
    is called on it; the answer is given when [startGame] has ended (see
    [settle]) or at once when there is no room. *)
Definition onStartGame (env : Env) (socket roomCode : string) (draw : nat)
    (s : State) : State :=
  match RoomManager.lookupRoom roomCode (store s) with
  | None => reply socket StartGameReq false (Some "Room not found") None s
  | Some (a, room) =>
      let task := length (tasks s) in
      match startGame env task draw (Some room) with
      | inl e => reply socket StartGameReq false (Some (message_of e)) None s
      | inr out =>
          let s := with_tasks s (tasks s ++
                     [{| t_room := a; t_socket := socket; t_at := Finished |}]) in
          settle task a socket out s
      end
  end.

(** [socket.on('submit-prompt', ...)] *)
Definition onSubmitPrompt (env : Env) (socket roomCode prompt : string)
    (s : State) : State :=
  match RoomManager.lookupRoom roomCode (store s) with
  | None => reply socket SubmitPromptReq false (Some "Room not found") None s
  | Some (a, room) =>
      match handlePromptSubmission socket prompt room with
      | (room', inl e) =>
          reply socket SubmitPromptReq false (Some (message_of e)) None
                (with_store s (update a room' (store s)))
      | (room', inr resolved) =>
          let s := with_store s (update a room' (store s)) in
          let s := reply socket SubmitPromptReq true None None s in
          match resolved with
          | Some f => resolvePromise env f s
          | None => s
          end
      end
  end.

(** [socket.on('disconnect', ...)] *)
Definition onDisconnect (socket : string) (s : State) : State :=
  with_store s (RoomManager.removePlayer socket (store s)).

(** A timer fires: it leaves the list of pending timers and its callback
    runs. *)
Definition onTimer (env : Env) (id : nat) (draw : nat) (s : State) : State :=
  match List.find (fun tm => Nat.eqb (tm_id tm) id) (timers s) with
  | None => s
  | Some tm =>
      let s := with_timers s
                 (List.filter (fun tm => negb (Nat.eqb (tm_id tm) id)) (timers s)) in
      match tm_cb tm with
      | ResumeTask task =>
          resume task
            (fun a at_ =>
               match at_ with
               | AwaitView round originalPrompt =>
                   Some (writingPhase task a round originalPrompt)
               | AwaitPause round => Some (afterPause env task round draw)
               | _ => None
               end) s
      | PromptTimeout a =>
          match deref (store s) a with
          | None => s
          | Some room =>
              match promptTimeout room with
              | (room', inr (Some f)) =>
                  resolvePromise env f (with_store s (update a room' (store s)))
              | (room', _) => with_store s (update a room' (store s))
              end
          end
      end
  end.

(** The gateway call of line 65 has settled. *)
Definition onOriginalReady (task : nat) (api : ImageGenerator.ApiOutcome)
    (s : State) : State :=
  resume task
    (fun _ at_ =>
       match at_ with
       | AwaitOriginal round category =>
           Some (showOriginal task round
                   (ImageGenerator.generateOriginalImage category (Some api)))
       | _ => None
       end) s.

(** The gateway call of line 97 has settled. *)
Definition onImageReady (env : Env) (task : nat) (api : ImageGenerator.ApiOutcome)
    (s : State) : State :=
  resume task
    (fun _ at_ =>
       match at_ with
       | AwaitImage round originalPrompt playerIds rest playerId prompt =>
           Some (afterImage env task round originalPrompt playerIds rest playerId
                   (Fulfilled (ImageGenerator.generateImageFromPrompt prompt (Some api))))
       | _ => None
       end) s.

(** ** The event loop *)

(** What the event loop hands to the server: a message of a client, the
    disconnection of a client, a timer that is due, or the end of a call
    to the image service. [attempts] and [draw] stand for the values of
    [Math.random] that the handler consumes. *)
Inductive Event : Type :=
| CreateRoom (socket : string) (config : option ClientConfig) (attempts : list (list nat))
| JoinRoom (socket roomCode : string) (playerName : option string)
| StartGame (socket roomCode : string) (draw : nat)
| SubmitPrompt (socket roomCode prompt : string)
| Disconnect (socket : string)
| TimerFires (id : nat) (draw : nat)
| OriginalReady (task : nat) (api : ImageGenerator.ApiOutcome)
| ImageReady (task : nat) (api : ImageGenerator.ApiOutcome).

Definition handle (env : Env) (e : Event) (s : State) : State :=
  match e with
  | CreateRoom socket config attempts => onCreateRoom socket config attempts s
  | JoinRoom socket roomCode playerName => onJoinRoom env socket roomCode playerName s
  | StartGame socket roomCode draw => onStartGame env socket roomCode draw s
  | SubmitPrompt socket roomCode prompt => onSubmitPrompt env socket roomCode prompt s
  | Disconnect socket => onDisconnect socket s
  | TimerFires id draw => onTimer env id draw s
  | OriginalReady task api => onOriginalReady task api s
  | ImageReady task api => onImageReady env task api s
  end.

(** One turn of the event loop at time [t] (milliseconds). *)
Definition deliver (env : Env) (te : Z * Event) (s : State) : State :=
  handle env (snd te) (with_now s (fst te)).

(** A schedule: the events of a run with the times at which they are
    handled. *)
Definition run (env : Env) (schedule : list (Z * Event)) (s : State) : State :=
  foldl (fun s te => deliver env te s) s schedule.

(** ** Schedules that respect the clock

    Time does not go back; a timer fires at the time it is due, and not
    before a timer that is due earlier (or equally early and set earlier);
    no other event is handled while a timer is overdue. *)
Definition timely (te : Z * Event) (s : State) : bool :=
  let '(t, e) := te in
  Z.leb (now s) t &&
  match e with
  | TimerFires id _ =>
      match List.find (fun tm => Nat.eqb (tm_id tm) id) (timers s) with
      | None => false
      | Some tm =>
          Z.eqb t (tm_due tm) &&
          forallb (fun tm' =>
                     Z.ltb (tm_due tm) (tm_due tm')
                     || (Z.eqb (tm_due tm) (tm_due tm') && Nat.leb (tm_id tm) (tm_id tm')))
                  (timers s)
      end
  | _ => forallb (fun tm => Z.leb t (tm_due tm)) (timers s)
  end.

Fixpoint feasible (env : Env) (schedule : list (Z * Event)) (s : State) : bool :=
  match schedule with
  | [] => true
  | te :: more => timely te s && feasible env more (deliver env te s)
  end.

End Server.

(* ===================================================================== *)
(** * Predicates used in the statements *)
(* ===================================================================== *)

(** A room as the registry keeps it: the keys of [players] are distinct
    (it is a [Map]) and non-empty (they are socket ids), and the host is
    one of them. *)
Definition hostIsMember (r : Room) : Prop :=
  In (host r) (Map.keys (players r)).

Definition wfRoom (r : Room) : Prop :=
  List.NoDup (Map.keys (players r))
  /\ Forall (fun id => id <> EmptyString) (Map.keys (players r))
  /\ hostIsMember r.

(** The registry: codes and room objects are distinct, every entry leads
    to a well-formed room object that carries the code of the entry. *)
Definition wfStore (st : Store) : Prop :=
  List.NoDup (Map.keys (rooms st))
  /\ List.NoDup (Map.values (rooms st))
  /\ forall c a, In (c, a) (rooms st) ->
       exists r, deref st a = Some r /\ code r = c /\ wfRoom r.

(** The ids of the players of a room, in the order of the [Map]. *)
Definition members (r : Room) : list string := Map.keys (players r).

(** The members of a room other than [socketId], in the same order. *)
Definition othersThan (socketId : string) (r : Room) : list string :=
  List.filter (fun id => negb (String.eqb socketId id)) (members r).


(** What the game loop leaves alone in a room object between two
    suspensions, except when it adds the round scores: the code, the host,
    the configuration and the players. *)
Definition quiet (r r' : Room) : Prop :=
  code r' = code r /\ host r' = host r /\ config r' = config r
  /\ players r' = players r.

(** A round score: 0 for a player without a prompt, otherwise the
    similarity of a prompt to an original prompt. *)
Definition roundScore (d : Z) : Prop :=
  d = 0 \/ exists original prompt : string,
             d = Scoring.calculateSimilarity (Some original) (Some prompt).

(** From [r] to [r'] the members are the same and the score of each
    player has grown by nothing or by one round score. *)
Definition scored (r r' : Room) : Prop :=
  code r' = code r /\ host r' = host r /\ config r' = config r
  /\ members r' = members r
  /\ forall id p', Map.get id (players r') = Some p' ->
       exists p d, Map.get id (players r) = Some p
                   /\ p' = add_score d p /\ roundScore d.

(** The code [m], run on a room object, relates the object before to the
    object after by [P], however it ends. *)
Definition keeps {A} (P : Room -> Room -> Prop) (m : GameLogic.M A) : Prop :=
  forall r r' res, m r = (r', res) -> P r r'.

(** The score that the scoring loop gives to a player whose stored prompt
    is [prompt] in a round whose original prompt is [originalPrompt]. *)
Definition scoreOf (originalPrompt : string) (prompt : option string) : Z :=
  if JS.truthy_opt prompt
  then Scoring.calculateSimilarity (Some originalPrompt) prompt
  else 0.

(** The entries of [scores] for the ids of a list are round scores. *)
Definition goodScores (ids : list string) (r : Room) : Prop :=
  forall sc id, scores (roundData r) = Some sc -> In id ids ->
                roundScore (default 0 (sc !! id)).

(** The ids that the image loop has snapshotted are distinct. *)
Definition awaitsDistinct (at_ : GameLogic.Await) : Prop :=
  match at_ with
  | GameLogic.AwaitImage _ _ playerIds _ _ _ => List.NoDup playerIds
  | _ => True
  end.

(** A Number that is not a negative finite one. *)
Definition notNegative (x : JS.number) : Prop :=
  match x with
  | S754_finite true _ _ => False
  | _ => True
  end.

(** A room object has distinct player ids (its [players] is a [Map]) and
    no negative score. *)
Definition roomInv (r : Room) : Prop :=
  List.NoDup (members r)
  /\ forall id p, Map.get id (players r) = Some p -> 0 <= p_score p.

(** The invariant of the server on which the statements about scores
    rest. *)
Definition Inv (s : Server.State) : Prop :=
  (forall a r, deref (Server.store s) a = Some r -> roomInv r)
  /\ (forall t, In t (Server.tasks s) -> awaitsDistinct (Server.t_at t)).

(** A stretch of the game loop, run on a room: it leaves the room as
    [scored] says, and suspends with distinct ids. *)
Definition stretchOK (m : GameLogic.M GameLogic.Step) (room : Room) : Prop :=
  forall room' res,
    m room = (room', res) ->
    scored room room'
    /\ forall step, res = inr step -> awaitsDistinct (fst step).

(** From [st] to [st'] the registry is the same and every room object has
    moved as [P] says. *)
Definition storeStep (P : Room -> Room -> Prop) (st st' : Store) : Prop :=
  rooms st' = rooms st
  /\ length (heap st') = length (heap st)
  /\ forall a r, deref st a = Some r ->
       exists r', deref st' a = Some r' /\ P r r'.

(** How one event changes a room object: the game loop has run a stretch
    on it (or nothing has happened to it), or a socket has joined it, or
    a socket has left it. *)
Inductive evolves (e : Server.Event) (r r' : Room) : Prop :=
| evolves_game :
    scored r r' -> evolves e r r'
| evolves_join socket roomCode playerName :
    e = Server.JoinRoom socket roomCode playerName ->
    players r' = Map.set socket
                   (RoomManager.newPlayer socket (JS.or_string playerName "Player"))
                   (players r) ->
    evolves e r r'
| evolves_leave socket :
    e = Server.Disconnect socket ->
    players r' = Map.delete socket (players r) ->
    evolves e r r'.

(** Where [settle] leaves the activation. *)
Definition settledAt (res : Exception + GameLogic.Step) : GameLogic.Await :=
  match res with
  | inr step => fst step
  | inl e => GameLogic.Threw e
  end.

(** [r'] is [r] after the socket has left it, or [r] itself. *)
Definition leftBy (socketId : string) (r r' : Room) : Prop :=
  r' = r \/ players r' = Map.delete socketId (players r).

(** The socket id of a connection is never the empty string. *)
Definition validEvent (e : Server.Event) : Prop :=
  match e with
  | Server.CreateRoom socket _ _ => socket <> EmptyString
  | Server.JoinRoom socket _ _ => socket <> EmptyString
  | _ => True
  end.

Definition validSchedule (schedule : list (Z * Server.Event)) : Prop :=
  Forall (fun te => validEvent (snd te)) schedule.

(** The answer that the [start-game] handler gives to [socket] when the
    activation of [startGame] it awaits stands at [at_]: none while the
    activation is suspended, [{ success: true }] when it has returned,
    [{ success: false, message }] when it has thrown. *)
Definition answer (socket : string) (at_ : GameLogic.Await) : list Server.Reply :=
  match at_ with
  | GameLogic.Finished =>
      [{| Server.r_socket := socket; Server.r_request := Server.StartGameReq;
          Server.r_success := true; Server.r_message := None;
          Server.r_roomCode := None |}]
  | GameLogic.Threw e =>
      [{| Server.r_socket := socket; Server.r_request := Server.StartGameReq;
          Server.r_success := false; Server.r_message := Some (message_of e);
          Server.r_roomCode := None |}]
  | _ => []
  end.

(** [r] with [image] stored for [id] in [roundData.images]. *)
Definition withImage (id : string) (image : option string) (r : Room) : Room :=
  match images (roundData r) with
  | Some im =>
      with_roundData r (GameLogic.with_images (roundData r) (<[id := image]> im))
  | None => r
  end.

(** The image that the orchestrator stores when the awaited gateway call
    has settled. *)
Definition imageOf (settled : GameLogic.Settled (option string)) : option string :=
  match settled with
  | GameLogic.Fulfilled image => image
  | GameLogic.Rejected _ => None
  end.

(** A mantissa with its round bit and its sticky bit, as the rounding of
    [SpecFloat] carries them, locates the non-negative fraction [N / D]:
    the mantissa and the round bit are the integer part of [2 N / D], the
    sticky bit tells whether anything is left. *)
Definition located (N D : Z) (mrs : shr_record) : Prop :=
  0 <= shr_m mrs
  /\ exists t, 2 * N = (2 * shr_m mrs + Z.b2z (shr_r mrs)) * D + t
               /\ 0 <= t < D
               /\ (shr_s mrs = true <-> t <> 0).

(** What one turn of the loop of [removePlayer] does to a well-formed
    registry, for an entry of it. *)
Inductive turn (socketId : string) (c : string) (a : nat) (r : Room) (st : Store)
  : Store * bool -> Prop :=
| turn_absent :
    ~ In socketId (members r) ->
    turn socketId c a r st (st, false)
| turn_member :
    In socketId (members r) -> host r <> socketId ->
    turn socketId c a r st
      (update a (with_players r (Map.delete socketId (players r))) st, false)
| turn_promote next more :
    In socketId (members r) -> host r = socketId ->
    othersThan socketId r = next :: more ->
    turn socketId c a r st
      (update a (with_host (with_players r (Map.delete socketId (players r))) next) st,
       false)
| turn_close :
    In socketId (members r) -> host r = socketId ->
    othersThan socketId r = [] ->
    turn socketId c a r st
      ({| heap := heap (update a (with_players r (Map.delete socketId (players r))) st);
          rooms := Map.delete c (rooms st) |}, true).

(** ** The loop of [removePlayer] *)




(** ** The answers to [start-game] *)

(** An activation of [startGame] has ended: it has returned or thrown. *)
Definition ended (at_ : GameLogic.Await) : bool :=
  match at_ with
  | GameLogic.Finished | GameLogic.Threw _ => true
  | _ => false
  end.

(** The activation [task] ends in the turn that leads from [s] to [s']:
    it has ended in [s'], as [t'], and in [s] it was suspended or not yet
    started. *)
Definition endsInTurn (s s' : Server.State) (task : nat) (t' : Server.Task) : Prop :=
  Server.tasks s' !! task = Some t'
  /\ ended (Server.t_at t') = true
  /\ match Server.tasks s !! task with
     | Some t => ended (Server.t_at t) = false
     | None => True
     end.

Definition isStartGameReply (rep : Server.Reply) : bool :=
  match Server.r_request rep with
  | Server.StartGameReq => true
  | _ => false
  end.

(** The answer of the [start-game] handler when there is no room. *)
Definition roomNotFound (socket : string) : Server.Reply :=
  {| Server.r_socket := socket; Server.r_request := Server.StartGameReq;
     Server.r_success := false; Server.r_message := Some "Room not found";
     Server.r_roomCode := None |}.

(** What the turn of event [e], from [s] to [s'], answers to [start-game]
    requests. The replies of the turn are added at the end. Such a reply
    is the rejection of the request [e] itself, which names no live room
    and starts no activation, or it is the answer to the request whose
    activation ends in this turn; every activation that ends in this turn
    is answered in it; the turn gives one such answer at most; and an
    activation keeps its room and its socket, and stays as it is once it
    has ended. *)
Definition answersAtEnd (e : Server.Event) (s s' : Server.State) : Prop :=
  exists more,
    Server.replies s' = (Server.replies s ++ more)%list
    /\ (forall rep,
          In rep more -> Server.r_request rep = Server.StartGameReq ->
          (exists roomCode draw,
              e = Server.StartGame (Server.r_socket rep) roomCode draw
              /\ RoomManager.lookupRoom roomCode (Server.store s) = None
              /\ rep = roomNotFound (Server.r_socket rep)
              /\ Server.tasks s' = Server.tasks s)
          \/ (exists task t',
                 endsInTurn s s' task t'
                 /\ answer (Server.t_socket t') (Server.t_at t') = [rep]))
    /\ (forall task t',
          endsInTurn s s' task t' ->
          exists rep, In rep more
                      /\ answer (Server.t_socket t') (Server.t_at t') = [rep])
    /\ (length (List.filter isStartGameReply more) <= 1)%nat
    /\ (forall task t,
          Server.tasks s !! task = Some t ->
          exists t', Server.tasks s' !! task = Some t'
                     /\ Server.t_socket t' = Server.t_socket t
                     /\ Server.t_room t' = Server.t_room t
                     /\ (ended (Server.t_at t) = true -> t' = t)).

(** ** The gateway within the turn

    imageGenerator.js builds its client with [new OpenAIApi(configuration)]
    and calls [openai.images.generate] on it. [Configuration] and
    [OpenAIApi] are the exports of version 3 of the openai package, whose
    client has no [images]: the expression throws inside the [try] of the
    gateway function, before any request is sent, and the function returns
    the placeholder (a package without these exports would stop the module
    at its first lines, when a key is set). The
    promise that [startGame] awaits is therefore settled when the gateway
    function returns, with or without a client, and the activation goes on
    before the event loop hands over the next message, disconnection or
    timer. In a schedule this reads: while an activation awaits the
    gateway, the next event is the end of such a call, at the same time. *)







(* ===================================================================== *)
(** * Concrete configurations used by the examples *)
(* ===================================================================== *)

Definition createRoom_defaults_cfg : ClientConfig :=
  {| cc_rounds := None; cc_difficulty := None; cc_categories := None;
     cc_mode := None; cc_playerName := None |}.

Definition rejoin_env : Env :=
  {| MAX_PLAYERS_PER_ROOM := None; CATEGORIES := ["animals"]; openai := false |}.

(** The room of code "ABCDEF" that "socket-1" has created. *)
Definition rejoin_store : Store :=
  {| heap := [ {| code := "ABCDEF"; host := "socket-1";
                  config := {| rounds := 3; difficulty := "medium";
                               categories := ["random"]; mode := "classic" |};
                  players := [("socket-1", RoomManager.newPlayer "socket-1" "Host")];
                  state := WAITING; currentRound := 0;
                  roundData := emptyObject;
                  _resolvePromptPromise := None |} ];
     rooms := [("ABCDEF", 0%nat)] |}.

(** A server without an OpenAI client, and one with a client. *)
Definition demo_env : Env :=
  {| MAX_PLAYERS_PER_ROOM := None; CATEGORIES := ["animals"; "space"]; openai := false |}.

Definition demo_env_openai : Env :=
  {| MAX_PLAYERS_PER_ROOM := None; CATEGORIES := ["animals"; "space"]; openai := true |}.

Definition demo_cfg (n : Z) : ClientConfig :=
  {| cc_rounds := Some n; cc_difficulty := Some "medium"; cc_categories := None;
     cc_mode := None; cc_playerName := Some "Ann" |}.

(** Ann ("s1") creates room "ABCDEF" for two rounds, Bob ("s2") joins, Ann
    starts the game; after the ten seconds of viewing the writing phase of
    round 1 opens (its deadline timer, number 1, is due at 191000); both
    submit within three seconds, so that the gate resolves at 13000, the
    round is scored and the pause before round 2 begins. *)
Definition round1_schedule : list (Z * Server.Event) :=
  [ (0, Server.CreateRoom "s1" (Some (demo_cfg 2)) [[0; 1; 2; 3; 4; 5]%nat]);
    (100, Server.JoinRoom "s2" "ABCDEF" (Some "Bob"));
    (1000, Server.StartGame "s1" "ABCDEF" 0%nat);
    (11000, Server.TimerFires 0 0%nat);
    (12000, Server.SubmitPrompt "s1" "ABCDEF" "a detailed animals scene");
    (13000, Server.SubmitPrompt "s2" "ABCDEF" "space") ].

(** Round 2 then starts at 18000 and its writing phase opens at 28000, with
    a deadline at 208000 (timer 4); nobody submits in round 2. *)
Definition round2_schedule : list (Z * Server.Event) :=
  (round1_schedule ++
   [ (18000, Server.TimerFires 2 1%nat);
     (28000, Server.TimerFires 3 0%nat) ])%list.

(** At 191000 the deadline timer of round 1 fires. *)
Definition stale_schedule : list (Z * Server.Event) :=
  (round2_schedule ++ [ (191000, Server.TimerFires 1 0%nat) ])%list.

(** With a gateway whose calls stay pending from one turn to a later one:
    Bob disconnects while the image for Ann's prompt is pending. *)
Definition leaver_schedule : list (Z * Server.Event) :=
  [ (0, Server.CreateRoom "s1" (Some (demo_cfg 2)) [[0; 1; 2; 3; 4; 5]%nat]);
    (100, Server.JoinRoom "s2" "ABCDEF" (Some "Bob"));
    (1000, Server.StartGame "s1" "ABCDEF" 0%nat);
    (2000, Server.OriginalReady 0 (ImageGenerator.Resolved (Some "https://img/0")));
    (12000, Server.TimerFires 0 0%nat);
    (13000, Server.SubmitPrompt "s1" "ABCDEF" "a detailed animals scene");
    (14000, Server.SubmitPrompt "s2" "ABCDEF" "space");
    (15000, Server.Disconnect "s2");
    (16000, Server.ImageReady 0 (ImageGenerator.Resolved (Some "https://img/1")));
    (17000, Server.ImageReady 0 (ImageGenerator.Resolved (Some "https://img/2"))) ].

(** With an OpenAI client: Ann plays alone and submits the original prompt
    itself; the image service fails for her prompt. *)
Definition failed_image_schedule : list (Z * Server.Event) :=
  [ (0, Server.CreateRoom "s1" (Some (demo_cfg 1)) [[0; 1; 2; 3; 4; 5]%nat]);
    (1000, Server.StartGame "s1" "ABCDEF" 0%nat);
    (2000, Server.OriginalReady 0 (ImageGenerator.Resolved (Some "https://img/0")));
    (12000, Server.TimerFires 0 0%nat);
    (13000, Server.SubmitPrompt "s1" "ABCDEF"
              "A detailed animals scene generated for a prompt battle game.");
    (14000, Server.ImageReady 0 ImageGenerator.Failed) ].

(** Ann starts the game of her room twice. *)
Definition restart_schedule : list (Z * Server.Event) :=
  [ (0, Server.CreateRoom "s1" (Some (demo_cfg 2)) [[0; 1; 2; 3; 4; 5]%nat]);
    (1000, Server.StartGame "s1" "ABCDEF" 0%nat) ].

(** Ann submits a prompt to her room before any game has started. *)
Definition early_submit_schedule : list (Z * Server.Event) :=
  [ (0, Server.CreateRoom "s1" (Some (demo_cfg 2)) [[0; 1; 2; 3; 4; 5]%nat]);
    (500, Server.SubmitPrompt "s1" "ABCDEF" "a cat") ].

(** The room object of a state, at an address. *)
Definition roomAt (s : Server.State) (a : nat) : option Room :=
  deref (Server.store s) a.

(** The score of a player of the room at an address. *)
Definition scoreAt (s : Server.State) (a : nat) (id : string) : option Z :=
  match roomAt s a with
  | Some r => match Map.get id (players r) with
              | Some p => Some (p_score p)
              | None => None
              end
  | None => None
  end.

(** The image and the round score stored for a player in the room at an
    address. *)
Definition imageAt (s : Server.State) (a : nat) (id : string)
  : option (option string) :=
  match roomAt s a with
  | Some r => match images (roundData r) with
              | Some im => im !! id
              | None => None
              end
  | None => None
  end.

Definition roundScoreAt (s : Server.State) (a : nat) (id : string) : option Z :=
  match roomAt s a with
  | Some r => match scores (roundData r) with
              | Some sc => sc !! id
              | None => None
              end
  | None => None
  end.

(** Ann's room while the image for her prompt is awaited. *)
Definition awaiting_image_schedule : list (Z * Server.Event) :=
  removelast failed_image_schedule.

Definition the_original : string :=
  "A detailed animals scene generated for a prompt battle game.".


(** Ann starts the game of her room a second time, one second into the
    first game, and plays on alone: the two view delays end, she submits a
    prompt, round 2 is played without a prompt, and every timer fires when
    it is due. *)
Definition reentrant_schedule : list (Z * Server.Event) :=
  (restart_schedule ++
   [ (2000, Server.StartGame "s1" "ABCDEF" 0%nat);
     (11000, Server.TimerFires 0 0%nat);
     (12000, Server.TimerFires 1 0%nat);
     (13000, Server.SubmitPrompt "s1" "ABCDEF" "a detailed animals scene");
     (18000, Server.TimerFires 4 0%nat);
     (28000, Server.TimerFires 5 0%nat);
     (191000, Server.TimerFires 2 0%nat);
     (192000, Server.TimerFires 3 0%nat);
     (196000, Server.TimerFires 7 0%nat);
     (208000, Server.TimerFires 6 0%nat) ])%list.

(** With an OpenAI client, whose calls end within the turn: Bob submits
    and disconnects during the writing phase of round 1; Ann submits
    afterwards, which resolves the gate. *)
Definition leaver_in_turn_schedule : list (Z * Server.Event) :=
  [ (0, Server.CreateRoom "s1" (Some (demo_cfg 2)) [[0; 1; 2; 3; 4; 5]%nat]);
    (100, Server.JoinRoom "s2" "ABCDEF" (Some "Bob"));
    (1000, Server.StartGame "s1" "ABCDEF" 0%nat);
    (1000, Server.OriginalReady 0 ImageGenerator.Failed);
    (11000, Server.TimerFires 0 0%nat);
    (12000, Server.SubmitPrompt "s2" "ABCDEF" "space");
    (12500, Server.Disconnect "s2");
    (13000, Server.SubmitPrompt "s1" "ABCDEF" "a detailed animals scene");
    (13000, Server.ImageReady 0 ImageGenerator.Failed) ].

(* ===================================================================== *)
(** * shared/constants.js, as the sources have it *)
(* ===================================================================== *)

Module Constants.

(** The string that [GAME_STATES] gives to each state. *)
Definition GAME_STATES_value (s : GAME_STATES) : string :=
  match s with
  | WAITING => "waiting"
  | STARTING => "starting"
  | SHOWING_IMAGE => "showing_image"
  | WRITING_PROMPT => "writing_prompt"
  | GENERATING_IMAGES => "generating_images"
  | VOTING => "voting"
  | SHOWING_RESULTS => "showing_results"
  | GAME_OVER => "game_over"
  end.

(** The category catalogue; the code unit 225 is the a with acute accent. *)
Definition CATEGORIES : list string :=
  ["naturaleza"; "abstracto"; "objetos"; "escenas";
   "fant" ++ String (ascii_of_nat 225) "stico"].

End Constants.

(* ===================================================================== *)
(** * The client *)
(* ===================================================================== *)

(** ** GameRoom.jsx *)

Module GameRoom.

(** [translateState(state)]: the label shown for a state key; the code
    units 225 and 243 are the a and the o with acute accent. *)
Definition translateState (state : string) : string :=
  if String.eqb state "waiting" then "Esperando"
  else if String.eqb state "starting" then "Preparando partida"
  else if String.eqb state "showing_image" then "Mostrando imagen"
  else if String.eqb state "writing_prompt" then "Escribiendo prompt"
  else if String.eqb state "generating_images"
       then "Generando im" ++ String (ascii_of_nat 225) "genes"
  else if String.eqb state "voting"
       then "Votaci" ++ String (ascii_of_nat 243) "n"
  else if String.eqb state "showing_results" then "Mostrando resultados"
  else if String.eqb state "game_over" then "Fin del juego"
  else state.

End GameRoom.

(** ** Scoreboard.jsx and WinnerScreen.jsx *)

Module Scoreboard.

(** A player as the [player-list] message carries it: [{ id, name, score }];
    the score may be missing. *)
Record PlayerView : Type := {
  v_id : string;
  v_name : string;
  v_score : option Z
}.

(** An entry of the list that is displayed. *)
Record Row : Type := {
  row_id : string;
  row_name : string;
  row_score : Z
}.

(** [{ id: p.id, name: p.name, score: scores?.[p.id] ?? p.score ?? 0 }] *)
Definition rowOf (scores : option (gmap string Z)) (p : PlayerView) : Row :=
  {| row_id := v_id p;
     row_name := v_name p;
     row_score :=
       match scores ≫= (fun sc => sc !! v_id p) with
       | Some v => v
       | None => default 0 (v_score p)
       end |}.

(** [list.sort((a, b) => b.score - a.score)]: [Array.prototype.sort] is
    stable, so that the result is the list in descending order of score in
    which rows of equal score keep their order. It is computed here by
    insertion: a row goes before the first row whose score is not larger. *)
Fixpoint insertRow (x : Row) (l : list Row) : list Row :=
  match l with
  | [] => [x]
  | y :: l' =>
      if Z.ltb (row_score x) (row_score y) then y :: insertRow x l'
      else x :: y :: l'
  end.

Definition sortByScore (l : list Row) : list Row := foldr insertRow [] l.

(** The rows of a list go by descending score: no row has a larger score
    than a row above it. *)
Fixpoint descending (l : list Row) : Prop :=
  match l with
  | [] => True
  | x :: l' => Forall (fun y => row_score y <= row_score x) l' /\ descending l'
  end.

(** The rows of a list whose score is [v], in their order. *)
Definition withScore (v : Z) (l : list Row) : list Row :=
  List.filter (fun r => Z.eqb (row_score r) v) l.

(** The list that [Scoreboard({ players, scores })] renders, top to bottom;
    the rank shown beside a row is its position plus one. *)
Definition list (players : list PlayerView) (scores : option (gmap string Z))
  : list Row :=
  sortByScore (map (rowOf scores) players).

End Scoreboard.

Module WinnerScreen.

(** [winner = list[0]] of the list built and sorted as in [Scoreboard];
    [undefined] when there is no player. *)
Definition winner (players : list Scoreboard.PlayerView)
    (finalScores : option (gmap string Z)) : option Scoreboard.Row :=
  head (Scoreboard.sortByScore (map (Scoreboard.rowOf finalScores) players)).

End WinnerScreen.

(** ** Lobby.jsx *)

Module Lobby.

(** [handleCreateRoom]: the configuration sent with [create-room], or
    nothing (an alert) when no name has been typed. *)
Definition handleCreateRoom (playerName : string) : option ClientConfig :=
  if JS.truthy playerName then
    Some {| cc_rounds := Some 3;
            cc_difficulty := Some "medium";
            cc_categories := Some ["random"];
            cc_mode := Some "classic";
            cc_playerName := Some playerName |}
  else None.

End Lobby.

(** ** PromptInput.jsx *)

Module PromptInput.

Definition maxChars : nat := 500.

(** The [onChange] of the textarea: [onChange(e.target.value.slice(0, maxChars))]. *)
Definition onType (typed : string) : string := String.substring 0 maxChars typed.

(** The [onClick] of a suggestion: [onChange(value ? `${value} ${s}` : s)]. *)
Definition onSuggestion (value s : string) : string :=
  if JS.truthy value then value ++ " " ++ s else s.

End PromptInput.

(** ** App.jsx *)

Module App.

(** The values that [view] takes. *)
Inductive View : Set := landing | lobby | game | results.

Record State : Type := {
  roomCode : option string;
  playerName : string;
  players : list Scoreboard.PlayerView;
  hostId : option string;
  isHost : bool;
  gameState : string;
  currentRound : Z;
  originalImage : option (string * option string);
  category : string;
  generatedImages : gmap string (option string);
  roundScores : gmap string Z;
  totalScores : gmap string Z;
  finalScores : gmap string Z;
  view : View
}.

(** The values of the [useState] calls. *)
Definition initial : State :=
  {| roomCode := None; playerName := ""; players := []; hostId := None;
     isHost := false; gameState := "waiting"; currentRound := 0;
     originalImage := None; category := ""; generatedImages := ∅;
     roundScores := ∅; totalScores := ∅; finalScores := ∅; view := landing |}.

(** What reaches the component: the messages of the server, the
    [onEnterRoom] of the lobby, and the acknowledgement of the
    [start-game] request that the button of the host has sent. *)
Inductive Event : Type :=
| player_list (players : list Scoreboard.PlayerView) (host : string)
| game_state (state : string) (round : option Z)
| original_image (prompt : string) (image : option string) (category : string)
| generated_images (images : gmap string (option string))
| round_results (scores totalScores : gmap string Z)
| game_over (finalScores : gmap string Z)
| enterRoom (code playerName : string)
| startGameAck (success : bool) (message : option string).

Definition setView (s : State) (v : View) : State :=
  {| roomCode := roomCode s; playerName := playerName s; players := players s;
     hostId := hostId s; isHost := isHost s; gameState := gameState s;
     currentRound := currentRound s; originalImage := originalImage s;
     category := category s; generatedImages := generatedImages s;
     roundScores := roundScores s; totalScores := totalScores s;
     finalScores := finalScores s; view := v |}.

(** The state after the handler of an event has run; [socketId] is
    [socket.id]. *)
Definition handle (socketId : string) (e : Event) (s : State) : State :=
  match e with
  | player_list ps host =>
      {| roomCode := roomCode s; playerName := playerName s; players := ps;
         hostId := Some host; isHost := String.eqb socketId host;
         gameState := gameState s; currentRound := currentRound s;
         originalImage := originalImage s; category := category s;
         generatedImages := generatedImages s; roundScores := roundScores s;
         totalScores := totalScores s; finalScores := finalScores s;
         view := view s |}
  | game_state st round =>
      {| roomCode := roomCode s; playerName := playerName s; players := players s;
         hostId := hostId s; isHost := isHost s; gameState := st;
         currentRound := match round with Some n => n | None => currentRound s end;
         originalImage := originalImage s; category := category s;
         generatedImages := generatedImages s; roundScores := roundScores s;
         totalScores := totalScores s; finalScores := finalScores s;
         view := if String.eqb st "game_over" then results else view s |}
  | original_image prompt image cat =>
      {| roomCode := roomCode s; playerName := playerName s; players := players s;
         hostId := hostId s; isHost := isHost s; gameState := gameState s;
         currentRound := currentRound s; originalImage := Some (prompt, image);
         category := cat; generatedImages := generatedImages s;
         roundScores := roundScores s; totalScores := totalScores s;
         finalScores := finalScores s; view := view s |}
  | generated_images images =>
      {| roomCode := roomCode s; playerName := playerName s; players := players s;
         hostId := hostId s; isHost := isHost s; gameState := gameState s;
         currentRound := currentRound s; originalImage := originalImage s;
         category := category s; generatedImages := images;
         roundScores := roundScores s; totalScores := totalScores s;
         finalScores := finalScores s; view := view s |}
  | round_results sc total =>
      {| roomCode := roomCode s; playerName := playerName s; players := players s;
         hostId := hostId s; isHost := isHost s; gameState := gameState s;
         currentRound := currentRound s; originalImage := originalImage s;
         category := category s; generatedImages := generatedImages s;
         roundScores := sc; totalScores := total;
         finalScores := finalScores s; view := view s |}
  | game_over final =>
      {| roomCode := roomCode s; playerName := playerName s; players := players s;
         hostId := hostId s; isHost := isHost s; gameState := gameState s;
         currentRound := currentRound s; originalImage := originalImage s;
         category := category s; generatedImages := generatedImages s;
         roundScores := roundScores s; totalScores := totalScores s;
         finalScores := final; view := results |}
  | enterRoom code name =>
      {| roomCode := Some code; playerName := name; players := players s;
         hostId := hostId s; isHost := isHost s; gameState := gameState s;
         currentRound := currentRound s; originalImage := originalImage s;
         category := category s; generatedImages := generatedImages s;
         roundScores := roundScores s; totalScores := totalScores s;
         finalScores := finalScores s; view := lobby |}
  | startGameAck ok _ => if ok then setView s game else s
  end.

Definition run (socketId : string) (events : list Event) (s : State) : State :=
  foldl (fun s e => handle socketId e s) s events.

End App.

(* ===================================================================== *)
(** * Predicates used in the further statements *)
(* ===================================================================== *)

(** The round in which an activation of [startGame] is suspended is at
    least 1. *)
Definition roundPositive (at_ : GameLogic.Await) : Prop :=
  match at_ with
  | GameLogic.AwaitOriginal round _ => 1 <= round
  | GameLogic.AwaitView round _ => 1 <= round
  | GameLogic.AwaitPrompts round _ => 1 <= round
  | GameLogic.AwaitImage round _ _ _ _ _ => 1 <= round
  | GameLogic.AwaitPause round => 1 <= round
  | _ => True
  end.

(** No round has begun in the room: [roundData] has none of its three
    dictionaries. *)
Definition noRoundYet (r : Room) : Prop :=
  prompts (roundData r) = None /\ images (roundData r) = None
  /\ scores (roundData r) = None.

(** A round has begun in the room: [roundData] has its three
    dictionaries. *)
Definition roundBegun (r : Room) : Prop :=
  prompts (roundData r) <> None /\ images (roundData r) <> None
  /\ scores (roundData r) <> None.

(** The round counter of a room: 0 as long as no round has begun, and then
    between 1 and the configured number of rounds. *)
Definition roundCount (r : Room) : Prop :=
  (currentRound r = 0 /\ noRoundYet r)
  \/ (1 <= currentRound r <= rounds (config r) /\ roundBegun r).

(** A room as it is between two turns of the event loop. *)
Definition atRest (r : Room) : Prop :=
  state r <> STARTING /\ state r <> SHOWING_RESULTS
  /\ (state r = WAITING -> currentRound r = 0)
  /\ roundCount r.

(** What a stretch of the game loop inside a round, a submission, a join or
    a departure leaves alone: the configuration, the round counter and the
    presence of the dictionaries; the state stays or moves on within the
    round. *)
Definition steady (r r' : Room) : Prop :=
  config r' = config r /\ currentRound r' = currentRound r
  /\ (prompts (roundData r') = None <-> prompts (roundData r) = None)
  /\ (images (roundData r') = None <-> images (roundData r) = None)
  /\ (scores (roundData r') = None <-> scores (roundData r) = None)
  /\ (state r' = state r \/ state r' = WRITING_PROMPT
      \/ state r' = GENERATING_IMAGES \/ state r' = VOTING).

(** The invariant of the server on which the statements about the states
    and the rounds rest. *)
Definition rested (s : Server.State) : Prop :=
  (forall a r, deref (Server.store s) a = Some r -> atRest r)
  /\ (forall t, In t (Server.tasks s) -> roundPositive (Server.t_at t)).

(** A stretch of the game loop, run on a room: it leaves the room at rest
    and suspends in a round that is at least 1. *)
Definition stretchRests (m : GameLogic.M GameLogic.Step) (room : Room) : Prop :=
  forall room' res,
    m room = (room', res) ->
    atRest room'
    /\ forall step, res = inr step -> roundPositive (fst step).

(** A stretch of the game loop returns only from the end of the game:
    when it ends with [Finished], the room is in [GAME_OVER]. *)
Definition finishesOver (m : GameLogic.M GameLogic.Step) (room : Room) : Prop :=
  forall room' step,
    m room = (room', inr step) -> fst step = GameLogic.Finished ->
    state room' = GAME_OVER.

(** The replies that lead from [s] to [s'] are added at the end, and each
    success answer to a [start-game] request among them belongs to an
    activation of [startGame] that has returned, for the same socket, on a
    room that is in [GAME_OVER] in [s']. *)
Definition answersWhenOver (s s' : Server.State) : Prop :=
  exists more,
    Server.replies s' = (Server.replies s ++ more)%list
    /\ forall rep,
         In rep more ->
         Server.r_request rep = Server.StartGameReq ->
         Server.r_success rep = true ->
         exists t room,
           In t (Server.tasks s')
           /\ Server.t_at t = GameLogic.Finished
           /\ Server.t_socket t = Server.r_socket rep
           /\ deref (Server.store s') (Server.t_room t) = Some room
           /\ state room = GAME_OVER.




(** The room holds the resolver that it held. *)
Definition sameResolver (r r' : Room) : Prop :=
  _resolvePromptPromise r' = _resolvePromptPromise r.

(** The room holds no resolver of the activation [task]. *)
Definition noGateOf (task : nat) (r : Room) : Prop :=
  forall f, _resolvePromptPromise r = Some f -> res_task f <> task.

(** The activation [task] is overtaken: it is suspended at the gate of a
    round, and no room object holds a resolver of it. *)
Definition overtaken (task : nat) (s : Server.State) : Prop :=
  (exists t round originalPrompt,
      Server.tasks s !! task = Some t
      /\ Server.t_at t = GameLogic.AwaitPrompts round originalPrompt)
  /\ forall a r, deref (Server.store s) a = Some r -> noGateOf task r.


(* ===================================================================== *)
(** * Further concrete configurations *)
(* ===================================================================== *)

(** A room in the writing phase of round 1: Ann has submitted, Bob has
    not, and the gate is pending. *)
Definition open_round_room : Room :=
  {| code := "ABCDEF"; host := "s1";
     config := {| rounds := 2; difficulty := "medium"; categories := ["random"];
                  mode := "classic" |};
     players := [("s1", RoomManager.newPlayer "s1" "Ann");
                 ("s2", RoomManager.newPlayer "s2" "Bob")];
     state := WRITING_PROMPT; currentRound := 1;
     roundData :=
       {| originalPrompt := Some "A detailed animals scene generated for a prompt battle game.";
          originalImage := Some ImageGenerator.PLACEHOLDER;
          prompts := Some {[ "s1" := "a detailed animals scene" ]};
          images := Some ∅; scores := Some ∅ |};
     _resolvePromptPromise := Some {| res_task := 0; res_round := 1 |} |}.

(** The surroundings of a server that runs with the catalogue of
    constants.js, no player limit set and no OpenAI client. *)
Definition plain_env : Env :=
  {| MAX_PLAYERS_PER_ROOM := None; CATEGORIES := Constants.CATEGORIES;
     openai := false |}.

(** With an OpenAI client: Ann has started her game and the original
    image is awaited. *)
Definition awaiting_original_schedule : list (Z * Server.Event) :=
  [ (0, Server.CreateRoom "s1" (Some (demo_cfg 1)) [[0; 1; 2; 3; 4; 5]%nat]);
    (1000, Server.StartGame "s1" "ABCDEF" 0%nat) ].

(** Ann creates a room for a game of minus one rounds. *)
Definition no_round_schedule : list (Z * Server.Event) :=
  [ (0, Server.CreateRoom "s1" (Some (demo_cfg (-1))) [[0; 1; 2; 3; 4; 5]%nat]) ].

(** ** Binary64 arithmetic on the quotient of two counts *)

Section Binary64.

(** *** Digits *)

Lemma digits2_pos_bounds p :
  2 ^ (Z.pos (digits2_pos p) - 1) <= Z.pos p < 2 ^ Z.pos (digits2_pos p).
Proof.
  induction p as [p IH|p IH|]; cbn [digits2_pos].
  - rewrite Pos2Z.inj_succ.
    replace (Z.succ (Z.pos (digits2_pos p)) - 1) with (Z.succ (Z.pos (digits2_pos p) - 1)) by lia.
    rewrite !Z.pow_succ_r by lia. lia.
  - rewrite Pos2Z.inj_succ.
    replace (Z.succ (Z.pos (digits2_pos p)) - 1) with (Z.succ (Z.pos (digits2_pos p) - 1)) by lia.
    rewrite !Z.pow_succ_r by lia. lia.
  - simpl. lia.
Qed.

Lemma Zdigits2_bounds m :
  0 < m -> 2 ^ (Zdigits2 m - 1) <= m < 2 ^ Zdigits2 m.
Proof.
  destruct m as [|p|p]; try lia. intros _. apply digits2_pos_bounds.
Qed.

Lemma Zdigits2_pos m : 0 < m -> 0 < Zdigits2 m.
Proof. destruct m; simpl; lia. Qed.

Lemma pow2_lt_mono a b : 0 <= a -> 2 ^ a < 2 ^ b -> a < b.
Proof.
  intros Ha H. destruct (Z_lt_le_dec a b) as [Hlt|Hle]; [assumption|].
  destruct (Z_lt_le_dec b 0) as [Hb|Hb].
  - rewrite (Z.pow_neg_r 2 b) in H by assumption.
    assert (0 < 2 ^ a) by (apply Z.pow_pos_nonneg; lia). lia.
  - assert (2 ^ b <= 2 ^ a) by (apply Z.pow_le_mono_r; lia). lia.
Qed.

(** The number of digits is determined by the bounds. *)
Lemma Zdigits2_unique m d :
  2 ^ (d - 1) <= m < 2 ^ d -> 0 < d -> Zdigits2 m = d.
Proof.
  intros [Hlo Hhi] Hd.
  assert (Hm : 0 < m).
  { assert (0 < 2 ^ (d - 1)) by (apply Z.pow_pos_nonneg; lia). lia. }
  pose proof (Zdigits2_bounds m Hm) as [Hlo' Hhi'].
  pose proof (Zdigits2_pos m Hm) as Hpos.
  assert (d - 1 < Zdigits2 m) by (apply pow2_lt_mono; lia).
  assert (Zdigits2 m - 1 < d) by (apply pow2_lt_mono; lia).
  lia.
Qed.


(** *** Shifting right with a round bit and a sticky bit *)

Lemma located_shr_1 N D mrs :
  0 < D -> located N D mrs -> located N (2 * D) (shr_1 mrs).
Proof.
  intros HD (Hm & t & Heq & Ht & Hs).
  destruct mrs as [m r s]. cbn [shr_m shr_r shr_s] in *.
  assert (Hcase : exists m' r', m = 2 * m' + Z.b2z r' /\ 0 <= m'
            /\ shr_1 {| shr_m := m; shr_r := r; shr_s := s |}
               = {| shr_m := m'; shr_r := r'; shr_s := r || s |}).
  { destruct m as [|[p|p|]|p]; try lia.
    - exists 0, false. simpl. auto with zarith.
    - exists (Z.pos p), true. simpl. split; [lia|]. split; [lia | reflexivity].
    - exists (Z.pos p), false. simpl. split; [lia|]. split; [lia | reflexivity].
    - exists 0, true. simpl. split; [lia|]. split; [lia | reflexivity]. }
  destruct Hcase as (m' & r' & Hm' & Hm'0 & ->).
  split; [exact Hm'0|]. exists (Z.b2z r * D + t). cbn [shr_m shr_r shr_s].
  split; [subst m; destruct r, r'; simpl in *; lia|].
  split; [destruct r; simpl; lia|].
  destruct r, s; simpl in *; split; intros H; try reflexivity; try lia;
    try (apply Hs in H; lia); try (exfalso; apply H; clear H);
    try (destruct Hs as [Hs1 Hs2]); try lia.
Qed.

Lemma pow2_xO p : 2 ^ Z.pos p~0 = 2 ^ Z.pos p * 2 ^ Z.pos p.
Proof.
  replace (Z.pos p~0) with (Z.pos p + Z.pos p) by lia.
  apply Z.pow_add_r; lia.
Qed.

Lemma pow2_xI p : 2 ^ Z.pos p~1 = 2 * (2 ^ Z.pos p * 2 ^ Z.pos p).
Proof.
  replace (Z.pos p~1) with (Z.succ (Z.pos p + Z.pos p)) by lia.
  rewrite Z.pow_succ_r by lia. f_equal. apply Z.pow_add_r; lia.
Qed.

Lemma located_iter_shr_1 p : forall N D mrs,
  0 < D -> located N D mrs ->
  located N (D * 2 ^ Z.pos p) (SpecFloat.iter_pos shr_1 p mrs).
Proof.
  induction p as [p IH|p IH|]; intros N D mrs HD Hloc; cbn [SpecFloat.iter_pos].
  - replace (D * 2 ^ Z.pos p~1) with ((2 * D * 2 ^ Z.pos p) * 2 ^ Z.pos p)
      by (rewrite pow2_xI; ring).
    apply IH; [assert (0 < 2 ^ Z.pos p) by (apply Z.pow_pos_nonneg; lia); nia|].
    apply IH; [lia|]. now apply located_shr_1.
  - replace (D * 2 ^ Z.pos p~0) with ((D * 2 ^ Z.pos p) * 2 ^ Z.pos p)
      by (rewrite pow2_xO; ring).
    apply IH; [assert (0 < 2 ^ Z.pos p) by (apply Z.pow_pos_nonneg; lia); nia|].
    now apply IH.
  - change (2 ^ 1) with 2. replace (D * 2) with (2 * D) by ring.
    now apply located_shr_1.
Qed.

(** *** Rounding a located fraction to 53 bits *)

Lemma located_of_loc_nonneg N D m l :
  located N D (shr_record_of_loc m l) -> 0 <= m.
Proof. intros [H _]. destruct l as [|[]]; exact H. Qed.

Lemma fexp_normal e : -1021 <= e -> fexp JS.prec JS.emax e = e - 53.
Proof. intros H. unfold fexp, emin, JS.prec, JS.emax. lia. Qed.

Lemma shr_fexp_normal mx ex lx N D :
  2 ^ 52 <= mx -> -1074 <= ex -> 0 < D ->
  located N D (shr_record_of_loc mx lx) ->
  exists mrs,
    shr_fexp JS.prec JS.emax mx ex lx = (mrs, ex + (Zdigits2 mx - 53))
    /\ located N (D * 2 ^ (Zdigits2 mx - 53)) mrs
    /\ 2 ^ 52 <= shr_m mrs < 2 ^ 53
    /\ 0 <= Zdigits2 mx - 53.
Proof.
  intros Hmx Hex HD Hloc.
  assert (Hpos : 0 < mx) by lia.
  pose proof (Zdigits2_bounds mx Hpos) as [Hlo Hhi].
  assert (Hd : 53 <= Zdigits2 mx).
  { assert (52 < Zdigits2 mx); [|lia]. apply pow2_lt_mono; lia. }
  unfold shr_fexp. rewrite fexp_normal by lia.
  replace (Zdigits2 mx + ex - 53 - ex) with (Zdigits2 mx - 53) by lia.
  set (k := Zdigits2 mx - 53) in *.
  assert (Hbounds : forall mrs, located N (D * 2 ^ k) mrs -> 2 ^ 52 <= shr_m mrs < 2 ^ 53).
  { intros mrs (Hm & t & Heq & Ht & _).
    destruct Hloc as (_ & t0 & Heq0 & Ht0 & _).
    assert (Hm0 : shr_m (shr_record_of_loc mx lx) = mx) by (destruct lx as [|[]]; reflexivity).
    rewrite Hm0 in Heq0.
    assert (Hr0 : 0 <= Z.b2z (shr_r (shr_record_of_loc mx lx)) <= 1)
      by (destruct (shr_r _); simpl; lia).
    assert (Hr1 : 0 <= Z.b2z (shr_r mrs) <= 1) by (destruct (shr_r mrs); simpl; lia).
    set (K := 2 ^ k) in *.
    assert (HK : 0 < K) by (apply Z.pow_pos_nonneg; lia).
    assert (HloK : 2 ^ 52 * K <= mx).
    { unfold K. rewrite <- Z.pow_add_r by lia.
      replace (52 + k) with (Zdigits2 mx - 1) by lia. exact Hlo. }
    assert (HhiK : mx < 2 ^ 53 * K).
    { unfold K. rewrite <- Z.pow_add_r by lia.
      replace (53 + k) with (Zdigits2 mx) by lia. exact Hhi. }
    set (m1 := shr_m mrs) in *. set (r1 := Z.b2z (shr_r mrs)) in *.
    set (r0 := Z.b2z (shr_r (shr_record_of_loc mx lx))) in *.
    assert (H1 : m1 * K * D < (mx + 1) * D) by nia.
    assert (H2 : mx * D < (m1 + 1) * K * D) by nia.
    assert (H1' : m1 * K < mx + 1) by nia.
    assert (H2' : mx < (m1 + 1) * K) by nia.
    split; nia. }
  destruct k as [|p|p] eqn:Hk; try lia.
  - exists (shr_record_of_loc mx lx). simpl shr.
    rewrite Z.add_0_r. change (2 ^ 0) with 1. rewrite Z.mul_1_r.
    split; [reflexivity|]. split; [assumption|]. split; [|lia].
    apply Hbounds. change (2 ^ 0) with 1. now rewrite Z.mul_1_r.
  - exists (SpecFloat.iter_pos shr_1 p (shr_record_of_loc mx lx)). simpl shr.
    assert (Hl : located N (D * 2 ^ Z.pos p)
                   (SpecFloat.iter_pos shr_1 p (shr_record_of_loc mx lx)))
      by now apply located_iter_shr_1.
    split; [reflexivity|]. split; [assumption|]. split; [|lia].
    now apply Hbounds.
Qed.

Lemma round_nearest_even_spec N D mrs :
  0 < D -> located N D mrs ->
  shr_m mrs <= round_nearest_even (shr_m mrs) (loc_of_shr_record mrs) <= shr_m mrs + 1
  /\ Z.abs (2 * (round_nearest_even (shr_m mrs) (loc_of_shr_record mrs) * D - N)) <= D.
Proof.
  intros HD (Hm & t & Heq & Ht & Hs).
  destruct mrs as [m r s]. cbn [shr_m shr_r shr_s] in *.
  destruct r, s; cbn [loc_of_shr_record round_nearest_even Z.b2z] in *.
  - assert (t <> 0) by (now apply Hs). split; [lia|]. nia.
  - assert (t = 0).
    { destruct (Z.eq_dec t 0) as [E|E]; [assumption|]. apply Hs in E. discriminate. }
    destruct (Z.even m); split; try lia; nia.
  - assert (t <> 0) by (now apply Hs). split; [lia|]. nia.
  - assert (t = 0).
    { destruct (Z.eq_dec t 0) as [E|E]; [assumption|]. apply Hs in E. discriminate. }
    split; [lia|]. nia.
Qed.

Lemma shr_fexp_exact M e :
  2 ^ 52 <= M <= 2 ^ 53 -> -1074 <= e ->
  exists M' E',
    shr_fexp JS.prec JS.emax M e loc_Exact
    = ({| shr_m := M'; shr_r := false; shr_s := false |}, E')
    /\ 2 ^ 52 <= M' < 2 ^ 53
    /\ M' * 2 ^ (E' - e) = M
    /\ e <= E' <= e + 1.
Proof.
  intros HM He. unfold shr_fexp.
  destruct (Z.eq_dec M (2 ^ 53)) as [->|Hne].
  - exists (2 ^ 52), (e + 1).
    replace (Zdigits2 (2 ^ 53)) with 54 by reflexivity.
    rewrite fexp_normal by lia.
    replace (54 + e - 53 - e) with 1 by lia.
    split; [reflexivity|]. split; [lia|]. split; [|lia].
    replace (e + 1 - e) with 1 by lia. reflexivity.
  - exists M, e.
    assert (Hd : Zdigits2 M = 53) by (apply Zdigits2_unique; lia).
    rewrite Hd, fexp_normal by lia.
    replace (53 + e - 53 - e) with 0 by lia.
    split; [reflexivity|]. split; [lia|]. split; [|lia].
    rewrite Z.sub_diag. change (2 ^ 0) with 1. lia.
Qed.

Lemma binary_round_aux_normal sx mx ex lx N D :
  2 ^ 52 <= mx -> -1074 <= ex -> 0 < D ->
  ex + (Zdigits2 mx - 53) + 1 <= 971 ->
  located N D (shr_record_of_loc mx lx) ->
  exists M E,
    binary_round_aux JS.prec JS.emax sx mx ex lx = S754_finite sx (Z.to_pos M) E
    /\ 2 ^ 52 <= M < 2 ^ 53
    /\ ex + (Zdigits2 mx - 53) <= E <= ex + (Zdigits2 mx - 53) + 1
    /\ Z.abs (2 * (M * 2 ^ (E - ex) * D - N)) <= D * 2 ^ (E - ex).
Proof.
  intros Hmx Hex HD Hmax Hloc.
  destruct (shr_fexp_normal mx ex lx N D Hmx Hex HD Hloc)
    as (mrs & Hshr & Hloc' & Hm & Hk).
  set (k := Zdigits2 mx - 53) in *.
  assert (HK : 0 < 2 ^ k) by (apply Z.pow_pos_nonneg; lia).
  assert (HDK : 0 < D * 2 ^ k) by lia.
  destruct (round_nearest_even_spec N (D * 2 ^ k) mrs HDK Hloc') as [Hr Herr].
  set (M0 := round_nearest_even (shr_m mrs) (loc_of_shr_record mrs)) in *.
  destruct (shr_fexp_exact M0 (ex + k)) as (M & E & Hshr' & HM & Hval & HE);
    [lia | lia |].
  exists M, E. unfold binary_round_aux. rewrite Hshr. fold M0. rewrite Hshr'.
  cbn [shr_m].
  destruct M as [|pM|pM]; try lia.
  assert (Hle : Z.leb E (JS.emax - JS.prec) = true)
    by (apply Z.leb_le; unfold JS.emax, JS.prec; lia).
  rewrite Hle. split; [reflexivity|]. split; [assumption|]. split; [assumption|].
  replace (E - ex) with (E - (ex + k) + k) by lia.
  rewrite Z.pow_add_r by lia.
  assert (H1 : 1 <= 2 ^ (E - (ex + k))).
  { assert (0 < 2 ^ (E - (ex + k))) by (apply Z.pow_pos_nonneg; lia). lia. }
  replace (Z.pos pM * (2 ^ (E - (ex + k)) * 2 ^ k) * D) with (M0 * (D * 2 ^ k))
    by (rewrite <- Hval; ring).
  etransitivity; [exact Herr|]. nia.
Qed.

(** *** The remainder of a division as a location *)

Lemma new_location_located D q r :
  0 <= q -> 0 <= r < D ->
  located (q * D + r) D (shr_record_of_loc q (new_location D r)).
Proof.
  intros Hq Hr.
  assert (Hcases :
    (r = 0 /\ new_location D r = loc_Exact)
    \/ (r <> 0 /\ 2 * r < D /\ new_location D r = loc_Inexact Lt)
    \/ (2 * r = D /\ new_location D r = loc_Inexact Eq)
    \/ (D < 2 * r /\ new_location D r = loc_Inexact Gt)).
  { unfold new_location.
    destruct (Z.even D) eqn:Hev;
      [unfold new_location_even | unfold new_location_odd];
      (destruct (Z.eqb_spec r 0) as [->|Hne]; [left; now split | right]).
    - destruct (Z.compare_spec (2 * r) D) as [Heq|Hlt|Hgt].
      + right. left. now split.
      + left. repeat split; assumption.
      + right. right. now split.
    - assert (Hodd : Z.odd D = true) by (rewrite <- Z.negb_even, Hev; reflexivity).
      apply Z.odd_spec in Hodd. destruct Hodd as [h Hh].
      destruct (Z.compare_spec (2 * r + 1) D) as [Heq|Hlt|Hgt].
      + left. repeat split; try assumption; lia.
      + left. repeat split; try assumption; lia.
      + right. right. split; [lia | reflexivity]. }
  destruct Hcases as [[-> ->]|[(Hne & Hlt & ->)|[(Heq & ->)|(Hgt & ->)]]];
    (split; [exact Hq|]); cbn [shr_record_of_loc shr_m shr_r shr_s Z.b2z].
  - exists 0. repeat split; try lia; intros; try discriminate; lia.
  - exists (2 * r). repeat split; try lia.
  - exists 0. repeat split; try lia; intros; try discriminate; lia.
  - exists (2 * r - D). repeat split; try lia.
Qed.

Lemma located_exact m : 0 <= m -> located m 1 (shr_record_of_loc m loc_Exact).
Proof.
  intros Hm. split; [exact Hm|]. exists 0. cbn.
  repeat split; try lia; intros; try discriminate; lia.
Qed.

(** *** Integers as Numbers *)

Lemma iter_xO p d : Z.pos (Pos.iter xO p d) = Z.pos p * 2 ^ Z.pos d.
Proof.
  induction d as [|d IH] using Pos.peano_ind.
  - cbn [Pos.iter]. rewrite Pos2Z.inj_xO. change (2 ^ 1) with 2. ring.
  - rewrite Pos.iter_succ, Pos2Z.inj_xO, IH, Pos2Z.inj_succ, Z.pow_succ_r by lia. ring.
Qed.

Lemma shr_fexp_53 M e :
  2 ^ 52 <= M < 2 ^ 53 -> -1074 <= e ->
  shr_fexp JS.prec JS.emax M e loc_Exact
  = ({| shr_m := M; shr_r := false; shr_s := false |}, e).
Proof.
  intros HM He. unfold shr_fexp.
  assert (Hd : Zdigits2 M = 53) by (apply Zdigits2_unique; lia).
  rewrite Hd, fexp_normal by lia.
  replace (53 + e - 53 - e) with 0 by lia. reflexivity.
Qed.

Lemma binary_round_aux_53 M e :
  2 ^ 52 <= M < 2 ^ 53 -> -1074 <= e <= 971 ->
  binary_round_aux JS.prec JS.emax false M e loc_Exact
  = S754_finite false (Z.to_pos M) e.
Proof.
  intros HM He. unfold binary_round_aux.
  rewrite shr_fexp_53 by lia. cbn [shr_m loc_of_shr_record round_nearest_even].
  rewrite shr_fexp_53 by lia. cbn [shr_m].
  destruct M as [|p|p]; try lia.
  assert (Hle : Z.leb e (JS.emax - JS.prec) = true)
    by (apply Z.leb_le; unfold JS.emax, JS.prec; lia).
  now rewrite Hle.
Qed.

Lemma ofZ_0 : JS.ofZ 0 = S754_zero false.
Proof. reflexivity. Qed.

Lemma ofZ_pos n :
  0 < n < 2 ^ 53 ->
  JS.ofZ n = S754_finite false (Z.to_pos (n * 2 ^ (53 - Zdigits2 n))) (Zdigits2 n - 53)
  /\ 2 ^ 52 <= n * 2 ^ (53 - Zdigits2 n) < 2 ^ 53
  /\ 1 <= Zdigits2 n <= 53.
Proof.
  intros Hn.
  assert (Hpos : 0 < n) by lia.
  pose proof (Zdigits2_bounds n Hpos) as [Hlo Hhi].
  pose proof (Zdigits2_pos n Hpos) as Hd0.
  assert (Hd : Zdigits2 n <= 53).
  { assert (Zdigits2 n - 1 < 53); [|lia]. apply pow2_lt_mono; lia. }
  set (d := Zdigits2 n) in *.
  assert (Hrange : 2 ^ 52 <= n * 2 ^ (53 - d) < 2 ^ 53).
  { assert (H52 : 2 ^ 52 = 2 ^ (d - 1) * 2 ^ (53 - d)).
    { rewrite <- Z.pow_add_r by lia. f_equal. lia. }
    assert (H53 : 2 ^ 53 = 2 ^ d * 2 ^ (53 - d)).
    { rewrite <- Z.pow_add_r by lia. f_equal. lia. }
    assert (0 < 2 ^ (53 - d)) by (apply Z.pow_pos_nonneg; lia).
    rewrite H52, H53. split; nia. }
  split; [|split; [exact Hrange | lia]].
  destruct n as [|p|p]; try lia.
  unfold JS.ofZ, binary_normalize, binary_round.
  change (Z.pos (digits2_pos p)) with (Zdigits2 (Z.pos p)). fold d.
  rewrite Z.add_0_r, fexp_normal by lia.
  unfold shl_align.
  destruct (d - 53 - 0) as [|z|z] eqn:Hz; try lia.
  - assert (d = 53) by lia.
    replace (53 - d) with 0 in * by lia. change (2 ^ 0) with 1 in *.
    rewrite Z.mul_1_r in *.
    rewrite binary_round_aux_53 by lia.
    f_equal. lia.
  - assert (Hzd : Z.pos z = 53 - d) by lia.
    rewrite iter_xO, Hzd.
    rewrite binary_round_aux_53 by lia. reflexivity.
Qed.

Lemma Zdigits2_mono a b : 0 < a <= b -> Zdigits2 a <= Zdigits2 b.
Proof.
  intros [Ha Hab].
  pose proof (Zdigits2_bounds a Ha) as [Hlo _].
  pose proof (Zdigits2_bounds b ltac:(lia)) as [_ Hhi].
  pose proof (Zdigits2_pos a Ha).
  assert (Zdigits2 a - 1 < Zdigits2 b); [|lia].
  apply pow2_lt_mono; lia.
Qed.

Lemma Zdigits2_le m d : 0 < m < 2 ^ d -> 0 <= d -> Zdigits2 m <= d.
Proof.
  intros [Hm Hlt] Hd.
  pose proof (Zdigits2_bounds m Hm) as [Hlo _].
  pose proof (Zdigits2_pos m Hm).
  assert (Zdigits2 m - 1 < d); [|lia].
  apply pow2_lt_mono; lia.
Qed.

Lemma Zdigits2_ge m d : 2 ^ d <= m -> 0 <= d -> d + 1 <= Zdigits2 m.
Proof.
  intros Hle Hd.
  assert (Hm : 0 < m).
  { assert (0 < 2 ^ d) by (apply Z.pow_pos_nonneg; lia). lia. }
  pose proof (Zdigits2_bounds m Hm) as [_ Hhi].
  assert (d < Zdigits2 m); [|lia].
  apply pow2_lt_mono; lia.
Qed.

(** *** The quotient of two counts *)

Lemma div_counts o m :
  0 < o <= m -> m < 2 ^ 33 ->
  exists Mq a,
    JS.div (JS.ofZ o) (JS.ofZ m) = S754_finite false (Z.to_pos Mq) (- a)
    /\ 2 ^ 52 <= Mq < 2 ^ 53
    /\ 51 <= a <= 106
    /\ Z.abs (2 * (Mq * m - o * 2 ^ a)) <= m.
Proof.
  intros Ho Hm.
  destruct (ofZ_pos o) as (Eo & Hmo & Hdo); [lia|].
  destruct (ofZ_pos m) as (Em & Hmm & Hdm); [lia|].
  pose proof (Zdigits2_mono o m Ho) as Hmono.
  set (dO := Zdigits2 o) in *. set (dM := Zdigits2 m) in *.
  set (mo := o * 2 ^ (53 - dO)) in *. set (mm := m * 2 ^ (53 - dM)) in *.
  unfold JS.div. rewrite Eo, Em. unfold SFdiv, SFdiv_core_binary.
  rewrite !Z2Pos.id by lia.
  assert (Hd1 : Zdigits2 mo = 53) by (apply Zdigits2_unique; lia).
  assert (Hd2 : Zdigits2 mm = 53) by (apply Zdigits2_unique; lia).
  rewrite Hd1, Hd2, fexp_normal by lia.
  replace (Z.min (53 + (dO - 53) - (53 + (dM - 53)) - 53) (dO - 53 - (dM - 53)))
    with (dO - dM - 53) by lia.
  replace (dO - 53 - (dM - 53) - (dO - dM - 53)) with 53 by lia.
  rewrite Z.shiftl_mul_pow2 by lia.
  pose proof (Z_div_mod (mo * 2 ^ 53) mm ltac:(lia)) as Hdiv.
  destruct (Z.div_eucl (mo * 2 ^ 53) mm) as [q r].
  destruct Hdiv as [Hdiv Hr].
  assert (Hq : 2 ^ 52 <= q < 2 ^ 54) by (split; nia).
  assert (Hdq : 53 <= Zdigits2 q <= 54).
  { split; [apply (Zdigits2_ge q 52); lia | apply Zdigits2_le; lia]. }
  destruct (binary_round_aux_normal (xorb false false) q (dO - dM - 53)
              (new_location mm r) (q * mm + r) mm)
    as (M & E & Hres & HM & HE & Herr); try lia.
  { apply new_location_located; lia. }
  exists M, (- E). rewrite Z.opp_involutive.
  split; [exact Hres|]. split; [exact HM|]. split; [lia|].
  set (j := E - (dO - dM - 53)) in *.
  set (W := 2 ^ (53 - dM) * 2 ^ j).
  assert (HW : 0 < W).
  { apply Z.mul_pos_pos; apply Z.pow_pos_nonneg; lia. }
  assert (HV : 2 ^ (53 - dO) * 2 ^ 53 = 2 ^ (- E) * W).
  { unfold W. rewrite <- !Z.pow_add_r by lia. f_equal. lia. }
  replace (M * 2 ^ j * mm - (q * mm + r)) with ((M * m - o * 2 ^ (- E)) * W) in Herr.
  2:{ replace (q * mm + r) with (mo * 2 ^ 53) by lia.
      unfold mo, mm.
      replace (o * 2 ^ (53 - dO) * 2 ^ 53) with (o * (2 ^ (53 - dO) * 2 ^ 53)) by ring.
      rewrite HV. unfold W. ring. }
  replace (mm * 2 ^ j) with (m * W) in Herr by (unfold mm, W; ring).
  replace (2 * ((M * m - o * 2 ^ (- E)) * W))
    with ((2 * (M * m - o * 2 ^ (- E))) * W) in Herr by ring.
  rewrite Z.abs_mul, (Z.abs_eq W) in Herr by lia.
  apply Z.mul_le_mono_pos_r in Herr; assumption.
Qed.

(** *** Scaling to 0-100 *)

Lemma ofZ_100 : JS.ofZ 100 = S754_finite false 7036874417766400 (-46).
Proof. reflexivity. Qed.

Lemma mul_100 Mq a :
  2 ^ 52 <= Mq < 2 ^ 53 -> 0 <= a <= 200 ->
  exists Mp c,
    JS.mul (S754_finite false (Z.to_pos Mq) (- a)) (JS.ofZ 100)
    = S754_finite false (Z.to_pos Mp) (c - a)
    /\ 2 ^ 52 <= Mp < 2 ^ 53
    /\ 6 <= c <= 8
    /\ Z.abs (2 * (Mp * 2 ^ c - 100 * Mq)) <= 2 ^ c.
Proof.
  intros HMq Ha. rewrite ofZ_100. unfold JS.mul, SFmul.
  rewrite Pos2Z.inj_mul, Z2Pos.id by lia.
  set (mx := Mq * 7036874417766400).
  assert (Hmx : 2 ^ 104 <= mx < 2 ^ 106) by (unfold mx; lia).
  assert (Hd : 105 <= Zdigits2 mx <= 106).
  { split; [apply (Zdigits2_ge mx 104); lia | apply Zdigits2_le; lia]. }
  destruct (binary_round_aux_normal (xorb false false) mx (- a + -46) loc_Exact mx 1)
    as (M & E & Hres & HM & HE & Herr); try lia.
  { apply located_exact. lia. }
  exists M, (E + a).
  replace (E + a - a) with E by lia.
  split; [exact Hres|]. split; [exact HM|]. split; [lia|].
  replace (E - (- a + -46)) with (E + a + 46) in Herr by lia.
  rewrite Z.pow_add_r in Herr by lia.
  set (C := 2 ^ (E + a)) in *.
  assert (HC : 0 < C) by (apply Z.pow_pos_nonneg; lia).
  unfold mx in Herr. change (2 ^ 46) with 70368744177664 in Herr.
  lia.
Qed.

(** *** Rounding to an integer *)

Lemma Math_round_spec Mp b :
  0 < Mp -> 1 <= b ->
  JS.Math_round (S754_finite false (Z.to_pos Mp) (- b)) * 2 ^ (b + 1)
  <= 2 * Mp + 2 ^ b
  < (JS.Math_round (S754_finite false (Z.to_pos Mp) (- b)) + 1) * 2 ^ (b + 1).
Proof.
  intros HMp Hb. unfold JS.Math_round.
  rewrite Z2Pos.id by lia.
  destruct (Z.leb_spec 0 (- b)) as [H|_]; [lia|].
  rewrite Z.opp_involutive.
  assert (HB : 0 < 2 ^ (b + 1)) by (apply Z.pow_pos_nonneg; lia).
  pose proof (Z.mul_div_le (2 * Mp + 2 ^ b) (2 ^ (b + 1)) HB).
  pose proof (Z.mul_succ_div_gt (2 * Mp + 2 ^ b) (2 ^ (b + 1)) HB).
  lia.
Qed.

(** *** The three roundings together *)

Lemma nearest_from_bounds o m Mq Mp r A B C :
  0 < m -> 356 * m < A -> A = B * C -> 0 < C <= 256 -> 0 < B ->
  Z.abs (2 * (Mq * m - o * A)) <= m ->
  Z.abs (2 * (Mp * C - 100 * Mq)) <= C ->
  r * (2 * B) <= 2 * Mp + B < (r + 1) * (2 * B) ->
  Scoring.nearestInteger (100 * o) m r.
Proof.
  intros Hm HA HABC HC HB Hq Hp Hr. unfold Scoring.nearestInteger.
  apply Z.abs_le in Hq. apply Z.abs_le in Hp. apply Z.abs_le.
  assert (H1 : - (A * m) <= 2 * Mp * C * m - 2 * r * A * m < A * m).
  { subst A. split; nia. }
  assert (H2 : - (C * m) <= 2 * Mp * C * m - 200 * Mq * m <= C * m) by (split; nia).
  assert (H3 : - (100 * m) <= 200 * Mq * m - 200 * o * A <= 100 * m) by lia.
  assert (H4 : - ((A + 356) * m) < A * (2 * (r * m - 100 * o)) <= (A + 356) * m)
    by (split; nia).
  split.
  - destruct (Z_le_gt_dec (- m) (2 * (r * m - 100 * o))) as [H|H]; [exact H|].
    exfalso. assert (A * (2 * (r * m - 100 * o)) <= A * (- m - 1)) by nia. nia.
  - destruct (Z_le_gt_dec (2 * (r * m - 100 * o)) m) as [H|H]; [exact H|].
    exfalso. assert (A * (m + 1) <= A * (2 * (r * m - 100 * o))) by nia. nia.
Qed.

(** The score computed in binary64 from a count [o] of at most [m] is an
    integer nearest to [100 o / m]. *)
Lemma score_nearest o m :
  0 <= o <= m -> 0 < m < 2 ^ 33 ->
  Scoring.nearestInteger (100 * o) m
    (JS.Math_round (JS.mul (JS.div (JS.ofZ o) (JS.ofZ m)) (JS.ofZ 100))).
Proof.
  intros Ho Hm.
  destruct (Z.eq_dec o 0) as [->|Hne].
  - destruct (ofZ_pos m) as (Em & _ & _); [lia|].
    rewrite ofZ_0, Em, ofZ_100. cbn.
    unfold Scoring.nearestInteger. rewrite Z.abs_eq; lia.
  - destruct (div_counts o m) as (Mq & a & Ediv & HMq & Ha & Hq); [lia | lia |].
    destruct (mul_100 Mq a) as (Mp & c & Emul & HMp & Hc & Hp); [lia | lia |].
    rewrite Ediv, Emul.
    replace (c - a) with (- (a - c)) by lia.
    pose proof (Math_round_spec Mp (a - c) ltac:(lia) ltac:(lia)) as Hr.
    set (r := JS.Math_round _) in *.
    assert (HC : 2 ^ 6 <= 2 ^ c <= 2 ^ 8)
      by (split; apply Z.pow_le_mono_r; lia).
    assert (HA : 2 ^ 51 <= 2 ^ a) by (apply Z.pow_le_mono_r; lia).
    assert (HB : 0 < 2 ^ (a - c)) by (apply Z.pow_pos_nonneg; lia).
    apply (nearest_from_bounds o m Mq Mp r (2 ^ a) (2 ^ (a - c)) (2 ^ c));
      try assumption; try lia.
    + rewrite <- Z.pow_add_r by lia. f_equal. lia.
    + replace (2 * 2 ^ (a - c)) with (2 ^ (a - c + 1))
        by (rewrite Z.pow_add_r by lia; ring).
      exact Hr.
Qed.

End Binary64.

(** ** Tokenization *)

Section Tokens.

Lemma string_app_cons x (a b : string) : String x a ++ b = String x (a ++ b).
Proof. reflexivity. Qed.

Lemma string_app_nil_l (b : string) : "" ++ b = b.
Proof. reflexivity. Qed.

Lemma string_app_assoc (a b c : string) : (a ++ b) ++ c = a ++ (b ++ c).
Proof.
  induction a as [|x a IH]; [reflexivity|].
  now rewrite !string_app_cons, IH.
Qed.

Lemma string_app_nil_r (a : string) : a ++ "" = a.
Proof.
  induction a as [|x a IH]; [reflexivity|].
  now rewrite string_app_cons, IH.
Qed.

Lemma list_ascii_app (a b : string) :
  list_ascii_of_string (a ++ b)
  = (list_ascii_of_string a ++ list_ascii_of_string b)%list.
Proof.
  induction a as [|x a IH]; [reflexivity|].
  rewrite string_app_cons. cbn [list_ascii_of_string]. now rewrite IH.
Qed.

Lemma allWord_nil : Scoring.allWord "".
Proof. constructor. Qed.

Lemma allWord_snoc w c :
  Scoring.allWord w -> JS.isWordChar c = true ->
  Scoring.allWord (w ++ String c "").
Proof.
  unfold Scoring.allWord. intros Hw Hc. rewrite list_ascii_app.
  apply Forall_app. split; [exact Hw|]. simpl. constructor; [exact Hc | constructor].
Qed.

Lemma allNonWord_single c :
  JS.isWordChar c = false -> Scoring.allNonWord (String c "").
Proof. intros Hc. unfold Scoring.allNonWord. simpl. constructor; [exact Hc | constructor]. Qed.

Lemma allNonWord_snoc sep c :
  Scoring.allNonWord sep -> JS.isWordChar c = false ->
  Scoring.allNonWord (sep ++ String c "").
Proof.
  unfold Scoring.allNonWord. intros Hs Hc. rewrite list_ascii_app.
  apply Forall_app. split; [exact Hs|]. simpl. constructor; [exact Hc | constructor].
Qed.

Lemma app_not_empty (a : string) c : a ++ String c "" <> "".
Proof. destruct a; discriminate. Qed.

(** The scan cuts the string at its maximal separator runs: outside a run
    ([insep = false]) the piece collected so far is a word; inside a run
    the pieces that remain are those of the rest of the string. *)
Lemma split_go_runs s :
  (forall cur, Scoring.allWord cur ->
     Scoring.splitOnRuns (cur ++ s) (JS.split_go false cur s))
  /\ (forall w sep, Scoring.allWord w -> sep <> "" -> Scoring.allNonWord sep ->
        Scoring.splitOnRuns (w ++ sep ++ s) (w :: JS.split_go true "" s)).
Proof.
  induction s as [|c s [IHP IHQ]]; split.
  - intros cur Hcur. rewrite string_app_nil_r. now apply Scoring.split_last.
  - intros w sep Hw Hne Hsep. cbn [JS.split_go].
    apply Scoring.split_run; try assumption; [exact I|].
    apply Scoring.split_last, allWord_nil.
  - intros cur Hcur. cbn [JS.split_go].
    destruct (JS.isWordChar c) eqn:Hc.
    + replace (cur ++ String c s) with ((cur ++ String c "") ++ s)
        by (rewrite string_app_assoc; reflexivity).
      apply IHP. now apply allWord_snoc.
    + change (cur ++ String c s) with (cur ++ (String c "" ++ s)).
      apply IHQ; [assumption | discriminate | now apply allNonWord_single].
  - intros w sep Hw Hne Hsep. cbn [JS.split_go].
    destruct (JS.isWordChar c) eqn:Hc.
    + apply Scoring.split_run; try assumption.
      change (String c s) with (String c "" ++ s).
      apply IHP. change (String c "") with ("" ++ String c "").
      apply allWord_snoc; [apply allWord_nil | exact Hc].
    + replace (sep ++ String c s) with ((sep ++ String c "") ++ s)
        by (rewrite string_app_assoc; reflexivity).
      apply IHQ; [assumption | apply app_not_empty | now apply allNonWord_snoc].
Qed.

Lemma splitNonWord_runs s : Scoring.splitOnRuns s (JS.splitNonWord s).
Proof.
  unfold JS.splitNonWord.
  change s with ("" ++ s) at 1. apply split_go_runs, allWord_nil.
Qed.

(** Lower-casing neither makes nor unmakes a word character. *)
Lemma isWordChar_lowerChar c : JS.isWordChar (JS.lowerChar c) = JS.isWordChar c.
Proof. destruct c as [[] [] [] [] [] [] [] []]; vm_compute; reflexivity. Qed.

Lemma toLowerCase_app a b :
  JS.toLowerCase (a ++ b) = JS.toLowerCase a ++ JS.toLowerCase b.
Proof.
  induction a as [|x a IH]; [reflexivity|].
  rewrite !string_app_cons. cbn [JS.toLowerCase]. now rewrite string_app_cons, IH.
Qed.

Lemma split_go_toLowerCase s : forall insep cur,
  JS.split_go insep (JS.toLowerCase cur) (JS.toLowerCase s)
  = map JS.toLowerCase (JS.split_go insep cur s).
Proof.
  induction s as [|c s IH]; intros insep cur; cbn [JS.split_go JS.toLowerCase].
  - reflexivity.
  - rewrite isWordChar_lowerChar.
    destruct (JS.isWordChar c).
    + rewrite <- IH, toLowerCase_app. reflexivity.
    + destruct insep.
      * apply IH.
      * cbn [map]. f_equal. apply (IH true "").
Qed.

(** [toLowerCase] on a code unit below 256 is the lower case of the
    reference definitions. *)
Lemma lowerChar_lowerOf c : JS.lowerChar c = Scoring.lowerOf c.
Proof. destruct c as [[] [] [] [] [] [] [] []]; vm_compute; reflexivity. Qed.

Lemma toLowerCase_lowerCase s : JS.toLowerCase s = Scoring.lowerCase s.
Proof.
  induction s as [|c s IH]; cbn [JS.toLowerCase Scoring.lowerCase]; [reflexivity|].
  now rewrite IH, lowerChar_lowerOf.
Qed.

Lemma splitNonWord_tokens s : Scoring.tokens s (JS.splitNonWord (JS.toLowerCase s)).
Proof.
  exists (JS.splitNonWord s). split; [apply splitNonWord_runs|].
  unfold JS.splitNonWord.
  change (JS.split_go false "" (JS.toLowerCase s))
    with (JS.split_go false (JS.toLowerCase "") (JS.toLowerCase s)).
  rewrite (split_go_toLowerCase s false "").
  apply map_ext. intros piece. apply toLowerCase_lowerCase.
Qed.

(** A string has at least one piece. *)
Lemma tokens_not_empty s ts : Scoring.tokens s ts -> ts <> [].
Proof.
  intros (pieces & Hsplit & ->). destruct Hsplit; discriminate.
Qed.

Lemma split_go_length s : forall insep cur,
  (1 <= length (JS.split_go insep cur s) <= String.length s + 1)%nat.
Proof.
  induction s as [|c s IH]; intros insep cur; cbn [JS.split_go String.length].
  - simpl. lia.
  - destruct (JS.isWordChar c).
    + specialize (IH false (cur ++ String c "")). lia.
    + destruct insep.
      * specialize (IH true cur). lia.
      * cbn [length]. specialize (IH true ""). lia.
Qed.

Lemma toLowerCase_length s : String.length (JS.toLowerCase s) = String.length s.
Proof. induction s as [|c s IH]; simpl; [reflexivity | now rewrite IH]. Qed.

Lemma splitNonWord_length s :
  (1 <= length (JS.splitNonWord (JS.toLowerCase s)) <= String.length s + 1)%nat.
Proof.
  unfold JS.splitNonWord.
  pose proof (split_go_length (JS.toLowerCase s) false "") as H.
  now rewrite toLowerCase_length in H.
Qed.

End Tokens.

(** ** Counting *)

Section Counting.

Lemma overlap_loop (wordsA wordsB : list string) : forall acc,
  foldl (fun overlap word =>
           if bool_decide (word ∈ (list_to_set wordsA : gset string))
           then overlap + 1 else overlap) acc wordsB
  = acc + Scoring.overlapCount wordsA wordsB.
Proof.
  unfold Scoring.overlapCount.
  induction wordsB as [|w wordsB IH]; intros acc; cbn [foldl].
  - simpl. lia.
  - rewrite IH, filter_cons.
    destruct (decide (w ∈ wordsA)) as [Hin|Hout].
    + rewrite bool_decide_eq_true_2 by (now apply elem_of_list_to_set).
      cbn [length]. lia.
    + rewrite bool_decide_eq_false_2 by (now rewrite elem_of_list_to_set).
      lia.
Qed.

Lemma overlapCount_bounds (wordsA wordsB : list string) :
  0 <= Scoring.overlapCount wordsA wordsB <= Z.of_nat (length wordsB).
Proof.
  unfold Scoring.overlapCount.
  pose proof (length_filter (fun w => w ∈ wordsA) wordsB). lia.
Qed.

End Counting.

(** ** The similarity score *)

Section Similarity.

Lemma truthy_both a b :
  (negb (JS.truthy a) || negb (JS.truthy b))%bool = negb (JS.truthy a && JS.truthy b).
Proof. now destruct (JS.truthy a), (JS.truthy b). Qed.

(** The score of two non-empty strings that the engine can hold is an
    integer nearest to 100 times the count of the candidate's tokens that
    are tokens of the original, divided by the larger token count. *)
Lemma calculateSimilarity_nearest (a b : string) :
  Scoring.fits (Some a) -> Scoring.fits (Some b) ->
  (JS.truthy a && JS.truthy b)%bool = true ->
  0 <= Scoring.overlapCount (JS.splitNonWord (JS.toLowerCase a))
         (JS.splitNonWord (JS.toLowerCase b))
    <= Z.max (Z.of_nat (length (JS.splitNonWord (JS.toLowerCase a))))
             (Z.of_nat (length (JS.splitNonWord (JS.toLowerCase b))))
  /\ 0 < Z.max (Z.of_nat (length (JS.splitNonWord (JS.toLowerCase a))))
               (Z.of_nat (length (JS.splitNonWord (JS.toLowerCase b))))
  /\ Scoring.nearestInteger
       (100 * Scoring.overlapCount (JS.splitNonWord (JS.toLowerCase a))
                (JS.splitNonWord (JS.toLowerCase b)))
       (Z.max (Z.of_nat (length (JS.splitNonWord (JS.toLowerCase a))))
              (Z.of_nat (length (JS.splitNonWord (JS.toLowerCase b)))))
       (Scoring.calculateSimilarity (Some a) (Some b)).
Proof.
  intros Ha Hb Ht.
  unfold Scoring.calculateSimilarity.
  rewrite truthy_both, Ht. cbn [negb]. cbv zeta.
  pose proof (splitNonWord_length a) as HlenA.
  pose proof (splitNonWord_length b) as HlenB.
  pose proof (overlapCount_bounds (JS.splitNonWord (JS.toLowerCase a))
                (JS.splitNonWord (JS.toLowerCase b))) as Hcount.
  unfold Scoring.fits, Scoring.MAX_STRING_LENGTH in Ha, Hb.
  rewrite overlap_loop, Z.add_0_l.
  set (wordsA := JS.splitNonWord (JS.toLowerCase a)) in *.
  set (wordsB := JS.splitNonWord (JS.toLowerCase b)) in *.
  set (maxWords := Z.max (Z.of_nat (length wordsA)) (Z.of_nat (length wordsB))).
  assert (Hmax : 0 < maxWords < 2 ^ 33) by (unfold maxWords; lia).
  assert (Ho : 0 <= Scoring.overlapCount wordsA wordsB <= maxWords)
    by (unfold maxWords; lia).
  split; [exact Ho|]. split; [lia|].
  apply score_nearest; assumption.
Qed.

(** The score of strings that the engine can hold lies between 0 and 100. *)
Lemma calculateSimilarity_range (a b : option string) :
  Scoring.fits a -> Scoring.fits b ->
  0 <= Scoring.calculateSimilarity a b <= 100.
Proof.
  intros Ha Hb.
  destruct a as [a|], b as [b|]; try (cbn; lia).
  destruct (JS.truthy a && JS.truthy b)%bool eqn:Ht.
  - destruct (calculateSimilarity_nearest a b Ha Hb Ht) as (Ho & Hm & Hn).
    unfold Scoring.nearestInteger in Hn. apply Z.abs_le in Hn.
    set (r := Scoring.calculateSimilarity (Some a) (Some b)) in *.
    set (o := Scoring.overlapCount _ _) in *. set (m := Z.max _ _) in *.
    split; nia.
  - unfold Scoring.calculateSimilarity. rewrite truthy_both, Ht. cbn. lia.
Qed.

(** C1, as the code has it. For every pair of strings [original] and
    [candidate] that the engine can hold, [calculateSimilarity original
    candidate] is a score of the reference definition whose tokens are the
    pieces: both strings are cut at their runs of non-word characters, and
    all the pieces, in lower case, are the tokens, the empty piece before a
    leading run and after a trailing run included, so that no token list is
    empty; the tokens of the candidate that are present among the tokens of
    the original are counted (each occurrence in the candidate once), and
    the result is an integer nearest to 100 times that count divided by the
    larger of the two token counts; when either input is absent or empty
    the result is 0. *)
Theorem calculateSimilarity_reference (original candidate : option string) :
  Scoring.fits original -> Scoring.fits candidate ->
  Scoring.similarity original candidate
    (Scoring.calculateSimilarity original candidate)
  /\ forall s ts, Scoring.tokens s ts -> ts <> [].
Proof.
  intros Ha Hb. split; [|apply tokens_not_empty].
  destruct original as [a|], candidate as [b|]; try reflexivity.
  unfold Scoring.similarity, Scoring.similarityBy.
  destruct (JS.truthy a && JS.truthy b)%bool eqn:Ht.
  - destruct (calculateSimilarity_nearest a b Ha Hb Ht) as (Ho & Hm & Hn).
    exists (JS.splitNonWord (JS.toLowerCase a)), (JS.splitNonWord (JS.toLowerCase b)).
    split; [apply splitNonWord_tokens|]. split; [apply splitNonWord_tokens|].
    cbv zeta.
    destruct (Z.eqb_spec (Z.max (Z.of_nat (length (JS.splitNonWord (JS.toLowerCase a))))
                (Z.of_nat (length (JS.splitNonWord (JS.toLowerCase b))))) 0) as [H0|_];
      [lia | exact Hn].
  - unfold Scoring.calculateSimilarity. now rewrite truthy_both, Ht.
Qed.

Lemma calculateSimilarity_reference_witness :
  Scoring.fits (Some "A cat sat")
  /\ Scoring.fits (Some "a CAT")
  /\ Scoring.similarity (Some "A cat sat") (Some "a CAT")
       (Scoring.calculateSimilarity (Some "A cat sat") (Some "a CAT")).
Proof.
  assert (Ha : Scoring.fits (Some "A cat sat")) by (vm_compute; reflexivity).
  assert (Hb : Scoring.fits (Some "a CAT")) by (vm_compute; reflexivity).
  split; [exact Ha|]. split; [exact Hb|].
  exact (proj1 (calculateSimilarity_reference (Some "A cat sat") (Some "a CAT") Ha Hb)).
Defined.

(** No score but [r] is nearest to an integer [r]. *)
Lemma nearestInteger_exact n den r :
  0 < den -> Scoring.nearestInteger (n * den) den r -> r = n.
Proof. unfold Scoring.nearestInteger. intros Hden H. apply Z.abs_le in H. nia. Qed.

(** C1, counterexample: the score is not the one of the reference
    definition whose tokens are the words. "a cat." and "a cat" have the
    same two words, so that the reference score is 100, and the code
    returns 67: it counts the empty piece after the full stop as a third
    token of the original. "!!!" and "???" have no word at all, so that the
    reference score is 0, and the code returns 100: each string is cut into
    two empty pieces, which are equal tokens. *)
Lemma calculateSimilarity_counts_empty_pieces :
  Scoring.words "a cat." = ["a"; "cat"] /\ Scoring.words "a cat" = ["a"; "cat"]
  /\ Scoring.similarityOfWords (Some "a cat.") (Some "a cat") 100
  /\ Scoring.calculateSimilarity (Some "a cat.") (Some "a cat") = 67
  /\ ~ Scoring.similarityOfWords (Some "a cat.") (Some "a cat")
        (Scoring.calculateSimilarity (Some "a cat.") (Some "a cat"))
  /\ Scoring.words "!!!" = [] /\ Scoring.words "???" = []
  /\ Scoring.similarityOfWords (Some "!!!") (Some "???") 0
  /\ Scoring.calculateSimilarity (Some "!!!") (Some "???") = 100
  /\ ~ Scoring.similarityOfWords (Some "!!!") (Some "???")
        (Scoring.calculateSimilarity (Some "!!!") (Some "???")).
Proof.
  assert (Hcat : Scoring.calculateSimilarity (Some "a cat.") (Some "a cat") = 67)
    by (vm_compute; reflexivity).
  assert (Hbang : Scoring.calculateSimilarity (Some "!!!") (Some "???") = 100)
    by (vm_compute; reflexivity).
  split; [vm_compute; reflexivity|]. split; [vm_compute; reflexivity|].
  split.
  { exists ["a"; "cat"], ["a"; "cat"].
    split; [vm_compute; reflexivity|]. split; [vm_compute; reflexivity|].
    vm_compute. discriminate. }
  split; [exact Hcat|]. split.
  { rewrite Hcat. intros (ta & tb & Ha & Hb & H).
    unfold Scoring.wordTokens in Ha, Hb. subst ta tb.
    vm_compute in H. apply H. reflexivity. }
  split; [vm_compute; reflexivity|]. split; [vm_compute; reflexivity|].
  split.
  { exists [], []. split; [vm_compute; reflexivity|]. split; [vm_compute; reflexivity|].
    reflexivity. }
  split; [exact Hbang|].
  rewrite Hbang. intros (ta & tb & Ha & Hb & H).
  unfold Scoring.wordTokens in Ha, Hb. subst ta tb.
  vm_compute in H. discriminate.
Qed.

(** The examples of the specification. *)
Example calculateSimilarity_empty :
  Scoring.calculateSimilarity (Some "") (Some "x") = 0.
Proof. reflexivity. Qed.

Example calculateSimilarity_same :
  Scoring.calculateSimilarity (Some "a cat") (Some "a cat") = 100.
Proof. vm_compute. reflexivity. Qed.

Example calculateSimilarity_two_of_three :
  Scoring.calculateSimilarity (Some "a cat sat") (Some "a cat") = 67.
Proof. vm_compute. reflexivity. Qed.

(** A repeated token of the candidate counts at each occurrence, and the
    empty piece after a trailing separator is a token like any other. *)
Example calculateSimilarity_repeated :
  Scoring.calculateSimilarity (Some "a cat sat") (Some "cat cat dog") = 67.
Proof. vm_compute. reflexivity. Qed.

Example calculateSimilarity_trailing_separator :
  Scoring.calculateSimilarity (Some "cat!") (Some "dog!") = 50.
Proof. vm_compute. reflexivity. Qed.

End Similarity.
(* ===================================================================== *)
(** * Proofs *)
(* ===================================================================== *)

(** ** [Map] *)

Section MapFacts.
Context {V : Type}.
Implicit Types (m : Map.t V) (k : string) (v : V).

Lemma Map_get_set_eq k v m : Map.get k (Map.set k v m) = Some v.
Proof.
  induction m as [|[k' v'] m IH]; simpl.
  - now rewrite String.eqb_refl.
  - destruct (String.eqb k k') eqn:E; simpl.
    + now rewrite String.eqb_refl.
    + now rewrite E.
Qed.

Lemma Map_get_set_ne k k' v m :
  k <> k' -> Map.get k' (Map.set k v m) = Map.get k' m.
Proof.
  intros Hne. induction m as [|[k0 v0] m IH]; simpl.
  - destruct (String.eqb k' k) eqn:E; [|reflexivity].
    apply String.eqb_eq in E. congruence.
  - destruct (String.eqb k k0) eqn:E; simpl.
    + apply String.eqb_eq in E. subst k0.
      destruct (String.eqb k' k) eqn:E'; [|reflexivity].
      apply String.eqb_eq in E'. congruence.
    + now rewrite IH.
Qed.

Lemma Map_get_In k m : Map.get k m <> None <-> In k (Map.keys m).
Proof.
  induction m as [|[k' v'] m IH]; simpl.
  - tauto.
  - destruct (String.eqb k k') eqn:E.
    + apply String.eqb_eq in E. subst. split; [auto | congruence].
    + apply String.eqb_neq in E. rewrite IH. split; [auto | intros [?|?]; congruence].
Qed.

Lemma Map_has_In k m : Map.has k m = true <-> In k (Map.keys m).
Proof.
  unfold Map.has. rewrite <- Map_get_In.
  destruct (Map.get k m); split; congruence.
Qed.

Lemma Map_has_false k m : Map.has k m = false <-> ~ In k (Map.keys m).
Proof.
  rewrite <- Map_has_In. destruct (Map.has k m); split; congruence.
Qed.

Lemma Map_get_Some_In k v m : Map.get k m = Some v -> In (k, v) m.
Proof.
  induction m as [|[k' v'] m IH]; simpl; [discriminate|].
  destruct (String.eqb k k') eqn:E.
  - apply String.eqb_eq in E. intros [= ->]. subst. now left.
  - auto.
Qed.

Lemma Map_In_get k v m :
  List.NoDup (Map.keys m) -> In (k, v) m -> Map.get k m = Some v.
Proof.
  induction m as [|[k' v'] m IH]; simpl; [tauto|].
  intros Hnd [H|H].
  - injection H as -> ->. now rewrite String.eqb_refl.
  - apply List.NoDup_cons_iff in Hnd as [Hni Hnd].
    destruct (String.eqb k k') eqn:E.
    + apply String.eqb_eq in E. subst. exfalso. apply Hni.
      change (In (fst (k', v)) (map fst m)). now apply in_map.
    + auto.
Qed.

Lemma Map_keys_set_present k v m :
  In k (Map.keys m) -> Map.keys (Map.set k v m) = Map.keys m.
Proof.
  induction m as [|[k' v'] m IH]; simpl; [tauto|].
  intros H. destruct (String.eqb k k') eqn:E; simpl.
  - apply String.eqb_eq in E. now subst.
  - apply String.eqb_neq in E. f_equal. apply IH. destruct H; congruence.
Qed.

Lemma Map_set_absent k v m :
  ~ In k (Map.keys m) -> Map.set k v m = (m ++ [(k, v)])%list.
Proof.
  induction m as [|[k' v'] m IH]; simpl; [reflexivity|].
  intros H. destruct (String.eqb k k') eqn:E.
  - apply String.eqb_eq in E. subst. tauto.
  - f_equal. apply IH. tauto.
Qed.

Lemma Map_size_set_present k v m :
  In k (Map.keys m) -> Map.size (Map.set k v m) = Map.size m.
Proof.
  intros H. unfold Map.size.
  rewrite <- (length_map fst (Map.set k v m)), <- (length_map fst m).
  change (map fst (Map.set k v m)) with (Map.keys (Map.set k v m)).
  now rewrite Map_keys_set_present.
Qed.

Lemma Map_size_set_absent k v m :
  ~ In k (Map.keys m) -> Map.size (Map.set k v m) = Map.size m + 1.
Proof.
  intros H. rewrite Map_set_absent by assumption. unfold Map.size.
  rewrite length_app. simpl. lia.
Qed.

Lemma Map_keys_delete k m :
  Map.keys (Map.delete k m) = List.filter (fun k' => negb (String.eqb k k')) (Map.keys m).
Proof.
  induction m as [|[k' v'] m IH]; simpl; [reflexivity|].
  destruct (String.eqb k k'); simpl; now rewrite IH.
Qed.

Lemma Map_keys_delete_In k k' m :
  In k' (Map.keys (Map.delete k m)) <-> In k' (Map.keys m) /\ k' <> k.
Proof.
  rewrite Map_keys_delete, filter_In, negb_true_iff, String.eqb_neq.
  intuition congruence.
Qed.

Lemma Map_get_delete_ne k k' m :
  k <> k' -> Map.get k' (Map.delete k m) = Map.get k' m.
Proof.
  intros Hne. induction m as [|[k0 v0] m IH]; simpl; [reflexivity|].
  destruct (String.eqb k k0) eqn:E; simpl.
  - apply String.eqb_eq in E. subst k0.
    destruct (String.eqb k' k) eqn:E'; [|assumption].
    apply String.eqb_eq in E'. congruence.
  - now rewrite IH.
Qed.

Lemma Map_get_delete_eq k m : Map.get k (Map.delete k m) = None.
Proof.
  destruct (Map.get k (Map.delete k m)) eqn:E; [|reflexivity].
  assert (H : In k (Map.keys (Map.delete k m))) by (apply Map_get_In; congruence).
  apply Map_keys_delete_In in H. tauto.
Qed.

Lemma Map_keys_delete_absent k m :
  ~ In k (Map.keys m) -> Map.delete k m = m.
Proof.
  induction m as [|[k' v'] m IH]; simpl; [reflexivity|].
  intros H. destruct (String.eqb k k') eqn:E.
  - apply String.eqb_eq in E. subst. tauto.
  - f_equal. apply IH. tauto.
Qed.

Lemma Map_NoDup_delete k m :
  List.NoDup (Map.keys m) -> List.NoDup (Map.keys (Map.delete k m)).
Proof. rewrite Map_keys_delete. apply List.NoDup_filter. Qed.

Lemma Map_NoDup_set k v m :
  List.NoDup (Map.keys m) -> List.NoDup (Map.keys (Map.set k v m)).
Proof.
  intros H. destruct (in_dec string_dec k (Map.keys m)) as [Hin|Hni].
  - now rewrite Map_keys_set_present.
  - rewrite Map_set_absent by assumption. unfold Map.keys.
    rewrite map_app. simpl. apply List.NoDup_app; [assumption| |].
    + constructor; [simpl; tauto | constructor].
    + intros x Hx [<-|[]]. now apply Hni.
Qed.

Lemma Map_keys_set_In k k' v m :
  In k' (Map.keys (Map.set k v m)) <-> k' = k \/ In k' (Map.keys m).
Proof.
  destruct (in_dec string_dec k (Map.keys m)) as [Hin|Hni].
  - rewrite Map_keys_set_present by assumption. intuition congruence.
  - rewrite Map_set_absent by assumption. unfold Map.keys.
    rewrite map_app, in_app_iff. simpl. intuition congruence.
Qed.
End MapFacts.

(** ** The store *)

Lemma deref_update_eq a r st :
  (a < length (heap st))%nat -> deref (update a r st) a = Some r.
Proof. intros H. unfold deref, update. simpl. now apply list_lookup_insert_eq. Qed.

Lemma deref_update_ne a b r st :
  a <> b -> deref (update a r st) b = deref st b.
Proof. intros H. unfold deref, update. simpl. now apply list_lookup_insert_ne. Qed.

Lemma deref_Some_lt a r st : deref st a = Some r -> (a < length (heap st))%nat.
Proof. unfold deref. apply lookup_lt_Some. Qed.

Lemma lookupRoom_Some roomCode st a r :
  RoomManager.lookupRoom roomCode st = Some (a, r) <->
  Map.get roomCode (rooms st) = Some a /\ deref st a = Some r.
Proof.
  unfold RoomManager.lookupRoom.
  destruct (Map.get roomCode (rooms st)) as [a'|]; [|intuition congruence].
  destruct (deref st a') as [r'|] eqn:E; split.
  - intros [= -> ->]. auto.
  - intros [[= ->] H]. congruence.
  - discriminate.
  - intros [[= ->] H]. congruence.
Qed.

Lemma getRoom_Some roomCode st r :
  RoomManager.getRoom roomCode st = Some r <->
  exists a, RoomManager.lookupRoom roomCode st = Some (a, r).
Proof.
  unfold RoomManager.getRoom.
  destruct (RoomManager.lookupRoom roomCode st) as [[a r']|]; split.
  - intros [= ->]. eauto.
  - intros [a' [= -> ->]]. reflexivity.
  - discriminate.
  - intros [a' H]. discriminate.
Qed.

Lemma getRoom_None roomCode st :
  RoomManager.getRoom roomCode st = None <->
  RoomManager.lookupRoom roomCode st = None.
Proof.
  unfold RoomManager.getRoom.
  destruct (RoomManager.lookupRoom roomCode st) as [[a r']|]; split; congruence.
Qed.

(** ** [createRoom] *)

(** C10. A [createRoom] call whose code loop ends returns the code and
    stores under it a room whose configuration holds the defaults
    [rounds = 3], [difficulty = 'medium'], [categories = ['random']],
    [mode = 'classic'] for the fields the client's config omits, whose only
    player is the creator, named ['Host'] when [config.playerName] is
    absent, with score 0, who is also the host, in state [WAITING] with
    [currentRound = 0]. *)
Theorem createRoom_defaults :
  forall (cfg : ClientConfig) (socket : string) (attempts : list (list nat))
         (st : Store) (roomCode : string),
    RoomManager.freshCode attempts (rooms st) = Some roomCode ->
    exists st' room creator,
      RoomManager.createRoom (Some cfg) socket attempts st = Some (st', inr roomCode)
      /\ RoomManager.getRoom roomCode st' = Some room
      /\ code room = roomCode
      /\ (cc_rounds cfg = None -> rounds (config room) = 3)
      /\ (cc_difficulty cfg = None -> difficulty (config room) = "medium")
      /\ (cc_categories cfg = None -> categories (config room) = ["random"])
      /\ (cc_mode cfg = None -> mode (config room) = "classic")
      /\ players room = [(socket, creator)]
      /\ p_id creator = socket
      /\ p_score creator = 0
      /\ (cc_playerName cfg = None -> p_name creator = "Host")
      /\ host room = socket
      /\ state room = WAITING
      /\ currentRound room = 0.
Proof.
  intros cfg socket attempts st roomCode Hfresh.
  unfold RoomManager.createRoom. rewrite Hfresh.
  eexists _, _, _. split; [reflexivity|].
  split.
  { apply getRoom_Some. exists (length (heap st)).
    apply lookupRoom_Some. simpl. split.
    - apply Map_get_set_eq.
    - unfold deref. simpl. apply list_lookup_middle. reflexivity. }
  simpl. repeat split; try reflexivity.
  - now intros ->.
  - now intros ->.
  - now intros ->.
  - now intros ->.
  - now intros ->.
Qed.

Lemma createRoom_defaults_witness :
  exists st' room creator,
    RoomManager.createRoom (Some createRoom_defaults_cfg) "socket-1"
      [[0; 1; 2; 3; 4; 5]%nat] (Server.store Server.initial)
    = Some (st', inr "ABCDEF")
    /\ RoomManager.getRoom "ABCDEF" st' = Some room
    /\ code room = "ABCDEF"
    /\ (cc_rounds createRoom_defaults_cfg = None -> rounds (config room) = 3)
    /\ (cc_difficulty createRoom_defaults_cfg = None -> difficulty (config room) = "medium")
    /\ (cc_categories createRoom_defaults_cfg = None -> categories (config room) = ["random"])
    /\ (cc_mode createRoom_defaults_cfg = None -> mode (config room) = "classic")
    /\ players room = [("socket-1", creator)]
    /\ p_id creator = "socket-1"
    /\ p_score creator = 0
    /\ (cc_playerName createRoom_defaults_cfg = None -> p_name creator = "Host")
    /\ host room = "socket-1"
    /\ state room = WAITING
    /\ currentRound room = 0.
Proof.
  apply (createRoom_defaults createRoom_defaults_cfg "socket-1"
           [[0; 1; 2; 3; 4; 5]%nat] (Server.store Server.initial) "ABCDEF").
  reflexivity.
Defined.

(** ** [joinRoom] *)

(** C6, as the code has it. [joinRoom] on a code with no live room fails
    with "Room does not exist." and changes nothing; on a room whose
    player count is at or above the capacity (6 unless configured) it fails
    with "Room is full." and changes nothing; on a room under capacity it
    succeeds and stores for the socket a player with score 0; the player
    count grows by exactly one when the socket was not yet a member of the
    room, and stays as it was when the socket was one already (the entry of
    the socket is then replaced). *)
Theorem joinRoom_result :
  forall (env : Env) (st : Store) (roomCode socket : string)
         (playerName : option string),
    match RoomManager.getRoom roomCode st with
    | None =>
        RoomManager.joinRoom env roomCode socket playerName st
        = (st, {| RoomManager.success := false;
                  RoomManager.message := "Room does not exist." |})
    | Some room =>
        if Z.geb (Map.size (players room)) (RoomManager.MAX_PLAYERS env) then
          RoomManager.joinRoom env roomCode socket playerName st
          = (st, {| RoomManager.success := false;
                    RoomManager.message := "Room is full." |})
        else
          exists st' room' joined,
            RoomManager.joinRoom env roomCode socket playerName st
            = (st', {| RoomManager.success := true;
                       RoomManager.message := "Joined room successfully." |})
            /\ RoomManager.getRoom roomCode st' = Some room'
            /\ Map.get socket (players room') = Some joined
            /\ p_score joined = 0
            /\ (~ In socket (members room) ->
                Map.size (players room') = Map.size (players room) + 1)
            /\ (In socket (members room) ->
                Map.size (players room') = Map.size (players room))
    end.
Proof.
  intros env st roomCode socket playerName.
  unfold RoomManager.joinRoom, RoomManager.getRoom.
  destruct (RoomManager.lookupRoom roomCode st) as [[a room]|] eqn:Hl; [|reflexivity].
  destruct (Z.geb (Map.size (players room)) (RoomManager.MAX_PLAYERS env)); [reflexivity|].
  apply lookupRoom_Some in Hl as [Hget Hderef].
  eexists _, _, _. split; [reflexivity|].
  split.
  { unfold RoomManager.lookupRoom. simpl. rewrite Hget.
    rewrite deref_update_eq by (eapply deref_Some_lt; eassumption). reflexivity. }
  simpl. split; [apply Map_get_set_eq|]. split; [reflexivity|].
  split; intros H.
  - now apply Map_size_set_absent.
  - now apply Map_size_set_present.
Qed.

(** C6, counterexample: it is not so that every [joinRoom] on a room under
    capacity increases the player count by one. The creator of a room who
    joins it again succeeds, and the room still has one player. *)
Lemma joinRoom_again_keeps_count :
  ~ (forall (env : Env) (st : Store) (roomCode socket : string)
            (playerName : option string) (room : Room),
        RoomManager.getRoom roomCode st = Some room ->
        Map.size (players room) < RoomManager.MAX_PLAYERS env ->
        exists room',
          RoomManager.getRoom roomCode
            (fst (RoomManager.joinRoom env roomCode socket playerName st))
          = Some room'
          /\ Map.size (players room') = Map.size (players room) + 1).
Proof.
  intros H.
  destruct (H rejoin_env rejoin_store "ABCDEF" "socket-1" (Some "Ann") _ eq_refl)
    as [room' [Hroom Hsize]].
  - reflexivity.
  - vm_compute in Hroom. injection Hroom as <-. vm_compute in Hsize. discriminate.
Qed.

(** ** [removePlayer] *)

Lemma Map_delete_In {V} k (m : Map.t V) kv : In kv (Map.delete k m) -> In kv m.
Proof.
  induction m as [|[k' v'] m IH]; simpl; [tauto|].
  destruct (String.eqb k k'); simpl; intuition.
Qed.

Lemma Map_delete_In_ne {V} k (m : Map.t V) k' v :
  In (k', v) m -> k <> k' -> In (k', v) (Map.delete k m).
Proof.
  induction m as [|[k0 v0] m IH]; simpl; [tauto|].
  intros [H|H] Hne.
  - injection H as -> ->. destruct (String.eqb k k') eqn:E.
    + apply String.eqb_eq in E. congruence.
    + now left.
  - destruct (String.eqb k k0); simpl; auto.
Qed.

Lemma Map_NoDup_values_delete {V} k (m : Map.t V) :
  List.NoDup (Map.values m) -> List.NoDup (Map.values (Map.delete k m)).
Proof.
  induction m as [|[k' v'] m IH]; simpl; [auto|].
  intros H. apply List.NoDup_cons_iff in H as [Hni Hnd].
  destruct (String.eqb k k'); simpl; [auto|].
  constructor; [|auto]. intros Hin. apply Hni.
  unfold Map.values in *. apply in_map_iff in Hin as [[k0 v0] [Heq Hin]].
  simpl in Heq. subst. apply Map_delete_In in Hin.
  change v' with (snd (k0, v')). now apply in_map.
Qed.

Lemma wf_get_In st c a :
  wfStore st -> (Map.get c (rooms st) = Some a <-> In (c, a) (rooms st)).
Proof.
  intros [Hk _]. split; [apply Map_get_Some_In | now apply Map_In_get].
Qed.

Lemma wf_addr_code st c c' a :
  wfStore st -> In (c, a) (rooms st) -> In (c', a) (rooms st) -> c = c'.
Proof.
  intros (_ & _ & H) H1 H2.
  destruct (H _ _ H1) as (r & Hr & Hc & _).
  destruct (H _ _ H2) as (r' & Hr' & Hc' & _). congruence.
Qed.

Lemma wf_code_addr st c a a' :
  wfStore st -> In (c, a) (rooms st) -> In (c, a') (rooms st) -> a = a'.
Proof.
  intros Hwf H1 H2. apply wf_get_In in H1, H2; [congruence | assumption..].
Qed.

Lemma update_update a r r' st : update a r (update a r' st) = update a r st.
Proof. unfold update. simpl. now rewrite list_insert_insert_eq. Qed.

(** Replacing the room object of an entry by a well-formed one with the
    same code keeps the registry well-formed. *)
Lemma wfStore_update st c a r :
  wfStore st -> In (c, a) (rooms st) -> wfRoom r -> code r = c ->
  wfStore (update a r st).
Proof.
  intros Hwf Hin Hr Hc. pose proof Hwf as (Hk & Hv & Hrooms).
  split; [assumption|]. split; [assumption|].
  intros c' a' Hin'. simpl in Hin'.
  destruct (Nat.eq_dec a a') as [<-|Hne].
  - exists r. split.
    + destruct (Hrooms _ _ Hin) as (r0 & Hr0 & _).
      apply deref_update_eq. eapply deref_Some_lt; eassumption.
    + split; [|assumption]. rewrite Hc. eapply wf_addr_code; eassumption.
  - destruct (Hrooms _ _ Hin') as (r' & Hr' & Hc' & Hwf').
    exists r'. rewrite deref_update_ne by assumption. auto.
Qed.

(** Deleting an entry keeps the registry well-formed, whatever is stored
    at the address of the entry. *)
Lemma wfStore_delete st c a r :
  wfStore st -> In (c, a) (rooms st) ->
  wfStore {| heap := heap (update a r st); rooms := Map.delete c (rooms st) |}.
Proof.
  intros Hwf Hin. pose proof Hwf as (Hk & Hv & Hrooms).
  split; [now apply Map_NoDup_delete|].
  split; [now apply Map_NoDup_values_delete|].
  intros c' a' Hin'. simpl in Hin'.
  assert (Hc : c' <> c).
  { intros ->. assert (H : In c (Map.keys (Map.delete c (rooms st)))).
    { change c with (fst (c, a')). now apply in_map. }
    apply Map_keys_delete_In in H. tauto. }
  apply Map_delete_In in Hin'.
  assert (Ha : a <> a').
  { intros <-. apply Hc. eapply wf_addr_code; eassumption. }
  destruct (Hrooms _ _ Hin') as (r' & Hr' & Hc' & Hwf').
  exists r'. split; [|auto].
  unfold deref in *. simpl. now rewrite list_lookup_insert_ne.
Qed.

Lemma othersThan_keys socketId r :
  Map.keys (Map.delete socketId (players r)) = othersThan socketId r.
Proof. apply Map_keys_delete. Qed.

Lemma wfRoom_leave_other socketId r :
  wfRoom r -> host r <> socketId ->
  wfRoom (with_players r (Map.delete socketId (players r))).
Proof.
  intros (Hnd & Hne & Hh) Hhost. unfold wfRoom, hostIsMember. simpl.
  split; [now apply Map_NoDup_delete|]. split.
  - apply List.Forall_forall. intros x Hx. apply Map_keys_delete_In in Hx as [Hx _].
    rewrite List.Forall_forall in Hne. auto.
  - apply Map_keys_delete_In. auto.
Qed.

Lemma wfRoom_leave_host socketId r next more :
  wfRoom r ->
  Map.keys (Map.delete socketId (players r)) = next :: more ->
  wfRoom (with_host (with_players r (Map.delete socketId (players r))) next).
Proof.
  intros (Hnd & Hne & Hh) Hkeys. unfold wfRoom, hostIsMember. simpl.
  split; [now apply Map_NoDup_delete|]. split.
  - apply List.Forall_forall. intros x Hx. apply Map_keys_delete_In in Hx as [Hx _].
    rewrite List.Forall_forall in Hne. auto.
  - rewrite Hkeys. now left.
Qed.

Lemma removeFrom_turn socketId c a r st :
  deref st a = Some r -> wfRoom r ->
  turn socketId c a r st (RoomManager.removeFrom socketId (c, a) st).
Proof.
  intros Hr Hwf. unfold RoomManager.removeFrom. rewrite Hr.
  destruct (Map.has socketId (players r)) eqn:Hhas.
  - apply Map_has_In in Hhas. simpl.
    destruct (String.eqb (host r) socketId) eqn:Hh.
    + apply String.eqb_eq in Hh.
      destruct (Map.keys (Map.delete socketId (players r))) as [|next more] eqn:Hk.
      * apply turn_close; auto. rewrite <- othersThan_keys. exact Hk.
      * assert (Hnext : JS.truthy next = true).
        { destruct Hwf as (_ & Hne & _). rewrite List.Forall_forall in Hne.
          assert (Hin : In next (Map.keys (players r))).
          { eapply Map_keys_delete_In. rewrite Hk. now left. }
          apply Hne in Hin. destruct next; [congruence | reflexivity]. }
        rewrite Hnext, update_update.
        eapply turn_promote; eauto. rewrite <- othersThan_keys. exact Hk.
    + apply String.eqb_neq in Hh. now apply turn_member.
  - apply Map_has_false in Hhas. now apply turn_absent.
Qed.

Lemma turn_wf socketId c a r st out :
  wfStore st -> In (c, a) (rooms st) -> deref st a = Some r ->
  turn socketId c a r st out -> wfStore (fst out).
Proof.
  intros Hwf Hin Hr Ht. pose proof Hwf as (_ & _ & Hrooms).
  destruct (Hrooms _ _ Hin) as (r0 & Hr0 & Hc & Hwfr).
  assert (r0 = r) by congruence. subst r0.
  destruct Ht; simpl.
  - assumption.
  - eapply wfStore_update; eauto. now apply wfRoom_leave_other.
  - eapply wfStore_update; eauto. eapply wfRoom_leave_host; eauto.
    rewrite othersThan_keys. exact H1.
  - now apply wfStore_delete.
Qed.

Lemma turn_rooms socketId c a r st st' :
  turn socketId c a r st (st', false) -> rooms st' = rooms st.
Proof. intros Ht. inversion Ht; reflexivity. Qed.

Arguments RoomManager.removeFrom : simpl never.
Arguments Scoring.calculateSimilarity : simpl never.

Lemma turn_lookup_other socketId c0 a0 r0 st out c a :
  wfStore st -> In (c0, a0) (rooms st) -> In (c, a) (rooms st) ->
  (c, a) <> (c0, a0) ->
  turn socketId c0 a0 r0 st out ->
  RoomManager.lookupRoom c (fst out) = RoomManager.lookupRoom c st.
Proof.
  intros Hwf Hin0 Hin Hne Ht.
  assert (Hc : c0 <> c).
  { intros ->. apply Hne. f_equal. eapply wf_code_addr; eassumption. }
  assert (Ha : a0 <> a).
  { intros ->. apply Hne. f_equal. eapply wf_addr_code; eassumption. }
  apply wf_get_In in Hin; [|assumption].
  unfold RoomManager.lookupRoom.
  destruct Ht; simpl; try reflexivity.
  - rewrite Hin. now rewrite deref_update_ne.
  - rewrite Hin. now rewrite deref_update_ne.
  - rewrite Map_get_delete_ne by assumption. rewrite Hin.
    unfold deref. simpl. now rewrite list_lookup_insert_ne.
Qed.

Lemma removeLoop_wf socketId entries st :
  wfStore st -> incl entries (rooms st) ->
  wfStore (RoomManager.removeLoop socketId entries st).
Proof.
  revert st. induction entries as [|[c a] more IH]; intros st Hwf Hincl; simpl.
  - assumption.
  - assert (Hin : In (c, a) (rooms st)) by (apply Hincl; now left).
    pose proof Hwf as (_ & _ & Hrooms).
    destruct (Hrooms _ _ Hin) as (r & Hr & _ & Hwfr).
    pose proof (removeFrom_turn socketId c a r st Hr Hwfr) as Ht.
    pose proof (turn_wf _ _ _ _ _ _ Hwf Hin Hr Ht) as Hwf1.
    destruct (RoomManager.removeFrom socketId (c, a) st) as [st1 stop].
    destruct stop; [assumption|].
    apply IH; [assumption|].
    rewrite (turn_rooms _ _ _ _ _ _ Ht).
    intros x Hx. apply Hincl. now right.
Qed.

Lemma removeLoop_untouched socketId entries st c a :
  wfStore st -> incl entries (rooms st) -> In (c, a) (rooms st) ->
  ~ In (c, a) entries ->
  RoomManager.lookupRoom c (RoomManager.removeLoop socketId entries st)
  = RoomManager.lookupRoom c st.
Proof.
  revert st. induction entries as [|[c0 a0] more IH]; intros st Hwf Hincl Hin Hni; simpl.
  - reflexivity.
  - assert (Hin0 : In (c0, a0) (rooms st)) by (apply Hincl; now left).
    pose proof Hwf as (_ & _ & Hrooms).
    destruct (Hrooms _ _ Hin0) as (r0 & Hr0 & _ & Hwfr0).
    pose proof (removeFrom_turn socketId c0 a0 r0 st Hr0 Hwfr0) as Ht.
    pose proof (turn_wf _ _ _ _ _ _ Hwf Hin0 Hr0 Ht) as Hwf1.
    assert (Hne : (c, a) <> (c0, a0)) by (intros E; apply Hni; now left).
    pose proof (turn_lookup_other _ _ _ _ _ _ _ _ Hwf Hin0 Hin Hne Ht) as Hother.
    destruct (RoomManager.removeFrom socketId (c0, a0) st) as [st1 stop].
    simpl in *. destruct stop; [assumption|].
    rewrite <- Hother. pose proof (turn_rooms _ _ _ _ _ _ Ht) as Hrooms1.
    apply IH; try assumption.
    + rewrite Hrooms1. intros x Hx. apply Hincl. now right.
    + now rewrite Hrooms1.
    + intros Hx. apply Hni. now right.
Qed.

Lemma members_leave socketId r :
  members (with_players r (Map.delete socketId (players r))) = othersThan socketId r.
Proof. unfold members. simpl. apply othersThan_keys. Qed.

Lemma othersThan_gone socketId r : ~ In socketId (othersThan socketId r).
Proof.
  unfold othersThan. rewrite filter_In, negb_true_iff, String.eqb_neq. tauto.
Qed.

Lemma wf_lookup st c a r :
  wfStore st -> In (c, a) (rooms st) -> deref st a = Some r ->
  RoomManager.lookupRoom c st = Some (a, r).
Proof.
  intros Hwf Hin Hr. apply lookupRoom_Some. split; [|assumption].
  now apply wf_get_In.
Qed.

Lemma getRoom_lookup c st st' :
  RoomManager.lookupRoom c st' = RoomManager.lookupRoom c st ->
  RoomManager.getRoom c st' = RoomManager.getRoom c st.
Proof. unfold RoomManager.getRoom. now intros ->. Qed.

(** The loop of [removePlayer], for a room whose host is the player and
    from which the loop takes the player away. *)
Lemma removeLoop_host socketId entries st c a r :
  wfStore st -> incl entries (rooms st) -> List.NoDup entries ->
  In (c, a) (rooms st) -> deref st a = Some r ->
  In socketId (members r) -> host r = socketId ->
  (forall r', RoomManager.getRoom c (RoomManager.removeLoop socketId entries st) = Some r' ->
              ~ In socketId (members r')) ->
  match othersThan socketId r with
  | [] => RoomManager.getRoom c (RoomManager.removeLoop socketId entries st) = None
  | next :: _ =>
      exists r',
        RoomManager.getRoom c (RoomManager.removeLoop socketId entries st) = Some r'
        /\ members r' = othersThan socketId r
        /\ host r' = next
  end.
Proof.
  revert st. induction entries as [|[c0 a0] more IH];
    intros st Hwf Hincl Hnd Hin Hr Hmem Hhost Hgone;
    cbn [RoomManager.removeLoop] in *.
  - exfalso. apply (Hgone r); [|assumption].
    apply getRoom_Some. exists a. now apply wf_lookup.
  - assert (Hin0 : In (c0, a0) (rooms st)) by (apply Hincl; now left).
    pose proof Hwf as (_ & _ & Hrooms).
    destruct (Hrooms _ _ Hin0) as (r0 & Hr0 & _ & Hwfr0).
    pose proof (removeFrom_turn socketId c0 a0 r0 st Hr0 Hwfr0) as Ht.
    pose proof (turn_wf _ _ _ _ _ _ Hwf Hin0 Hr0 Ht) as Hwf1.
    apply List.NoDup_cons_iff in Hnd as [Hni Hnd].
    assert (Hincl' : incl more (rooms st)) by (intros x Hx; apply Hincl; now right).
    destruct (decide ((c, a) = (c0, a0))) as [E|Hne].
    + injection E as <- <-. assert (r0 = r) by congruence. subst r0.
      destruct Ht as [Habs | Hm Hh | next more' Hm Hh Ho | Hm Hh Ho];
        try tauto; simpl in Hwf1.
      * (* a member is promoted *)
        rewrite Ho.
        assert (Hl : RoomManager.lookupRoom c
                       (RoomManager.removeLoop socketId more
                          (update a (with_host (with_players r
                             (Map.delete socketId (players r))) next) st))
                     = Some (a, with_host (with_players r
                             (Map.delete socketId (players r))) next)).
        { rewrite removeLoop_untouched with (a := a); try assumption.
          apply wf_lookup; try assumption.
          apply deref_update_eq. eapply deref_Some_lt; eassumption. }
        eexists. split; [apply getRoom_Some; eauto|].
        split; [|reflexivity]. unfold members. simpl.
        rewrite othersThan_keys. exact Ho.
      * (* the room is closed *)
        rewrite Ho. apply getRoom_None. unfold RoomManager.lookupRoom. simpl.
        now rewrite Map_get_delete_eq.
    + pose proof (turn_lookup_other _ _ _ _ _ _ _ _ Hwf Hin0 Hin Hne Ht) as Hother.
      assert (Hl1 : RoomManager.lookupRoom c
                      (fst (RoomManager.removeFrom socketId (c0, a0) st)) = Some (a, r)).
      { rewrite Hother. now apply wf_lookup. }
      destruct (RoomManager.removeFrom socketId (c0, a0) st) as [st1 stop] eqn:Hstep.
      simpl in *. destruct stop.
      * exfalso. apply (Hgone r); [|assumption]. apply getRoom_Some. eauto.
      * pose proof (turn_rooms _ _ _ _ _ _ Ht) as Hrooms1.
        apply lookupRoom_Some in Hl1 as [_ Hr1].
        apply IH; try assumption; rewrite ?Hrooms1; assumption.
Qed.

(** The room that [getRoomByPlayer] finds is one from which the loop of
    [removePlayer] takes the player away. *)
Lemma removeLoop_first socketId entries st r :
  wfStore st -> incl entries (rooms st) -> List.NoDup entries ->
  RoomManager.findByPlayer socketId entries st = Some r ->
  forall r',
    RoomManager.getRoom (code r) (RoomManager.removeLoop socketId entries st) = Some r' ->
    ~ In socketId (members r').
Proof.
  revert st. induction entries as [|[c0 a0] more IH];
    intros st Hwf Hincl Hnd Hfind r' Hget;
    cbn [RoomManager.removeLoop RoomManager.findByPlayer] in *.
  - discriminate.
  - assert (Hin0 : In (c0, a0) (rooms st)) by (apply Hincl; now left).
    pose proof Hwf as (_ & _ & Hrooms).
    destruct (Hrooms _ _ Hin0) as (r0 & Hr0 & Hc0 & Hwfr0).
    pose proof (removeFrom_turn socketId c0 a0 r0 st Hr0 Hwfr0) as Ht.
    pose proof (turn_wf _ _ _ _ _ _ Hwf Hin0 Hr0 Ht) as Hwf1.
    apply List.NoDup_cons_iff in Hnd as [Hni Hnd].
    assert (Hincl' : incl more (rooms st)) by (intros x Hx; apply Hincl; now right).
    rewrite Hr0 in Hfind.
    destruct (Map.has socketId (players r0)) eqn:Hhas.
    + injection Hfind as <-. rewrite Hc0 in Hget.
      apply Map_has_In in Hhas.
      destruct Ht as [Habs | Hm Hh | next more' Hm Hh Ho | Hm Hh Ho];
        try tauto; simpl in Hwf1, Hget.
      * apply getRoom_Some in Hget as [a' Hget].
        rewrite removeLoop_untouched with (a := a0) in Hget; try assumption.
        rewrite wf_lookup with (a := a0)
          (r := with_players r0 (Map.delete socketId (players r0))) in Hget;
          try assumption.
        -- injection Hget as _ <-. rewrite members_leave. apply othersThan_gone.
        -- apply deref_update_eq. eapply deref_Some_lt; eassumption.
      * apply getRoom_Some in Hget as [a' Hget].
        rewrite removeLoop_untouched with (a := a0) in Hget; try assumption.
        rewrite wf_lookup with (a := a0)
          (r := with_host (with_players r0 (Map.delete socketId (players r0))) next)
          in Hget; try assumption.
        -- injection Hget as _ <-. unfold members. simpl.
           rewrite othersThan_keys. apply othersThan_gone.
        -- apply deref_update_eq. eapply deref_Some_lt; eassumption.
      * exfalso. apply getRoom_Some in Hget as [a' Hget].
        unfold RoomManager.lookupRoom in Hget. simpl in Hget.
        now rewrite Map_get_delete_eq in Hget.
    + apply Map_has_false in Hhas.
      destruct Ht as [Habs | Hm Hh | next more' Hm Hh Ho | Hm Hh Ho];
        try tauto.
      eapply IH; eassumption.
Qed.

Lemma wf_NoDup_rooms st : wfStore st -> List.NoDup (rooms st).
Proof. intros [Hk _]. eapply NoDup_map_inv. exact Hk. Qed.

Lemma removePlayer_wf socketId st :
  wfStore st -> wfStore (RoomManager.removePlayer socketId st).
Proof. intros Hwf. apply removeLoop_wf; [assumption | apply incl_refl]. Qed.


(** ** The registry stays well-formed *)

Lemma wfStore_initial : wfStore (Server.store Server.initial).
Proof.
  split; [constructor|]. split; [constructor|]. intros c a [].
Qed.

Lemma freshCode_absent attempts (m : Map.t nat) c :
  RoomManager.freshCode attempts m = Some c -> ~ In c (Map.keys m).
Proof.
  induction attempts as [|draws more IH]; simpl; [discriminate|].
  destruct (Map.has (RoomManager.generateRoomCode draws) m) eqn:Hhas; [assumption|].
  intros [= <-]. now apply Map_has_false.
Qed.

Lemma createRoom_wf cfg socket attempts st st' res :
  wfStore st -> socket <> EmptyString ->
  RoomManager.createRoom cfg socket attempts st = Some (st', res) ->
  wfStore st'.
Proof.
  intros Hwf Hsock. unfold RoomManager.createRoom.
  destruct (RoomManager.freshCode attempts (rooms st)) as [c|] eqn:Hfresh; [|discriminate].
  apply freshCode_absent in Hfresh.
  destruct cfg as [cfg|]; intros [= <- <-]; [|assumption].
  pose proof Hwf as (Hk & Hv & Hrooms).
  assert (Hlt : forall c' a', In (c', a') (rooms st) -> (a' < length (heap st))%nat).
  { intros c' a' Hin. destruct (Hrooms _ _ Hin) as (r & Hr & _).
    eapply deref_Some_lt; eassumption. }
  rewrite (Map_set_absent (V := nat)) by assumption.
  split; [|split]; simpl.
  - unfold Map.keys. rewrite map_app. simpl. apply List.NoDup_app; [assumption| |].
    + constructor; [simpl; tauto | constructor].
    + intros x Hx [<-|[]]. now apply Hfresh.
  - unfold Map.values. rewrite map_app. simpl. apply List.NoDup_app; [assumption| |].
    + constructor; [simpl; tauto | constructor].
    + intros x Hx [<-|[]]. apply in_map_iff in Hx as [[c' a'] [Heq Hin]].
      simpl in Heq. subst a'. apply Hlt in Hin. lia.
  - intros c' a' Hin. apply in_app_iff in Hin as [Hin|[[= <- <-]|[]]].
    + destruct (Hrooms _ _ Hin) as (r & Hr & Hc & Hwfr).
      exists r. split; [|auto]. unfold deref in *. simpl.
      rewrite lookup_app_l; [assumption|]. eapply lookup_lt_Some; eassumption.
    + eexists. split.
      * unfold deref. simpl. apply list_lookup_middle. reflexivity.
      * split; [reflexivity|]. unfold wfRoom, hostIsMember. simpl.
        split; [constructor; [simpl; tauto | constructor]|].
        split; [constructor; [assumption | constructor] | now left].
Qed.

Lemma joinRoom_wf env roomCode socket playerName st :
  wfStore st -> socket <> EmptyString ->
  wfStore (fst (RoomManager.joinRoom env roomCode socket playerName st)).
Proof.
  intros Hwf Hsock. unfold RoomManager.joinRoom.
  destruct (RoomManager.lookupRoom roomCode st) as [[a room]|] eqn:Hl; [|assumption].
  destruct (Z.geb (Map.size (players room)) (RoomManager.MAX_PLAYERS env)); [assumption|].
  simpl. apply lookupRoom_Some in Hl as [Hg Hr].
  apply wf_get_In in Hg; [|assumption].
  pose proof Hwf as (_ & _ & Hrooms).
  destruct (Hrooms _ _ Hg) as (r0 & Hr0 & Hc & Hnd & Hne & Hh).
  assert (r0 = room) by congruence. subst r0.
  eapply wfStore_update; eauto.
  unfold wfRoom, hostIsMember. simpl. split; [now apply Map_NoDup_set|]. split.
  - apply List.Forall_forall. intros x Hx. apply Map_keys_set_In in Hx as [->|Hx].
    + assumption.
    + rewrite List.Forall_forall in Hne. auto.
  - apply Map_keys_set_In. now right.
Qed.

(** ** Similarity scores are never negative *)

Lemma binary_round_aux_notNegative mx ex lx :
  notNegative (binary_round_aux JS.prec JS.emax false mx ex lx).
Proof.
  unfold binary_round_aux.
  destruct (shr_fexp JS.prec JS.emax mx ex lx) as [mrs e'].
  destruct (shr_fexp JS.prec JS.emax _ e' loc_Exact) as [mrs2 e2].
  destruct (shr_m mrs2); simpl; try exact I.
  destruct (Z.leb e2 (JS.emax - JS.prec)); exact I.
Qed.

Lemma ofZ_notNegative n : 0 <= n -> notNegative (JS.ofZ n).
Proof.
  intros Hn. unfold JS.ofZ, binary_normalize. destruct n as [|p|p]; [exact I| |lia].
  unfold binary_round. destruct (shl_align _ _ _) as [mz ez].
  apply binary_round_aux_notNegative.
Qed.

Lemma div_notNegative x y :
  notNegative x -> notNegative y -> notNegative (JS.div x y).
Proof.
  destruct x as [sx|sx| |sx mx ex], y as [sy|sy| |sy my ey]; simpl; try (intros; exact I).
  destruct sx; [tauto|]. destruct sy; [tauto|]. intros _ _.
  unfold JS.div, SFdiv.
  destruct (SFdiv_core_binary _ _ _ _ _ _) as [[mz ez] lz].
  apply binary_round_aux_notNegative.
Qed.

Lemma mul_notNegative x y :
  notNegative x -> notNegative y -> notNegative (JS.mul x y).
Proof.
  destruct x as [sx|sx| |sx mx ex], y as [sy|sy| |sy my ey]; simpl; try (intros; exact I).
  destruct sx; [tauto|]. destruct sy; [tauto|]. intros _ _.
  unfold JS.mul, SFmul. apply binary_round_aux_notNegative.
Qed.

Lemma Math_round_notNegative x : notNegative x -> 0 <= JS.Math_round x.
Proof.
  destruct x as [s|s| |s m e]; simpl; try lia.
  destruct s; [tauto|]. intros _.
  destruct (Z.leb 0 e) eqn:He.
  - apply Z.leb_le in He. apply Z.mul_nonneg_nonneg; [lia|].
    now apply Z.pow_nonneg.
  - apply Z.leb_gt in He. apply Z.div_pos.
    + assert (0 <= 2 ^ (- e)) by (apply Z.pow_nonneg; lia). lia.
    + apply Z.pow_pos_nonneg; lia.
Qed.

Lemma overlap_nonneg (setA : gset string) words acc :
  0 <= acc ->
  0 <= foldl (fun overlap word =>
                if bool_decide (word ∈ setA) then overlap + 1 else overlap)
             acc words.
Proof.
  revert acc. induction words as [|w ws IH]; intros acc Hacc; simpl; [assumption|].
  apply IH. destruct (bool_decide _); lia.
Qed.

Lemma calculateSimilarity_nonneg a b : 0 <= Scoring.calculateSimilarity a b.
Proof.
  unfold Scoring.calculateSimilarity.
  destruct a as [a|], b as [b|]; try lia.
  destruct (negb (JS.truthy a) || negb (JS.truthy b))%bool; [lia|].
  apply Math_round_notNegative, mul_notNegative.
  - apply div_notNegative; apply ofZ_notNegative.
    + apply overlap_nonneg. lia.
    + lia.
  - apply ofZ_notNegative. lia.
Qed.

Lemma roundScore_nonneg d : roundScore d -> 0 <= d.
Proof.
  intros [->|(a & b & ->)]; [lia | apply calculateSimilarity_nonneg].
Qed.

(** ** Code in [M]: what a stretch of the game loop touches *)

Section Stretches.
Import GameLogic.

Lemma quiet_refl r : quiet r r.
Proof. repeat split. Qed.

Lemma quiet_trans r1 r2 r3 : quiet r1 r2 -> quiet r2 r3 -> quiet r1 r3.
Proof. unfold quiet. intuition congruence. Qed.

Lemma keeps_ret {A} (x : A) : keeps quiet (ret x).
Proof. intros r r' res [= <- <-]. apply quiet_refl. Qed.

Lemma keeps_throw {A} e : keeps quiet (@throw A e).
Proof. intros r r' res [= <- <-]. apply quiet_refl. Qed.

Lemma keeps_get : keeps quiet get.
Proof. intros r r' res [= <- <-]. apply quiet_refl. Qed.

Lemma keeps_bind {A B} (m : M A) (k : A -> M B) :
  keeps quiet m -> (forall x, keeps quiet (k x)) -> keeps quiet (bind m k).
Proof.
  intros Hm Hk r r' res. unfold bind.
  destruct (m r) as [r1 [e|x]] eqn:E.
  - intros [= <- <-]. eapply Hm; eassumption.
  - intros H. eapply quiet_trans; [eapply Hm | eapply Hk]; eassumption.
Qed.

Lemma keeps_modify f :
  (forall r, quiet r (f r)) -> keeps quiet (modify f).
Proof. intros Hf r r' res [= <- <-]. apply Hf. Qed.

Lemma keeps_readPrompt id : keeps quiet (readPrompt id).
Proof.
  intros r r' res. unfold readPrompt.
  destruct (prompts (roundData r)); intros [= <- <-]; apply quiet_refl.
Qed.

Lemma keeps_readScore id : keeps quiet (readScore id).
Proof.
  intros r r' res. unfold readScore.
  destruct (scores (roundData r)); intros [= <- <-]; apply quiet_refl.
Qed.

Lemma keeps_writePrompt id prompt : keeps quiet (writePrompt id prompt).
Proof.
  intros r r' res. unfold writePrompt.
  destruct (prompts (roundData r)); intros [= <- <-]; repeat split.
Qed.

Lemma keeps_writeImage id image : keeps quiet (writeImage id image).
Proof.
  intros r r' res. unfold writeImage.
  destruct (images (roundData r)); intros [= <- <-]; repeat split.
Qed.

Lemma keeps_writeScore id v : keeps quiet (writeScore id v).
Proof.
  intros r r' res. unfold writeScore.
  destruct (scores (roundData r)); intros [= <- <-]; repeat split.
Qed.

Lemma keeps_storeImage id settled : keeps quiet (storeImage id settled).
Proof. destruct settled; apply keeps_writeImage. Qed.

Lemma keeps_scoreLoop op ids : keeps quiet (scoreLoop op ids).
Proof.
  induction ids as [|id more IH]; simpl.
  - apply keeps_ret.
  - apply keeps_bind; [apply keeps_readPrompt|]. intros prompt.
    apply keeps_bind; [apply keeps_writeScore|]. intros _. exact IH.
Qed.

Lemma keeps_totalScores ids : keeps quiet (totalScores ids).
Proof.
  induction ids as [|id more IH]; simpl.
  - apply keeps_ret.
  - apply keeps_bind; [apply keeps_get|]. intros r.
    destruct (Map.get id (players r)); [|apply keeps_throw].
    apply keeps_bind; [exact IH|]. intros rest. apply keeps_ret.
Qed.

Lemma keeps_handlePromptSubmission socketId prompt :
  keeps quiet (handlePromptSubmission socketId prompt).
Proof.
  unfold handlePromptSubmission.
  apply keeps_bind; [apply keeps_writePrompt|]. intros _.
  apply keeps_bind; [apply keeps_get|]. intros r.
  destruct (_resolvePromptPromise r); [|apply keeps_ret].
  destruct (allSubmitted _ _); [|apply keeps_ret].
  apply keeps_bind; [apply keeps_modify; intros; repeat split|].
  intros _. apply keeps_ret.
Qed.

Lemma keeps_promptTimeout : keeps quiet promptTimeout.
Proof.
  unfold promptTimeout.
  apply keeps_bind; [apply keeps_get|]. intros r.
  destruct (_resolvePromptPromise r); [|apply keeps_ret].
  apply keeps_bind; [apply keeps_modify; intros; repeat split|].
  intros _. apply keeps_ret.
Qed.

Lemma keeps_showOriginal task round original :
  keeps quiet (showOriginal task round original).
Proof.
  unfold showOriginal. destruct original as [op oi].
  apply keeps_bind; [apply keeps_modify; intros; repeat split|].
  intros _. apply keeps_ret.
Qed.

Lemma keeps_beginRound env task round draw :
  keeps quiet (beginRound env task round draw).
Proof.
  unfold beginRound.
  repeat (apply keeps_bind; [apply keeps_modify; intros; repeat split|]; intros _).
  apply keeps_bind; [apply keeps_get|]. intros r.
  destruct (openai env); [apply keeps_ret | apply keeps_showOriginal].
Qed.

Lemma keeps_gameOver : keeps quiet gameOver.
Proof.
  unfold gameOver.
  apply keeps_bind; [apply keeps_modify; intros; repeat split|].
  intros _. apply keeps_ret.
Qed.

Lemma keeps_roundsFrom env task round draw :
  keeps quiet (roundsFrom env task round draw).
Proof.
  unfold roundsFrom.
  apply keeps_bind; [apply keeps_get|]. intros r.
  destruct (Z.leb round (rounds (config r)));
    [apply keeps_beginRound | apply keeps_gameOver].
Qed.

Lemma keeps_writingPhase task a round op :
  keeps quiet (writingPhase task a round op).
Proof.
  unfold writingPhase, waitForPrompts.
  apply keeps_bind; [apply keeps_modify; intros; repeat split|]. intros _.
  apply keeps_bind; [apply keeps_get|]. intros r.
  apply keeps_bind.
  - apply keeps_bind; [apply keeps_modify; intros; repeat split|].
    intros _. apply keeps_ret.
  - intros timers. apply keeps_ret.
Qed.

Lemma keeps_afterPause env task round draw :
  keeps quiet (afterPause env task round draw).
Proof. apply keeps_roundsFrom. Qed.

End Stretches.

(** ** The scoring and accumulation loops *)

Section Rounds.
Import GameLogic.

Lemma add_score_0 p : add_score 0 p = p.
Proof. destruct p. unfold add_score. simpl. f_equal. lia. Qed.

Lemma roundScore_0 : roundScore 0.
Proof. now left. Qed.

Lemma roundScore_scoreOf op prompt : roundScore (scoreOf op prompt).
Proof.
  unfold scoreOf. destruct prompt as [p|]; cbn [JS.truthy_opt]; [|now left].
  destruct (JS.truthy p); [right; exists op, p; reflexivity | now left].
Qed.

Lemma quiet_scored r r' : quiet r r' -> scored r r'.
Proof.
  intros (Hc & Hh & Hcf & Hp). unfold scored, members. rewrite Hp.
  repeat split; try assumption.
  intros id p' Hget. exists p', 0. rewrite add_score_0.
  auto using roundScore_0.
Qed.

Lemma quiet_then_scored r1 r2 r3 : quiet r1 r2 -> scored r2 r3 -> scored r1 r3.
Proof.
  intros (Hc & Hh & Hcf & Hp) (Hc' & Hh' & Hcf' & Hm' & Hs).
  unfold scored, members in *. rewrite Hp in *.
  repeat split; try congruence. exact Hs.
Qed.

Lemma scored_then_quiet r1 r2 r3 : scored r1 r2 -> quiet r2 r3 -> scored r1 r3.
Proof.
  intros (Hc' & Hh' & Hcf' & Hm' & Hs) (Hc & Hh & Hcf & Hp).
  unfold scored, members in *. rewrite Hp in *.
  repeat split; try congruence. exact Hs.
Qed.

Lemma keeps_quiet_scored {A} (m : M A) : keeps quiet m -> keeps scored m.
Proof. intros H r r' res E. apply quiet_scored. eapply H; eassumption. Qed.

Lemma keeps_bind_scored {A B} (m : M A) (k : A -> M B) :
  keeps quiet m -> (forall x, keeps scored (k x)) -> keeps scored (bind m k).
Proof.
  intros Hm Hk r r' res. unfold bind.
  destruct (m r) as [r1 [e|x]] eqn:E.
  - intros [= <- <-]. apply quiet_scored. eapply Hm; eassumption.
  - intros H. eapply quiet_then_scored; [eapply Hm | eapply Hk]; eassumption.
Qed.

Lemma keeps_scored_bind {A B} (m : M A) (k : A -> M B) :
  keeps scored m -> (forall x, keeps quiet (k x)) -> keeps scored (bind m k).
Proof.
  intros Hm Hk r r' res. unfold bind.
  destruct (m r) as [r1 [e|x]] eqn:E.
  - intros [= <- <-]. eapply Hm; eassumption.
  - intros H. eapply scored_then_quiet; [eapply Hm | eapply Hk]; eassumption.
Qed.

(** The scoring loop, when [prompts] and [scores] are objects: it does not
    throw; every id of [playerIds] gets the score of its stored prompt,
    the other entries of [scores] stay. *)
Lemma scoreLoop_spec op ids : forall r ps sc,
  prompts (roundData r) = Some ps -> scores (roundData r) = Some sc ->
  exists sc',
    scoreLoop op ids r = (with_roundData r (with_scores (roundData r) sc'), inr tt)
    /\ (forall id, In id ids -> sc' !! id = Some (scoreOf op (ps !! id)))
    /\ (forall id, ~ In id ids -> sc' !! id = sc !! id).
Proof.
  induction ids as [|id0 more IH]; intros r ps sc Hps Hsc.
  - exists sc. split; [|split].
    + simpl. unfold ret. f_equal. destruct r as [? ? ? ? ? ? rd ?].
      unfold with_roundData, with_scores. simpl in *. f_equal.
      destruct rd. simpl in *. now subst.
    + intros id [].
    + reflexivity.
  - set (v := scoreOf op (ps !! id0)).
    set (r1 := with_roundData r (with_scores (roundData r) (<[id0 := v]> sc))).
    destruct (IH r1 ps (<[id0 := v]> sc)) as (sc' & Hrun & Hin & Hout);
      [exact Hps | reflexivity |].
    exists sc'. split; [|split].
    + simpl. unfold bind at 1. unfold readPrompt. rewrite Hps.
      unfold bind at 1. unfold writeScore. rewrite Hsc.
      exact Hrun.
    + intros id [<-|Hid]; [|auto].
      destruct (in_dec string_dec id0 more) as [Hmem|Hmem]; [auto|].
      rewrite Hout by assumption. apply lookup_insert_eq.
    + intros id Hid. rewrite Hout by (intros H; apply Hid; now right).
      apply lookup_insert_ne. intros <-. apply Hid. now left.
Qed.

(** The accumulation loop over distinct ids, however it ends: members and
    round data stay; every player keeps their score or has got the stored
    round score of their id added, once. *)
Lemma accumulateLoop_players ids : forall r r' res,
  List.NoDup ids ->
  accumulateLoop ids r = (r', res) ->
  code r' = code r /\ host r' = host r /\ config r' = config r
  /\ members r' = members r /\ roundData r' = roundData r
  /\ forall id p', Map.get id (players r') = Some p' ->
       exists p, Map.get id (players r) = Some p
                 /\ (p' = p
                     \/ (In id ids /\ exists sc, scores (roundData r) = Some sc
                           /\ p' = add_score (default 0 (sc !! id)) p)).
Proof.
  induction ids as [|id0 more IH]; intros r r' res Hnd; simpl.
  - intros [= <- <-]. repeat split. eauto.
  - apply List.NoDup_cons_iff in Hnd as [Hni Hnd].
    unfold bind at 1. unfold get. unfold bind at 1. unfold readScore.
    destruct (scores (roundData r)) as [sc|] eqn:Hsc;
      [|intros [= <- <-]; repeat split; eauto].
    destruct (Map.get id0 (players r)) as [p0|] eqn:Hp0;
      [|intros [= <- <-]; repeat split; eauto].
    unfold bind at 1. unfold modify.
    set (r1 := with_players r _). intros Hrun.
    apply IH in Hrun as (Hc & Hh & Hcf & Hm & Hrd & Hs); [|assumption].
    assert (Hin0 : In id0 (Map.keys (players r))).
    { apply Map_get_In. congruence. }
    repeat split; try assumption.
    + rewrite Hm. unfold members, r1. simpl. now apply Map_keys_set_present.
    + intros id p' Hget. destruct (Hs _ _ Hget) as (p1 & Hp1 & Hcase).
      unfold r1 in Hp1. simpl in Hp1.
      destruct (String.eqb id0 id) eqn:E.
      * apply String.eqb_eq in E. subst id.
        rewrite Map_get_set_eq in Hp1. injection Hp1 as <-.
        exists p0. split; [assumption|]. right. split; [now left|].
        exists sc. split; [reflexivity|].
        destruct Hcase as [->|[Hin _]]; [reflexivity | tauto].
      * apply String.eqb_neq in E. rewrite Map_get_set_ne in Hp1 by assumption.
        exists p1. split; [assumption|].
        destruct Hcase as [->|[Hin (sc1 & Hsc1 & ->)]]; [now left|].
        right. split; [now right|]. exists sc1. split; [|reflexivity].
        transitivity (scores (roundData r)); [symmetry; exact Hsc | exact Hsc1].
Qed.

(** The accumulation loop over distinct ids, when it ends normally: every
    id of [playerIds] has got its stored round score added exactly once,
    and no other player has changed. *)
Lemma accumulateLoop_once ids : forall r r' sc,
  List.NoDup ids ->
  scores (roundData r) = Some sc ->
  accumulateLoop ids r = (r', inr tt) ->
  (forall id, In id ids ->
     exists p, Map.get id (players r) = Some p
               /\ Map.get id (players r') = Some (add_score (default 0 (sc !! id)) p))
  /\ (forall id, ~ In id ids -> Map.get id (players r') = Map.get id (players r)).
Proof.
  induction ids as [|id0 more IH]; intros r r' sc Hnd Hsc; simpl.
  - intros [= <-]. split; [intros id [] | reflexivity].
  - apply List.NoDup_cons_iff in Hnd as [Hni Hnd].
    unfold bind at 1. unfold get. unfold bind at 1. unfold readScore.
    rewrite Hsc.
    destruct (Map.get id0 (players r)) as [p0|] eqn:Hp0; [|discriminate].
    unfold bind at 1. unfold modify.
    set (r1 := with_players r _). intros Hrun.
    destruct (IH r1 r' sc Hnd Hsc Hrun) as [Hin Hout].
    split.
    + intros id [<-|Hid].
      * exists p0. split; [assumption|]. rewrite Hout by assumption.
        unfold r1. simpl. apply Map_get_set_eq.
      * destruct (Hin _ Hid) as (p & Hp & Hp').
        assert (id0 <> id) by (intros <-; tauto).
        unfold r1 in Hp. simpl in Hp. rewrite Map_get_set_ne in Hp by assumption.
        eauto.
    + intros id Hid. rewrite Hout by (intros H; apply Hid; now right).
      unfold r1. simpl.
      apply Map_get_set_ne. intros <-. apply Hid. now left.
Qed.

End Rounds.

Section Phases.
Import GameLogic.

Lemma scoreLoop_good op ids r r' :
  scoreLoop op ids r = (r', inr tt) -> goodScores ids r'.
Proof.
  destruct (prompts (roundData r)) as [ps|] eqn:Hps;
    [destruct (scores (roundData r)) as [sc|] eqn:Hsc|].
  - destruct (scoreLoop_spec op ids r ps sc Hps Hsc) as (sc' & Hrun & Hin & _).
    rewrite Hrun. intros [= <-]. intros sc1 id [= <-] Hid.
    rewrite (Hin _ Hid). apply roundScore_scoreOf.
  - destruct ids as [|id more]; [intros _ sc id _ []|].
    simpl. unfold bind at 1. unfold readPrompt. rewrite Hps.
    unfold bind at 1. unfold writeScore. rewrite Hsc. discriminate.
  - destruct ids as [|id more]; [intros _ sc id _ []|].
    simpl. unfold bind at 1. unfold readPrompt. rewrite Hps. discriminate.
Qed.

Lemma accumulateLoop_scored ids r r' res :
  List.NoDup ids -> goodScores ids r ->
  accumulateLoop ids r = (r', res) -> scored r r'.
Proof.
  intros Hnd Hgood Hrun.
  apply accumulateLoop_players in Hrun as (Hc & Hh & Hcf & Hm & _ & Hs);
    [|assumption].
  repeat split; try assumption.
  intros id p' Hget. destruct (Hs _ _ Hget) as (p & Hp & Hcase).
  exists p. destruct Hcase as [->|[Hin (sc & Hsc & ->)]].
  - exists 0. rewrite add_score_0. auto using roundScore_0.
  - exists (default 0 (sc !! id)). repeat split; [assumption|].
    eapply Hgood; eassumption.
Qed.

Lemma votingPhase_scored task round op ids :
  List.NoDup ids -> keeps scored (votingPhase task round op ids).
Proof.
  intros Hnd r r' res. unfold votingPhase.
  unfold bind at 1. unfold modify.
  set (r0 := with_state r VOTING).
  assert (Hq0 : quiet r r0) by (repeat split).
  unfold bind at 1.
  destruct (scoreLoop op ids r0) as [r1 [e|[]]] eqn:Hscore.
  - intros [= <- <-]. apply quiet_scored. eapply quiet_trans; [exact Hq0|].
    eapply keeps_scoreLoop; eassumption.
  - pose proof (keeps_scoreLoop _ _ _ _ _ Hscore) as Hq1.
    pose proof (scoreLoop_good _ _ _ _ Hscore) as Hgood.
    unfold bind at 1.
    destruct (accumulateLoop ids r1) as [r2 [e|[]]] eqn:Hacc.
    + intros [= <- <-]. eapply quiet_then_scored.
      * exact (quiet_trans _ _ _ Hq0 Hq1).
      * eapply accumulateLoop_scored; eassumption.
    + intros Hrest. eapply quiet_then_scored.
      * exact (quiet_trans _ _ _ Hq0 Hq1).
      * eapply scored_then_quiet.
        -- eapply accumulateLoop_scored; eassumption.
        -- revert Hrest. apply keeps_bind; [apply keeps_totalScores|].
           intros _. apply keeps_ret.
Qed.

Lemma imagesFrom_scored env task round op ids rest :
  List.NoDup ids -> keeps scored (imagesFrom env task round op ids rest).
Proof.
  intros Hnd. induction rest as [|id more IH]; simpl.
  - now apply votingPhase_scored.
  - apply keeps_bind_scored; [apply keeps_readPrompt|]. intros [prompt|].
    + destruct (JS.truthy prompt).
      * destruct (openai env).
        -- apply keeps_quiet_scored, keeps_ret.
        -- apply keeps_bind_scored; [apply keeps_writeImage|]. intros _. exact IH.
      * apply keeps_bind_scored; [apply keeps_writeImage|]. intros _. exact IH.
    + apply keeps_bind_scored; [apply keeps_writeImage|]. intros _. exact IH.
Qed.

Lemma afterImage_scored env task round op ids rest id settled :
  List.NoDup ids ->
  keeps scored (afterImage env task round op ids rest id settled).
Proof.
  intros Hnd. unfold afterImage.
  apply keeps_bind_scored; [apply keeps_storeImage|]. intros _.
  now apply imagesFrom_scored.
Qed.

Lemma afterPrompts_scored env task round op r r' res :
  List.NoDup (members r) ->
  afterPrompts env task round op r = (r', res) -> scored r r'.
Proof.
  intros Hnd. unfold afterPrompts.
  unfold bind at 1. unfold modify. unfold bind at 1. unfold get.
  intros Hrun. eapply quiet_then_scored; [|eapply imagesFrom_scored; [|exact Hrun]].
  - repeat split.
  - exact Hnd.
Qed.

Lemma votingPhase_await task round op ids r r' step :
  votingPhase task round op ids r = (r', inr step) -> awaitsDistinct (fst step).
Proof.
  unfold votingPhase. unfold bind at 1. unfold modify. unfold bind at 1.
  destruct (scoreLoop op ids _) as [r1 [e|[]]]; [discriminate|].
  unfold bind at 1.
  destruct (accumulateLoop ids r1) as [r2 [e|[]]]; [discriminate|].
  unfold bind at 1.
  destruct (totalScores ids r2) as [r3 [e|tot]]; [discriminate|].
  intros [= <- <-]. exact I.
Qed.

Lemma imagesFrom_await env task round op ids rest : forall r r' step,
  List.NoDup ids ->
  imagesFrom env task round op ids rest r = (r', inr step) ->
  awaitsDistinct (fst step).
Proof.
  induction rest as [|id more IH]; intros r r' step Hnd; simpl.
  - apply votingPhase_await.
  - unfold bind at 1. unfold readPrompt.
    destruct (prompts (roundData r)) as [ps|]; [|discriminate].
    assert (Hskip : forall image,
              bind (writeImage id image)
                   (fun _ => imagesFrom env task round op ids more) r
              = (r', inr step) -> awaitsDistinct (fst step)).
    { intros image. unfold bind at 1.
      destruct (writeImage id image r) as [r1 [e|[]]]; [discriminate|].
      now apply IH. }
    destruct (ps !! id) as [prompt|]; [|apply Hskip].
    destruct (JS.truthy prompt); [|apply Hskip].
    destruct (openai env).
    + intros [= <- <-]. exact Hnd.
    + apply Hskip.
Qed.

End Phases.

(** ** The server: what an event does to the room objects *)

Section ServerSteps.
Import GameLogic Server.

Lemma scored_refl r : scored r r.
Proof. apply quiet_scored, quiet_refl. Qed.

Lemma storeStep_refl P st : (forall r, P r r) -> storeStep P st st.
Proof. intros HP. repeat split. eauto. Qed.

Lemma storeStep_update P a r r' st :
  (forall x, P x x) -> deref st a = Some r -> P r r' ->
  storeStep P st (update a r' st).
Proof.
  intros HP Hr HPr. split; [reflexivity|]. split.
  - unfold update. simpl. apply length_insert.
  - intros b rb Hb. destruct (Nat.eq_dec a b) as [<-|Hne].
    + exists r'. rewrite deref_update_eq by (eapply deref_Some_lt; eassumption).
      split; [reflexivity|]. congruence.
    + exists rb. rewrite deref_update_ne by assumption. auto.
Qed.

Lemma storeStep_quiet_scored st1 st2 st3 :
  storeStep quiet st1 st2 -> storeStep scored st2 st3 -> storeStep scored st1 st3.
Proof.
  intros (Hr & Hl & H) (Hr' & Hl' & H').
  split; [congruence|]. split; [congruence|].
  intros a r Ha. destruct (H _ _ Ha) as (r1 & Ha1 & Hq).
  destruct (H' _ _ Ha1) as (r2 & Ha2 & Hs).
  exists r2. split; [assumption|]. eapply quiet_then_scored; eassumption.
Qed.

Lemma storeStep_quiet_is_scored st1 st2 :
  storeStep quiet st1 st2 -> storeStep scored st1 st2.
Proof.
  intros H. eapply storeStep_quiet_scored; [exact H|].
  apply storeStep_refl, scored_refl.
Qed.

Lemma storeStep_deref P st st' a r' :
  storeStep P st st' -> deref st' a = Some r' ->
  exists r, deref st a = Some r /\ P r r'.
Proof.
  intros (_ & Hl & H) Ha.
  assert (Hlt : (a < length (heap st))%nat).
  { rewrite <- Hl. eapply deref_Some_lt; eassumption. }
  destruct (lookup_lt_is_Some_2 (heap st) a Hlt) as [r Hr].
  destruct (H _ _ Hr) as (r1 & Hr1 & HP).
  exists r. split; [assumption|]. unfold deref in *. congruence.
Qed.

Lemma roomInv_scored r r' : roomInv r -> scored r r' -> roomInv r'.
Proof.
  intros [Hnd Hpos] (_ & _ & _ & Hm & Hs). split; [now rewrite Hm|].
  intros id p' Hget. destruct (Hs _ _ Hget) as (p & d & Hp & -> & Hd).
  simpl. apply Hpos in Hp. apply roundScore_nonneg in Hd. lia.
Qed.

Lemma wfRoom_scored r r' : wfRoom r -> scored r r' -> wfRoom r'.
Proof.
  intros (Hnd & Hne & Hh) (_ & Hhost & _ & Hm & _).
  unfold wfRoom, hostIsMember, members in *. rewrite Hm, Hhost. auto.
Qed.

Lemma storeStep_wf st st' :
  wfStore st -> storeStep scored st st' -> wfStore st'.
Proof.
  intros (Hk & Hv & Hrooms) (Hr & Hl & H). unfold wfStore. rewrite Hr.
  split; [assumption|]. split; [assumption|].
  intros c a Hin. destruct (Hrooms _ _ Hin) as (r & Ha & Hc & Hwf).
  destruct (H _ _ Ha) as (r' & Ha' & Hs).
  exists r'. split; [assumption|]. split.
  - destruct Hs as (Hc' & _). congruence.
  - eapply wfRoom_scored; eassumption.
Qed.

(** *** The stretches of [startGame] *)

Lemma stretchOK_quiet m room :
  keeps quiet m ->
  (forall room' step, m room = (room', inr step) -> awaitsDistinct (fst step)) ->
  stretchOK m room.
Proof.
  intros Hq Hd room' res Hrun. split.
  - apply quiet_scored. eapply Hq; eassumption.
  - intros step ->. eapply Hd; eassumption.
Qed.

Lemma showOriginal_await task round original r r' step :
  showOriginal task round original r = (r', inr step) -> awaitsDistinct (fst step).
Proof. destruct original. intros [= <- <-]. exact I. Qed.

Lemma roundsFrom_await env task round draw r r' step :
  roundsFrom env task round draw r = (r', inr step) -> awaitsDistinct (fst step).
Proof.
  unfold roundsFrom, bind, get.
  destruct (Z.leb round (rounds (config r))).
  - unfold beginRound, bind, modify, get. simpl.
    destruct (openai env); [intros [= <- <-]; exact I|].
    intros [= <- <-]. exact I.
  - unfold gameOver, bind, modify, ret. intros [= <- <-]. exact I.
Qed.

Lemma stretchOK_roundsFrom env task round draw room :
  stretchOK (roundsFrom env task round draw) room.
Proof.
  apply stretchOK_quiet; [apply keeps_roundsFrom|].
  intros. eapply roundsFrom_await; eassumption.
Qed.

Lemma stretchOK_showOriginal task round original room :
  stretchOK (showOriginal task round original) room.
Proof.
  apply stretchOK_quiet; [apply keeps_showOriginal|].
  intros. eapply showOriginal_await; eassumption.
Qed.

Lemma stretchOK_writingPhase task a round op room :
  stretchOK (writingPhase task a round op) room.
Proof.
  apply stretchOK_quiet; [apply keeps_writingPhase|].
  intros room' step. unfold writingPhase, waitForPrompts, bind, modify, get, ret.
  intros [= <- <-]. exact I.
Qed.

Lemma stretchOK_afterPrompts env task round op room :
  roomInv room -> stretchOK (afterPrompts env task round op) room.
Proof.
  intros [Hnd _] room' res Hrun. split.
  - eapply afterPrompts_scored; eassumption.
  - intros step ->. revert Hrun. unfold afterPrompts.
    unfold bind at 1. unfold modify. unfold bind at 1. unfold get.
    apply imagesFrom_await. exact Hnd.
Qed.

Lemma stretchOK_afterImage env task round op ids rest id prompt settled room :
  awaitsDistinct (AwaitImage round op ids rest id prompt) ->
  stretchOK (afterImage env task round op ids rest id settled) room.
Proof.
  simpl. intros Hnd room' res Hrun. split.
  - eapply afterImage_scored; eassumption.
  - intros step ->. revert Hrun. unfold afterImage.
    unfold bind at 1. destruct (storeImage id settled room) as [r1 [e|[]]];
      [discriminate|].
    now apply imagesFrom_await.
Qed.

End ServerSteps.

Section Handlers.
Import GameLogic Server.

Lemma store_setTimeouts s armed : store (foldl setTimeout s armed) = store s.
Proof. revert s. induction armed as [|x l IH]; intros s; simpl; [reflexivity|]. now rewrite IH. Qed.

Lemma tasks_setTimeouts s armed : tasks (foldl setTimeout s armed) = tasks s.
Proof. revert s. induction armed as [|x l IH]; intros s; simpl; [reflexivity|]. now rewrite IH. Qed.

Lemma settle_store task a socket out s :
  store (settle task a socket out s) = update a (fst out) (store s).
Proof.
  unfold settle. destruct out as [room res].
  destruct res as [e|[at_ armed]]; simpl.
  - reflexivity.
  - destruct at_; simpl; apply store_setTimeouts.
Qed.

Lemma settle_tasks task a socket out s :
  tasks (settle task a socket out s)
  = <[task := {| t_room := a; t_socket := socket; t_at := settledAt (snd out) |}]>
      (tasks s).
Proof.
  unfold settle. destruct out as [room res].
  destruct res as [e|[at_ armed]]; simpl.
  - reflexivity.
  - destruct at_; simpl; now rewrite tasks_setTimeouts.
Qed.

Lemma In_insert {A} (l : list A) i x y : In y (<[i := x]> l) -> y = x \/ In y l.
Proof.
  revert i. induction l as [|z l IH]; intros i; simpl; [tauto|].
  destruct i as [|i]; simpl.
  - intros [<-|H]; auto.
  - intros [<-|H]; [auto|]. apply IH in H. tauto.
Qed.

Lemma Inv_heap_step s s' :
  Inv s -> storeStep scored (store s) (store s') ->
  (forall t, In t (tasks s') -> awaitsDistinct (t_at t)) ->
  Inv s'.
Proof.
  intros [Hheap _] Hstep Htasks. split; [|assumption].
  intros a r' Ha. destruct (storeStep_deref _ _ _ _ _ Hstep Ha) as (r & Hr & Hs).
  eapply roomInv_scored; eauto.
Qed.

Lemma settle_ok task a socket room m s :
  Inv s -> deref (store s) a = Some room -> stretchOK m room ->
  storeStep scored (store s) (store (settle task a socket (m room) s))
  /\ Inv (settle task a socket (m room) s).
Proof.
  intros HInv Hroom Hok.
  destruct (m room) as [room' res] eqn:Hrun.
  destruct (Hok _ _ Hrun) as [Hs Hd].
  assert (Hstep : storeStep scored (store s)
                    (store (settle task a socket (room', res) s))).
  { rewrite settle_store. simpl.
    apply (storeStep_update scored a room room');
      [apply scored_refl | assumption | assumption]. }
  split; [assumption|].
  apply (Inv_heap_step s); [assumption | assumption|].
  intros t Ht. rewrite settle_tasks in Ht. apply In_insert in Ht as [->|Ht].
  - simpl. destruct res as [e|step]; simpl; [exact I | now apply Hd].
  - destruct HInv as [_ Htasks]. auto.
Qed.

Lemma resume_ok task k s :
  Inv s ->
  (forall t room m,
      tasks s !! task = Some t -> deref (store s) (t_room t) = Some room ->
      awaitsDistinct (t_at t) -> roomInv room ->
      k (t_room t) (t_at t) = Some m -> stretchOK m room) ->
  storeStep scored (store s) (store (resume task k s))
  /\ Inv (resume task k s).
Proof.
  intros HInv Hk. unfold resume.
  assert (Hsame : storeStep scored (store s) (store s) /\ Inv s).
  { split; [apply storeStep_refl, scored_refl | assumption]. }
  destruct (tasks s !! task) as [t|] eqn:Ht; [|assumption].
  destruct (k (t_room t) (t_at t)) as [m|] eqn:Hm; [|assumption].
  destruct (deref (store s) (t_room t)) as [room|] eqn:Hroom; [|assumption].
  apply settle_ok; try assumption.
  destruct HInv as [Hheap Htasks].
  eapply Hk; eauto.
  apply Htasks. apply list_elem_of_In. eapply list_elem_of_lookup_2. eassumption.
Qed.

Lemma resolvePromise_ok env f s :
  Inv s ->
  storeStep scored (store s) (store (resolvePromise env f s))
  /\ Inv (resolvePromise env f s).
Proof.
  intros HInv. unfold resolvePromise. apply resume_ok; [assumption|].
  intros t room m _ _ _ Hroom. destruct (t_at t); try discriminate.
  destruct (Z.eqb round (res_round f)); [|discriminate].
  intros [= <-]. now apply stretchOK_afterPrompts.
Qed.

Lemma Inv_with_store_quiet s a r r' :
  Inv s -> deref (store s) a = Some r -> quiet r r' ->
  Inv (with_store s (update a r' (store s)))
  /\ storeStep quiet (store s) (update a r' (store s)).
Proof.
  intros HInv Hr Hq.
  assert (Hstep : storeStep quiet (store s) (update a r' (store s))).
  { apply (storeStep_update quiet a r r');
      [apply quiet_refl | assumption | assumption]. }
  split; [|assumption].
  apply (Inv_heap_step s); [assumption| |].
  - simpl. now apply storeStep_quiet_is_scored.
  - simpl. destruct HInv as [_ Htasks]. exact Htasks.
Qed.

Lemma Inv_reply socket req ok msg c s : Inv s -> Inv (reply socket req ok msg c s).
Proof. intros H. exact H. Qed.

Lemma onStartGame_ok env socket roomCode draw s :
  Inv s ->
  storeStep scored (store s) (store (onStartGame env socket roomCode draw s))
  /\ Inv (onStartGame env socket roomCode draw s).
Proof.
  intros HInv. unfold onStartGame.
  assert (Hsame : storeStep scored (store s) (store s)).
  { apply storeStep_refl, scored_refl. }
  destruct (RoomManager.lookupRoom roomCode (store s)) as [[a room]|] eqn:Hl;
    [|split; assumption].
  apply lookupRoom_Some in Hl as [_ Hroom]. simpl.
  set (s1 := with_tasks s _).
  assert (HInv1 : Inv s1).
  { destruct HInv as [Hheap Htasks]. split; [exact Hheap|].
    intros t Ht. unfold s1 in Ht. simpl in Ht.
    apply in_app_iff in Ht as [Ht|[<-|[]]]; [auto | exact I]. }
  change (store s) with (store s1).
  apply (settle_ok (length (tasks s)) a socket room
           (bind (modify (fun r => with_state r STARTING))
                 (fun _ => roundsFrom env (length (tasks s)) 1 draw)) s1);
    [assumption | assumption |].
  intros room' res. unfold bind at 1. unfold modify. intros Hrun.
  destruct (stretchOK_roundsFrom _ _ _ _ _ _ _ Hrun) as [Hs Hd].
  split; [|assumption].
  eapply quiet_then_scored; [|eassumption]. repeat split.
Qed.

Lemma onSubmitPrompt_ok env socket roomCode prompt s :
  Inv s ->
  storeStep scored (store s) (store (onSubmitPrompt env socket roomCode prompt s))
  /\ Inv (onSubmitPrompt env socket roomCode prompt s).
Proof.
  intros HInv. unfold onSubmitPrompt.
  assert (Hsame : storeStep scored (store s) (store s)).
  { apply storeStep_refl, scored_refl. }
  destruct (RoomManager.lookupRoom roomCode (store s)) as [[a room]|] eqn:Hl;
    [|split; assumption].
  apply lookupRoom_Some in Hl as [_ Hroom].
  destruct (handlePromptSubmission socket prompt room) as [room' res] eqn:Hrun.
  pose proof (keeps_handlePromptSubmission _ _ _ _ _ Hrun) as Hq.
  destruct (Inv_with_store_quiet s a room room' HInv Hroom Hq) as [HInv1 Hstep1].
  destruct res as [e|resolved].
  - split; [|exact HInv1]. simpl. now apply storeStep_quiet_is_scored.
  - destruct resolved as [f|].
    + set (s1 := reply _ _ _ _ _ _).
      destruct (resolvePromise_ok env f s1 HInv1) as [Hstep2 HInv2].
      split; [|assumption].
      eapply storeStep_quiet_scored; [exact Hstep1 | exact Hstep2].
    + split; [|exact HInv1]. simpl. now apply storeStep_quiet_is_scored.
Qed.

Lemma Inv_with_timers s tm : Inv s -> Inv (with_timers s tm).
Proof. intros H. exact H. Qed.

Lemma onTimer_ok env id draw s :
  Inv s ->
  storeStep scored (store s) (store (onTimer env id draw s))
  /\ Inv (onTimer env id draw s).
Proof.
  intros HInv. unfold onTimer.
  assert (Hsame : storeStep scored (store s) (store s)).
  { apply storeStep_refl, scored_refl. }
  destruct (find _ (timers s)) as [tm|]; [|split; assumption].
  set (s0 := with_timers s _).
  assert (HInv0 : Inv s0) by exact HInv.
  change (store s) with (store s0).
  destruct (tm_cb tm) as [task|a].
  - apply resume_ok; [assumption|].
    intros t room m _ _ _ _. destruct (t_at t); try discriminate; intros [= <-].
    + apply stretchOK_writingPhase.
    + apply stretchOK_roundsFrom.
  - destruct (deref (store s0) a) as [room|] eqn:Hroom; [|split; assumption].
    destruct (promptTimeout room) as [room' res] eqn:Hrun.
    pose proof (keeps_promptTimeout _ _ _ Hrun) as Hq.
    destruct (Inv_with_store_quiet s0 a room room' HInv0 Hroom Hq) as [HInv1 Hstep1].
    assert (Hquiet : storeStep scored (store s0)
                       (store (with_store s0 (update a room' (store s0))))
                     /\ Inv (with_store s0 (update a room' (store s0)))).
    { split; [|assumption]. simpl. now apply storeStep_quiet_is_scored. }
    destruct res as [e|[f|]]; try exact Hquiet.
    destruct (resolvePromise_ok env f _ HInv1) as [Hstep2 HInv2].
    split; [|assumption].
    eapply storeStep_quiet_scored; [exact Hstep1 | exact Hstep2].
Qed.

Lemma onOriginalReady_ok task api s :
  Inv s ->
  storeStep scored (store s) (store (onOriginalReady task api s))
  /\ Inv (onOriginalReady task api s).
Proof.
  intros HInv. unfold onOriginalReady. apply resume_ok; [assumption|].
  intros t room m _ _ _ _. destruct (t_at t); try discriminate; intros [= <-].
  apply stretchOK_showOriginal.
Qed.

Lemma onImageReady_ok env task api s :
  Inv s ->
  storeStep scored (store s) (store (onImageReady env task api s))
  /\ Inv (onImageReady env task api s).
Proof.
  intros HInv. unfold onImageReady. apply resume_ok; [assumption|].
  intros t room m _ _ Hd _. destruct (t_at t); try discriminate; intros [= <-].
  eapply stretchOK_afterImage. exact Hd.
Qed.

End Handlers.

Section Registry.
Import GameLogic Server.

Lemma roomInv_new socket name : roomInv
  {| code := EmptyString; host := socket; config := {| rounds := 0; difficulty := EmptyString;
       categories := []; mode := EmptyString |};
     players := [(socket, RoomManager.newPlayer socket name)];
     state := WAITING; currentRound := 0; roundData := emptyObject;
     _resolvePromptPromise := None |}.
Proof.
  split.
  - unfold members. simpl. constructor; [simpl; tauto | constructor].
  - intros id p. simpl. destruct (String.eqb id socket); [|discriminate].
    intros [= <-]. simpl. lia.
Qed.

Lemma onCreateRoom_ok socket cfg attempts s :
  Inv s ->
  Inv (onCreateRoom socket cfg attempts s)
  /\ forall a r, deref (store s) a = Some r ->
                 deref (store (onCreateRoom socket cfg attempts s)) a = Some r.
Proof.
  intros HInv. unfold onCreateRoom, RoomManager.createRoom.
  destruct (RoomManager.freshCode attempts (rooms (store s))) as [c|]; [|auto].
  destruct cfg as [cfg|]; simpl.
  - split.
    + destruct HInv as [Hheap Htasks]. split; [|exact Htasks].
      intros a r. unfold deref. simpl. intros Ha.
      apply lookup_app_Some in Ha as [Ha|[_ Ha]]; [now apply (Hheap a)|].
      apply list_lookup_singleton_Some in Ha as [_ <-].
      destruct (roomInv_new socket (JS.or_string (cc_playerName cfg) "Host")) as [H1 H2].
      split; assumption.
    + intros a r. unfold deref. simpl. intros Ha.
      rewrite lookup_app_l; [assumption|]. eapply lookup_lt_Some; eassumption.
  - split; [exact HInv | auto].
Qed.

Lemma roomInv_join socket name r :
  roomInv r ->
  roomInv (with_players r (Map.set socket (RoomManager.newPlayer socket name) (players r))).
Proof.
  intros [Hnd Hpos]. split.
  - unfold members. simpl. now apply Map_NoDup_set.
  - intros id p. simpl. destruct (String.eqb socket id) eqn:E.
    + apply String.eqb_eq in E. subst id. rewrite Map_get_set_eq.
      intros [= <-]. simpl. lia.
    + apply String.eqb_neq in E. rewrite Map_get_set_ne by assumption. apply Hpos.
Qed.

Lemma onJoinRoom_ok env socket roomCode playerName s :
  Inv s ->
  Inv (onJoinRoom env socket roomCode playerName s)
  /\ forall a r r', deref (store s) a = Some r ->
       deref (store (onJoinRoom env socket roomCode playerName s)) a = Some r' ->
       r' = r
       \/ players r' = Map.set socket
                         (RoomManager.newPlayer socket (JS.or_string playerName "Player"))
                         (players r).
Proof.
  intros HInv. unfold onJoinRoom, RoomManager.joinRoom.
  assert (Hsame : Inv s /\ forall a r r', deref (store s) a = Some r ->
            deref (store s) a = Some r' ->
            r' = r \/ players r' = Map.set socket
                         (RoomManager.newPlayer socket (JS.or_string playerName "Player"))
                         (players r)).
  { split; [assumption|]. intros a r r' H1 H2. left. congruence. }
  destruct (RoomManager.lookupRoom roomCode (store s)) as [[a room]|] eqn:Hl;
    [|exact Hsame].
  destruct (Z.geb _ _); [exact Hsame|]. simpl.
  apply lookupRoom_Some in Hl as [_ Hroom].
  destruct HInv as [Hheap Htasks]. split.
  - split; [|exact Htasks]. simpl. intros b rb Hb.
    destruct (Nat.eq_dec a b) as [<-|Hne].
    + rewrite deref_update_eq in Hb by (eapply deref_Some_lt; eassumption).
      injection Hb as <-. apply roomInv_join. eapply Hheap; eassumption.
    + rewrite deref_update_ne in Hb by assumption. eapply Hheap; eassumption.
  - intros b r r' Hb Hb'. destruct (Nat.eq_dec a b) as [<-|Hne].
    + rewrite deref_update_eq in Hb' by (eapply deref_Some_lt; eassumption).
      injection Hb' as <-. right. assert (r = room) by congruence. now subst.
    + rewrite deref_update_ne in Hb' by assumption. left. congruence.
Qed.

Lemma Map_delete_delete {V} k (m : Map.t V) : Map.delete k (Map.delete k m) = Map.delete k m.
Proof.
  apply Map_keys_delete_absent. intros H. apply Map_keys_delete_In in H. tauto.
Qed.

Lemma removeFrom_heap socketId entry st :
  length (heap (fst (RoomManager.removeFrom socketId entry st))) = length (heap st)
  /\ forall b rb, deref st b = Some rb ->
       exists rb', deref (fst (RoomManager.removeFrom socketId entry st)) b = Some rb'
                   /\ leftBy socketId rb rb'.
Proof.
  unfold RoomManager.removeFrom. destruct entry as [c a].
  assert (Hsame : length (heap st) = length (heap st)
            /\ forall b rb, deref st b = Some rb ->
                 exists rb', deref st b = Some rb' /\ leftBy socketId rb rb').
  { split; [reflexivity|]. intros b rb Hb. exists rb. split; [assumption | now left]. }
  destruct (deref st a) as [room|] eqn:Hroom; [|exact Hsame].
  destruct (Map.has socketId (players room)); [|exact Hsame].
  assert (Hone : forall x, players x = Map.delete socketId (players room) ->
            forall b rb, deref st b = Some rb ->
              exists rb', <[a := x]> (heap st) !! b = Some rb' /\ leftBy socketId rb rb').
  { intros x Hx b rb Hb. destruct (Nat.eq_dec a b) as [<-|Hne].
    - exists x. split.
      + apply list_lookup_insert_eq. eapply deref_Some_lt; eassumption.
      + right. assert (rb = room) by congruence. now subst.
    - exists rb. split; [|now left]. now rewrite list_lookup_insert_ne. }
  destruct (String.eqb _ socketId).
  - destruct (Map.keys _) as [|next more].
    + unfold deref, update. simpl. split; [apply length_insert|]. apply Hone. reflexivity.
    + destruct (JS.truthy next); unfold deref, update; simpl.
      * rewrite list_insert_insert_eq. split; [apply length_insert|].
        apply Hone. reflexivity.
      * split; [apply length_insert|]. apply Hone. reflexivity.
  - unfold deref, update. simpl. split; [apply length_insert|]. apply Hone. reflexivity.
Qed.

Lemma leftBy_trans socketId r1 r2 r3 :
  leftBy socketId r1 r2 -> leftBy socketId r2 r3 -> leftBy socketId r1 r3.
Proof.
  intros [->|H12] [->|H23]; [now left | now right | now right|].
  right. rewrite H23, H12. apply Map_delete_delete.
Qed.

Lemma removeLoop_heap socketId entries : forall st,
  length (heap (RoomManager.removeLoop socketId entries st)) = length (heap st)
  /\ forall b rb, deref st b = Some rb ->
       exists rb', deref (RoomManager.removeLoop socketId entries st) b = Some rb'
                   /\ leftBy socketId rb rb'.
Proof.
  induction entries as [|entry more IH]; intros st; cbn [RoomManager.removeLoop].
  - split; [reflexivity|]. intros b rb Hb. exists rb. split; [assumption | now left].
  - destruct (removeFrom_heap socketId entry st) as [Hl1 H1].
    destruct (RoomManager.removeFrom socketId entry st) as [st1 stop]. simpl in *.
    destruct stop; [split; assumption|].
    destruct (IH st1) as [Hl2 H2]. split; [congruence|].
    intros b rb Hb. destruct (H1 _ _ Hb) as (r1 & Hb1 & Hleft1).
    destruct (H2 _ _ Hb1) as (r2 & Hb2 & Hleft2).
    exists r2. split; [assumption|]. eapply leftBy_trans; eassumption.
Qed.

Lemma roomInv_leftBy socketId r r' : roomInv r -> leftBy socketId r r' -> roomInv r'.
Proof.
  intros [Hnd Hpos] [->|Hp]; [split; assumption|]. split.
  - unfold members. rewrite Hp. now apply Map_NoDup_delete.
  - intros id p. rewrite Hp. destruct (String.eqb socketId id) eqn:E.
    + apply String.eqb_eq in E. subst. now rewrite Map_get_delete_eq.
    + apply String.eqb_neq in E. rewrite Map_get_delete_ne by assumption. apply Hpos.
Qed.

Lemma onDisconnect_ok socket s :
  Inv s ->
  Inv (onDisconnect socket s)
  /\ forall a r r', deref (store s) a = Some r ->
       deref (store (onDisconnect socket s)) a = Some r' -> leftBy socket r r'.
Proof.
  intros [Hheap Htasks]. unfold onDisconnect, RoomManager.removePlayer. simpl.
  destruct (removeLoop_heap socket (rooms (store s)) (store s)) as [Hl H].
  split.
  - split; [|exact Htasks]. simpl. intros a r' Ha.
    assert (Hlt : (a < length (heap (store s)))%nat).
    { rewrite <- Hl. eapply deref_Some_lt; eassumption. }
    destruct (lookup_lt_is_Some_2 (heap (store s)) a Hlt) as [r Hr].
    destruct (H _ _ Hr) as (r1 & Hr1 & Hleft).
    assert (r1 = r') by congruence. subst r1.
    eapply roomInv_leftBy; [|eassumption]. eapply Hheap; eassumption.
  - intros a r r' Ha Ha'. destruct (H _ _ Ha) as (r1 & Hr1 & Hleft).
    assert (r1 = r') by congruence. now subst.
Qed.

(** Every event changes a room object in one of three ways. *)
Lemma handle_evolves env e s a r r' :
  Inv s -> deref (store s) a = Some r ->
  deref (store (handle env e s)) a = Some r' ->
  evolves e r r'.
Proof.
  intros HInv Hr Hr'.
  assert (Hgame : forall s', storeStep scored (store s) (store s') /\ Inv s' ->
            deref (store s') a = Some r' -> evolves e r r').
  { intros s' [Hstep _] Ha. apply evolves_game.
    destruct (storeStep_deref _ _ _ _ _ Hstep Ha) as (r0 & Hr0 & Hs).
    assert (r0 = r) by congruence. now subst. }
  destruct e as [socket cfg attempts | socket roomCode name | socket roomCode draw
                 | socket roomCode prompt | socket | id draw | task api | task api];
    simpl in Hr'.
  - destruct (onCreateRoom_ok socket cfg attempts s HInv) as [_ H].
    apply H in Hr. assert (r' = r) by congruence. subst.
    apply evolves_game, scored_refl.
  - destruct (onJoinRoom_ok env socket roomCode name s HInv) as [_ H].
    destruct (H _ _ _ Hr Hr') as [->|Hp].
    + apply evolves_game, scored_refl.
    + eapply evolves_join; [reflexivity | exact Hp].
  - eapply Hgame; [apply onStartGame_ok | ]; eassumption.
  - eapply Hgame; [apply onSubmitPrompt_ok | ]; eassumption.
  - destruct (onDisconnect_ok socket s HInv) as [_ H].
    destruct (H _ _ _ Hr Hr') as [->|Hp].
    + apply evolves_game, scored_refl.
    + eapply evolves_leave; [reflexivity | exact Hp].
  - eapply Hgame; [apply onTimer_ok | ]; eassumption.
  - eapply Hgame; [apply onOriginalReady_ok | ]; eassumption.
  - eapply Hgame; [apply onImageReady_ok | ]; eassumption.
Qed.

Lemma handle_Inv env e s : Inv s -> Inv (handle env e s).
Proof.
  intros HInv.
  destruct e as [socket cfg attempts | socket roomCode name | socket roomCode draw
                 | socket roomCode prompt | socket | id draw | task api | task api];
    simpl.
  - apply onCreateRoom_ok; assumption.
  - apply onJoinRoom_ok; assumption.
  - apply onStartGame_ok; assumption.
  - apply onSubmitPrompt_ok; assumption.
  - apply onDisconnect_ok; assumption.
  - apply onTimer_ok; assumption.
  - apply onOriginalReady_ok; assumption.
  - apply onImageReady_ok; assumption.
Qed.

Lemma Inv_initial : Inv initial.
Proof.
  split.
  - intros a r. unfold deref. simpl. now rewrite lookup_nil.
  - intros t [].
Qed.

Lemma deliver_Inv env te s : Inv s -> Inv (deliver env te s).
Proof. intros H. unfold deliver. apply handle_Inv. exact H. Qed.

Lemma run_Inv env schedule : forall s, Inv s -> Inv (run env schedule s).
Proof.
  unfold run. induction schedule as [|te more IH]; intros s H; simpl; [assumption|].
  apply IH. now apply deliver_Inv.
Qed.

End Registry.

(** ** Scores *)

Section Scores.
Import GameLogic Server.

(** The voting phase over distinct ids, when it ends normally: every id of
    the snapshot has got the score of its stored prompt added exactly
    once, and no other player has changed. *)
Lemma votingPhase_adds_once task round op ids r r' step :
  List.NoDup ids ->
  votingPhase task round op ids r = (r', inr step) ->
  (forall id, In id ids ->
     exists p ps, prompts (roundData r) = Some ps
       /\ Map.get id (players r) = Some p
       /\ Map.get id (players r') = Some (add_score (scoreOf op (ps !! id)) p))
  /\ (forall id, ~ In id ids -> Map.get id (players r') = Map.get id (players r)).
Proof.
  intros Hnd. unfold votingPhase.
  unfold bind at 1. unfold modify. set (r0 := with_state r VOTING).
  unfold bind at 1.
  destruct (scoreLoop op ids r0) as [r1 [e|[]]] eqn:Hscore; [discriminate|].
  unfold bind at 1.
  destruct (accumulateLoop ids r1) as [r2 [e|[]]] eqn:Hacc; [discriminate|].
  intros Hrest.
  assert (Hq : quiet r2 r').
  { revert Hrest. apply keeps_bind; [apply keeps_totalScores|].
    intros _. apply keeps_ret. }
  destruct Hq as (_ & _ & _ & Hplayers). rewrite Hplayers.
  destruct ids as [|id0 more].
  { injection Hacc as <-. split; [intros id []|].
    intros id _. pose proof (keeps_scoreLoop _ _ _ _ _ Hscore) as (_ & _ & _ & Hp).
    now rewrite Hp. }
  destruct (prompts (roundData r0)) as [ps|] eqn:Hps.
  2:{ simpl in Hscore. unfold bind at 1 in Hscore. unfold readPrompt in Hscore.
      rewrite Hps in Hscore. discriminate. }
  destruct (scores (roundData r0)) as [sc|] eqn:Hsc.
  2:{ simpl in Hscore. unfold bind at 1 in Hscore. unfold readPrompt in Hscore.
      rewrite Hps in Hscore. unfold bind at 1 in Hscore.
      unfold writeScore in Hscore. rewrite Hsc in Hscore. discriminate. }
  destruct (scoreLoop_spec op (id0 :: more) r0 ps sc Hps Hsc) as (sc' & Hrun & Hin & _).
  rewrite Hrun in Hscore. injection Hscore as <-.
  assert (Hsc' : scores (roundData (with_roundData r0 (with_scores (roundData r0) sc')))
                 = Some sc') by reflexivity.
  destruct (accumulateLoop_once (id0 :: more) _ r2 sc' Hnd Hsc' Hacc) as [Hadd Hkeep].
  split.
  - intros id Hid. destruct (Hadd _ Hid) as (p & Hp & Hp').
    exists p, ps. split; [exact Hps|]. split; [exact Hp|].
    rewrite Hp'. now rewrite (Hin _ Hid).
  - intros id Hid. now rewrite (Hkeep _ Hid).
Qed.

(** C8, as the code has it. In every state that the server reaches, the
    score of every player of every room object is non-negative, and one
    more event leaves the score of a player who is in the room before and
    after it as it was or adds one round score to it (0, or the similarity
    of a prompt to an original prompt, which is not negative) -- unless the
    event is a [join-room] of that very socket, which installs a new entry
    with score 0 for it. Moreover the accumulation step of a round, when it
    completes, adds to every snapshotted player the score of that player's
    stored prompt exactly once and changes no other player; and the score
    of a stored prompt, for strings that the engine can hold, lies between
    0 and 100. *)
Theorem score_changes :
  forall (env : Env) (schedule : list (Z * Event)) (e : Event)
         (a : nat) (r : Room) (id : string) (p : Player),
    deref (store (run env schedule initial)) a = Some r ->
    Map.get id (players r) = Some p ->
    0 <= p_score p
    /\ (forall r' p',
          deref (store (handle env e (run env schedule initial))) a = Some r' ->
          Map.get id (players r') = Some p' ->
          (exists d, p_score p' = p_score p + d /\ roundScore d /\ 0 <= d)
          \/ (exists roomCode playerName,
                e = JoinRoom id roomCode playerName /\ p_score p' = 0))
    /\ (forall task round originalPrompt playerIds r1 r2 step,
          List.NoDup playerIds ->
          votingPhase task round originalPrompt playerIds r1 = (r2, inr step) ->
          (forall id, In id playerIds ->
             exists p ps, prompts (roundData r1) = Some ps
               /\ Map.get id (players r1) = Some p
               /\ Map.get id (players r2)
                  = Some (add_score (scoreOf originalPrompt (ps !! id)) p))
          /\ (forall id, ~ In id playerIds ->
                Map.get id (players r2) = Map.get id (players r1)))
    /\ (forall (originalPrompt : string) (prompt : option string),
          Scoring.fits (Some originalPrompt) -> Scoring.fits prompt ->
          0 <= scoreOf originalPrompt prompt <= 100).
Proof.
  intros env schedule e a r id p Hr Hp.
  pose proof (run_Inv env schedule initial Inv_initial) as HInv.
  split; [|split; [|split]].
  - destruct HInv as [Hheap _]. destruct (Hheap _ _ Hr) as [_ Hpos]. eauto.
  - intros r' p' Hr' Hp'.
    destruct (handle_evolves env e _ a r r' HInv Hr Hr') as
      [Hs | socket roomCode playerName He Hplayers | socket He Hplayers].
    + left. destruct Hs as (_ & _ & _ & _ & Hs).
      destruct (Hs _ _ Hp') as (p0 & d & Hp0 & -> & Hd).
      assert (p0 = p) by congruence. subst p0.
      exists d. simpl. auto using roundScore_nonneg.
    + rewrite Hplayers in Hp'. destruct (String.eqb socket id) eqn:E.
      * apply String.eqb_eq in E. subst socket. rewrite Map_get_set_eq in Hp'.
        injection Hp' as <-. right. eauto.
      * apply String.eqb_neq in E. rewrite Map_get_set_ne in Hp' by assumption.
        left. exists 0. assert (p' = p) by congruence. subst.
        split; [lia|]. split; [apply roundScore_0 | lia].
    + rewrite Hplayers in Hp'. destruct (String.eqb socket id) eqn:E.
      * apply String.eqb_eq in E. subst socket.
        now rewrite Map_get_delete_eq in Hp'.
      * apply String.eqb_neq in E. rewrite Map_get_delete_ne in Hp' by assumption.
        left. exists 0. assert (p' = p) by congruence. subst.
        split; [lia|]. split; [apply roundScore_0 | lia].
  - intros task round op ids r1 r2 step Hnd Hrun.
    eapply votingPhase_adds_once; eassumption.
  - intros op prompt Hop Hprompt. unfold scoreOf.
    destruct (JS.truthy_opt prompt); [|lia].
    now apply calculateSimilarity_range.
Qed.

Lemma score_changes_witness :
  exists r p,
    deref (store (run demo_env round1_schedule initial)) 0 = Some r
    /\ Map.get "s1" (players r) = Some p
    /\ p_score p = 36
    /\ 0 <= p_score p
    /\ (forall r' p',
          deref (store (handle demo_env (TimerFires 2 1%nat)
                          (run demo_env round1_schedule initial))) 0 = Some r' ->
          Map.get "s1" (players r') = Some p' ->
          (exists d, p_score p' = p_score p + d /\ roundScore d /\ 0 <= d)
          \/ (exists roomCode playerName,
                TimerFires 2 1%nat = JoinRoom "s1" roomCode playerName
                /\ p_score p' = 0)).
Proof.
  eexists _, _. split; [vm_compute; reflexivity|].
  split; [reflexivity|]. split; [reflexivity|].
  pose proof (score_changes demo_env round1_schedule (TimerFires 2 1%nat) 0 _ "s1" _
                ltac:(vm_compute; reflexivity) ltac:(reflexivity)) as H.
  split; [apply H | apply H].
Defined.

(** C8, counterexample: it is not so that no operation ever decreases a
    score. After round 1 Ann has 36 points; her socket sends [join-room]
    for the room she is in, and her entry is replaced by one with score 0. *)
Lemma join_again_resets_score :
  scoreAt (run demo_env round1_schedule initial) 0 "s1" = Some 36
  /\ scoreAt (deliver demo_env (14000, JoinRoom "s1" "ABCDEF" (Some "Ann"))
                (run demo_env round1_schedule initial)) 0 "s1" = Some 0
  /\ ~ (forall (env : Env) (schedule : list (Z * Event)) (te : Z * Event)
               (a : nat) (id : string) (before after : Z),
          scoreAt (run env schedule initial) a id = Some before ->
          scoreAt (deliver env te (run env schedule initial)) a id = Some after ->
          before <= after).
Proof.
  assert (H1 : scoreAt (run demo_env round1_schedule initial) 0 "s1" = Some 36)
    by (vm_compute; reflexivity).
  assert (H2 : scoreAt (deliver demo_env (14000, JoinRoom "s1" "ABCDEF" (Some "Ann"))
                          (run demo_env round1_schedule initial)) 0 "s1" = Some 0)
    by (vm_compute; reflexivity).
  split; [exact H1|]. split; [exact H2|].
  intros H. specialize (H _ _ _ _ _ _ _ H1 H2). lia.
Qed.

End Scores.

(** ** Hosts *)

Section Hosts.
Import GameLogic Server.

Lemma handle_wf env e s :
  Inv s -> wfStore (store s) -> validEvent e -> wfStore (store (handle env e s)).
Proof.
  intros HInv Hwf Hvalid.
  destruct e as [socket cfg attempts | socket roomCode name | socket roomCode draw
                 | socket roomCode prompt | socket | id draw | task api | task api];
    simpl in *.
  - unfold onCreateRoom.
    destruct (RoomManager.createRoom cfg socket attempts (store s))
      as [[st' [err|c]]|] eqn:Hc; simpl; try assumption;
      eapply createRoom_wf; eassumption.
  - unfold onJoinRoom.
    pose proof (joinRoom_wf env roomCode socket name (store s) Hwf Hvalid) as H.
    destruct (RoomManager.joinRoom env roomCode socket name (store s)) as [st' res].
    exact H.
  - eapply storeStep_wf; [eassumption | now apply onStartGame_ok].
  - eapply storeStep_wf; [eassumption | now apply onSubmitPrompt_ok].
  - now apply removePlayer_wf.
  - eapply storeStep_wf; [eassumption | now apply onTimer_ok].
  - eapply storeStep_wf; [eassumption | now apply onOriginalReady_ok].
  - eapply storeStep_wf; [eassumption | now apply onImageReady_ok].
Qed.

Lemma run_wf env schedule : forall s,
  Inv s -> wfStore (store s) -> validSchedule schedule ->
  wfStore (store (run env schedule s)).
Proof.
  unfold run, validSchedule.
  induction schedule as [|te more IH]; intros s HInv Hwf Hvalid; simpl; [assumption|].
  inversion Hvalid as [|x l Hte Hmore]; subst.
  apply IH; [now apply deliver_Inv| |assumption].
  unfold deliver. apply handle_wf; assumption.
Qed.

(** The host of a two-player room leaves: the other player becomes host;
    the host of a one-player room leaves: the room is deleted. *)
Example removePlayer_two_then_one :
  let st := store (run demo_env round1_schedule initial) in
  option_map host (RoomManager.getRoom "ABCDEF" st) = Some "s1"
  /\ option_map host (RoomManager.getRoom "ABCDEF" (RoomManager.removePlayer "s1" st))
     = Some "s2"
  /\ option_map members (RoomManager.getRoom "ABCDEF" (RoomManager.removePlayer "s1" st))
     = Some ["s2"]
  /\ RoomManager.getRoom "ABCDEF"
       (RoomManager.removePlayer "s2" (RoomManager.removePlayer "s1" st)) = None.
Proof. repeat split; vm_compute; reflexivity. Qed.

End Hosts.

(** ** Starting a game *)

Section Starting.
Import GameLogic Server.

Lemma replies_setTimeouts s armed : replies (foldl setTimeout s armed) = replies s.
Proof. revert s. induction armed as [|x l IH]; intros s; simpl; [reflexivity|]. now rewrite IH. Qed.

Lemma settle_replies task a socket out s :
  replies (settle task a socket out s)
  = (replies s ++ answer socket (settledAt (snd out)))%list.
Proof.
  unfold settle. destruct out as [room res].
  destruct res as [e|[at_ armed]]; simpl.
  - reflexivity.
  - destruct at_; simpl; rewrite ?replies_setTimeouts, ?app_nil_r; reflexivity.
Qed.

Lemma insert_last {A} (l : list A) x y :
  <[length l := x]> (l ++ [y])%list = (l ++ [x])%list.
Proof. induction l as [|z l IH]; simpl; [reflexivity|]. now rewrite IH. Qed.

Lemma roundsFrom_state env task round draw r r' res :
  roundsFrom env task round draw r = (r', res) ->
  state r' = SHOWING_IMAGE \/ state r' = GAME_OVER.
Proof.
  unfold roundsFrom, bind, get.
  destruct (Z.leb round (rounds (config r))).
  - unfold beginRound, bind, modify, get. simpl.
    destruct (openai env); intros [= <- <-]; now left.
  - unfold gameOver, bind, modify, ret. intros [= <- <-]. now right.
Qed.

End Starting.

Section Scenarios.
Import GameLogic Server.

(** C2, the failing run. Round 1 is resolved at 13000 by the last
    submission; its deadline timer (number 1, due at 191000) stays set.
    Round 2 opens its gate at 28000 with a deadline at 208000 (timer 4), and
    nobody submits. When timer 1 fires at 191000 the schedule respects the
    clock, the gate of round 2 is pending with no prompt stored -- and the
    callback resolves it: the activation leaves the writing phase of round
    2 seventeen seconds before its deadline, with timer 4 still set. *)
Theorem stale_deadline_resolves_next_gate :
  let before := run demo_env round2_schedule initial in
  let after := run demo_env stale_schedule initial in
  feasible demo_env stale_schedule initial = true
  /\ map t_at (tasks before)
     = [AwaitPrompts 2 "A detailed space scene generated for a prompt battle game."]
  /\ option_map _resolvePromptPromise (roomAt before 0)
     = Some (Some {| res_task := 0; res_round := 2 |})
  /\ option_map (fun r => prompts (roundData r)) (roomAt before 0) = Some (Some ∅)
  /\ map (fun tm => (tm_id tm, tm_due tm)) (timers before)
     = [(1%nat, 191000); (4%nat, 208000)]
  /\ now after = 191000
  /\ map t_at (tasks after) = [AwaitPause 2]
  /\ option_map state (roomAt after 0) = Some VOTING
  /\ option_map _resolvePromptPromise (roomAt after 0) = Some None
  /\ map (fun tm => (tm_id tm, tm_due tm)) (timers after)
     = [(4%nat, 208000); (5%nat, 196000)].
Proof. cbv zeta. repeat split; vm_compute; reflexivity. Qed.

(** A gateway whose call stays pending. Should the gateway ever await the
    image service across turns of the event loop (the one of
    imageGenerator.js does not, see [inTurn]), a player could leave between
    the snapshot of the image phase and the accumulation loop. Bob's id is
    in the snapshot of round 1 and he disconnects while the image for
    Ann's prompt is pending: the image loop and the scoring loop go
    through, but the accumulation loop reads [score] of
    [room.players.get("s2")], which is [undefined], and [startGame]
    throws. *)
Example pending_gateway_leaver :
  let final := run demo_env_openai leaver_schedule initial in
  feasible demo_env_openai leaver_schedule initial = true
  /\ map t_at (tasks final)
     = [Threw (TypeError "Cannot read properties of undefined (reading 'score')")]
  /\ option_map state (roomAt final 0) = Some VOTING
  /\ option_map currentRound (roomAt final 0) = Some 1
  /\ option_map members (roomAt final 0) = Some ["s1"]
  /\ map (fun tm => (tm_id tm, tm_cb tm)) (timers final)
     = [(1%nat, PromptTimeout 0)]
  /\ last (replies final)
     = Some {| r_socket := "s1"; r_request := StartGameReq; r_success := false;
               r_message := Some "Cannot read properties of undefined (reading 'score')";
               r_roomCode := None |}.
Proof. cbv zeta. repeat split; vm_compute; reflexivity. Qed.

(** C9, the failing run. Ann's room exists and no game has been started in
    it: [roundData] is the empty object of [createRoom], the guard
    [!room.roundData] does not hold, and the assignment to
    [room.roundData.prompts[socketId]] throws. The request is answered
    with a failure, and nothing is recorded. *)
Theorem early_submit_is_refused :
  let before := run demo_env [(0, CreateRoom "s1" (Some (demo_cfg 2)) [[0; 1; 2; 3; 4; 5]%nat])] initial in
  let final := run demo_env early_submit_schedule initial in
  feasible demo_env early_submit_schedule initial = true
  /\ (exists room, RoomManager.getRoom "ABCDEF" (store before) = Some room
                   /\ roundData room = emptyObject)
  /\ last (replies final)
     = Some {| r_socket := "s1"; r_request := SubmitPromptReq; r_success := false;
               r_message := Some "Cannot set properties of undefined (setting 's1')";
               r_roomCode := None |}
  /\ store final = store before.
Proof.
  cbv zeta. split; [vm_compute; reflexivity|]. split.
  - eexists. split; vm_compute; reflexivity.
  - split; vm_compute; reflexivity.
Qed.

End Scenarios.

(** ** Failed images *)

Section Images.
Import GameLogic Server.

Lemma storeImage_withImage id settled r :
  images (roundData r) <> None ->
  storeImage id settled r = (withImage id (imageOf settled) r, inr tt).
Proof.
  intros H. unfold withImage.
  destruct settled as [image|e]; simpl; unfold writeImage;
    destruct (images (roundData r)); congruence.
Qed.

(** C4, as the code has it. Let the [images] object of the round exist.
    When an awaited gateway call has settled, the orchestrator stores the
    image it yielded, or [null] when it was rejected, never throws there,
    and goes on with the remaining players of the snapshot. A player for
    whom no prompt (or the empty prompt) is stored gets a [null] image
    without a gateway call, and the loop goes on. The scoring loop does
    not look at the images: it gives every player of the snapshot the
    score of the player's stored prompt, which is 0 when there is no prompt
    (or the empty one) and the similarity of the prompt to the original
    prompt otherwise -- also for a player whose image generation failed.
    The gateway of this repository does not reject: when the image service
    fails it yields the placeholder image. *)
Theorem image_failure_and_scoring :
  forall (env : Env) (task : nat) (round : Z) (originalPrompt : string)
         (playerIds rest : list string) (playerId : string)
         (settled : Settled (option string)) (r : Room)
         (im : gmap string (option string)),
    images (roundData r) = Some im ->
    storeImage playerId settled r = (withImage playerId (imageOf settled) r, inr tt)
    /\ afterImage env task round originalPrompt playerIds rest playerId settled r
       = imagesFrom env task round originalPrompt playerIds rest
           (withImage playerId (imageOf settled) r)
    /\ (forall ps, prompts (roundData r) = Some ps ->
          JS.truthy_opt (ps !! playerId) = false ->
          imagesFrom env task round originalPrompt playerIds (playerId :: rest) r
          = imagesFrom env task round originalPrompt playerIds rest
              (withImage playerId None r))
    /\ (forall ps sc, prompts (roundData r) = Some ps -> scores (roundData r) = Some sc ->
          exists sc',
            scoreLoop originalPrompt playerIds r
            = (with_roundData r (with_scores (roundData r) sc'), inr tt)
            /\ forall id, In id playerIds ->
                 sc' !! id = Some (scoreOf originalPrompt (ps !! id)))
    /\ scoreOf originalPrompt None = 0
    /\ scoreOf originalPrompt (Some EmptyString) = 0
    /\ (forall c prompt,
          scoreOf originalPrompt (Some (String c prompt))
          = Scoring.calculateSimilarity (Some originalPrompt) (Some (String c prompt)))
    /\ (forall prompt,
          ImageGenerator.generateImageFromPrompt prompt (Some ImageGenerator.Failed)
          = Some ImageGenerator.PLACEHOLDER).
Proof.
  intros env task round op ids rest id settled r im Him.
  assert (Hne : images (roundData r) <> None) by congruence.
  split; [now apply storeImage_withImage|].
  split.
  { unfold afterImage. unfold bind at 1. now rewrite storeImage_withImage. }
  split.
  { intros ps Hps Hfalsy. cbn [imagesFrom]. unfold bind at 1. unfold readPrompt.
    rewrite Hps.
    assert (Hw : writeImage id None r = (withImage id None r, inr tt)).
    { unfold writeImage, withImage. now rewrite Him. }
    destruct (ps !! id) as [prompt|]; simpl in Hfalsy.
    - rewrite Hfalsy. unfold bind at 1. now rewrite Hw.
    - unfold bind at 1. now rewrite Hw. }
  split.
  { intros ps sc Hps Hsc.
    destruct (scoreLoop_spec op ids r ps sc Hps Hsc) as (sc' & Hrun & Hin & _).
    eauto. }
  repeat split.
Qed.

Lemma image_failure_and_scoring_witness :
  exists r im,
    roomAt (run demo_env_openai awaiting_image_schedule initial) 0 = Some r
    /\ images (roundData r) = Some im
    /\ storeImage "s1" (Rejected (Error "timeout")) r
       = (withImage "s1" (imageOf (Rejected (Error "timeout"))) r, inr tt)
    /\ afterImage demo_env_openai 0 1 the_original ["s1"] [] "s1"
         (Rejected (Error "timeout")) r
       = imagesFrom demo_env_openai 0 1 the_original ["s1"] []
           (withImage "s1" (imageOf (Rejected (Error "timeout"))) r).
Proof.
  eexists _, _. split; [vm_compute; reflexivity|]. split; [reflexivity|].
  match goal with
  | |- storeImage _ _ ?r = _ /\ _ =>
      pose proof (image_failure_and_scoring demo_env_openai 0 1 the_original ["s1"] []
                    "s1" (Rejected (Error "timeout")) r _ eq_refl) as H
  end.
  split; apply H.
Defined.

(** C4, counterexample: a player whose image generation fails does not get
    the score 0. Ann submits the original prompt itself and the image
    service fails for it: the gateway yields the placeholder, which is
    stored as her image (not [null]), and her round score is 100. Had the
    gateway call been rejected, her image would be [null] and her round
    score 100 all the same. *)
Lemma failed_image_is_scored :
  let final := run demo_env_openai failed_image_schedule initial in
  feasible demo_env_openai failed_image_schedule initial = true
  /\ imageAt final 0 "s1" = Some (Some ImageGenerator.PLACEHOLDER)
  /\ roundScoreAt final 0 "s1" = Some 100
  /\ scoreAt final 0 "s1" = Some 100
  /\ (exists r r' step,
        roomAt (run demo_env_openai awaiting_image_schedule initial) 0 = Some r
        /\ afterImage demo_env_openai 0 1 the_original ["s1"] [] "s1"
             (Rejected (Error "timeout")) r = (r', inr step)
        /\ (images (roundData r') ≫= (fun im => im !! "s1")) = Some None
        /\ (scores (roundData r') ≫= (fun sc => sc !! "s1")) = Some 100).
Proof.
  cbv zeta. split; [vm_compute; reflexivity|]. split; [vm_compute; reflexivity|].
  split; [vm_compute; reflexivity|]. split; [vm_compute; reflexivity|].
  eexists _, _, _. split; [vm_compute; reflexivity|].
  split; [vm_compute; reflexivity|]. split; vm_compute; reflexivity.
Qed.

End Images.

(* ===================================================================== *)
(** * Further properties of the code *)
(* ===================================================================== *)

(** ** roomManager.js *)

Section RegistryFacts.
Import Server.

Lemma reachable_wf env schedule :
  validSchedule schedule -> wfStore (store (run env schedule initial)).
Proof.
  intros Hvalid. apply run_wf; [apply Inv_initial | apply wfStore_initial | assumption].
Qed.

Lemma charAt_chars d :
  (d < 36)%nat ->
  exists c, RoomManager.charAt RoomManager.chars d = String c ""
            /\ (JS.between 65 90 c || JS.between 48 57 c)%bool = true.
Proof.
  intros Hd.
  do 36 (destruct d as [|d]; [eexists; split; reflexivity|]).
  lia.
Qed.

Lemma string_length_app (a b : string) :
  String.length (a ++ b) = (String.length a + String.length b)%nat.
Proof.
  induction a as [|x a IH]; [reflexivity|].
  rewrite string_app_cons. cbn [String.length]. now rewrite IH.
Qed.

Lemma code_loop draws : forall acc,
  Forall (fun d => (d < 36)%nat) draws ->
  Forall (fun c => (JS.between 65 90 c || JS.between 48 57 c)%bool = true)
         (list_ascii_of_string acc) ->
  String.length (foldl (fun code d => code ++ RoomManager.charAt RoomManager.chars d)
                       acc draws)
  = (String.length acc + length draws)%nat
  /\ Forall (fun c => (JS.between 65 90 c || JS.between 48 57 c)%bool = true)
       (list_ascii_of_string
          (foldl (fun code d => code ++ RoomManager.charAt RoomManager.chars d)
                 acc draws)).
Proof.
  induction draws as [|d draws IH]; intros acc Hd Hacc; cbn [foldl].
  - split; [cbn [length]; lia | exact Hacc].
  - inversion Hd as [|x l Hx Hl]; subst.
    destruct (charAt_chars d Hx) as (c & Hc & Hgood).
    destruct (IH (acc ++ RoomManager.charAt RoomManager.chars d) Hl) as [Hlen Hall].
    + rewrite Hc, list_ascii_app. apply Forall_app. split; [exact Hacc|].
      cbn. constructor; [exact Hgood | constructor].
    + split; [|exact Hall].
      rewrite Hlen, Hc, string_length_app. cbn [String.length length]. lia.
Qed.

(** X1. A room code is made of six code units, each an upper-case letter
    or a digit, whatever the six random draws (each below 36, the length
    of the alphabet) are. *)
Theorem generateRoomCode_alphabet (draws : list nat) :
  length draws = 6%nat ->
  Forall (fun d => (d < String.length RoomManager.chars)%nat) draws ->
  String.length (RoomManager.generateRoomCode draws) = 6%nat
  /\ Forall (fun c => (JS.between 65 90 c || JS.between 48 57 c)%bool = true)
       (list_ascii_of_string (RoomManager.generateRoomCode draws)).
Proof.
  intros Hlen Hd. unfold RoomManager.generateRoomCode.
  rewrite take_ge by lia.
  destruct (code_loop draws "" Hd) as [H1 H2]; [constructor|].
  split; [|exact H2]. rewrite H1, Hlen. reflexivity.
Qed.

Lemma generateRoomCode_alphabet_witness :
  length [7; 35; 0; 26; 12; 30]%nat = 6%nat
  /\ String.length (RoomManager.generateRoomCode [7; 35; 0; 26; 12; 30]%nat) = 6%nat.
Proof.
  split; [reflexivity|].
  apply (generateRoomCode_alphabet [7; 35; 0; 26; 12; 30]%nat); [reflexivity|].
  repeat (constructor; [vm_compute; lia|]). constructor.
Defined.

(** *** [getRoomByPlayer] *)

Lemma findByPlayer_Some socketId entries st r :
  RoomManager.findByPlayer socketId entries st = Some r ->
  exists c a, In (c, a) entries /\ deref st a = Some r /\ In socketId (members r).
Proof.
  induction entries as [|[c a] more IH]; cbn [RoomManager.findByPlayer]; [discriminate|].
  destruct (deref st a) as [room|] eqn:Hd.
  - destruct (Map.has socketId (players room)) eqn:Hhas.
    + intros [= <-]. exists c, a. split; [now left|]. split; [exact Hd|].
      now apply Map_has_In.
    + intros H. destruct (IH H) as (c' & a' & Hin & Hrest).
      exists c', a'. split; [now right | exact Hrest].
  - intros H. destruct (IH H) as (c' & a' & Hin & Hrest).
    exists c', a'. split; [now right | exact Hrest].
Qed.

Lemma findByPlayer_None socketId entries st :
  RoomManager.findByPlayer socketId entries st = None ->
  forall c a r, In (c, a) entries -> deref st a = Some r -> ~ In socketId (members r).
Proof.
  induction entries as [|[c0 a0] more IH]; cbn [RoomManager.findByPlayer];
    intros Hnone c a r Hin Hd; [destruct Hin|].
  destruct (deref st a0) as [room|] eqn:Hd0.
  - destruct (Map.has socketId (players room)) eqn:Hhas; [discriminate|].
    destruct Hin as [[= -> ->]|Hin].
    + assert (room = r) by congruence. subst room. now apply Map_has_false.
    + eapply IH; eassumption.
  - destruct Hin as [[= -> ->]|Hin]; [congruence|]. eapply IH; eassumption.
Qed.

Lemma findByPlayer_complete socketId entries st c a r :
  In (c, a) entries -> deref st a = Some r -> In socketId (members r) ->
  exists r', RoomManager.findByPlayer socketId entries st = Some r'
             /\ In socketId (members r').
Proof.
  intros Hin Hd Hmem.
  destruct (RoomManager.findByPlayer socketId entries st) as [r'|] eqn:Hfind.
  - exists r'. split; [reflexivity|].
    now destruct (findByPlayer_Some _ _ _ _ Hfind) as (_ & _ & _ & _ & H).
  - exfalso. exact (findByPlayer_None _ _ _ Hfind c a r Hin Hd Hmem).
Qed.

(** X2. In every state that the server reaches, [getRoomByPlayer] returns
    a live room that has the socket among its players, and returns nothing
    exactly when no live room has it. *)
Theorem getRoomByPlayer_finds_member :
  forall (env : Env) (schedule : list (Z * Event)) (socketId : string),
    validSchedule schedule ->
    let st := store (run env schedule initial) in
    match RoomManager.getRoomByPlayer socketId st with
    | Some r => RoomManager.getRoom (code r) st = Some r /\ In socketId (members r)
    | None => forall c r, RoomManager.getRoom c st = Some r -> ~ In socketId (members r)
    end.
Proof.
  intros env schedule socketId Hvalid st.
  pose proof (reachable_wf env schedule Hvalid) as Hwf. fold st in Hwf.
  unfold RoomManager.getRoomByPlayer.
  destruct (RoomManager.findByPlayer socketId (rooms st) st) as [r|] eqn:Hfind.
  - destruct (findByPlayer_Some _ _ _ _ Hfind) as (c & a & Hin & Hd & Hmem).
    split; [|exact Hmem].
    destruct Hwf as (Hk & Hv & Hrooms).
    destruct (Hrooms c a Hin) as (r0 & Hd0 & Hcode & _).
    assert (r0 = r) by congruence. subst r0. rewrite Hcode.
    apply getRoom_Some. exists a. apply lookupRoom_Some. split; [|exact Hd].
    apply Map_In_get; assumption.
  - intros c r Hget. apply getRoom_Some in Hget as [a Hlook].
    apply lookupRoom_Some in Hlook as [Hget Hd].
    apply Map_get_Some_In in Hget.
    exact (findByPlayer_None _ _ _ Hfind c a r Hget Hd).
Qed.

Lemma getRoomByPlayer_finds_member_witness :
  match RoomManager.getRoomByPlayer "s2"
          (store (run demo_env round1_schedule initial)) with
  | Some r => RoomManager.getRoom (code r) (store (run demo_env round1_schedule initial))
              = Some r /\ In "s2" (members r)
  | None => forall c r,
      RoomManager.getRoom c (store (run demo_env round1_schedule initial)) = Some r ->
      ~ In "s2" (members r)
  end.
Proof.
  apply (getRoomByPlayer_finds_member demo_env round1_schedule "s2").
  unfold validSchedule, round1_schedule.
  repeat (constructor; [simpl; try exact I; discriminate|]). constructor.
Defined.

(** *** [createRoom] *)

Lemma createRoom_inr cfg socket attempts st st' c :
  RoomManager.createRoom cfg socket attempts st = Some (st', inr c) ->
  RoomManager.freshCode attempts (rooms st) = Some c
  /\ exists room,
       st' = {| heap := (heap st ++ [room])%list;
                rooms := Map.set c (length (heap st)) (rooms st) |}
       /\ players room
          = [(socket, RoomManager.newPlayer socket
                        (JS.or_string (cfg ≫= cc_playerName) "Host"))].
Proof.
  unfold RoomManager.createRoom.
  destruct (RoomManager.freshCode attempts (rooms st)) as [c0|]; [|discriminate].
  destruct cfg as [cfg|]; [|discriminate].
  intros [= <- <-]. split; [reflexivity|]. eexists. split; reflexivity.
Qed.

(** X3. In every state that the server reaches, a [createRoom] call that
    returns a code has taken a code that no live room had, leaves every
    other room of the registry as it was, makes the registry one room
    larger, and [getRoomByPlayer] then finds a room for the creator. *)
Theorem createRoom_keeps_other_rooms :
  forall (env : Env) (schedule : list (Z * Event)) (cfg : option ClientConfig)
         (socket : string) (attempts : list (list nat)) (st' : Store)
         (roomCode : string),
    validSchedule schedule ->
    let st := store (run env schedule initial) in
    RoomManager.createRoom cfg socket attempts st = Some (st', inr roomCode) ->
    RoomManager.getRoom roomCode st = None
    /\ (forall c, c <> roomCode -> RoomManager.getRoom c st' = RoomManager.getRoom c st)
    /\ Map.size (rooms st') = Map.size (rooms st) + 1
    /\ (exists room, RoomManager.getRoomByPlayer socket st' = Some room
                     /\ In socket (members room)).
Proof.
  intros env schedule cfg socket attempts st' roomCode Hvalid st Hcreate.
  pose proof (reachable_wf env schedule Hvalid) as Hwf. fold st in Hwf.
  destruct (createRoom_inr _ _ _ _ _ _ Hcreate) as (Hfresh & room & -> & Hplayers).
  pose proof (freshCode_absent _ _ _ Hfresh) as Habsent.
  assert (Hnone : Map.get roomCode (rooms st) = None).
  { destruct (Map.get roomCode (rooms st)) eqn:E; [|reflexivity].
    exfalso. apply Habsent, Map_get_In. congruence. }
  split; [|split; [|split]].
  - apply getRoom_None. unfold RoomManager.lookupRoom. now rewrite Hnone.
  - intros c Hc. apply getRoom_lookup. unfold RoomManager.lookupRoom. cbn [rooms].
    rewrite Map_get_set_ne by congruence.
    destruct (Map.get c (rooms st)) as [a|] eqn:Hget; [|reflexivity].
    destruct Hwf as (_ & _ & Hrooms).
    destruct (Hrooms c a (Map_get_Some_In _ _ _ Hget)) as (r & Hd & _).
    unfold deref in *. cbn [heap].
    rewrite lookup_app_l by (eapply lookup_lt_Some; eassumption).
    reflexivity.
  - cbn [rooms]. now apply Map_size_set_absent.
  - unfold RoomManager.getRoomByPlayer. cbn [rooms].
    apply (findByPlayer_complete socket _ _ roomCode (length (heap st)) room).
    + rewrite Map_set_absent by assumption. apply in_or_app. right. now left.
    + unfold deref. cbn [heap]. rewrite lookup_app_r by lia.
      now rewrite Nat.sub_diag.
    + unfold members. rewrite Hplayers. now left.
Qed.

Lemma createRoom_keeps_other_rooms_witness :
  exists st',
    RoomManager.createRoom (Some (demo_cfg 1)) "s3" [[1; 1; 1; 1; 1; 1]%nat]
      (store (run demo_env round1_schedule initial)) = Some (st', inr "BBBBBB")
    /\ RoomManager.getRoom "BBBBBB" (store (run demo_env round1_schedule initial)) = None
    /\ Map.size (rooms st')
       = Map.size (rooms (store (run demo_env round1_schedule initial))) + 1.
Proof.
  eexists. split; [vm_compute; reflexivity|].
  match goal with
  | |- _ /\ Map.size (rooms ?st') = _ =>
      pose proof (createRoom_keeps_other_rooms demo_env round1_schedule
                    (Some (demo_cfg 1)) "s3" [[1; 1; 1; 1; 1; 1]%nat] st' "BBBBBB") as H
  end.
  cbv zeta in H.
  assert (Hv : validSchedule round1_schedule).
  { unfold validSchedule, round1_schedule.
    repeat (constructor; [simpl; try exact I; discriminate|]). constructor. }
  specialize (H Hv ltac:(vm_compute; reflexivity)).
  split; apply H.
Defined.

(** *** [joinRoom] *)

(** X4. In every state that the server reaches, [joinRoom] leaves every
    room other than the one named as it was; in the room named it changes
    nothing but the players, leaves the entry of every other player as it
    was, and keeps the order of the players: a member who joins again keeps
    the position, a newcomer who is let in goes to the end. *)
Theorem joinRoom_keeps_the_rest :
  forall (env : Env) (schedule : list (Z * Event)) (roomCode socket : string)
         (playerName : option string),
    validSchedule schedule ->
    let st := store (run env schedule initial) in
    let st' := fst (RoomManager.joinRoom env roomCode socket playerName st) in
    let res := snd (RoomManager.joinRoom env roomCode socket playerName st) in
    (forall c, c <> roomCode -> RoomManager.getRoom c st' = RoomManager.getRoom c st)
    /\ (forall room, RoomManager.getRoom roomCode st = Some room ->
          exists room',
            RoomManager.getRoom roomCode st' = Some room'
            /\ code room' = code room /\ host room' = host room
            /\ config room' = config room /\ state room' = state room
            /\ currentRound room' = currentRound room
            /\ roundData room' = roundData room
            /\ _resolvePromptPromise room' = _resolvePromptPromise room
            /\ (forall id, id <> socket ->
                  Map.get id (players room') = Map.get id (players room))
            /\ (In socket (members room) -> members room' = members room)
            /\ (~ In socket (members room) ->
                members room' = if RoomManager.success res
                                then (members room ++ [socket])%list
                                else members room)).
Proof.
  intros env schedule roomCode socket playerName Hvalid st st' res.
  pose proof (reachable_wf env schedule Hvalid) as Hwf. fold st in Hwf.
  subst st' res. unfold RoomManager.joinRoom.
  destruct (RoomManager.lookupRoom roomCode st) as [[a room]|] eqn:Hlook.
  2:{ cbn [fst snd]. split; [reflexivity|].
      intros room Hget. apply getRoom_Some in Hget as [a Ha]. congruence. }
  destruct (Z.geb (Map.size (players room)) (RoomManager.MAX_PLAYERS env)).
  { cbn [fst snd]. split; [reflexivity|].
    intros room0 Hget. exists room0. repeat split; try reflexivity; assumption. }
  cbn [fst snd RoomManager.success].
  pose proof Hlook as Hlook0.
  apply lookupRoom_Some in Hlook as [Hget Hd].
  pose proof (Map_get_Some_In _ _ _ Hget) as Hin.
  split.
  - intros c Hc. apply getRoom_lookup. unfold RoomManager.lookupRoom. cbn [update rooms].
    destruct (Map.get c (rooms st)) as [a2|] eqn:Hget2; [|reflexivity].
    assert (a <> a2).
    { intros <-. apply Hc.
      exact (wf_addr_code st c roomCode a Hwf (Map_get_Some_In _ _ _ Hget2) Hin). }
    now rewrite deref_update_ne.
  - intros room0 Hget0.
    assert (room0 = room).
    { apply getRoom_Some in Hget0 as [a0 Ha0]. congruence. }
    subst room0.
    eexists. split.
    { apply getRoom_Some. exists a. apply lookupRoom_Some. split; [exact Hget|].
      apply deref_update_eq. eapply deref_Some_lt; eassumption. }
    cbn. repeat split.
    + intros id Hid. apply Map_get_set_ne. congruence.
    + intros Hmem. unfold members. cbn. now apply Map_keys_set_present.
    + intros Hmem. unfold members. cbn. rewrite Map_set_absent by assumption.
      unfold Map.keys. now rewrite map_app.
Qed.

Lemma joinRoom_keeps_the_rest_witness :
  exists room room',
    RoomManager.getRoom "ABCDEF" (store (run demo_env round1_schedule initial))
    = Some room
    /\ RoomManager.getRoom "ABCDEF"
         (fst (RoomManager.joinRoom demo_env "ABCDEF" "s3" (Some "Cy")
                 (store (run demo_env round1_schedule initial)))) = Some room'
    /\ host room' = host room
    /\ members room' = (members room ++ ["s3"])%list.
Proof.
  assert (Hv : validSchedule round1_schedule).
  { unfold validSchedule, round1_schedule.
    repeat (constructor; [simpl; try exact I; discriminate|]). constructor. }
  destruct (joinRoom_keeps_the_rest demo_env round1_schedule "ABCDEF" "s3" (Some "Cy") Hv)
    as [_ H].
  assert (E : exists room,
             RoomManager.getRoom "ABCDEF" (store (run demo_env round1_schedule initial))
             = Some room) by (eexists; vm_compute; reflexivity).
  destruct E as [room E].
  destruct (H room E) as (room' & Hget & _ & Hhost & _ & _ & _ & _ & _ & _ & _ & Hnew).
  exists room, room'. split; [exact E|]. split; [exact Hget|]. split; [exact Hhost|].
  rewrite Hnew.
  - vm_compute. reflexivity.
  - assert (Hm : members room = ["s1"; "s2"]).
    { vm_compute in E. injection E as <-. reflexivity. }
    rewrite Hm. simpl. intros [H1|[H1|[]]]; discriminate.
Defined.

(** *** [removePlayer] *)

Lemma removeLoop_absent socketId entries st :
  (forall c a r, In (c, a) entries -> deref st a = Some r ->
                 ~ In socketId (members r)) ->
  RoomManager.removeLoop socketId entries st = st.
Proof.
  induction entries as [|[c a] more IH]; intros Habs; cbn [RoomManager.removeLoop];
    [reflexivity|].
  assert (Hfrom : RoomManager.removeFrom socketId (c, a) st = (st, false)).
  { unfold RoomManager.removeFrom.
    destruct (deref st a) as [room|] eqn:Hd; [|reflexivity].
    assert (Hhas : Map.has socketId (players room) = false).
    { apply Map_has_false. apply (Habs c a room); [now left | exact Hd]. }
    now rewrite Hhas. }
  rewrite Hfrom. apply IH. intros c' a' r' Hin. apply (Habs c' a' r'). now right.
Qed.

(** X5. When the socket is a player of no room of the registry
    ([getRoomByPlayer] finds none), [removePlayer] changes nothing. *)
Theorem removePlayer_absent_noop (socketId : string) (st : Store) :
  RoomManager.getRoomByPlayer socketId st = None ->
  RoomManager.removePlayer socketId st = st.
Proof.
  intros Hnone. apply removeLoop_absent.
  exact (findByPlayer_None _ _ _ Hnone).
Qed.

Lemma removePlayer_absent_noop_witness :
  RoomManager.getRoomByPlayer "s9" (store (run demo_env round1_schedule initial)) = None
  /\ RoomManager.removePlayer "s9" (store (run demo_env round1_schedule initial))
     = store (run demo_env round1_schedule initial).
Proof.
  assert (H : RoomManager.getRoomByPlayer "s9"
                (store (run demo_env round1_schedule initial)) = None)
    by (vm_compute; reflexivity).
  split; [exact H|]. exact (removePlayer_absent_noop "s9" _ H).
Defined.

Lemma findByPlayer_none_if socketId entries st :
  (forall c a r, In (c, a) entries -> deref st a = Some r ->
                 ~ In socketId (members r)) ->
  RoomManager.findByPlayer socketId entries st = None.
Proof.
  intros Habs.
  destruct (RoomManager.findByPlayer socketId entries st) as [r|] eqn:Hfind;
    [|reflexivity].
  destruct (findByPlayer_Some _ _ _ _ Hfind) as (c & a & Hin & Hd & Hmem).
  exfalso. exact (Habs c a r Hin Hd Hmem).
Qed.

Lemma turn_cases socketId c a r st st1 stop :
  deref st a = Some r ->
  turn socketId c a r st (st1, stop) ->
  (stop = false /\ rooms st1 = rooms st
   /\ (forall b, b <> a -> deref st1 b = deref st b)
   /\ exists r1, deref st1 a = Some r1 /\ ~ In socketId (members r1))
  \/ (stop = true /\ host r = socketId /\ othersThan socketId r = []
      /\ rooms st1 = Map.delete c (rooms st)).
Proof.
  intros Hd Ht.
  assert (Hlt : (a < length (heap st))%nat) by (eapply deref_Some_lt; eassumption).
  inversion Ht as [Habs|Hmem Hhost|next more Hmem Hhost Hothers|Hmem Hhost Hothers]; subst.
  - left. repeat split; try reflexivity. exists r. split; assumption.
  - left. repeat split; try reflexivity.
    + intros b Hb. apply deref_update_ne. congruence.
    + eexists. split; [now apply deref_update_eq|].
      rewrite members_leave. apply othersThan_gone.
  - left. repeat split; try reflexivity.
    + intros b Hb. apply deref_update_ne. congruence.
    + eexists. split; [now apply deref_update_eq|].
      match goal with
      | |- ~ In ?x _ => change (~ In x (Map.keys (Map.delete x (players r))))
      end.
      rewrite othersThan_keys. apply othersThan_gone.
  - right. repeat split; try reflexivity; assumption.
Qed.

Lemma removeLoop_all_or_one socketId entries : forall st,
  wfStore st -> incl entries (rooms st) -> List.NoDup entries ->
  (forall c a r, In (c, a) (rooms st) -> ~ In (c, a) entries ->
                 deref st a = Some r -> ~ In socketId (members r)) ->
  (rooms (RoomManager.removeLoop socketId entries st) = rooms st
   /\ forall c a r, In (c, a) (rooms st) ->
        deref (RoomManager.removeLoop socketId entries st) a = Some r ->
        ~ In socketId (members r))
  \/ (exists c a r, In (c, a) entries /\ deref st a = Some r
        /\ host r = socketId /\ othersThan socketId r = []
        /\ rooms (RoomManager.removeLoop socketId entries st)
           = Map.delete c (rooms st)).
Proof.
  induction entries as [|[c a] more IH]; intros st Hwf Hincl Hnd Hdone;
    cbn [RoomManager.removeLoop].
  - left. split; [reflexivity|]. intros c a r Hin. apply (Hdone c a r Hin).
    intros [].
  - assert (Hin : In (c, a) (rooms st)) by (apply Hincl; now left).
    pose proof Hwf as (_ & Hvals & Hrooms).
    destruct (Hrooms _ _ Hin) as (r & Hr & _ & Hwfr).
    pose proof (removeFrom_turn socketId c a r st Hr Hwfr) as Ht.
    pose proof (turn_wf _ _ _ _ _ _ Hwf Hin Hr Ht) as Hwf1.
    apply List.NoDup_cons_iff in Hnd as [Hnotin Hnd].
    destruct (RoomManager.removeFrom socketId (c, a) st) as [st1 stop].
    cbn [fst] in Hwf1.
    destruct (turn_cases _ _ _ _ _ _ _ Hr Ht)
      as [(-> & Hrooms1 & Hother & r1 & Hr1 & Hgone)|(-> & Hhost & Hothers & Hrooms1)].
    + assert (Hdiff : forall c' a', In (c', a') (rooms st) -> (c', a') <> (c, a) -> a' <> a).
      { intros c' a' Hin' Hne ->. apply Hne. f_equal.
        exact (wf_addr_code st c' c a Hwf Hin' Hin). }
      destruct (IH st1) as [[Heq Hall]|(c' & a' & r' & Hin' & Hd' & Hh' & Ho' & Hdel)].
      * exact Hwf1.
      * rewrite Hrooms1. intros x Hx. apply Hincl. now right.
      * exact Hnd.
      * intros c' a' r' Hin' Hni Hd'. rewrite Hrooms1 in Hin'.
        destruct (decide ((c', a') = (c, a))) as [[= -> ->]|Hne].
        -- assert (r' = r1) by congruence. now subst.
        -- rewrite (Hother a') in Hd' by (eapply Hdiff; eassumption).
           apply (Hdone c' a' r' Hin'); [|exact Hd'].
           intros [E|E]; [apply Hne; now symmetry | now apply Hni].
      * left. split; [now rewrite Heq|].
        intros c' a' r' Hin'. apply (Hall c' a' r'). now rewrite Hrooms1.
      * right. exists c', a', r'. split; [now right|].
        assert (Hin0 : In (c', a') (rooms st)) by (apply Hincl; now right).
        assert (a' <> a).
        { apply (Hdiff c' a' Hin0). intros [= -> ->]. now apply Hnotin. }
        rewrite (Hother a') in Hd' by assumption.
        repeat split; try assumption. now rewrite Hdel, Hrooms1.
    + right. exists c, a, r. split; [now left|]. repeat split; assumption.
Qed.

(** X6. In every state that the server reaches, a [removePlayer] call
    either deletes no room and takes the socket out of every room (so that
    [getRoomByPlayer] finds none for it afterwards), or deletes exactly one
    room, of which the socket was the host and the only player, and stops
    there. *)
Theorem removePlayer_leaves_or_closes :
  forall (env : Env) (schedule : list (Z * Event)) (socketId : string),
    validSchedule schedule ->
    let st := store (run env schedule initial) in
    let st' := RoomManager.removePlayer socketId st in
    (rooms st' = rooms st /\ RoomManager.getRoomByPlayer socketId st' = None)
    \/ (exists c r, RoomManager.getRoom c st = Some r
          /\ host r = socketId /\ othersThan socketId r = []
          /\ rooms st' = Map.delete c (rooms st)).
Proof.
  intros env schedule socketId Hvalid st st'.
  pose proof (reachable_wf env schedule Hvalid) as Hwf. fold st in Hwf.
  destruct (removeLoop_all_or_one socketId (rooms st) st Hwf (incl_refl _)
              (wf_NoDup_rooms _ Hwf))
    as [[Heq Hall]|(c & a & r & Hin & Hd & Hhost & Hothers & Hdel)].
  - intros c a r Hin Hni. contradiction.
  - left. split; [exact Heq|]. unfold RoomManager.getRoomByPlayer.
    apply findByPlayer_none_if. intros c a r Hin. apply (Hall c a r).
    unfold st' in Hin. unfold RoomManager.removePlayer in Hin.
    now rewrite Heq in Hin.
  - right. exists c, r. split; [|repeat split; assumption].
    apply getRoom_Some. exists a. now apply wf_lookup.
Qed.

Lemma removePlayer_leaves_or_closes_witness :
  (rooms (RoomManager.removePlayer "s2" (store (run demo_env round1_schedule initial)))
   = rooms (store (run demo_env round1_schedule initial))
   /\ RoomManager.getRoomByPlayer "s2"
        (RoomManager.removePlayer "s2" (store (run demo_env round1_schedule initial)))
      = None)
  \/ (exists c r,
        RoomManager.getRoom c (store (run demo_env round1_schedule initial)) = Some r
        /\ host r = "s2" /\ othersThan "s2" r = []
        /\ rooms (RoomManager.removePlayer "s2"
                    (store (run demo_env round1_schedule initial)))
           = Map.delete c (rooms (store (run demo_env round1_schedule initial)))).
Proof.
  apply (removePlayer_leaves_or_closes demo_env round1_schedule "s2").
  unfold validSchedule, round1_schedule.
  repeat (constructor; [simpl; try exact I; discriminate|]). constructor.
Defined.

Lemma Map_get_delete_Some {V} k c (m : Map.t V) v :
  Map.get c (Map.delete k m) = Some v -> Map.get c m = Some v.
Proof.
  destruct (String.eqb k c) eqn:E.
  - apply String.eqb_eq in E. subst. now rewrite Map_get_delete_eq.
  - apply String.eqb_neq in E. now rewrite Map_get_delete_ne.
Qed.

Lemma removeFrom_rooms socketId entry st :
  rooms (fst (RoomManager.removeFrom socketId entry st)) = rooms st
  \/ rooms (fst (RoomManager.removeFrom socketId entry st))
     = Map.delete (fst entry) (rooms st).
Proof.
  unfold RoomManager.removeFrom. destruct entry as [c a].
  destruct (deref st a) as [room|]; [|now left].
  destruct (Map.has socketId (players room)); [|now left].
  destruct (String.eqb _ socketId); [|now left].
  destruct (Map.keys _) as [|next more]; [now right|].
  destruct (JS.truthy next); [now left | now right].
Qed.

Lemma removeLoop_rooms socketId entries : forall st c a,
  Map.get c (rooms (RoomManager.removeLoop socketId entries st)) = Some a ->
  Map.get c (rooms st) = Some a.
Proof.
  induction entries as [|entry more IH]; intros st c a; cbn [RoomManager.removeLoop];
    [trivial|].
  pose proof (removeFrom_rooms socketId entry st) as Hrooms.
  destruct (RoomManager.removeFrom socketId entry st) as [st1 stop].
  cbn [fst] in Hrooms. intros Hget.
  assert (Hget1 : Map.get c (rooms st1) = Some a)
    by (destruct stop; [exact Hget | now apply IH]).
  destruct Hrooms as [E|E]; rewrite E in Hget1; [exact Hget1|].
  eapply Map_get_delete_Some; eassumption.
Qed.

(** X7. [removePlayer] adds no room and no player and alters no entry: a
    room that is live after the call was live before it, under the same
    code, and every player it has then was a player of it before, with the
    same entry; every player of it other than the socket is still there. *)
Theorem removePlayer_keeps_other_players
    (socketId : string) (st : Store) (c : string) (r' : Room) :
  RoomManager.getRoom c (RoomManager.removePlayer socketId st) = Some r' ->
  exists r,
    RoomManager.getRoom c st = Some r
    /\ (forall id p', Map.get id (players r') = Some p' ->
                      Map.get id (players r) = Some p')
    /\ (forall id, id <> socketId ->
                   Map.get id (players r') = Map.get id (players r)).
Proof.
  intros Hget. apply getRoom_Some in Hget as [a Hlook].
  apply lookupRoom_Some in Hlook as [Hget Hd'].
  unfold RoomManager.removePlayer in *.
  apply removeLoop_rooms in Hget.
  destruct (removeLoop_heap socketId (rooms st) st) as [Hlen Hheap].
  assert (Hlt : (a < length (heap st))%nat).
  { rewrite <- Hlen. eapply deref_Some_lt; eassumption. }
  destruct (lookup_lt_is_Some_2 (heap st) a Hlt) as [r Hd].
  destruct (Hheap a r Hd) as (rb' & Hd2 & Hleft).
  assert (rb' = r') by congruence. subst rb'.
  exists r. split.
  { apply getRoom_Some. exists a. apply lookupRoom_Some. now split. }
  destruct Hleft as [->|Hplayers].
  - split; [trivial | reflexivity].
  - rewrite Hplayers. split.
    + intros id p'. apply Map_get_delete_Some.
    + intros id Hid. apply Map_get_delete_ne. congruence.
Qed.

Lemma removePlayer_keeps_other_players_witness :
  exists r' r,
    RoomManager.getRoom "ABCDEF"
      (RoomManager.removePlayer "s1" (store (run demo_env round1_schedule initial)))
    = Some r'
    /\ RoomManager.getRoom "ABCDEF" (store (run demo_env round1_schedule initial))
       = Some r
    /\ Map.get "s2" (players r') = Map.get "s2" (players r).
Proof.
  assert (E : exists r',
             RoomManager.getRoom "ABCDEF"
               (RoomManager.removePlayer "s1"
                  (store (run demo_env round1_schedule initial))) = Some r')
    by (eexists; vm_compute; reflexivity).
  destruct E as [r' E].
  destruct (removePlayer_keeps_other_players "s1" _ "ABCDEF" r' E) as (r & Hr & _ & H).
  exists r', r. split; [exact E|]. split; [exact Hr|]. apply H. discriminate.
Defined.

End RegistryFacts.

(** ** gameLogic.js: scoring and timing *)

Section ScoringFacts.

(** X8. The writing phase lasts between one and five minutes whatever the
    difficulty string is, and every string other than ['easy'], ['hard']
    and ['extreme'] gives the three minutes of ['medium']. *)
Theorem getWriteDuration_range (difficulty : string) :
  60000 <= GameLogic.getWriteDuration difficulty <= 300000
  /\ (difficulty <> "easy" -> difficulty <> "hard" -> difficulty <> "extreme" ->
      GameLogic.getWriteDuration difficulty = GameLogic.getWriteDuration "medium").
Proof.
  unfold GameLogic.getWriteDuration.
  destruct (String.eqb_spec difficulty "easy") as [->|H1]; [split; [cbn; lia | congruence]|].
  destruct (String.eqb_spec difficulty "medium") as [->|H2]; [split; [cbn; lia | reflexivity]|].
  destruct (String.eqb_spec difficulty "hard") as [->|H3]; [split; [cbn; lia | congruence]|].
  destruct (String.eqb_spec difficulty "extreme") as [->|H4]; [split; [cbn; lia | congruence]|].
  split; [cbn; lia | reflexivity].
Qed.

Lemma getWriteDuration_range_witness :
  GameLogic.getWriteDuration "nightmare" = GameLogic.getWriteDuration "medium".
Proof.
  apply (getWriteDuration_range "nightmare"); discriminate.
Defined.

Lemma overlapCount_all (tokensOriginal tokensCandidate : list string) :
  (forall w, In w tokensCandidate -> In w tokensOriginal) ->
  Scoring.overlapCount tokensOriginal tokensCandidate
  = Z.of_nat (length tokensCandidate).
Proof.
  unfold Scoring.overlapCount. intros Hall. f_equal.
  induction tokensCandidate as [|w l IH]; [reflexivity|].
  rewrite filter_cons_True by (apply list_elem_of_In, Hall; now left).
  cbn [length]. f_equal. apply IH. intros x Hx. apply Hall. now right.
Qed.

Lemma overlapCount_none (tokensOriginal tokensCandidate : list string) :
  (forall w, In w tokensCandidate -> ~ In w tokensOriginal) ->
  Scoring.overlapCount tokensOriginal tokensCandidate = 0.
Proof.
  unfold Scoring.overlapCount. intros Hnone.
  induction tokensCandidate as [|w l IH]; [reflexivity|].
  rewrite filter_cons_False.
  - apply IH. intros x Hx. apply Hnone. now right.
  - rewrite list_elem_of_In. apply Hnone. now left.
Qed.

Lemma truthy_nonempty (s : string) : s <> "" -> JS.truthy s = true.
Proof. destruct s; [congruence | reflexivity]. Qed.

(** X9. When every token of the candidate is a token of the original and
    the candidate has at least as many tokens, the score is 100; so a
    candidate equal to the original scores 100. *)
Theorem calculateSimilarity_full_marks (a b : string) :
  Scoring.fits (Some a) -> Scoring.fits (Some b) -> a <> "" -> b <> "" ->
  (forall w, In w (JS.splitNonWord (JS.toLowerCase b)) ->
             In w (JS.splitNonWord (JS.toLowerCase a))) ->
  (length (JS.splitNonWord (JS.toLowerCase a))
   <= length (JS.splitNonWord (JS.toLowerCase b)))%nat ->
  Scoring.calculateSimilarity (Some a) (Some b) = 100.
Proof.
  intros Ha Hb Hna Hnb Hall Hlen.
  assert (Ht : (JS.truthy a && JS.truthy b)%bool = true)
    by (rewrite !truthy_nonempty by assumption; reflexivity).
  destruct (calculateSimilarity_nearest a b Ha Hb Ht) as (_ & Hm & Hn).
  rewrite (overlapCount_all _ _ Hall) in Hn.
  rewrite Z.max_r in Hn, Hm by lia.
  unfold Scoring.nearestInteger in Hn. apply Z.abs_le in Hn.
  set (r := Scoring.calculateSimilarity (Some a) (Some b)) in *.
  set (m := Z.of_nat _) in *. nia.
Qed.

Lemma calculateSimilarity_full_marks_witness :
  Scoring.calculateSimilarity (Some "A red cat.") (Some "a RED cat.") = 100.
Proof.
  apply (calculateSimilarity_full_marks "A red cat." "a RED cat.").
  - vm_compute. reflexivity.
  - vm_compute. reflexivity.
  - discriminate.
  - discriminate.
  - vm_compute. tauto.
  - vm_compute. lia.
Defined.

(** X10. When no token of the candidate is a token of the original, the
    score is 0. *)
Theorem calculateSimilarity_no_common_token (a b : string) :
  Scoring.fits (Some a) -> Scoring.fits (Some b) ->
  (forall w, In w (JS.splitNonWord (JS.toLowerCase b)) ->
             ~ In w (JS.splitNonWord (JS.toLowerCase a))) ->
  Scoring.calculateSimilarity (Some a) (Some b) = 0.
Proof.
  intros Ha Hb Hnone.
  destruct (JS.truthy a && JS.truthy b)%bool eqn:Ht.
  - destruct (calculateSimilarity_nearest a b Ha Hb Ht) as (_ & Hm & Hn).
    rewrite (overlapCount_none _ _ Hnone) in Hn.
    unfold Scoring.nearestInteger in Hn. apply Z.abs_le in Hn.
    set (r := Scoring.calculateSimilarity (Some a) (Some b)) in *.
    set (m := Z.max _ _) in *. nia.
  - unfold Scoring.calculateSimilarity. now rewrite truthy_both, Ht.
Qed.

Lemma calculateSimilarity_no_common_token_witness :
  Scoring.calculateSimilarity (Some "a red cat") (Some "the dog") = 0.
Proof.
  apply (calculateSimilarity_no_common_token "a red cat" "the dog").
  - vm_compute. reflexivity.
  - vm_compute. reflexivity.
  - vm_compute. intros w [<-|[<-|[]]] [H|[H|[H|[]]]]; discriminate.
Defined.

Lemma lowerChar_idempotent c : JS.lowerChar (JS.lowerChar c) = JS.lowerChar c.
Proof. destruct c as [[] [] [] [] [] [] [] []]; vm_compute; reflexivity. Qed.

Lemma toLowerCase_idempotent s : JS.toLowerCase (JS.toLowerCase s) = JS.toLowerCase s.
Proof.
  induction s as [|c s IH]; [reflexivity|].
  cbn [JS.toLowerCase]. now rewrite lowerChar_idempotent, IH.
Qed.

Lemma truthy_toLowerCase s : JS.truthy (JS.toLowerCase s) = JS.truthy s.
Proof. destruct s; reflexivity. Qed.

(** X11. The score does not depend on letter case: lower-casing the
    original or the candidate beforehand gives the same score. *)
Theorem calculateSimilarity_ignores_case (a b : string) :
  Scoring.calculateSimilarity (Some (JS.toLowerCase a)) (Some b)
  = Scoring.calculateSimilarity (Some a) (Some b)
  /\ Scoring.calculateSimilarity (Some a) (Some (JS.toLowerCase b))
     = Scoring.calculateSimilarity (Some a) (Some b).
Proof.
  unfold Scoring.calculateSimilarity.
  now rewrite !truthy_toLowerCase, !toLowerCase_idempotent.
Qed.

Lemma overlapCount_sym (tokensA tokensB : list string) :
  List.NoDup tokensA -> List.NoDup tokensB ->
  Scoring.overlapCount tokensA tokensB = Scoring.overlapCount tokensB tokensA.
Proof.
  intros HA HB. unfold Scoring.overlapCount. f_equal.
  apply Permutation_length, NoDup_Permutation.
  - apply NoDup_filter, NoDup_ListNoDup, HB.
  - apply NoDup_filter, NoDup_ListNoDup, HA.
  - intros w. rewrite !list_elem_of_filter. tauto.
Qed.

(** X12. When neither string repeats a token, the score is symmetric:
    exchanging the original and the candidate gives the same score. *)
Theorem calculateSimilarity_symmetric (a b : string) :
  List.NoDup (JS.splitNonWord (JS.toLowerCase a)) ->
  List.NoDup (JS.splitNonWord (JS.toLowerCase b)) ->
  Scoring.calculateSimilarity (Some a) (Some b)
  = Scoring.calculateSimilarity (Some b) (Some a).
Proof.
  intros HA HB. unfold Scoring.calculateSimilarity.
  rewrite (orb_comm (negb (JS.truthy b))).
  destruct (negb (JS.truthy a) || negb (JS.truthy b))%bool; [reflexivity|].
  cbv zeta. rewrite !overlap_loop, !Z.add_0_l.
  rewrite (overlapCount_sym _ _ HA HB), Z.max_comm. reflexivity.
Qed.

Lemma calculateSimilarity_symmetric_witness :
  Scoring.calculateSimilarity (Some "a red cat") (Some "the cat")
  = Scoring.calculateSimilarity (Some "the cat") (Some "a red cat").
Proof.
  apply (calculateSimilarity_symmetric "a red cat" "the cat").
  - vm_compute. repeat (constructor; [simpl; intuition discriminate|]). constructor.
  - vm_compute. repeat (constructor; [simpl; intuition discriminate|]). constructor.
Defined.

(** With a repeated token the score is not symmetric. *)
Example calculateSimilarity_not_symmetric :
  Scoring.calculateSimilarity (Some "a a b") (Some "a c c") = 33
  /\ Scoring.calculateSimilarity (Some "a c c") (Some "a a b") = 67.
Proof. split; vm_compute; reflexivity. Qed.

(** X13. The score of two strings that the engine can hold lies between 0
    and 100, as the comment of [calculateSimilarity] says. *)
Theorem calculateSimilarity_between_0_and_100 (a b : option string) :
  Scoring.fits a -> Scoring.fits b ->
  0 <= Scoring.calculateSimilarity a b <= 100.
Proof. apply calculateSimilarity_range. Qed.

Lemma calculateSimilarity_between_0_and_100_witness :
  0 <= Scoring.calculateSimilarity (Some "a cat sat") (Some "a cat") <= 100.
Proof.
  apply (calculateSimilarity_between_0_and_100 (Some "a cat sat") (Some "a cat"));
    vm_compute; reflexivity.
Defined.

End ScoringFacts.

(** ** gameLogic.js: the round orchestrator *)

Section RoundFacts.
Import GameLogic Server.

Lemma imagesFrom_no_client env task round op ids rest : forall r ps im,
  openai env = false ->
  prompts (roundData r) = Some ps -> images (roundData r) = Some im ->
  exists im',
    imagesFrom env task round op ids rest r
    = votingPhase task round op ids (with_roundData r (with_images (roundData r) im'))
    /\ (forall id, In id rest ->
          im' !! id = Some (if JS.truthy_opt (ps !! id)
                            then Some ImageGenerator.PLACEHOLDER else None))
    /\ (forall id, ~ In id rest -> im' !! id = im !! id).
Proof.
  induction rest as [|id0 more IH]; intros r ps im Hno Hps Him.
  - exists im. split; [|split].
    + cbn [imagesFrom]. f_equal. destruct r as [? ? ? ? ? ? rd ?].
      unfold with_roundData, with_images. simpl in *. f_equal.
      destruct rd. simpl in *. now subst.
    + intros id [].
    + reflexivity.
  - set (v := if JS.truthy_opt (ps !! id0)
              then Some ImageGenerator.PLACEHOLDER else None).
    set (r1 := with_roundData r (with_images (roundData r) (<[id0 := v]> im))).
    destruct (IH r1 ps (<[id0 := v]> im) Hno) as (im' & Hrun & Hin & Hout);
      [exact Hps | reflexivity |].
    exists im'. split; [|split].
    + cbn [imagesFrom]. unfold bind at 1. unfold readPrompt. rewrite Hps.
      unfold v in r1. destruct (ps !! id0) as [prompt|] eqn:Hprompt; cbn [JS.truthy_opt] in r1.
      * destruct (JS.truthy prompt) eqn:Ht.
        -- rewrite Hno. unfold bind at 1. unfold storeImage, writeImage. rewrite Him.
           cbn [ImageGenerator.generateImageFromPrompt]. exact Hrun.
        -- unfold bind at 1. unfold writeImage. rewrite Him. exact Hrun.
      * unfold bind at 1. unfold writeImage. rewrite Him. exact Hrun.
    + intros id [<-|Hid]; [|auto].
      destruct (in_dec string_dec id0 more) as [Hmem|Hmem]; [auto|].
      rewrite Hout by assumption. apply lookup_insert_eq.
    + intros id Hid. rewrite Hout by (intros H; apply Hid; now right).
      apply lookup_insert_ne. intros <-. apply Hid. now left.
Qed.

Lemma accumulateLoop_succeeds ids : forall r sc,
  scores (roundData r) = Some sc ->
  (forall id, In id ids -> In id (members r)) ->
  exists r', accumulateLoop ids r = (r', inr tt) /\ state r' = state r.
Proof.
  induction ids as [|id0 more IH]; intros r sc Hsc Hmem; cbn [accumulateLoop].
  - exists r. split; reflexivity.
  - unfold bind at 1. unfold get. unfold bind at 1. unfold readScore. rewrite Hsc.
    destruct (Map.get id0 (players r)) as [p0|] eqn:Hp0.
    2:{ exfalso. assert (H : In id0 (Map.keys (players r))) by (apply Hmem; now left).
        apply Map_get_In in H. congruence. }
    unfold bind at 1. unfold modify.
    set (r1 := with_players r _).
    destruct (IH r1 sc Hsc) as (r' & Hrun & Hstate).
    + intros id Hid. unfold members, r1. cbn.
      apply Map_keys_set_In. right. apply Hmem. now right.
    + exists r'. split; [exact Hrun | exact Hstate].
Qed.

Lemma totalScores_succeeds ids : forall r,
  (forall id, In id ids -> In id (members r)) ->
  exists l, totalScores ids r = (r, inr l).
Proof.
  induction ids as [|id0 more IH]; intros r Hmem; cbn [totalScores].
  - exists []. reflexivity.
  - unfold bind at 1. unfold get.
    destruct (Map.get id0 (players r)) as [p0|] eqn:Hp0.
    2:{ exfalso. assert (H : In id0 (Map.keys (players r))) by (apply Hmem; now left).
        apply Map_get_In in H. congruence. }
    destruct (IH r) as (l & Hl); [intros id Hid; apply Hmem; now right|].
    unfold bind at 1. rewrite Hl. eexists. reflexivity.
Qed.

Lemma votingPhase_completes task round op ids r ps sc :
  List.NoDup ids -> (forall id, In id ids -> In id (members r)) ->
  prompts (roundData r) = Some ps -> scores (roundData r) = Some sc ->
  exists r',
    votingPhase task round op ids r
    = (r', inr (AwaitPause round, [(5000, ResumeTask task)]))
    /\ state r' = VOTING
    /\ members r' = members r
    /\ images (roundData r') = images (roundData r)
    /\ forall id, In id ids ->
         (scores (roundData r') ≫= (fun sc => sc !! id))
         = Some (scoreOf op (ps !! id)).
Proof.
  intros Hnd Hmem Hps Hsc. unfold votingPhase.
  unfold bind at 1. unfold modify. set (r0 := with_state r VOTING).
  destruct (scoreLoop_spec op ids r0 ps sc Hps Hsc) as (sc' & Hscore & Hin & _).
  unfold bind at 1. rewrite Hscore.
  set (r1 := with_roundData r0 (with_scores (roundData r0) sc')).
  destruct (accumulateLoop_succeeds ids r1 sc' eq_refl Hmem) as (r2 & Hacc & Hstate).
  unfold bind at 1. rewrite Hacc.
  destruct (accumulateLoop_players ids r1 r2 _ Hnd Hacc)
    as (_ & _ & _ & Hmembers & Hrd & _).
  destruct (totalScores_succeeds ids r2) as (l & Hl).
  { intros id Hid. rewrite Hmembers. now apply Hmem. }
  unfold bind at 1. rewrite Hl.
  exists r2. split; [reflexivity|]. split; [now rewrite Hstate|].
  split; [now rewrite Hmembers|]. split; [now rewrite Hrd|].
  intros id Hid. rewrite Hrd. cbn. now apply Hin.
Qed.

(** X14. Without an OpenAI client the part of a round that follows the
    gate runs in one stretch and never throws: for a room whose round data
    is set up and whose player ids are distinct, every player gets the
    placeholder image when a non-empty prompt is stored for the player and
    a [null] image otherwise, the round score of the stored prompt is
    recorded and added to the player's total, the room is left in
    [VOTING] and the five-second pause before the next round is set. *)
Theorem round_completes_without_client :
  forall (env : Env) (task : nat) (round : Z) (originalPrompt : string) (r : Room)
         (ps : gmap string string),
    openai env = false ->
    List.NoDup (members r) ->
    prompts (roundData r) = Some ps ->
    images (roundData r) <> None -> scores (roundData r) <> None ->
    exists r',
      afterPrompts env task round originalPrompt r
      = (r', inr (AwaitPause round, [(5000, ResumeTask task)]))
      /\ state r' = VOTING
      /\ members r' = members r
      /\ forall id p, Map.get id (players r) = Some p ->
           Map.get id (players r')
           = Some (add_score (scoreOf originalPrompt (ps !! id)) p)
           /\ (images (roundData r') ≫= (fun im => im !! id))
              = Some (if JS.truthy_opt (ps !! id)
                      then Some ImageGenerator.PLACEHOLDER else None)
           /\ (scores (roundData r') ≫= (fun sc => sc !! id))
              = Some (scoreOf originalPrompt (ps !! id)).
Proof.
  intros env task round op r ps Hno Hnd Hps Him Hsc.
  destruct (images (roundData r)) as [im|] eqn:Him'; [|congruence].
  destruct (scores (roundData r)) as [sc|] eqn:Hsc'; [|congruence].
  unfold afterPrompts. unfold bind at 1. unfold modify.
  set (r0 := with_state r GENERATING_IMAGES).
  unfold bind at 1. unfold get.
  change (Map.keys (players r0)) with (members r).
  destruct (imagesFrom_no_client env task round op (members r) (members r) r0 ps im
              Hno Hps Him') as (im' & Hrun & Hin & _).
  rewrite Hrun.
  set (r1 := with_roundData r0 (with_images (roundData r0) im')).
  destruct (votingPhase_completes task round op (members r) r1 ps sc Hnd)
    as (r' & Hvote & Hstate & Hmembers & Himages & Hscores);
    [intros id Hid; exact Hid | exact Hps | exact Hsc' |].
  exists r'. split; [exact Hvote|]. split; [exact Hstate|].
  split; [exact Hmembers|].
  intros id p Hp.
  assert (Hmem : In id (members r)).
  { apply Map_get_In. congruence. }
  destruct (votingPhase_adds_once task round op (members r) r1 r' _ Hnd Hvote)
    as [Hadd _].
  destruct (Hadd id Hmem) as (p1 & ps1 & Hps1 & Hp1 & Hp').
  assert (ps1 = ps) by (cbn in Hps1; congruence). subst ps1.
  assert (p1 = p) by (cbn in Hp1; congruence). subst p1.
  split; [exact Hp'|]. split.
  - rewrite Himages. cbn. now apply Hin.
  - now apply Hscores.
Qed.

Lemma round_completes_without_client_witness :
  exists r',
    afterPrompts demo_env 0 1
      "A detailed animals scene generated for a prompt battle game." open_round_room
    = (r', inr (AwaitPause 1, [(5000, ResumeTask 0)]))
    /\ state r' = VOTING
    /\ members r' = members open_round_room.
Proof.
  destruct (round_completes_without_client demo_env 0 1
              "A detailed animals scene generated for a prompt battle game."
              open_round_room {[ "s1" := "a detailed animals scene" ]})
    as (r' & Hrun & Hstate & Hmembers & _).
  - reflexivity.
  - vm_compute. repeat (constructor; [simpl; intuition discriminate|]). constructor.
  - reflexivity.
  - discriminate.
  - discriminate.
  - exists r'. split; [exact Hrun|]. split; assumption.
Defined.

(** *** The submission gate *)

Lemma truthy_opt_spec (o : option string) :
  JS.truthy_opt o = true <-> exists p, o = Some p /\ p <> "".
Proof.
  destruct o as [[|c p]|]; cbn; split.
  - discriminate.
  - intros (p & [= <-] & H). congruence.
  - intros _. eexists. split; [reflexivity | discriminate].
  - reflexivity.
  - discriminate.
  - intros (p & H & _). discriminate.
Qed.

(** X15. In a room whose round is set up, [handlePromptSubmission] never
    throws and stores the prompt under the socket id, replacing an earlier
    one, whether or not the socket is a player of the room; it calls the
    pending resolver exactly when, after the write, a non-empty prompt is
    stored for every current player, and then clears it. *)
Theorem submission_resolves_gate :
  forall (socketId prompt : string) (r : Room) (ps : gmap string string),
    prompts (roundData r) = Some ps ->
    exists r' resolved,
      handlePromptSubmission socketId prompt r = (r', inr resolved)
      /\ prompts (roundData r') = Some (<[socketId := prompt]> ps)
      /\ players r' = players r /\ state r' = state r
      /\ (forall f, resolved = Some f <->
            _resolvePromptPromise r = Some f
            /\ forall id, In id (members r) ->
                 exists p, (<[socketId := prompt]> ps) !! id = Some p /\ p <> "")
      /\ _resolvePromptPromise r'
         = match resolved with
           | Some _ => None
           | None => _resolvePromptPromise r
           end.
Proof.
  intros socketId prompt r ps Hps.
  unfold handlePromptSubmission. unfold bind at 1. unfold writePrompt. rewrite Hps.
  unfold bind at 1. unfold get.
  set (ps' := <[socketId := prompt]> ps).
  set (R := with_roundData r (with_prompts (roundData r) ps')).
  change (prompts (roundData R)) with (Some ps').
  change (default ∅ (Some ps')) with ps'.
  change (_resolvePromptPromise R) with (_resolvePromptPromise r).
  assert (Hall : allSubmitted R ps' = true
                 <-> forall id, In id (members r) ->
                       exists p, ps' !! id = Some p /\ p <> "").
  { unfold allSubmitted. change (players R) with (players r).
    rewrite forallb_forall. unfold members.
    split; intros H id Hid; apply truthy_opt_spec; now apply H. }
  destruct (_resolvePromptPromise r) as [f0|] eqn:Hres.
  - destruct (allSubmitted R ps') eqn:Hsub.
    + eexists _, _. split; [reflexivity|]. cbn.
      split; [reflexivity|]. split; [reflexivity|]. split; [reflexivity|].
      split; [|reflexivity].
      intros f. split.
      * intros [= <-]. split; [reflexivity|]. now apply Hall.
      * intros [[= <-] _]. reflexivity.
    + eexists _, _. split; [reflexivity|]. cbn.
      split; [reflexivity|]. split; [reflexivity|]. split; [reflexivity|].
      split; [|exact Hres].
      intros f. split; [discriminate|].
      intros [_ H]. apply Hall in H. discriminate.
  - eexists _, _. split; [reflexivity|]. cbn.
    split; [reflexivity|]. split; [reflexivity|]. split; [reflexivity|].
    split; [|exact Hres].
    intros f. split; [discriminate|]. intros [H _]. discriminate.
Qed.

Lemma submission_resolves_gate_witness :
  exists r',
    handlePromptSubmission "s2" "space" open_round_room
    = (r', inr (Some {| res_task := 0; res_round := 1 |}))
    /\ _resolvePromptPromise r' = None.
Proof.
  destruct (submission_resolves_gate "s2" "space" open_round_room
              {[ "s1" := "a detailed animals scene" ]} eq_refl)
    as (r' & resolved & Hrun & _ & _ & _ & Hiff & Hres).
  assert (E : resolved = Some {| res_task := 0; res_round := 1 |}).
  { apply Hiff. split; [reflexivity|].
    intros id [<-|[<-|[]]]; eexists; (split; [vm_compute; reflexivity | discriminate]). }
  subst resolved. exists r'. split; assumption.
Defined.

Lemma update_same a r st : deref st a = Some r -> update a r st = st.
Proof.
  intros Hd. unfold update. destruct st as [h m]. cbn in *. f_equal.
  now apply list_insert_id.
Qed.

(** X16. A [submit-prompt] request for a room whose round is set up and
    in which no gate is pending (the gate of the round has resolved
    already) is accepted: the prompt is recorded under the socket id, the
    request is answered with success, and nothing else changes. *)
Theorem late_submission_is_recorded :
  forall (env : Env) (socket roomCode prompt : string) (s : State)
         (a : nat) (room : Room) (ps : gmap string string),
    RoomManager.lookupRoom roomCode (store s) = Some (a, room) ->
    prompts (roundData room) = Some ps ->
    _resolvePromptPromise room = None ->
    onSubmitPrompt env socket roomCode prompt s
    = reply socket SubmitPromptReq true None None
        (with_store s
           (update a
              (with_roundData room
                 (with_prompts (roundData room) (<[socket := prompt]> ps)))
              (store s))).
Proof.
  intros env socket roomCode prompt s a room ps Hlook Hps Hres.
  unfold onSubmitPrompt. rewrite Hlook.
  unfold handlePromptSubmission. unfold bind at 1. unfold writePrompt. rewrite Hps.
  unfold bind at 1. unfold get. cbn [_resolvePromptPromise with_roundData].
  rewrite Hres. reflexivity.
Qed.

Lemma late_submission_is_recorded_witness :
  exists room ps,
    RoomManager.lookupRoom "ABCDEF" (store (run demo_env round1_schedule initial))
    = Some (0%nat, room)
    /\ prompts (roundData room) = Some ps
    /\ last (replies (onSubmitPrompt demo_env "s1" "ABCDEF" "one more try"
                        (run demo_env round1_schedule initial)))
       = Some {| r_socket := "s1"; r_request := SubmitPromptReq; r_success := true;
                 r_message := None; r_roomCode := None |}.
Proof.
  assert (E : exists room,
             RoomManager.lookupRoom "ABCDEF" (store (run demo_env round1_schedule initial))
             = Some (0%nat, room)) by (eexists; vm_compute; reflexivity).
  destruct E as [room E].
  assert (P : exists ps, prompts (roundData room) = Some ps).
  { vm_compute in E. injection E as <-. eexists. reflexivity. }
  destruct P as [ps P].
  assert (G : _resolvePromptPromise room = None).
  { vm_compute in E. injection E as <-. reflexivity. }
  exists room, ps. split; [exact E|]. split; [exact P|].
  rewrite (late_submission_is_recorded demo_env "s1" "ABCDEF" "one more try" _ 0 room ps E P G).
  unfold reply. cbn [replies]. apply last_snoc.
Defined.

(** X17. When the timer of [waitForPrompts] fires and no gate is pending
    in its room (the gate has resolved and no later one is open), the
    callback does nothing: the timer leaves the list of pending timers and
    the rest of the server is as before. *)
Theorem timeout_without_gate_is_noop :
  forall (env : Env) (id draw : nat) (s : State) (tm : Timer) (a : nat) (room : Room),
    List.find (fun tm => Nat.eqb (tm_id tm) id) (timers s) = Some tm ->
    tm_cb tm = PromptTimeout a ->
    deref (store s) a = Some room ->
    _resolvePromptPromise room = None ->
    onTimer env id draw s
    = with_timers s (List.filter (fun tm => negb (Nat.eqb (tm_id tm) id)) (timers s)).
Proof.
  intros env id draw s tm a room Hfind Hcb Hd Hres.
  unfold onTimer. rewrite Hfind, Hcb. cbn [store with_timers]. rewrite Hd.
  unfold promptTimeout. unfold bind at 1. unfold get. rewrite Hres. unfold ret.
  rewrite (update_same a room (store s) Hd).
  destruct s. reflexivity.
Qed.

Lemma timeout_without_gate_is_noop_witness :
  store (onTimer demo_env 1 0 (run demo_env round1_schedule initial))
  = store (run demo_env round1_schedule initial)
  /\ tasks (onTimer demo_env 1 0 (run demo_env round1_schedule initial))
     = tasks (run demo_env round1_schedule initial).
Proof.
  assert (E : exists tm room,
             List.find (fun tm => Nat.eqb (tm_id tm) 1)
               (timers (run demo_env round1_schedule initial)) = Some tm
             /\ tm_cb tm = PromptTimeout 0
             /\ deref (store (run demo_env round1_schedule initial)) 0 = Some room
             /\ _resolvePromptPromise room = None).
  { eexists _, _.
    split; [vm_compute; reflexivity|]. split; [vm_compute; reflexivity|].
    split; vm_compute; reflexivity. }
  destruct E as (tm & room & H1 & H2 & H3 & H4).
  rewrite (timeout_without_gate_is_noop demo_env 1 0 _ tm 0 room H1 H2 H3 H4).
  split; vm_compute; reflexivity.
Defined.

(** *** The category and the original image *)

Lemma pick_In (l : list string) (draw : nat) : l <> [] -> In (pick l draw) l.
Proof.
  intros Hne. unfold pick.
  assert (Hlt : (draw mod length l < length l)%nat).
  { apply Nat.mod_upper_bound. destruct l; [congruence | cbn; lia]. }
  destruct (lookup_lt_is_Some_2 l _ Hlt) as [x Hx].
  rewrite Hx. cbn. apply list_elem_of_In. eapply list_elem_of_lookup_2. eassumption.
Qed.

Lemma includes_random (categories : list string) :
  existsb (String.eqb "random") categories = true <-> In "random" categories.
Proof.
  rewrite existsb_exists. split.
  - intros (x & Hx & E). apply String.eqb_eq in E. now subst.
  - intros H. exists "random". split; [exact H | reflexivity].
Qed.

(** X18. With a non-empty catalogue, the category of a round is an entry
    of the catalogue when the room's list of categories is empty or has
    ['random'] anywhere in it (its other entries are then ignored), and an
    entry of the room's list otherwise. *)
Theorem chooseCategory_source :
  forall (env : Env) (categories : list string) (draw : nat),
    CATEGORIES env <> [] ->
    (categories = [] \/ In "random" categories ->
     In (chooseCategory env categories draw) (CATEGORIES env))
    /\ (categories <> [] -> ~ In "random" categories ->
        In (chooseCategory env categories draw) categories).
Proof.
  intros env categories draw Hcat. unfold chooseCategory. split.
  - intros Hrandom.
    assert (E : (Nat.eqb (length categories) 0
                 || existsb (String.eqb "random") categories)%bool = true).
    { destruct Hrandom as [->|Hin]; [reflexivity|].
      apply orb_true_iff. right. now apply includes_random. }
    rewrite E. now apply pick_In.
  - intros Hne Hnot.
    assert (E : (Nat.eqb (length categories) 0
                 || existsb (String.eqb "random") categories)%bool = false).
    { apply orb_false_iff. split.
      - destruct categories; [congruence | reflexivity].
      - destruct (existsb _ categories) eqn:Ex; [|reflexivity].
        exfalso. now apply Hnot, includes_random. }
    rewrite E. now apply pick_In.
Qed.

Lemma chooseCategory_source_witness :
  In (chooseCategory plain_env ["espacio"; "random"] 7) (CATEGORIES plain_env).
Proof.
  apply (chooseCategory_source plain_env ["espacio"; "random"] 7).
  - discriminate.
  - right. right. now left.
Defined.

(** X19. When the call for the original image of a round settles, the
    round goes on whatever the service has answered: the hidden prompt is
    the sentence built from the category, the image is the URL of the
    response, or the placeholder when the call failed; the activation
    waits the ten seconds of viewing, and no request is answered. *)
Theorem original_is_shown :
  forall (task : nat) (api : ImageGenerator.ApiOutcome) (s : State) (t : Task)
         (round : Z) (category : string) (room : Room),
    tasks s !! task = Some t ->
    t_at t = AwaitOriginal round category ->
    deref (store s) (t_room t) = Some room ->
    let s' := onOriginalReady task api s in
    let prompt :=
      "A detailed " ++ category ++ " scene generated for a prompt battle game." in
    (exists room',
        deref (store s') (t_room t) = Some room'
        /\ originalPrompt (roundData room') = Some prompt
        /\ originalImage (roundData room')
           = match api with
             | ImageGenerator.Resolved url => url
             | ImageGenerator.Failed => Some ImageGenerator.PLACEHOLDER
             end
        /\ players room' = players room /\ state room' = state room)
    /\ tasks s' = <[task := {| t_room := t_room t; t_socket := t_socket t;
                               t_at := AwaitView round prompt |}]> (tasks s)
    /\ timers s' = (timers s ++ [{| tm_id := nextTimer s; tm_due := now s + 10000;
                                    tm_cb := ResumeTask task |}])%list
    /\ replies s' = replies s.
Proof.
  intros task api s t round category room Ht Hat Hd s' prompt.
  subst s'. unfold onOriginalReady, resume. rewrite Ht, Hat, Hd.
  assert (Hlt : (t_room t < length (heap (store s)))%nat)
    by (eapply deref_Some_lt; eassumption).
  split; [|split; [|split]].
  - rewrite settle_store. cbn [fst]. eexists. split; [now apply deref_update_eq|].
    destruct api as [url|]; cbn; repeat split; reflexivity.
  - rewrite settle_tasks. destruct api as [url|]; reflexivity.
  - destruct api as [url|]; reflexivity.
  - rewrite settle_replies. destruct api as [url|]; cbn; apply app_nil_r.
Qed.

Lemma original_is_shown_witness :
  exists room',
    deref (store (onOriginalReady 0 ImageGenerator.Failed
                    (run demo_env_openai awaiting_original_schedule initial))) 0
    = Some room'
    /\ originalImage (roundData room') = Some ImageGenerator.PLACEHOLDER.
Proof.
  assert (E : exists t room,
             tasks (run demo_env_openai awaiting_original_schedule initial) !! 0%nat
             = Some t
             /\ t_at t = AwaitOriginal 1 "animals"
             /\ t_room t = 0%nat
             /\ deref (store (run demo_env_openai awaiting_original_schedule initial)) 0
                = Some room).
  { eexists _, _.
    split; [vm_compute; reflexivity|]. split; [vm_compute; reflexivity|].
    split; vm_compute; reflexivity. }
  destruct E as (t & room & H1 & H2 & H3 & H4).
  rewrite <- H3 in H4.
  destruct (original_is_shown 0 ImageGenerator.Failed _ t 1 "animals" room H1 H2 H4)
    as ((room' & Hd & _ & Himg & _) & _).
  rewrite H3 in Hd. exists room'. split; assumption.
Defined.

(** X20. A [start-game] request for a room whose configured number of
    rounds is below one ends the game at once: the room goes to
    [GAME_OVER] with its players untouched, no timer is set and the
    request is answered with success in the same turn. *)
Theorem game_without_rounds_is_over_at_once :
  forall (env : Env) (socket roomCode : string) (draw : nat) (s : State)
         (a : nat) (room : Room),
    RoomManager.lookupRoom roomCode (store s) = Some (a, room) ->
    rounds (config room) < 1 ->
    let s' := onStartGame env socket roomCode draw s in
    deref (store s') a = Some (with_state room GAME_OVER)
    /\ timers s' = timers s
    /\ replies s'
       = (replies s ++ [{| r_socket := socket; r_request := StartGameReq;
                           r_success := true; r_message := None;
                           r_roomCode := None |}])%list.
Proof.
  intros env socket roomCode draw s a room Hlook Hrounds s'. subst s'.
  unfold onStartGame. rewrite Hlook.
  assert (Hrun : startGame env (length (tasks s)) draw (Some room)
                 = inr (with_state room GAME_OVER, inr (Finished, []))).
  { unfold startGame. f_equal. unfold bind at 1. unfold modify.
    unfold roundsFrom. unfold bind at 1. unfold get.
    cbn [config with_state].
    assert (E : Z.leb 1 (rounds (config room)) = false) by (apply Z.leb_gt; lia).
    rewrite E. reflexivity. }
  rewrite Hrun.
  apply lookupRoom_Some in Hlook as [_ Hd].
  split; [|split].
  - rewrite settle_store. cbn [fst store with_tasks].
    apply deref_update_eq. eapply deref_Some_lt; eassumption.
  - reflexivity.
  - rewrite settle_replies. reflexivity.
Qed.

Lemma game_without_rounds_is_over_at_once_witness :
  option_map state
    (deref (store (onStartGame demo_env "s1" "ABCDEF" 0
                     (run demo_env no_round_schedule initial))) 0)
  = Some GAME_OVER.
Proof.
  assert (E : exists room,
             RoomManager.lookupRoom "ABCDEF" (store (run demo_env no_round_schedule initial))
             = Some (0%nat, room)
             /\ rounds (config room) = -1).
  { eexists. split; vm_compute; reflexivity. }
  destruct E as (room & H1 & H2).
  destruct (game_without_rounds_is_over_at_once demo_env "s1" "ABCDEF" 0 _ 0 room H1)
    as (Hd & _); [lia|].
  rewrite Hd. reflexivity.
Defined.

End RoundFacts.

(** ** The client *)

Section ClientFacts.

(** *** Scoreboard.jsx and WinnerScreen.jsx *)

Lemma insertRow_perm x l : Scoreboard.insertRow x l ≡ₚ x :: l.
Proof.
  induction l as [|y l IH]; cbn [Scoreboard.insertRow]; [reflexivity|].
  destruct (Z.ltb _ _); [|reflexivity].
  rewrite IH. apply Permutation_swap.
Qed.

Lemma sortByScore_perm l : Scoreboard.sortByScore l ≡ₚ l.
Proof.
  induction l as [|x l IH]; [reflexivity|].
  unfold Scoreboard.sortByScore in *. cbn [foldr].
  rewrite insertRow_perm. now rewrite IH.
Qed.

Lemma insertRow_descending x l :
  Scoreboard.descending l -> Scoreboard.descending (Scoreboard.insertRow x l).
Proof.
  induction l as [|y l IH]; cbn [Scoreboard.insertRow Scoreboard.descending].
  - intros _. split; [constructor | exact I].
  - intros [Hy Hl]. destruct (Z.ltb_spec (Scoreboard.row_score x) (Scoreboard.row_score y)).
    + cbn [Scoreboard.descending]. split; [|now apply IH].
      rewrite insertRow_perm. constructor; [lia | exact Hy].
    + cbn [Scoreboard.descending]. split; [|split; assumption].
      constructor; [lia|].
      eapply Forall_impl; [exact Hy|]. cbn. intros z Hz. lia.
Qed.

Lemma sortByScore_descending l : Scoreboard.descending (Scoreboard.sortByScore l).
Proof.
  induction l as [|x l IH]; [exact I|].
  unfold Scoreboard.sortByScore in *. cbn [foldr]. now apply insertRow_descending.
Qed.

Lemma insertRow_withScore v x l :
  Scoreboard.withScore v (Scoreboard.insertRow x l) = Scoreboard.withScore v (x :: l).
Proof.
  unfold Scoreboard.withScore.
  induction l as [|y l IH]; cbn [Scoreboard.insertRow]; [reflexivity|].
  destruct (Z.ltb_spec (Scoreboard.row_score x) (Scoreboard.row_score y)); [|reflexivity].
  cbn [List.filter] in *.
  destruct (Z.eqb_spec (Scoreboard.row_score y) v) as [Ey|Ey].
  - rewrite IH.
    destruct (Z.eqb_spec (Scoreboard.row_score x) v) as [Ex|Ex]; [lia | reflexivity].
  - exact IH.
Qed.

Lemma sortByScore_withScore v l :
  Scoreboard.withScore v (Scoreboard.sortByScore l) = Scoreboard.withScore v l.
Proof.
  induction l as [|x l IH]; [reflexivity|].
  unfold Scoreboard.sortByScore in *. cbn [foldr].
  rewrite insertRow_withScore. unfold Scoreboard.withScore in *.
  cbn [List.filter]. now rewrite IH.
Qed.

(** X21. The scoreboard shows every player exactly once, with the score
    taken from the scores object when it has one for the player's id and
    from the player otherwise (0 when there is none); the rows go by
    descending score, and players of equal score keep the order in which
    the server listed them. *)
Theorem scoreboard_ranking
    (players : list Scoreboard.PlayerView) (scores : option (gmap string Z)) :
  Scoreboard.list players scores ≡ₚ map (Scoreboard.rowOf scores) players
  /\ Scoreboard.descending (Scoreboard.list players scores)
  /\ forall v,
       Scoreboard.withScore v (Scoreboard.list players scores)
       = Scoreboard.withScore v (map (Scoreboard.rowOf scores) players).
Proof.
  unfold Scoreboard.list. split; [apply sortByScore_perm|].
  split; [apply sortByScore_descending|].
  intros v. apply sortByScore_withScore.
Qed.

Lemma head_withScore_split (f : Scoreboard.PlayerView -> Scoreboard.Row) v w :
  forall l,
    head (Scoreboard.withScore v (map f l)) = Some w ->
    exists before p after,
      l = (before ++ p :: after)%list /\ f p = w
      /\ Forall (fun q => Scoreboard.row_score (f q) <> v) before.
Proof.
  unfold Scoreboard.withScore.
  induction l as [|p l IH]; cbn [map List.filter]; [cbn; discriminate|].
  destruct (Z.eqb_spec (Scoreboard.row_score (f p)) v) as [E|E].
  - cbn [head]. intros [= <-]. exists [], p, l.
    split; [reflexivity|]. split; [reflexivity | constructor].
  - intros H. destruct (IH H) as (before & p0 & after & -> & Hf & Hall).
    exists (p :: before), p0, after. repeat split; [assumption|].
    constructor; assumption.
Qed.

(** X22. The winner screen names no winner exactly when there is no
    player; otherwise the winner is the first player, in the order of the
    server's list, among those whose displayed score is the highest. *)
Theorem winner_is_first_of_the_best
    (players : list Scoreboard.PlayerView) (finalScores : option (gmap string Z)) :
  (WinnerScreen.winner players finalScores = None <-> players = [])
  /\ forall w,
       WinnerScreen.winner players finalScores = Some w ->
       exists before p after,
         players = (before ++ p :: after)%list
         /\ Scoreboard.rowOf finalScores p = w
         /\ Forall (fun q => Scoreboard.row_score (Scoreboard.rowOf finalScores q)
                             < Scoreboard.row_score w) before
         /\ Forall (fun q => Scoreboard.row_score (Scoreboard.rowOf finalScores q)
                             <= Scoreboard.row_score w) after.
Proof.
  unfold WinnerScreen.winner.
  set (rows := map (Scoreboard.rowOf finalScores) players).
  pose proof (sortByScore_perm rows) as Hperm.
  pose proof (sortByScore_descending rows) as Hdesc.
  pose proof (sortByScore_withScore) as Hstable.
  split.
  - split.
    + intros Hnone.
      destruct (Scoreboard.sortByScore rows) as [|x l] eqn:E; [|discriminate].
      apply Permutation_nil_l in Hperm. unfold rows in Hperm.
      destruct players; [reflexivity | discriminate].
    + intros ->. reflexivity.
  - intros w Hw.
    destruct (Scoreboard.sortByScore rows) as [|x l] eqn:E; [discriminate|].
    cbn in Hw. injection Hw as ->.
    assert (Hmax : Forall (fun y => Scoreboard.row_score y <= Scoreboard.row_score w) rows).
    { rewrite <- Hperm. destruct Hdesc as [Hl _]. constructor; [lia | exact Hl]. }
    assert (Hhead : head (Scoreboard.withScore (Scoreboard.row_score w) rows) = Some w).
    { rewrite <- (Hstable (Scoreboard.row_score w) rows), E.
      unfold Scoreboard.withScore. cbn [List.filter]. now rewrite Z.eqb_refl. }
    destruct (head_withScore_split _ _ _ _ Hhead)
      as (before & p & after & Hsplit & Hp & Hbefore).
    exists before, p, after. split; [exact Hsplit|]. split; [exact Hp|].
    unfold rows in Hmax. rewrite Hsplit, map_app in Hmax. cbn [map] in Hmax.
    apply Forall_app in Hmax as [Hb Ha]. apply Forall_cons in Ha as [_ Ha].
    rewrite Forall_map in Hb, Ha. split; [|exact Ha].
    rewrite Forall_forall in *. intros q Hq.
    specialize (Hb q Hq). specialize (Hbefore q Hq). cbn in *. lia.
Qed.

(** *** GameRoom.jsx *)

(** X23. Every state key of constants.js has a label of its own in
    [translateState]: none of the eight falls through to the default, and
    two different states never get the same label; any other string is
    shown as it is. *)
Theorem translateState_covers_the_states :
  (forall s : GAME_STATES,
      GameRoom.translateState (Constants.GAME_STATES_value s)
      <> Constants.GAME_STATES_value s)
  /\ (forall s1 s2 : GAME_STATES,
        GameRoom.translateState (Constants.GAME_STATES_value s1)
        = GameRoom.translateState (Constants.GAME_STATES_value s2) -> s1 = s2)
  /\ (forall state : string,
        (forall s : GAME_STATES, state <> Constants.GAME_STATES_value s) ->
        GameRoom.translateState state = state).
Proof.
  split; [|split].
  - intros []; vm_compute; discriminate.
  - intros [] []; vm_compute; intros H; try reflexivity; discriminate.
  - intros state Hother. unfold GameRoom.translateState.
    destruct (String.eqb_spec state "waiting") as [->|_]; [now destruct (Hother WAITING)|].
    destruct (String.eqb_spec state "starting") as [->|_]; [now destruct (Hother STARTING)|].
    destruct (String.eqb_spec state "showing_image") as [->|_];
      [now destruct (Hother SHOWING_IMAGE)|].
    destruct (String.eqb_spec state "writing_prompt") as [->|_];
      [now destruct (Hother WRITING_PROMPT)|].
    destruct (String.eqb_spec state "generating_images") as [->|_];
      [now destruct (Hother GENERATING_IMAGES)|].
    destruct (String.eqb_spec state "voting") as [->|_]; [now destruct (Hother VOTING)|].
    destruct (String.eqb_spec state "showing_results") as [->|_];
      [now destruct (Hother SHOWING_RESULTS)|].
    destruct (String.eqb_spec state "game_over") as [->|_]; [now destruct (Hother GAME_OVER)|].
    reflexivity.
Qed.

(** *** PromptInput.jsx *)

Lemma substring_0_length n : forall s,
  String.length (String.substring 0 n s) = Nat.min n (String.length s).
Proof.
  induction n as [|n IH]; intros [|c s]; cbn; try reflexivity.
  now rewrite IH.
Qed.

Lemma substring_0_prefix n : forall s,
  exists rest, s = String.substring 0 n s ++ rest.
Proof.
  induction n as [|n IH]; intros [|c s].
  - exists "". reflexivity.
  - exists (String c s). reflexivity.
  - exists "". reflexivity.
  - destruct (IH s) as [rest Hrest]. exists rest. cbn [String.substring].
    rewrite string_app_cons. now rewrite <- Hrest.
Qed.

Lemma substring_0_all n : forall s,
  (String.length s <= n)%nat -> String.substring 0 n s = s.
Proof.
  induction n as [|n IH]; intros [|c s] Hlen; cbn in *; try reflexivity; try lia.
  rewrite IH by lia. reflexivity.
Qed.

(** X24. What is typed into the prompt box is cut to its first 500 code
    units (nothing is cut from a shorter text, and cutting twice changes
    nothing more); a click on a suggestion is not cut: on a non-empty text
    it adds a space and the suggestion, whatever the length becomes. *)
Theorem promptInput_limit :
  (forall typed : string,
      (String.length (PromptInput.onType typed) <= 500)%nat
      /\ (exists rest, typed = PromptInput.onType typed ++ rest)
      /\ ((String.length typed <= 500)%nat -> PromptInput.onType typed = typed)
      /\ PromptInput.onType (PromptInput.onType typed) = PromptInput.onType typed)
  /\ (forall value s : string,
        value <> "" ->
        String.length (PromptInput.onSuggestion value s)
        = (String.length value + 1 + String.length s)%nat).
Proof.
  split.
  - intros typed. unfold PromptInput.onType, PromptInput.maxChars.
    pose proof (substring_0_length 500 typed) as Hlen.
    split; [lia|]. split; [apply substring_0_prefix|].
    split; [apply substring_0_all|].
    apply substring_0_all. lia.
  - intros value s Hne. unfold PromptInput.onSuggestion.
    rewrite truthy_nonempty by assumption.
    rewrite !string_length_app. cbn [String.length]. lia.
Qed.

(** *** Lobby.jsx *)

(** X25. A room created from the lobby never takes a default of
    [createRoom]: the form asks for a name and sends a complete
    configuration, so that the room has three rounds, medium difficulty,
    the ['random'] category and classic mode, and its host carries the name
    that was typed. *)
Theorem lobby_room_configuration :
  forall (playerName socket : string) (cfg : ClientConfig)
         (attempts : list (list nat)) (st st' : Store) (roomCode : string),
    Lobby.handleCreateRoom playerName = Some cfg ->
    RoomManager.createRoom (Some cfg) socket attempts st = Some (st', inr roomCode) ->
    exists room,
      RoomManager.getRoom roomCode st' = Some room
      /\ config room = {| rounds := 3; difficulty := "medium";
                          categories := ["random"]; mode := "classic" |}
      /\ players room = [(socket, RoomManager.newPlayer socket playerName)]
      /\ playerName <> "".
Proof.
  intros playerName socket cfg attempts st st' roomCode Hcfg Hcreate.
  unfold Lobby.handleCreateRoom in Hcfg.
  destruct playerName as [|c name]; [discriminate|].
  cbn in Hcfg. injection Hcfg as <-.
  unfold RoomManager.createRoom in Hcreate.
  destruct (RoomManager.freshCode attempts (rooms st)) as [c0|]; [|discriminate].
  injection Hcreate as <- <-.
  eexists. split.
  - apply getRoom_Some. eexists. apply lookupRoom_Some. cbn [rooms]. split.
    + apply Map_get_set_eq.
    + unfold deref. cbn [heap]. rewrite lookup_app_r by lia.
      rewrite Nat.sub_diag. reflexivity.
  - cbn. repeat split. discriminate.
Qed.

Lemma lobby_room_configuration_witness :
  exists cfg st' room,
    Lobby.handleCreateRoom "Ann" = Some cfg
    /\ RoomManager.createRoom (Some cfg) "s1" [[0; 1; 2; 3; 4; 5]%nat]
         (Server.store Server.initial) = Some (st', inr "ABCDEF")
    /\ RoomManager.getRoom "ABCDEF" st' = Some room
    /\ rounds (config room) = 3.
Proof.
  eexists _, _.
  assert (H1 : Lobby.handleCreateRoom "Ann"
               = Some {| cc_rounds := Some 3; cc_difficulty := Some "medium";
                         cc_categories := Some ["random"]; cc_mode := Some "classic";
                         cc_playerName := Some "Ann" |}) by reflexivity.
  match goal with
  | |- exists room, _ /\ RoomManager.createRoom ?c ?k ?a ?st = Some (?st', _) /\ _ =>
      assert (H2 : RoomManager.createRoom c k a st
                   = Some (ltac:(let x := eval vm_compute in
                                   (fst (default (st, inr "") (RoomManager.createRoom c k a st)))
                                 in exact x), inr "ABCDEF"))
        by (vm_compute; reflexivity)
  end.
  destruct (lobby_room_configuration "Ann" "s1" _ _ _ _ "ABCDEF" H1 H2)
    as (room & Hget & Hcfg & _).
  exists room. split; [exact H1|]. split; [exact H2|]. split; [exact Hget|].
  now rewrite Hcfg.
Defined.

(** *** App.jsx *)

Lemma app_view_step socketId e s :
  App.view (App.handle socketId e s) = App.game ->
  App.view s = App.game \/ exists message, e = App.startGameAck true message.
Proof.
  destruct e as [ps host|st round|prompt image cat|images|sc total|final|c name|ok message];
    cbn; try (now left); try discriminate.
  - destruct (String.eqb st "game_over"); [discriminate | now left].
  - destruct ok; [right; now exists message | now left].
Qed.

(** X26. The client shows the game room only after a successful
    acknowledgement of a [start-game] request has reached it: no message of
    the server and no entry into a room puts it there. A [game_over] state
    message or a [game-over] message always leads to the results. *)
Theorem game_view_needs_acknowledgement :
  forall (socketId : string) (events : list App.Event),
    (App.view (App.run socketId events App.initial) = App.game ->
     exists message, In (App.startGameAck true message) events)
    /\ (forall round s,
          App.view (App.handle socketId (App.game_state "game_over" round) s)
          = App.results)
    /\ (forall finalScores s,
          App.view (App.handle socketId (App.game_over finalScores) s) = App.results).
Proof.
  intros socketId events. split; [|split; reflexivity].
  unfold App.run.
  assert (H : forall s,
             App.view (foldl (fun s e => App.handle socketId e s) s events) = App.game ->
             App.view s = App.game
             \/ exists message, In (App.startGameAck true message) events).
  { induction events as [|e events IH]; intros s; cbn [foldl].
    - now left.
    - intros Hview. destruct (IH _ Hview) as [Hs|[message Hin]].
      + destruct (app_view_step _ _ _ Hs) as [Hs'|[message ->]]; [now left|].
        right. exists message. now left.
      + right. exists message. now right. }
  intros Hview. destruct (H _ Hview) as [Hinit|Hack]; [discriminate | exact Hack].
Qed.

Lemma game_view_needs_acknowledgement_witness :
  exists message,
    In (App.startGameAck true message)
       [App.enterRoom "ABCDEF" "Ann"; App.startGameAck true None].
Proof.
  apply (game_view_needs_acknowledgement "s1"
           [App.enterRoom "ABCDEF" "Ann"; App.startGameAck true None]).
  reflexivity.
Defined.

End ClientFacts.

(** ** The states and the rounds of a room *)

Section AtRest.
Import GameLogic Server.

Lemma steady_refl r : steady r r.
Proof. unfold steady. repeat split; auto. Qed.

Lemma steady_trans r1 r2 r3 : steady r1 r2 -> steady r2 r3 -> steady r1 r3.
Proof.
  intros (Hc1 & Hr1 & Hp1 & Hi1 & Hs1 & Hst1) (Hc2 & Hr2 & Hp2 & Hi2 & Hs2 & Hst2).
  unfold steady. repeat split; try congruence; try tauto.
  destruct Hst2 as [E|Hst2]; [rewrite E; exact Hst1 | tauto].
Qed.

Lemma atRest_steady r r' : atRest r -> steady r r' -> atRest r'.
Proof.
  intros (H1 & H2 & H3 & H4) (Hc & Hr & Hp & Hi & Hs & Hst).
  unfold atRest, roundCount, noRoundYet, roundBegun in *.
  rewrite Hc, Hr.
  repeat split.
  - destruct Hst as [E|[E|[E|E]]]; rewrite E; [assumption | discriminate..].
  - destruct Hst as [E|[E|[E|E]]]; rewrite E; [assumption | discriminate..].
  - intros Hw. apply H3.
    destruct Hst as [E|[E|[E|E]]]; rewrite E in Hw; [assumption | discriminate..].
  - destruct H4 as [(Hz & Hn1 & Hn2 & Hn3)|(Hpos & Hb1 & Hb2 & Hb3)]; [left | right].
    + split; [assumption|]. tauto.
    + split; [assumption|]. tauto.
Qed.

Lemma steady_ret {A} (x : A) : keeps steady (ret x).
Proof. intros r r' res [= <- <-]. apply steady_refl. Qed.

Lemma steady_throw {A} e : keeps steady (@throw A e).
Proof. intros r r' res [= <- <-]. apply steady_refl. Qed.

Lemma steady_get : keeps steady get.
Proof. intros r r' res [= <- <-]. apply steady_refl. Qed.

Lemma steady_bind {A B} (m : M A) (k : A -> M B) :
  keeps steady m -> (forall x, keeps steady (k x)) -> keeps steady (bind m k).
Proof.
  intros Hm Hk r r' res. unfold bind.
  destruct (m r) as [r1 [e|x]] eqn:E.
  - intros [= <- <-]. eapply Hm; eassumption.
  - intros H. eapply steady_trans; [eapply Hm | eapply Hk]; eassumption.
Qed.

Lemma steady_modify f :
  (forall r, steady r (f r)) -> keeps steady (modify f).
Proof. intros Hf r r' res [= <- <-]. apply Hf. Qed.

Lemma steady_readPrompt id : keeps steady (readPrompt id).
Proof.
  intros r r' res. unfold readPrompt.
  destruct (prompts (roundData r)); intros [= <- <-]; apply steady_refl.
Qed.

Lemma steady_readScore id : keeps steady (readScore id).
Proof.
  intros r r' res. unfold readScore.
  destruct (scores (roundData r)); intros [= <- <-]; apply steady_refl.
Qed.

Lemma steady_writePrompt id prompt : keeps steady (writePrompt id prompt).
Proof.
  intros r r' res. unfold writePrompt.
  destruct (prompts (roundData r)) eqn:E; intros [= <- <-]; [|apply steady_refl].
  unfold steady. cbn. rewrite E. repeat split; auto; discriminate.
Qed.

Lemma steady_writeImage id image : keeps steady (writeImage id image).
Proof.
  intros r r' res. unfold writeImage.
  destruct (images (roundData r)) eqn:E; intros [= <- <-]; [|apply steady_refl].
  unfold steady. cbn. rewrite E. repeat split; auto; discriminate.
Qed.

Lemma steady_writeScore id v : keeps steady (writeScore id v).
Proof.
  intros r r' res. unfold writeScore.
  destruct (scores (roundData r)) eqn:E; intros [= <- <-]; [|apply steady_refl].
  unfold steady. cbn. rewrite E. repeat split; auto; discriminate.
Qed.

Lemma steady_storeImage id settled : keeps steady (storeImage id settled).
Proof. destruct settled; apply steady_writeImage. Qed.

Lemma steady_scoreLoop op ids : keeps steady (scoreLoop op ids).
Proof.
  induction ids as [|id more IH]; cbn [scoreLoop].
  - apply steady_ret.
  - apply steady_bind; [apply steady_readPrompt|]. intros prompt.
    apply steady_bind; [apply steady_writeScore|]. intros _. exact IH.
Qed.

Lemma steady_accumulateLoop ids : keeps steady (accumulateLoop ids).
Proof.
  induction ids as [|id more IH]; cbn [accumulateLoop].
  - apply steady_ret.
  - apply steady_bind; [apply steady_get|]. intros r.
    apply steady_bind; [apply steady_readScore|]. intros v.
    destruct (Map.get id (players r)); [|apply steady_throw].
    apply steady_bind; [|intros _; exact IH].
    apply steady_modify. intros r0. unfold steady. cbn. repeat split; auto.
Qed.

Lemma steady_totalScores ids : keeps steady (totalScores ids).
Proof.
  induction ids as [|id more IH]; cbn [totalScores].
  - apply steady_ret.
  - apply steady_bind; [apply steady_get|]. intros r.
    destruct (Map.get id (players r)); [|apply steady_throw].
    apply steady_bind; [exact IH|]. intros rest. apply steady_ret.
Qed.

Lemma steady_votingPhase task round op ids : keeps steady (votingPhase task round op ids).
Proof.
  unfold votingPhase.
  apply steady_bind.
  { apply steady_modify. intros r. unfold steady. cbn. repeat split; auto. }
  intros _. apply steady_bind; [apply steady_scoreLoop|]. intros _.
  apply steady_bind; [apply steady_accumulateLoop|]. intros _.
  apply steady_bind; [apply steady_totalScores|]. intros _. apply steady_ret.
Qed.

Lemma steady_imagesFrom env task round op ids rest :
  keeps steady (imagesFrom env task round op ids rest).
Proof.
  induction rest as [|id more IH]; cbn [imagesFrom].
  - apply steady_votingPhase.
  - apply steady_bind; [apply steady_readPrompt|]. intros prompt.
    assert (Hskip : forall image,
              keeps steady (bind (writeImage id image)
                              (fun _ => imagesFrom env task round op ids more))).
    { intros image. apply steady_bind; [apply steady_writeImage | intros _; exact IH]. }
    destruct prompt as [prompt|]; [|apply Hskip].
    destruct (JS.truthy prompt); [|apply Hskip].
    destruct (openai env); [apply steady_ret|].
    apply steady_bind; [apply steady_storeImage | intros _; exact IH].
Qed.

Lemma steady_afterPrompts env task round op : keeps steady (afterPrompts env task round op).
Proof.
  unfold afterPrompts.
  apply steady_bind.
  { apply steady_modify. intros r. unfold steady. cbn. repeat split; auto. }
  intros _. apply steady_bind; [apply steady_get|]. intros r.
  apply steady_imagesFrom.
Qed.

Lemma steady_afterImage env task round op ids rest id settled :
  keeps steady (afterImage env task round op ids rest id settled).
Proof.
  unfold afterImage.
  apply steady_bind; [apply steady_storeImage | intros _; apply steady_imagesFrom].
Qed.

Lemma steady_writingPhase task a round op : keeps steady (writingPhase task a round op).
Proof.
  unfold writingPhase, waitForPrompts.
  apply steady_bind.
  { apply steady_modify. intros r. unfold steady. cbn. repeat split; auto. }
  intros _. apply steady_bind; [apply steady_get|]. intros r.
  apply steady_bind; [|intros timers; apply steady_ret].
  apply steady_bind; [|intros _; apply steady_ret].
  apply steady_modify. intros r0. unfold steady. cbn. repeat split; auto.
Qed.

Lemma steady_showOriginal task round original : keeps steady (showOriginal task round original).
Proof.
  unfold showOriginal. destruct original as [op oi].
  apply steady_bind; [|intros _; apply steady_ret].
  apply steady_modify. intros r. unfold steady. cbn. repeat split; auto.
Qed.

Lemma steady_handlePromptSubmission socketId prompt :
  keeps steady (handlePromptSubmission socketId prompt).
Proof.
  unfold handlePromptSubmission.
  apply steady_bind; [apply steady_writePrompt|]. intros _.
  apply steady_bind; [apply steady_get|]. intros r.
  destruct (_resolvePromptPromise r); [|apply steady_ret].
  destruct (allSubmitted _ _); [|apply steady_ret].
  apply steady_bind; [apply steady_modify; intros; unfold steady; cbn; repeat split; auto|].
  intros _. apply steady_ret.
Qed.

Lemma steady_promptTimeout : keeps steady promptTimeout.
Proof.
  unfold promptTimeout.
  apply steady_bind; [apply steady_get|]. intros r.
  destruct (_resolvePromptPromise r); [|apply steady_ret].
  apply steady_bind; [apply steady_modify; intros; unfold steady; cbn; repeat split; auto|].
  intros _. apply steady_ret.
Qed.

(** *** Where a stretch suspends *)

Lemma votingPhase_round task round op ids r r' step :
  1 <= round ->
  votingPhase task round op ids r = (r', inr step) -> roundPositive (fst step).
Proof.
  intros Hround. unfold votingPhase. unfold bind at 1. unfold modify. unfold bind at 1.
  destruct (scoreLoop op ids _) as [r1 [e|[]]]; [discriminate|].
  unfold bind at 1.
  destruct (accumulateLoop ids r1) as [r2 [e|[]]]; [discriminate|].
  unfold bind at 1.
  destruct (totalScores ids r2) as [r3 [e|tot]]; [discriminate|].
  intros [= <- <-]. exact Hround.
Qed.

Lemma imagesFrom_round env task round op ids rest : forall r r' step,
  1 <= round ->
  imagesFrom env task round op ids rest r = (r', inr step) ->
  roundPositive (fst step).
Proof.
  induction rest as [|id more IH]; intros r r' step Hround; cbn [imagesFrom].
  - now apply votingPhase_round.
  - unfold bind at 1. unfold readPrompt.
    destruct (prompts (roundData r)) as [ps|]; [|discriminate].
    assert (Hskip : forall image,
              bind (writeImage id image)
                   (fun _ => imagesFrom env task round op ids more) r
              = (r', inr step) -> roundPositive (fst step)).
    { intros image. unfold bind at 1.
      destruct (writeImage id image r) as [r1 [e|[]]]; [discriminate|].
      now apply IH. }
    destruct (ps !! id) as [prompt|]; [|apply Hskip].
    destruct (JS.truthy prompt); [|apply Hskip].
    destruct (openai env).
    + intros [= <- <-]. exact Hround.
    + apply Hskip.
Qed.

Lemma stretchRests_steady m room :
  atRest room -> keeps steady m ->
  (forall room' step, m room = (room', inr step) -> roundPositive (fst step)) ->
  stretchRests m room.
Proof.
  intros Hrest Hkeeps Hround room' res Hrun. split.
  - eapply atRest_steady; [exact Hrest|]. eapply Hkeeps. exact Hrun.
  - intros step ->. eapply Hround. exact Hrun.
Qed.

Lemma stretchRests_showOriginal task round original room :
  atRest room -> 1 <= round ->
  stretchRests (showOriginal task round original) room.
Proof.
  intros Hrest Hround. apply stretchRests_steady;
    [assumption | apply steady_showOriginal|].
  intros room' step. unfold showOriginal. destruct original as [op oi].
  unfold bind, modify, ret. intros [= <- <-]. exact Hround.
Qed.

Lemma stretchRests_writingPhase task a round op room :
  atRest room -> 1 <= round ->
  stretchRests (writingPhase task a round op) room.
Proof.
  intros Hrest Hround. apply stretchRests_steady;
    [assumption | apply steady_writingPhase|].
  intros room' step. unfold writingPhase, waitForPrompts, bind, modify, get, ret.
  intros [= <- <-]. exact Hround.
Qed.

Lemma stretchRests_afterPrompts env task round op room :
  atRest room -> 1 <= round ->
  stretchRests (afterPrompts env task round op) room.
Proof.
  intros Hrest Hround. apply stretchRests_steady;
    [assumption | apply steady_afterPrompts|].
  intros room' step. unfold afterPrompts. unfold bind at 1. unfold modify.
  unfold bind at 1. unfold get. now apply imagesFrom_round.
Qed.

Lemma stretchRests_afterImage env task round op ids rest id settled room :
  atRest room -> 1 <= round ->
  stretchRests (afterImage env task round op ids rest id settled) room.
Proof.
  intros Hrest Hround. apply stretchRests_steady;
    [assumption | apply steady_afterImage|].
  intros room' step. unfold afterImage. unfold bind at 1.
  destruct (storeImage id settled room) as [r1 [e|[]]]; [discriminate|].
  now apply imagesFrom_round.
Qed.

(** The head of the round loop: a new round begins, or the game is over. *)
Lemma stretchRests_roundsFrom env task round draw room :
  roundCount room -> 1 <= round ->
  stretchRests (roundsFrom env task round draw) room.
Proof.
  intros Hcount Hround room' res. unfold roundsFrom. unfold bind at 1. unfold get.
  destruct (Z.leb_spec round (rounds (config room))) as [Hle|Hgt].
  - unfold beginRound. unfold bind at 1. unfold modify.
    unfold bind at 1. unfold bind at 1. unfold bind at 1. unfold get.
    cbn [config with_state with_roundData with_currentRound categories].
    destruct (openai env).
    + intros [= <- <-]. split; [|intros step [= <-]; exact Hround].
      unfold atRest, roundCount, roundBegun. cbn.
      repeat split; try discriminate.
      right. repeat split; try discriminate; lia.
    + unfold showOriginal.
      destruct (ImageGenerator.generateOriginalImage _ None) as [op oi].
      unfold bind, modify, ret. intros [= <- <-].
      split; [|intros step [= <-]; exact Hround].
      unfold atRest, roundCount, roundBegun. cbn.
      repeat split; try discriminate.
      right. repeat split; try discriminate; lia.
  - unfold gameOver, bind, modify, ret. intros [= <- <-].
    split; [|intros step [= <-]; exact I].
    unfold atRest. cbn. repeat split; try discriminate. exact Hcount.
Qed.

(** *** The server *)

Lemma settle_rested task a socket room m s :
  rested s -> deref (store s) a = Some room -> stretchRests m room ->
  rested (settle task a socket (m room) s).
Proof.
  intros [Hheap Htasks] Hroom Hok.
  destruct (m room) as [room' res] eqn:Hrun.
  destruct (Hok _ _ Hrun) as [Hrest Hround].
  split.
  - intros b rb. rewrite settle_store. cbn [fst].
    destruct (Nat.eq_dec a b) as [<-|Hne].
    + rewrite deref_update_eq by (eapply deref_Some_lt; eassumption).
      now intros [= <-].
    + rewrite deref_update_ne by assumption. apply Hheap.
  - intros t Ht. rewrite settle_tasks in Ht. apply In_insert in Ht as [->|Ht].
    + cbn. destruct res as [e|step]; cbn; [exact I | now apply Hround].
    + now apply Htasks.
Qed.

Lemma resume_rested task k s :
  rested s ->
  (forall t room m,
      tasks s !! task = Some t -> deref (store s) (t_room t) = Some room ->
      roundPositive (t_at t) -> atRest room ->
      k (t_room t) (t_at t) = Some m -> stretchRests m room) ->
  rested (resume task k s).
Proof.
  intros Hrested Hk. unfold resume.
  destruct (tasks s !! task) as [t|] eqn:Ht; [|assumption].
  destruct (k (t_room t) (t_at t)) as [m|] eqn:Hm; [|assumption].
  destruct (deref (store s) (t_room t)) as [room|] eqn:Hroom; [|assumption].
  apply settle_rested; try assumption.
  destruct Hrested as [Hheap Htasks].
  eapply Hk; eauto.
  apply Htasks. apply list_elem_of_In. eapply list_elem_of_lookup_2. eassumption.
Qed.

Lemma resolvePromise_rested env f s : rested s -> rested (resolvePromise env f s).
Proof.
  intros Hrested. unfold resolvePromise. apply resume_rested; [assumption|].
  intros t room m _ _ Hround Hroom. destruct (t_at t); try discriminate.
  destruct (Z.eqb round (res_round f)); [|discriminate].
  intros [= <-]. now apply stretchRests_afterPrompts.
Qed.

Lemma rested_update s a r r' :
  rested s -> deref (store s) a = Some r -> steady r r' ->
  rested (with_store s (update a r' (store s))).
Proof.
  intros [Hheap Htasks] Hr Hsteady. split; [|exact Htasks].
  intros b rb. cbn [store with_store].
  destruct (Nat.eq_dec a b) as [<-|Hne].
  - rewrite deref_update_eq by (eapply deref_Some_lt; eassumption).
    intros [= <-]. eapply atRest_steady; [|exact Hsteady]. eapply Hheap; eassumption.
  - rewrite deref_update_ne by assumption. apply Hheap.
Qed.

Lemma onStartGame_rested env socket roomCode draw s :
  rested s -> rested (onStartGame env socket roomCode draw s).
Proof.
  intros Hrested. unfold onStartGame.
  destruct (RoomManager.lookupRoom roomCode (store s)) as [[a room]|] eqn:Hl;
    [|assumption].
  apply lookupRoom_Some in Hl as [_ Hroom]. cbn [startGame].
  set (s1 := with_tasks s _).
  assert (Hrested1 : rested s1).
  { destruct Hrested as [Hheap Htasks]. split; [exact Hheap|].
    intros t Ht. unfold s1 in Ht. cbn in Ht.
    apply in_app_iff in Ht as [Ht|[<-|[]]]; [auto | exact I]. }
  apply (settle_rested (length (tasks s)) a socket room
           (bind (modify (fun r => with_state r STARTING))
                 (fun _ => roundsFrom env (length (tasks s)) 1 draw)) s1);
    [assumption | assumption |].
  intros room' res. unfold bind at 1. unfold modify.
  apply stretchRests_roundsFrom; [|lia].
  destruct Hrested as [Hheap _]. destruct (Hheap _ _ Hroom) as (_ & _ & _ & Hcount).
  exact Hcount.
Qed.

Lemma onSubmitPrompt_rested env socket roomCode prompt s :
  rested s -> rested (onSubmitPrompt env socket roomCode prompt s).
Proof.
  intros Hrested. unfold onSubmitPrompt.
  destruct (RoomManager.lookupRoom roomCode (store s)) as [[a room]|] eqn:Hl;
    [|assumption].
  apply lookupRoom_Some in Hl as [_ Hroom].
  destruct (handlePromptSubmission socket prompt room) as [room' res] eqn:Hrun.
  pose proof (steady_handlePromptSubmission _ _ _ _ _ Hrun) as Hsteady.
  pose proof (rested_update s a room room' Hrested Hroom Hsteady) as Hrested1.
  destruct res as [e|[f|]]; try exact Hrested1.
  now apply resolvePromise_rested.
Qed.

Lemma onTimer_rested env id draw s : rested s -> rested (onTimer env id draw s).
Proof.
  intros Hrested. unfold onTimer.
  destruct (find _ (timers s)) as [tm|]; [|assumption].
  set (s0 := with_timers s _).
  assert (Hrested0 : rested s0) by exact Hrested.
  destruct (tm_cb tm) as [task|a].
  - apply resume_rested; [assumption|].
    intros t room m _ _ Hround Hroom. destruct (t_at t); try discriminate; intros [= <-].
    + now apply stretchRests_writingPhase.
    + apply stretchRests_roundsFrom; [|cbn in Hround; lia].
      now destruct Hroom as (_ & _ & _ & Hcount).
  - destruct (deref (store s0) a) as [room|] eqn:Hroom; [|assumption].
    destruct (promptTimeout room) as [room' res] eqn:Hrun.
    pose proof (steady_promptTimeout _ _ _ Hrun) as Hsteady.
    pose proof (rested_update s0 a room room' Hrested0 Hroom Hsteady) as Hrested1.
    destruct res as [e|[f|]]; try exact Hrested1.
    now apply resolvePromise_rested.
Qed.

Lemma onOriginalReady_rested task api s : rested s -> rested (onOriginalReady task api s).
Proof.
  intros Hrested. unfold onOriginalReady. apply resume_rested; [assumption|].
  intros t room m _ _ Hround Hroom. destruct (t_at t); try discriminate; intros [= <-].
  now apply stretchRests_showOriginal.
Qed.

Lemma onImageReady_rested env task api s : rested s -> rested (onImageReady env task api s).
Proof.
  intros Hrested. unfold onImageReady. apply resume_rested; [assumption|].
  intros t room m _ _ Hround Hroom. destruct (t_at t); try discriminate; intros [= <-].
  now apply stretchRests_afterImage.
Qed.

Lemma onCreateRoom_rested socket cfg attempts s :
  rested s -> rested (onCreateRoom socket cfg attempts s).
Proof.
  intros Hrested. unfold onCreateRoom, RoomManager.createRoom.
  destruct (RoomManager.freshCode attempts (rooms (store s))) as [c|]; [|assumption].
  destruct cfg as [cfg|]; cbn; [|exact Hrested].
  destruct Hrested as [Hheap Htasks]. split; [|exact Htasks].
  intros a r. unfold deref. cbn. intros Ha.
  apply lookup_app_Some in Ha as [Ha|[_ Ha]]; [now apply (Hheap a)|].
  apply list_lookup_singleton_Some in Ha as [_ <-].
  unfold atRest, roundCount, noRoundYet. cbn.
  repeat split; try discriminate. left. repeat split.
Qed.

Lemma onJoinRoom_rested env socket roomCode playerName s :
  rested s -> rested (onJoinRoom env socket roomCode playerName s).
Proof.
  intros Hrested. unfold onJoinRoom, RoomManager.joinRoom.
  destruct (RoomManager.lookupRoom roomCode (store s)) as [[a room]|] eqn:Hl;
    [|exact Hrested].
  destruct (Z.geb _ _); [exact Hrested|]. cbn.
  apply lookupRoom_Some in Hl as [_ Hroom].
  apply (rested_update s a room); [assumption | assumption|].
  unfold steady. cbn. repeat split; auto.
Qed.

Lemma removeFrom_steady socketId entry st :
  length (heap (fst (RoomManager.removeFrom socketId entry st))) = length (heap st)
  /\ forall b rb, deref st b = Some rb ->
       exists rb', deref (fst (RoomManager.removeFrom socketId entry st)) b = Some rb'
                   /\ steady rb rb'.
Proof.
  unfold RoomManager.removeFrom. destruct entry as [c a].
  assert (Hsame : length (heap st) = length (heap st)
            /\ forall b rb, deref st b = Some rb ->
                 exists rb', deref st b = Some rb' /\ steady rb rb').
  { split; [reflexivity|]. intros b rb Hb. exists rb. split; [assumption|].
    apply steady_refl. }
  destruct (deref st a) as [room|] eqn:Hroom; [|exact Hsame].
  destruct (Map.has socketId (players room)); [|exact Hsame].
  assert (Hone : forall x, steady room x ->
            forall b rb, deref st b = Some rb ->
              exists rb', <[a := x]> (heap st) !! b = Some rb' /\ steady rb rb').
  { intros x Hx b rb Hb. destruct (Nat.eq_dec a b) as [<-|Hne].
    - exists x. split.
      + apply list_lookup_insert_eq. eapply deref_Some_lt; eassumption.
      + assert (rb = room) by congruence. now subst.
    - exists rb. split; [|apply steady_refl]. now rewrite list_lookup_insert_ne. }
  assert (Hleave : steady room (with_players room (Map.delete socketId (players room))))
    by (unfold steady; cbn; repeat split; auto).
  destruct (String.eqb _ socketId).
  - destruct (Map.keys _) as [|next more].
    + unfold deref, update. cbn. split; [apply length_insert|]. now apply Hone.
    + destruct (JS.truthy next); unfold deref, update; cbn.
      * rewrite list_insert_insert_eq. split; [apply length_insert|].
        apply Hone. unfold steady. cbn. repeat split; auto.
      * split; [apply length_insert|]. now apply Hone.
  - unfold deref, update. cbn. split; [apply length_insert|]. now apply Hone.
Qed.

Lemma removeLoop_steady socketId entries : forall st,
  length (heap (RoomManager.removeLoop socketId entries st)) = length (heap st)
  /\ forall b rb, deref st b = Some rb ->
       exists rb', deref (RoomManager.removeLoop socketId entries st) b = Some rb'
                   /\ steady rb rb'.
Proof.
  induction entries as [|entry more IH]; intros st; cbn [RoomManager.removeLoop].
  - split; [reflexivity|]. intros b rb Hb. exists rb. split; [assumption|].
    apply steady_refl.
  - destruct (removeFrom_steady socketId entry st) as [Hl1 H1].
    destruct (RoomManager.removeFrom socketId entry st) as [st1 stop]. cbn [fst] in *.
    destruct stop; [split; assumption|].
    destruct (IH st1) as [Hl2 H2]. split; [congruence|].
    intros b rb Hb. destruct (H1 _ _ Hb) as (r1 & Hb1 & Hs1).
    destruct (H2 _ _ Hb1) as (r2 & Hb2 & Hs2).
    exists r2. split; [assumption|]. eapply steady_trans; eassumption.
Qed.

Lemma onDisconnect_rested socket s : rested s -> rested (onDisconnect socket s).
Proof.
  intros [Hheap Htasks]. unfold onDisconnect, RoomManager.removePlayer.
  destruct (removeLoop_steady socket (rooms (store s)) (store s)) as [Hl H].
  split; [|exact Htasks]. cbn [store with_store]. intros a r' Ha.
  assert (Hlt : (a < length (heap (store s)))%nat).
  { rewrite <- Hl. eapply deref_Some_lt; eassumption. }
  destruct (lookup_lt_is_Some_2 (heap (store s)) a Hlt) as [r Hr].
  destruct (H _ _ Hr) as (r1 & Hr1 & Hsteady).
  assert (r1 = r') by congruence. subst r1.
  eapply atRest_steady; [|eassumption]. eapply Hheap; eassumption.
Qed.

Lemma handle_rested env e s : rested s -> rested (handle env e s).
Proof.
  intros Hrested.
  destruct e as [socket cfg attempts | socket roomCode name | socket roomCode draw
                 | socket roomCode prompt | socket | id draw | task api | task api];
    cbn [handle].
  - now apply onCreateRoom_rested.
  - now apply onJoinRoom_rested.
  - now apply onStartGame_rested.
  - now apply onSubmitPrompt_rested.
  - now apply onDisconnect_rested.
  - now apply onTimer_rested.
  - now apply onOriginalReady_rested.
  - now apply onImageReady_rested.
Qed.

Lemma rested_initial : rested initial.
Proof.
  split.
  - intros a r. unfold deref. cbn. now rewrite lookup_nil.
  - intros t [].
Qed.

Lemma run_rested env schedule : forall s, rested s -> rested (run env schedule s).
Proof.
  unfold run. induction schedule as [|te more IH]; intros s H; cbn [foldl]; [assumption|].
  apply IH. unfold deliver. now apply handle_rested.
Qed.

(** X27. Between two turns of the event loop no room object is in
    [STARTING] or in [SHOWING_RESULTS] (the server never enters the
    latter); the round counter of a room is 0 as long as no round has begun
    in it, which is so in [WAITING], and is otherwise between 1 and the
    configured number of rounds, the round data then holding its three
    dictionaries. *)
Theorem rooms_at_rest :
  forall (env : Env) (schedule : list (Z * Event)) (a : nat) (r : Room),
    deref (store (run env schedule initial)) a = Some r ->
    state r <> STARTING /\ state r <> SHOWING_RESULTS
    /\ (state r = WAITING -> currentRound r = 0)
    /\ ((currentRound r = 0
         /\ prompts (roundData r) = None /\ images (roundData r) = None
         /\ scores (roundData r) = None)
        \/ (1 <= currentRound r <= rounds (config r)
            /\ prompts (roundData r) <> None /\ images (roundData r) <> None
            /\ scores (roundData r) <> None)).
Proof.
  intros env schedule a r Hr.
  destruct (run_rested env schedule initial rested_initial) as [Hheap _].
  exact (Hheap a r Hr).
Qed.

Lemma rooms_at_rest_witness :
  exists r,
    deref (store (run demo_env round1_schedule initial)) 0 = Some r
    /\ state r <> SHOWING_RESULTS
    /\ 1 <= currentRound r <= rounds (config r).
Proof.
  assert (E : exists r, deref (store (run demo_env round1_schedule initial)) 0 = Some r)
    by (eexists; vm_compute; reflexivity).
  destruct E as [r E]. exists r. split; [exact E|].
  destruct (rooms_at_rest demo_env round1_schedule 0 r E) as (_ & H2 & _ & H4).
  split; [exact H2|].
  destruct H4 as [(Hz & _)|(Hpos & _)]; [|exact Hpos].
  exfalso. vm_compute in E. injection E as <-. discriminate.
Defined.

Lemma handlePromptSubmission_returns socketId prompt r ps :
  prompts (roundData r) = Some ps ->
  exists r' resolved, handlePromptSubmission socketId prompt r = (r', inr resolved).
Proof.
  intros Hps. unfold handlePromptSubmission. unfold bind at 1. unfold writePrompt.
  rewrite Hps. unfold bind at 1. unfold get.
  destruct (_resolvePromptPromise _); [|eexists _, _; reflexivity].
  destruct (allSubmitted _ _); eexists _, _; reflexivity.
Qed.

Lemma handlePromptSubmission_throws socketId prompt r :
  prompts (roundData r) = None ->
  handlePromptSubmission socketId prompt r = (r, inl (cannotSet socketId)).
Proof.
  intros Hps. unfold handlePromptSubmission. unfold bind at 1. unfold writePrompt.
  now rewrite Hps.
Qed.

Lemma resume_replies task k s :
  exists more,
    replies (resume task k s) = (replies s ++ more)%list
    /\ Forall (fun x => r_request x = StartGameReq) more.
Proof.
  unfold resume.
  assert (Hsame : exists more, replies s = (replies s ++ more)%list
                    /\ Forall (fun x => r_request x = StartGameReq) more).
  { exists []. split; [now rewrite app_nil_r | constructor]. }
  destruct (tasks s !! task) as [t|]; [|exact Hsame].
  destruct (k (t_room t) (t_at t)) as [m|]; [|exact Hsame].
  destruct (deref (store s) (t_room t)) as [room|]; [|exact Hsame].
  rewrite settle_replies. eexists. split; [reflexivity|].
  destruct (settledAt _); cbn; repeat constructor.
Qed.

(** X28. In every state that the server reaches, a [submit-prompt]
    request for a live room is answered at once, and with success exactly
    when a round has begun in the room (its round counter is at least 1);
    before that it is refused with the message of the [TypeError] and
    nothing is stored. Whatever else is answered in the same turn is the
    answer to a [start-game] request whose game loop has ended. *)
Theorem submit_prompt_accepted_iff_round_begun :
  forall (env : Env) (schedule : list (Z * Event)) (socket roomCode prompt : string)
         (a : nat) (room : Room),
    let s := run env schedule initial in
    RoomManager.lookupRoom roomCode (store s) = Some (a, room) ->
    exists rep more,
      replies (onSubmitPrompt env socket roomCode prompt s)
      = (replies s ++ rep :: more)%list
      /\ r_socket rep = socket /\ r_request rep = SubmitPromptReq
      /\ (r_success rep = true <-> 1 <= currentRound room)
      /\ (r_success rep = false ->
          r_message rep
          = Some ("Cannot set properties of undefined (setting '" ++ socket ++ "')")
          /\ more = []
          /\ deref (store (onSubmitPrompt env socket roomCode prompt s)) a = Some room)
      /\ Forall (fun x => r_request x = StartGameReq) more.
Proof.
  intros env schedule socket roomCode prompt a room s Hlook.
  destruct (run_rested env schedule initial rested_initial) as [Hheap _].
  fold s in Hheap.
  pose proof Hlook as Hlook0. apply lookupRoom_Some in Hlook0 as [_ Hroom].
  destruct (Hheap a room Hroom) as (_ & _ & _ & Hcount).
  unfold onSubmitPrompt. rewrite Hlook.
  destruct Hcount as [(Hzero & Hnone & _)|(Hpos & Hsome & _)].
  - rewrite (handlePromptSubmission_throws socket prompt room Hnone).
    eexists _, []. split; [reflexivity|]. cbn.
    split; [reflexivity|]. split; [reflexivity|]. split; [split; [discriminate | lia]|].
    split; [|constructor]. intros _. split; [reflexivity|]. split; [reflexivity|].
    apply deref_update_eq. eapply deref_Some_lt; eassumption.
  - destruct (prompts (roundData room)) as [ps|] eqn:Hps; [|congruence].
    destruct (handlePromptSubmission_returns socket prompt room ps Hps)
      as (room' & resolved & Hrun).
    rewrite Hrun.
    destruct resolved as [f|].
    + unfold resolvePromise.
      match goal with
      | |- context [resume ?t ?k ?s0] =>
          destruct (resume_replies t k s0) as (more & Hmore & Hall); rewrite Hmore
      end.
      cbn [replies reply]. rewrite <- app_assoc. cbn [app].
      eexists _, more. split; [reflexivity|]. cbn.
      split; [reflexivity|]. split; [reflexivity|].
      split; [split; [lia | reflexivity]|]. split; [discriminate | exact Hall].
    + eexists _, []. split; [reflexivity|]. cbn.
      split; [reflexivity|]. split; [reflexivity|].
      split; [split; [lia | reflexivity]|]. split; [discriminate | constructor].
Qed.

Lemma submit_prompt_accepted_iff_round_begun_witness :
  exists rep more,
    replies (onSubmitPrompt demo_env "s2" "ABCDEF" "too late"
               (run demo_env round1_schedule initial))
    = (replies (run demo_env round1_schedule initial) ++ rep :: more)%list
    /\ r_success rep = true.
Proof.
  assert (E : exists room,
             RoomManager.lookupRoom "ABCDEF" (store (run demo_env round1_schedule initial))
             = Some (0%nat, room) /\ currentRound room = 1).
  { eexists. split; vm_compute; reflexivity. }
  destruct E as (room & Hlook & Hround).
  destruct (submit_prompt_accepted_iff_round_begun demo_env round1_schedule
              "s2" "ABCDEF" "too late" 0 room Hlook)
    as (rep & more & Hrep & _ & _ & Hiff & _).
  exists rep, more. split; [exact Hrep|]. apply Hiff. lia.
Defined.

End AtRest.

(** ** The answer to [start-game] *)

Section Answers.
Import GameLogic Server.

Lemma answersWhenOver_refl s : answersWhenOver s s.
Proof.
  exists []. split; [now rewrite app_nil_r|]. intros rep [].
Qed.

Lemma finishesOver_roundsFrom env task round draw room :
  finishesOver (roundsFrom env task round draw) room.
Proof.
  intros room' step. unfold roundsFrom. unfold bind at 1. unfold get.
  destruct (Z.leb round (rounds (config room))).
  - unfold beginRound. unfold bind at 1. unfold modify.
    unfold bind at 1. unfold bind at 1. unfold bind at 1. unfold get.
    destruct (openai env).
    + intros [= <- <-]. discriminate.
    + unfold showOriginal.
      destruct (ImageGenerator.generateOriginalImage _ None) as [op oi].
      unfold bind, modify, ret. intros [= <- <-]. discriminate.
  - unfold gameOver, bind, modify, ret. intros [= <- <-] _. reflexivity.
Qed.

Lemma votingPhase_not_finished task round op ids r r' step :
  votingPhase task round op ids r = (r', inr step) -> fst step <> Finished.
Proof.
  unfold votingPhase. unfold bind at 1. unfold modify. unfold bind at 1.
  destruct (scoreLoop op ids _) as [r1 [e|[]]]; [discriminate|].
  unfold bind at 1.
  destruct (accumulateLoop ids r1) as [r2 [e|[]]]; [discriminate|].
  unfold bind at 1.
  destruct (totalScores ids r2) as [r3 [e|tot]]; [discriminate|].
  intros [= <- <-]. discriminate.
Qed.

Lemma imagesFrom_not_finished env task round op ids rest : forall r r' step,
  imagesFrom env task round op ids rest r = (r', inr step) -> fst step <> Finished.
Proof.
  induction rest as [|id more IH]; intros r r' step; cbn [imagesFrom].
  - apply votingPhase_not_finished.
  - unfold bind at 1. unfold readPrompt.
    destruct (prompts (roundData r)) as [ps|]; [|discriminate].
    assert (Hskip : forall image,
              bind (writeImage id image)
                   (fun _ => imagesFrom env task round op ids more) r
              = (r', inr step) -> fst step <> Finished).
    { intros image. unfold bind at 1.
      destruct (writeImage id image r) as [r1 [e|[]]]; [discriminate|].
      apply IH. }
    destruct (ps !! id) as [prompt|]; [|apply Hskip].
    destruct (JS.truthy prompt); [|apply Hskip].
    destruct (openai env).
    + intros [= <- <-]. discriminate.
    + apply Hskip.
Qed.

Lemma finishesOver_afterPrompts env task round op room :
  finishesOver (afterPrompts env task round op) room.
Proof.
  intros room' step. unfold afterPrompts. unfold bind at 1. unfold modify.
  unfold bind at 1. unfold get. intros Hrun Hfin.
  now apply imagesFrom_not_finished in Hrun.
Qed.

Lemma finishesOver_afterImage env task round op ids rest id settled room :
  finishesOver (afterImage env task round op ids rest id settled) room.
Proof.
  intros room' step. unfold afterImage. unfold bind at 1.
  destruct (storeImage id settled room) as [r1 [e|[]]]; [discriminate|].
  intros Hrun Hfin. now apply imagesFrom_not_finished in Hrun.
Qed.

Lemma finishesOver_showOriginal task round original room :
  finishesOver (showOriginal task round original) room.
Proof.
  intros room' step. unfold showOriginal. destruct original as [op oi].
  unfold bind, modify, ret. intros [= <- <-]. discriminate.
Qed.

Lemma finishesOver_writingPhase task a round op room :
  finishesOver (writingPhase task a round op) room.
Proof.
  intros room' step. unfold writingPhase, waitForPrompts, bind, modify, get, ret.
  intros [= <- <-]. discriminate.
Qed.

Lemma In_insert_here {A} (l : list A) i x :
  (i < length l)%nat -> In x (<[i := x]> l).
Proof.
  intros Hlt. apply list_elem_of_In. eapply list_elem_of_lookup_2.
  now apply list_lookup_insert_eq.
Qed.

Lemma settle_answers task a socket room m s :
  deref (store s) a = Some room -> (task < length (tasks s))%nat ->
  finishesOver m room ->
  answersWhenOver s (settle task a socket (m room) s).
Proof.
  intros Hroom Htask Hover.
  destruct (m room) as [room' res] eqn:Hrun.
  exists (answer socket (settledAt res)). split; [apply settle_replies|].
  intros rep Hin Hreq Hsucc.
  destruct res as [e|[at_ armed]]; cbn [settledAt fst] in Hin.
  - cbn in Hin. destruct Hin as [<-|[]]. discriminate.
  - destruct at_; cbn in Hin; try contradiction.
    + destruct Hin as [<-|[]].
      exists {| t_room := a; t_socket := socket; t_at := Finished |}, room'.
      split; [rewrite settle_tasks; now apply In_insert_here|].
      split; [reflexivity|]. split; [reflexivity|]. split.
      * rewrite settle_store. cbn. apply deref_update_eq.
        eapply deref_Some_lt; eassumption.
      * eapply Hover; [exact Hrun | reflexivity].
    + destruct Hin as [<-|[]]. discriminate.
Qed.

Lemma resume_answers task k s :
  (forall t room m,
      tasks s !! task = Some t -> deref (store s) (t_room t) = Some room ->
      k (t_room t) (t_at t) = Some m -> finishesOver m room) ->
  answersWhenOver s (resume task k s).
Proof.
  intros Hk. unfold resume.
  destruct (tasks s !! task) as [t|] eqn:Ht; [|apply answersWhenOver_refl].
  destruct (k (t_room t) (t_at t)) as [m|] eqn:Hm; [|apply answersWhenOver_refl].
  destruct (deref (store s) (t_room t)) as [room|] eqn:Hroom;
    [|apply answersWhenOver_refl].
  apply settle_answers; [assumption | eapply lookup_lt_Some; eassumption|].
  eapply (Hk t); [reflexivity | eassumption | eassumption].
Qed.

Lemma resolvePromise_answers env f s : answersWhenOver s (resolvePromise env f s).
Proof.
  unfold resolvePromise. apply resume_answers.
  intros t room m _ _. destruct (t_at t); try discriminate.
  destruct (Z.eqb round (res_round f)); [|discriminate].
  intros [= <-]. apply finishesOver_afterPrompts.
Qed.

(** The replies of [s0] are those of [s] and one more, which is not a
    success answer to [start-game]. *)
Lemma answersWhenOver_after rep s s0 s' :
  replies s0 = (replies s ++ [rep])%list ->
  (r_request rep = StartGameReq -> r_success rep = true -> False) ->
  answersWhenOver s0 s' -> answersWhenOver s s'.
Proof.
  intros Hrep Hnot (more & Hmore & Hall).
  exists (rep :: more). split.
  - rewrite Hmore, Hrep, <- app_assoc. reflexivity.
  - intros x [<-|Hin] Hreq Hsucc; [exfalso; now apply Hnot | now apply Hall].
Qed.

Lemma answersWhenOver_one rep s s' :
  replies s' = (replies s ++ [rep])%list ->
  (r_request rep = StartGameReq -> r_success rep = true -> False) ->
  answersWhenOver s s'.
Proof.
  intros Hrep Hnot. exists [rep]. split; [exact Hrep|].
  intros x [<-|[]] Hreq Hsucc. exfalso. now apply Hnot.
Qed.

Lemma answersWhenOver_same s s' :
  replies s' = replies s -> answersWhenOver s s'.
Proof.
  intros Hrep. exists []. split; [now rewrite app_nil_r|]. intros rep [].
Qed.

(** X29. Whatever the server has been through, an event makes it answer
    a [start-game] request with success only when the game loop started by
    that request has returned, which it does from the end of the game: the
    room of that activation is then in [GAME_OVER]. *)
Theorem start_game_succeeds_at_game_over :
  forall (env : Env) (e : Event) (s : State),
  exists more,
    replies (handle env e s) = (replies s ++ more)%list
    /\ forall rep,
         In rep more -> r_request rep = StartGameReq -> r_success rep = true ->
         exists t room,
           In t (tasks (handle env e s))
           /\ t_at t = Finished
           /\ t_socket t = r_socket rep
           /\ deref (store (handle env e s)) (t_room t) = Some room
           /\ state room = GAME_OVER.
Proof.
  intros env e s. change (answersWhenOver s (handle env e s)).
  destruct e as [socket cfg attempts | socket roomCode name | socket roomCode draw
                 | socket roomCode prompt | socket | id draw | task api | task api];
    cbn [handle].
  - unfold onCreateRoom.
    destruct (RoomManager.createRoom cfg socket attempts (store s)) as [[st [e|c]]|];
      [| |apply answersWhenOver_refl];
      (eapply answersWhenOver_one; [reflexivity | discriminate]).
  - unfold onJoinRoom.
    destruct (RoomManager.joinRoom env roomCode socket name (store s)) as [st res].
    eapply answersWhenOver_one; [reflexivity | discriminate].
  - unfold onStartGame.
    destruct (RoomManager.lookupRoom roomCode (store s)) as [[a room]|] eqn:Hl.
    2:{ eapply answersWhenOver_one; [reflexivity | discriminate]. }
    apply lookupRoom_Some in Hl as [_ Hroom]. cbn [startGame].
    set (s1 := with_tasks s _).
    assert (H1 : answersWhenOver s1
                   (settle (length (tasks s)) a socket
                      ((bind (modify (fun r => with_state r STARTING))
                             (fun _ => roundsFrom env (length (tasks s)) 1 draw)) room) s1)).
    { apply settle_answers; [exact Hroom | |].
      - unfold s1. cbn. rewrite length_app. cbn. lia.
      - intros room' step. unfold bind at 1. unfold modify.
        apply finishesOver_roundsFrom. }
    exact H1.
  - unfold onSubmitPrompt.
    destruct (RoomManager.lookupRoom roomCode (store s)) as [[a room]|].
    2:{ eapply answersWhenOver_one; [reflexivity | discriminate]. }
    destruct (handlePromptSubmission socket prompt room) as [room' [e|[f|]]].
    + eapply answersWhenOver_one; [reflexivity | discriminate].
    + eapply answersWhenOver_after; [| |apply resolvePromise_answers];
        [reflexivity | discriminate].
    + eapply answersWhenOver_one; [reflexivity | discriminate].
  - apply answersWhenOver_same. reflexivity.
  - unfold onTimer.
    destruct (find _ (timers s)) as [tm|]; [|apply answersWhenOver_refl].
    set (s0 := with_timers s _).
    change (replies s) with (replies s0).
    assert (Hgo : forall s', answersWhenOver s0 s' -> answersWhenOver s s').
    { intros s' H. exact H. }
    apply Hgo.
    destruct (tm_cb tm) as [task|a].
    + apply resume_answers.
      intros t room m _ _. destruct (t_at t); try discriminate; intros [= <-].
      * apply finishesOver_writingPhase.
      * apply finishesOver_roundsFrom.
    + destruct (deref (store s0) a) as [room|]; [|apply answersWhenOver_refl].
      destruct (promptTimeout room) as [room' [e|[f|]]].
      * apply answersWhenOver_same. reflexivity.
      * set (s1 := with_store s0 _).
        assert (H1 : answersWhenOver s1 (resolvePromise env f s1))
          by apply resolvePromise_answers.
        exact H1.
      * apply answersWhenOver_same. reflexivity.
  - unfold onOriginalReady. apply resume_answers.
    intros t room m _ _. destruct (t_at t); try discriminate; intros [= <-].
    apply finishesOver_showOriginal.
  - unfold onImageReady. apply resume_answers.
    intros t room m _ _. destruct (t_at t); try discriminate; intros [= <-].
    apply finishesOver_afterImage.
Qed.

End Answers.

(* ===================================================================== *)
(** * The loop of [removePlayer], room by room *)
(* ===================================================================== *)

Section Succession.
Import GameLogic Server.











End Succession.

(* ===================================================================== *)
(** * What the game loop leaves alone in a room *)
(* ===================================================================== *)

(** The stretches of the game loop write the round data, the state, the
    round counter and the players of their room: a relation that none of
    these writes breaks holds from the room before a stretch to the room
    after it. *)
Section Frame.
Import GameLogic Server.

Context (P : Room -> Room -> Prop).
Context (P_refl : forall r, P r r).
Context (P_trans : forall r1 r2 r3, P r1 r2 -> P r2 r3 -> P r1 r3).
Context (P_roundData : forall r d, P r (with_roundData r d)).
Context (P_state : forall r st, P r (with_state r st)).
Context (P_players : forall r ps, P r (with_players r ps)).
Context (P_currentRound : forall r n, P r (with_currentRound r n)).
Context (P_host : forall r h, P r (with_host r h)).

Lemma frame_ret {A} (x : A) : keeps P (ret x).
Proof using P_refl. intros r r' res [= <- <-]. apply P_refl. Qed.

Lemma frame_throw {A} e : keeps P (@throw A e).
Proof using P_refl. intros r r' res [= <- <-]. apply P_refl. Qed.

Lemma frame_get : keeps P get.
Proof using P_refl. intros r r' res [= <- <-]. apply P_refl. Qed.

Lemma frame_bind {A B} (m : M A) (k : A -> M B) :
  keeps P m -> (forall x, keeps P (k x)) -> keeps P (bind m k).
Proof using P_trans.
  intros Hm Hk r r' res. unfold bind.
  destruct (m r) as [r1 [e|x]] eqn:E.
  - intros [= <- <-]. eapply Hm; eassumption.
  - intros H. eapply P_trans; [eapply Hm | eapply Hk]; eassumption.
Qed.

Lemma frame_modify f : (forall r, P r (f r)) -> keeps P (modify f).
Proof. intros Hf r r' res [= <- <-]. apply Hf. Qed.

Lemma frame_readPrompt id : keeps P (readPrompt id).
Proof using P_refl.
  intros r r' res. unfold readPrompt.
  destruct (prompts (roundData r)); intros [= <- <-]; apply P_refl.
Qed.

Lemma frame_readScore id : keeps P (readScore id).
Proof using P_refl.
  intros r r' res. unfold readScore.
  destruct (scores (roundData r)); intros [= <- <-]; apply P_refl.
Qed.

Lemma frame_writeImage id image : keeps P (writeImage id image).
Proof using P_refl P_roundData.
  intros r r' res. unfold writeImage.
  destruct (images (roundData r)); intros [= <- <-]; [apply P_roundData | apply P_refl].
Qed.

Lemma frame_writeScore id v : keeps P (writeScore id v).
Proof using P_refl P_roundData.
  intros r r' res. unfold writeScore.
  destruct (scores (roundData r)); intros [= <- <-]; [apply P_roundData | apply P_refl].
Qed.

Lemma frame_storeImage id settled : keeps P (storeImage id settled).
Proof using P_refl P_roundData. destruct settled; apply frame_writeImage. Qed.

Lemma frame_scoreLoop op ids : keeps P (scoreLoop op ids).
Proof using P_refl P_trans P_roundData.
  induction ids as [|id more IH]; cbn [scoreLoop].
  - apply frame_ret.
  - apply frame_bind; [apply frame_readPrompt|]. intros prompt.
    apply frame_bind; [apply frame_writeScore|]. intros _. exact IH.
Qed.

Lemma frame_accumulateLoop ids : keeps P (accumulateLoop ids).
Proof using P_refl P_trans P_players.
  induction ids as [|id more IH]; cbn [accumulateLoop].
  - apply frame_ret.
  - apply frame_bind; [apply frame_get|]. intros r.
    apply frame_bind; [apply frame_readScore|]. intros v.
    destruct (Map.get id (players r)); [|apply frame_throw].
    apply frame_bind; [|intros _; exact IH].
    apply frame_modify. intros r0. apply P_players.
Qed.

Lemma frame_totalScores ids : keeps P (totalScores ids).
Proof using P_refl P_trans.
  induction ids as [|id more IH]; cbn [totalScores].
  - apply frame_ret.
  - apply frame_bind; [apply frame_get|]. intros r.
    destruct (Map.get id (players r)); [|apply frame_throw].
    apply frame_bind; [exact IH|]. intros rest. apply frame_ret.
Qed.

Lemma frame_votingPhase task round op ids : keeps P (votingPhase task round op ids).
Proof using P_refl P_trans P_roundData P_state P_players.
  unfold votingPhase.
  apply frame_bind; [apply frame_modify; intros r; apply P_state|].
  intros _. apply frame_bind; [apply frame_scoreLoop|]. intros _.
  apply frame_bind; [apply frame_accumulateLoop|]. intros _.
  apply frame_bind; [apply frame_totalScores|]. intros _. apply frame_ret.
Qed.

Lemma frame_imagesFrom env task round op ids rest :
  keeps P (imagesFrom env task round op ids rest).
Proof using P_refl P_trans P_roundData P_state P_players.
  induction rest as [|id more IH]; cbn [imagesFrom].
  - apply frame_votingPhase.
  - apply frame_bind; [apply frame_readPrompt|]. intros prompt.
    assert (Hskip : forall image,
              keeps P (bind (writeImage id image)
                            (fun _ => imagesFrom env task round op ids more))).
    { intros image. apply frame_bind; [apply frame_writeImage | intros _; exact IH]. }
    destruct prompt as [prompt|]; [|apply Hskip].
    destruct (JS.truthy prompt); [|apply Hskip].
    destruct (openai env); [apply frame_ret|].
    apply frame_bind; [apply frame_storeImage | intros _; exact IH].
Qed.

Lemma frame_afterPrompts env task round op : keeps P (afterPrompts env task round op).
Proof using P_refl P_trans P_roundData P_state P_players.
  unfold afterPrompts.
  apply frame_bind; [apply frame_modify; intros r; apply P_state|].
  intros _. apply frame_bind; [apply frame_get|]. intros r. apply frame_imagesFrom.
Qed.

Lemma frame_afterImage env task round op ids rest id settled :
  keeps P (afterImage env task round op ids rest id settled).
Proof using P_refl P_trans P_roundData P_state P_players.
  unfold afterImage.
  apply frame_bind; [apply frame_storeImage | intros _; apply frame_imagesFrom].
Qed.

Lemma frame_showOriginal task round original :
  keeps P (showOriginal task round original).
Proof using P_refl P_trans P_roundData.
  unfold showOriginal. destruct original as [op oi].
  apply frame_bind; [|intros _; apply frame_ret].
  apply frame_modify. intros r. apply P_roundData.
Qed.

Lemma frame_roundsFrom env task round draw : keeps P (roundsFrom env task round draw).
Proof using P_refl P_trans P_roundData P_state P_currentRound.
  unfold roundsFrom. apply frame_bind; [apply frame_get|]. intros r.
  destruct (Z.leb round (rounds (config r))).
  - unfold beginRound.
    apply frame_bind; [apply frame_modify; intros r0; apply P_currentRound|]. intros _.
    apply frame_bind; [apply frame_modify; intros r0; apply P_roundData|]. intros _.
    apply frame_bind; [apply frame_modify; intros r0; apply P_state|]. intros _.
    apply frame_bind; [apply frame_get|]. intros r0.
    destruct (openai env); [apply frame_ret | apply frame_showOriginal].
  - unfold gameOver.
    apply frame_bind; [apply frame_modify; intros r0; apply P_state|]. intros _.
    apply frame_ret.
Qed.

(** The loop of [removePlayer] writes the players and the host. *)
Lemma frame_removeFrom socketId entry st :
  forall b rb, deref st b = Some rb ->
    exists rb', deref (fst (RoomManager.removeFrom socketId entry st)) b = Some rb'
                /\ P rb rb'.
Proof using P_refl P_trans P_players P_host.
  unfold RoomManager.removeFrom. destruct entry as [c a].
  assert (Hsame : forall b rb, deref st b = Some rb ->
                    exists rb', deref st b = Some rb' /\ P rb rb') by eauto.
  destruct (deref st a) as [room|] eqn:Hroom; [|exact Hsame].
  destruct (Map.has socketId (players room)); [|exact Hsame].
  assert (Hone : forall x, P room x ->
            forall b rb, deref st b = Some rb ->
              exists rb', <[a := x]> (heap st) !! b = Some rb' /\ P rb rb').
  { intros x Hx b rb Hb. destruct (Nat.eq_dec a b) as [<-|Hne].
    - exists x. split.
      + apply list_lookup_insert_eq. eapply deref_Some_lt; eassumption.
      + assert (rb = room) by congruence. now subst.
    - exists rb. split; [|apply P_refl]. now rewrite list_lookup_insert_ne. }
  destruct (String.eqb _ socketId).
  - destruct (Map.keys _) as [|next more].
    + unfold deref, update. cbn. apply Hone, P_players.
    + destruct (JS.truthy next); unfold deref, update; cbn.
      * rewrite list_insert_insert_eq. apply Hone.
        eapply P_trans; [apply P_players | apply P_host].
      * apply Hone, P_players.
  - unfold deref, update. cbn. apply Hone, P_players.
Qed.

Lemma frame_removeLoop socketId entries : forall st b rb,
  deref st b = Some rb ->
  exists rb', deref (RoomManager.removeLoop socketId entries st) b = Some rb'
              /\ P rb rb'.
Proof using P_refl P_trans P_players P_host.
  induction entries as [|entry more IH]; intros st b rb Hb;
    cbn [RoomManager.removeLoop]; [eauto|].
  destruct (frame_removeFrom socketId entry st b rb Hb) as (r1 & Hb1 & HP1).
  destruct (RoomManager.removeFrom socketId entry st) as [st1 stop]. cbn [fst] in *.
  destruct stop; [eauto|].
  destruct (IH st1 b r1 Hb1) as (r2 & Hb2 & HP2).
  exists r2. split; [assumption|]. eapply P_trans; eassumption.
Qed.

End Frame.

(* ===================================================================== *)
(** * An activation that has lost its gate *)
(* ===================================================================== *)

Section Overtaken.
Import GameLogic Server.

Lemma sameResolver_noGate task r r' :
  sameResolver r r' -> noGateOf task r -> noGateOf task r'.
Proof. unfold sameResolver, noGateOf. intros ->. auto. Qed.

(** The stretches that do not touch the resolver. *)
Lemma stretch_sameResolver (m : M Step) :
  (forall P : Room -> Room -> Prop,
      (forall r, P r r) ->
      (forall r1 r2 r3, P r1 r2 -> P r2 r3 -> P r1 r3) ->
      (forall r d, P r (with_roundData r d)) ->
      (forall r st, P r (with_state r st)) ->
      (forall r ps, P r (with_players r ps)) ->
      (forall r n, P r (with_currentRound r n)) ->
      keeps P m) ->
  keeps sameResolver m.
Proof.
  intros H. apply H; unfold sameResolver; try reflexivity.
  intros r1 r2 r3 H1 H2. congruence.
Qed.

Lemma noGate_writingPhase task task' a round op r r' res :
  task' <> task ->
  writingPhase task' a round op r = (r', res) -> noGateOf task r'.
Proof.
  intros Hne. unfold writingPhase, waitForPrompts, bind, modify, get, ret.
  intros [= <- <-] f. cbn. intros [= <-]. exact Hne.
Qed.

Lemma noGate_handlePromptSubmission task socketId prompt r r' res :
  handlePromptSubmission socketId prompt r = (r', res) ->
  noGateOf task r ->
  noGateOf task r'
  /\ forall f, res = inr (Some f) -> res_task f <> task.
Proof.
  intros Hrun Hno. revert Hrun.
  unfold handlePromptSubmission. unfold bind at 1. unfold writePrompt.
  destruct (prompts (roundData r)) as [ps|].
  2:{ intros [= <- <-]. split; [exact Hno | discriminate]. }
  unfold bind at 1. unfold get. cbn [_resolvePromptPromise with_roundData].
  destruct (_resolvePromptPromise r) as [f0|] eqn:Hf0.
  - destruct (allSubmitted _ _).
    + unfold bind, modify, ret. intros [= <- <-]. split.
      * intros f. cbn. discriminate.
      * intros f [= <-]. now apply Hno.
    + unfold ret. intros [= <- <-]. split; [|discriminate].
      intros f. cbn. rewrite Hf0. intros [= <-]. now apply Hno.
  - unfold ret. intros [= <- <-]. split; [|discriminate].
    intros f. cbn. rewrite Hf0. discriminate.
Qed.

Lemma noGate_promptTimeout task r r' res :
  promptTimeout r = (r', res) ->
  noGateOf task r ->
  noGateOf task r'
  /\ forall f, res = inr (Some f) -> res_task f <> task.
Proof.
  intros Hrun Hno. revert Hrun.
  unfold promptTimeout. unfold bind at 1. unfold get.
  destruct (_resolvePromptPromise r) as [f0|] eqn:Hf0.
  - unfold bind, modify, ret. intros [= <- <-]. split.
    + intros f. cbn. discriminate.
    + intros f [= <-]. now apply Hno.
  - unfold ret. intros [= <- <-]. split; [|discriminate].
    intros f. rewrite Hf0. discriminate.
Qed.

Lemma overtaken_update task s a r r' :
  overtaken task s -> deref (store s) a = Some r -> noGateOf task r' ->
  overtaken task (with_store s (update a r' (store s))).
Proof.
  intros [Hat Hheap] Hr Hno. split; [exact Hat|].
  intros b rb. cbn [store with_store].
  destruct (Nat.eq_dec a b) as [<-|Hne].
  - rewrite deref_update_eq by (eapply deref_Some_lt; eassumption).
    now intros [= <-].
  - rewrite deref_update_ne by assumption. apply Hheap.
Qed.

Lemma settle_overtaken task task' a socket room m s :
  overtaken task s -> task' <> task -> deref (store s) a = Some room ->
  (forall room' res, m room = (room', res) -> noGateOf task room') ->
  overtaken task (settle task' a socket (m room) s).
Proof.
  intros [(t & round & op & Ht & Hat) Hheap] Hne Hroom Hm.
  destruct (m room) as [room' res] eqn:Hrun. split.
  - exists t, round, op. split; [|exact Hat].
    rewrite settle_tasks, list_lookup_insert_ne by congruence. exact Ht.
  - intros b rb. rewrite settle_store. cbn [fst].
    destruct (Nat.eq_dec a b) as [<-|Hnb].
    + rewrite deref_update_eq by (eapply deref_Some_lt; eassumption).
      intros [= <-]. eapply Hm. reflexivity.
    + rewrite deref_update_ne by assumption. apply Hheap.
Qed.

Lemma resume_overtaken task task' k s :
  overtaken task s ->
  (forall a round op, task' = task -> k a (AwaitPrompts round op) = None) ->
  (forall a at_ m room room' res,
      task' <> task -> k a at_ = Some m -> noGateOf task room ->
      m room = (room', res) -> noGateOf task room') ->
  overtaken task (resume task' k s).
Proof.
  intros Hover Hsame Hk. unfold resume.
  destruct (tasks s !! task') as [t'|] eqn:Ht'; [|assumption].
  destruct (k (t_room t') (t_at t')) as [m|] eqn:Hm; [|assumption].
  destruct (deref (store s) (t_room t')) as [room|] eqn:Hroom; [|assumption].
  assert (Hne : task' <> task).
  { intros ->. destruct Hover as [(t & round & op & Ht & Hat) _].
    assert (t' = t) by congruence. subst t'. rewrite Hat in Hm.
    rewrite Hsame in Hm by reflexivity. discriminate. }
  apply settle_overtaken; try assumption.
  intros room' res Hrun. eapply Hk; try eassumption.
  destruct Hover as [_ Hheap]. eapply Hheap. eassumption.
Qed.

Lemma resolvePromise_overtaken env task f s :
  overtaken task s -> res_task f <> task -> overtaken task (resolvePromise env f s).
Proof.
  intros Hover Hne. unfold resolvePromise. apply resume_overtaken; [assumption | |].
  - intros a round op E. congruence.
  - intros a at_ m room room' res _. destruct at_; try discriminate.
    destruct (Z.eqb round (res_round f)); [|discriminate].
    intros [= <-] Hno Hrun. eapply sameResolver_noGate; [|exact Hno].
    revert Hrun. apply stretch_sameResolver.
    intros P H1 H2 H3 H4 H5 H6. now apply frame_afterPrompts.
Qed.

(** An activation that is overtaken stays so, whatever happens. *)
Lemma handle_overtaken env e task s :
  overtaken task s -> overtaken task (handle env e s).
Proof.
  intros Hover.
  pose proof Hover as [(t & round & op & Ht & Hat) Hheap].
  destruct e as [socket cfg attempts | socket roomCode name | socket roomCode draw
                 | socket roomCode prompt | socket | id draw | task' api | task' api];
    cbn [handle].
  - unfold onCreateRoom, RoomManager.createRoom.
    destruct (RoomManager.freshCode attempts (rooms (store s))) as [c|]; [|assumption].
    destruct cfg as [cfg|]; cbn; [|exact Hover].
    split; [eauto|]. intros a r. unfold deref. cbn. intros Ha.
    apply lookup_app_Some in Ha as [Ha|[_ Ha]]; [now apply (Hheap a)|].
    apply list_lookup_singleton_Some in Ha as [_ <-]. intros f. cbn. discriminate.
  - unfold onJoinRoom, RoomManager.joinRoom.
    destruct (RoomManager.lookupRoom roomCode (store s)) as [[a room]|] eqn:Hl;
      [|exact Hover].
    destruct (Z.geb _ _); [exact Hover|]. cbn.
    apply lookupRoom_Some in Hl as [_ Hroom].
    apply (overtaken_update task s a room); [assumption | assumption|].
    intros f. cbn. apply (Hheap a room Hroom).
  - unfold onStartGame.
    destruct (RoomManager.lookupRoom roomCode (store s)) as [[a room]|] eqn:Hl;
      [|exact Hover].
    apply lookupRoom_Some in Hl as [_ Hroom]. cbn [startGame].
    assert (Hlt : (task < length (tasks s))%nat) by (eapply lookup_lt_Some; eassumption).
    apply (settle_overtaken task (length (tasks s)) a socket room
             (bind (modify (fun r => with_state r STARTING))
                   (fun _ => roundsFrom env (length (tasks s)) 1 draw))).
    + split; [|exact Hheap]. exists t, round, op. split; [|exact Hat].
      cbn [tasks with_tasks]. now apply lookup_app_l_Some.
    + lia.
    + exact Hroom.
    + intros room' res Hrun. eapply sameResolver_noGate; [|eapply Hheap; exact Hroom].
      revert Hrun. apply stretch_sameResolver.
      intros P H1 H2 H3 H4 H5 H6.
      apply frame_bind; [assumption | apply frame_modify; intros r; apply H4|].
      intros _. now apply frame_roundsFrom.
  - unfold onSubmitPrompt.
    destruct (RoomManager.lookupRoom roomCode (store s)) as [[a room]|] eqn:Hl;
      [|exact Hover].
    apply lookupRoom_Some in Hl as [_ Hroom].
    destruct (handlePromptSubmission socket prompt room) as [room' res] eqn:Hrun.
    destruct (noGate_handlePromptSubmission task _ _ _ _ _ Hrun (Hheap _ _ Hroom))
      as [Hno Hf].
    pose proof (overtaken_update task s a room room' Hover Hroom Hno) as Hover1.
    destruct res as [e|[f|]]; try exact Hover1.
    apply resolvePromise_overtaken; [exact Hover1 | now apply Hf].
  - split; [eauto|]. unfold onDisconnect, RoomManager.removePlayer.
    cbn [store with_store]. intros a r' Ha.
    assert (Hlen : length (heap (RoomManager.removeLoop socket (rooms (store s)) (store s)))
                   = length (heap (store s)))
      by apply (removeLoop_heap socket (rooms (store s)) (store s)).
    assert (Hlt : (a < length (heap (store s)))%nat).
    { rewrite <- Hlen. eapply deref_Some_lt; eassumption. }
    destruct (lookup_lt_is_Some_2 (heap (store s)) a Hlt) as [r Hr].
    destruct (frame_removeLoop sameResolver
                (fun r0 => eq_refl) (fun r1 r2 r3 H1 H2 => eq_trans H2 H1)
                (fun r0 ps => eq_refl) (fun r0 h => eq_refl)
                socket (rooms (store s)) (store s) a r Hr) as (r1 & Hr1 & Hsame).
    assert (r1 = r') by congruence. subst r1.
    eapply sameResolver_noGate; [exact Hsame | eapply Hheap; exact Hr].
  - unfold onTimer.
    destruct (find _ (timers s)) as [tm|]; [|exact Hover].
    set (s0 := with_timers s _).
    assert (Hover0 : overtaken task s0) by exact Hover.
    destruct (tm_cb tm) as [task'|a].
    + apply resume_overtaken; [exact Hover0 | reflexivity|].
      intros a at_ m room room' res Hne.
      destruct at_; try discriminate; intros [= <-] Hno Hrun.
      * eapply noGate_writingPhase; eassumption.
      * eapply sameResolver_noGate; [|exact Hno]. revert Hrun.
        apply stretch_sameResolver. intros P H1 H2 H3 H4 H5 H6.
        now apply frame_roundsFrom.
    + destruct (deref (store s0) a) as [room|] eqn:Hroom; [|exact Hover0].
      destruct (promptTimeout room) as [room' res] eqn:Hrun.
      destruct (noGate_promptTimeout task _ _ _ Hrun (Hheap _ _ Hroom)) as [Hno Hf].
      pose proof (overtaken_update task s0 a room room' Hover0 Hroom Hno) as Hover1.
      destruct res as [e|[f|]]; try exact Hover1.
      apply resolvePromise_overtaken; [exact Hover1 | now apply Hf].
  - unfold onOriginalReady. apply resume_overtaken; [exact Hover | reflexivity|].
    intros a at_ m room room' res Hne.
    destruct at_; try discriminate; intros [= <-] Hno Hrun.
    eapply sameResolver_noGate; [|exact Hno]. revert Hrun.
    apply stretch_sameResolver. intros P H1 H2 H3 H4 H5 H6.
    now apply frame_showOriginal.
  - unfold onImageReady. apply resume_overtaken; [exact Hover | reflexivity|].
    intros a at_ m room room' res Hne.
    destruct at_; try discriminate; intros [= <-] Hno Hrun.
    eapply sameResolver_noGate; [|exact Hno]. revert Hrun.
    apply stretch_sameResolver. intros P H1 H2 H3 H4 H5 H6.
    now apply frame_afterImage.
Qed.

Lemma run_overtaken env task schedule : forall s,
  overtaken task s -> overtaken task (run env schedule s).
Proof.
  unfold run. induction schedule as [|te more IH]; intros s H; cbn [foldl]; [assumption|].
  apply IH. unfold deliver. apply handle_overtaken. exact H.
Qed.

Lemma run_app env l1 l2 s : run env (l1 ++ l2) s = run env l2 (run env l1 s).
Proof. unfold run. apply foldl_app. Qed.

End Overtaken.

(* ===================================================================== *)
(** * The answers to [start-game] *)
(* ===================================================================== *)

Section Answering.
Import GameLogic Server.

Lemma answer_ended socket at_ rep :
  In rep (answer socket at_) -> ended at_ = true /\ answer socket at_ = [rep].
Proof.
  destruct at_; cbn; try tauto; intros [<-|[]]; split; reflexivity.
Qed.

Lemma ended_answer socket at_ :
  ended at_ = true -> exists rep, answer socket at_ = [rep].
Proof. destruct at_; try discriminate; intros _; eexists; reflexivity. Qed.

Lemma answer_startGame socket at_ :
  Forall (fun rep => r_request rep = StartGameReq) (answer socket at_).
Proof. destruct at_; cbn; repeat constructor. Qed.

Lemma filter_none (pre : list Reply) :
  Forall (fun rep => r_request rep <> StartGameReq) pre ->
  List.filter isStartGameReply pre = [].
Proof.
  induction 1 as [|rep pre Hrep _ IH]; [reflexivity|].
  cbn [List.filter]. unfold isStartGameReply at 1.
  destruct (r_request rep); try exact IH. contradiction.
Qed.

(** A turn that leaves the activations as they are and answers no
    [start-game] request. *)
Lemma answersAtEnd_still e s s' pre :
  tasks s' = tasks s -> replies s' = (replies s ++ pre)%list ->
  Forall (fun rep => r_request rep <> StartGameReq) pre ->
  answersAtEnd e s s'.
Proof.
  intros Htasks Hreplies Hpre. exists pre. split; [exact Hreplies|].
  split; [|split; [|split]].
  - intros rep Hin Hreq. rewrite List.Forall_forall in Hpre.
    now apply Hpre in Hin.
  - intros task t' (Ht' & Hended & Hbefore). rewrite Htasks in Ht'.
    rewrite Ht' in Hbefore. congruence.
  - rewrite filter_none by assumption. cbn. lia.
  - intros task t Ht. exists t. rewrite Htasks. auto.
Qed.

(** A turn that runs one stretch of one activation, which was suspended
    or has just been started. *)
Lemma answersAtEnd_settle e s s1 pre task a socket out :
  replies s1 = (replies s ++ pre)%list ->
  Forall (fun rep => r_request rep <> StartGameReq) pre ->
  (task < length (tasks s1))%nat ->
  (forall i, i <> task -> tasks s1 !! i = tasks s !! i) ->
  match tasks s !! task with
  | Some t => ended (t_at t) = false /\ t_socket t = socket /\ t_room t = a
  | None => True
  end ->
  answersAtEnd e s (settle task a socket out s1).
Proof.
  intros Hreplies Hpre Hlt Hothers Hbefore.
  set (t1 := {| t_room := a; t_socket := socket; t_at := settledAt (snd out) |}).
  assert (Hnew : tasks (settle task a socket out s1) !! task = Some t1).
  { rewrite settle_tasks. now apply list_lookup_insert_eq. }
  assert (Hold : forall i, i <> task ->
             tasks (settle task a socket out s1) !! i = tasks s !! i).
  { intros i Hi. rewrite settle_tasks, list_lookup_insert_ne by congruence.
    now apply Hothers. }
  assert (Honly : forall i t', endsInTurn s (settle task a socket out s1) i t' ->
             i = task /\ t' = t1).
  { intros i t' (Ht' & Hended & Hwas).
    destruct (Nat.eq_dec i task) as [->|Hi]; [split; congruence|].
    rewrite Hold in Ht' by assumption. rewrite Ht' in Hwas. congruence. }
  exists (pre ++ answer socket (settledAt (snd out)))%list.
  split; [rewrite settle_replies, Hreplies, <- app_assoc; reflexivity|].
  split; [|split; [|split]].
  - intros rep Hin Hreq. right.
    apply in_app_iff in Hin as [Hin|Hin].
    { rewrite List.Forall_forall in Hpre. now apply Hpre in Hin. }
    apply answer_ended in Hin as [Hended Hans].
    exists task, t1. split; [|exact Hans].
    split; [exact Hnew|]. split; [exact Hended|].
    destruct (tasks s !! task); [apply Hbefore | exact I].
  - intros i t' Hends. pose proof (Honly _ _ Hends) as [-> ->].
    destruct Hends as (_ & Hended & _).
    destruct (ended_answer socket _ Hended) as [rep Hrep].
    exists rep. split; [|exact Hrep].
    apply in_app_iff. right. cbn [t_socket t_at t1] in *. rewrite Hrep. now left.
  - rewrite List.filter_app, filter_none by assumption. cbn [app].
    destruct (settledAt (snd out)); cbn; lia.
  - intros i t Ht.
    destruct (Nat.eq_dec i task) as [->|Hi].
    + exists t1. rewrite Ht in Hbefore. destruct Hbefore as (Hnot & Hs & Hr).
      split; [exact Hnew|]. split; [now rewrite Hs|]. split; [now rewrite Hr|].
      congruence.
    + exists t. rewrite Hold by assumption. auto.
Qed.

(** A turn that resumes an activation where it is suspended. *)
Lemma answersAtEnd_resume e s s1 pre task k :
  replies s1 = (replies s ++ pre)%list ->
  Forall (fun rep => r_request rep <> StartGameReq) pre ->
  tasks s1 = tasks s ->
  (forall a at_ m, k a at_ = Some m -> ended at_ = false) ->
  answersAtEnd e s (resume task k s1).
Proof.
  intros Hreplies Hpre Htasks Hk. unfold resume.
  destruct (tasks s1 !! task) as [t|] eqn:Ht;
    [|now apply answersAtEnd_still with (pre := pre)].
  destruct (k (t_room t) (t_at t)) as [m|] eqn:Hm;
    [|now apply answersAtEnd_still with (pre := pre)].
  destruct (deref (store s1) (t_room t)) as [room|];
    [|now apply answersAtEnd_still with (pre := pre)].
  apply answersAtEnd_settle with (pre := pre); try assumption.
  - eapply lookup_lt_Some. eassumption.
  - intros i _. now rewrite Htasks.
  - rewrite <- Htasks, Ht. split; [eapply Hk; eassumption | split; reflexivity].
Qed.

Lemma answersAtEnd_resolvePromise e env f s s1 pre :
  replies s1 = (replies s ++ pre)%list ->
  Forall (fun rep => r_request rep <> StartGameReq) pre ->
  tasks s1 = tasks s ->
  answersAtEnd e s (resolvePromise env f s1).
Proof.
  intros Hreplies Hpre Htasks. unfold resolvePromise.
  apply answersAtEnd_resume with (pre := pre); try assumption.
  intros a at_ m. destruct at_; try discriminate. reflexivity.
Qed.

(** Every turn answers the [start-game] requests as [answersAtEnd] says. *)
Lemma handle_answersAtEnd env e s : answersAtEnd e s (handle env e s).
Proof.
  destruct e as [socket cfg attempts | socket roomCode name | socket roomCode draw
                 | socket roomCode prompt | socket | id draw | task api | task api];
    cbn [handle].
  - unfold onCreateRoom.
    destruct (RoomManager.createRoom cfg socket attempts (store s)) as [[st [e|c]]|].
    + eapply answersAtEnd_still; [reflexivity | reflexivity|].
      constructor; [discriminate | constructor].
    + eapply answersAtEnd_still; [reflexivity | reflexivity|].
      constructor; [discriminate | constructor].
    + apply answersAtEnd_still with (pre := []);
        [reflexivity | now rewrite app_nil_r | constructor].
  - unfold onJoinRoom.
    destruct (RoomManager.joinRoom env roomCode socket name (store s)) as [st res].
    eapply answersAtEnd_still; [reflexivity | reflexivity|].
    constructor; [discriminate | constructor].
  - unfold onStartGame.
    destruct (RoomManager.lookupRoom roomCode (store s)) as [[a room]|] eqn:Hl.
    + cbn [startGame].
      apply answersAtEnd_settle with (pre := []).
      * cbn. now rewrite app_nil_r.
      * constructor.
      * cbn. rewrite length_app. cbn. lia.
      * intros i Hi. cbn [tasks with_tasks].
        destruct (Nat.lt_ge_cases i (length (tasks s))) as [Hlt|Hge].
        -- now apply lookup_app_l.
        -- rewrite lookup_ge_None_2 by (rewrite length_app; cbn; lia).
           symmetry. apply lookup_ge_None_2. lia.
      * rewrite lookup_ge_None_2 by lia. exact I.
    + exists [roomNotFound socket]. split; [reflexivity|].
      split; [|split; [|split]].
      * intros rep [<-|[]] _. left. exists roomCode, draw. cbn. auto.
      * intros task t' (Ht' & Hended & Hwas). cbn [tasks reply] in Ht'.
        rewrite Ht' in Hwas. congruence.
      * cbn. lia.
      * intros task t Ht. exists t. auto.
  - unfold onSubmitPrompt.
    destruct (RoomManager.lookupRoom roomCode (store s)) as [[a room]|].
    2:{ eapply answersAtEnd_still; [reflexivity | reflexivity|].
        constructor; [discriminate | constructor]. }
    destruct (handlePromptSubmission socket prompt room) as [room' [e|[f|]]].
    + eapply answersAtEnd_still; [reflexivity | reflexivity|].
      constructor; [discriminate | constructor].
    + eapply answersAtEnd_resolvePromise; [reflexivity | | reflexivity].
      constructor; [discriminate | constructor].
    + eapply answersAtEnd_still; [reflexivity | reflexivity|].
      constructor; [discriminate | constructor].
  - apply answersAtEnd_still with (pre := []);
      [reflexivity | now rewrite app_nil_r | constructor].
  - unfold onTimer.
    destruct (find _ (timers s)) as [tm|].
    2:{ apply answersAtEnd_still with (pre := []);
          [reflexivity | now rewrite app_nil_r | constructor]. }
    destruct (tm_cb tm) as [task|a].
    + apply answersAtEnd_resume with (pre := []);
        [now rewrite app_nil_r | constructor | reflexivity|].
      intros a at_ m. destruct at_; try discriminate; reflexivity.
    + cbn [store with_timers].
      destruct (deref (store s) a) as [room|].
      2:{ apply answersAtEnd_still with (pre := []);
            [reflexivity | now rewrite app_nil_r | constructor]. }
      destruct (promptTimeout room) as [room' [e|[f|]]].
      * apply answersAtEnd_still with (pre := []);
          [reflexivity | now rewrite app_nil_r | constructor].
      * apply answersAtEnd_resolvePromise with (pre := []);
          [now rewrite app_nil_r | constructor | reflexivity].
      * apply answersAtEnd_still with (pre := []);
          [reflexivity | now rewrite app_nil_r | constructor].
  - unfold onOriginalReady.
    apply answersAtEnd_resume with (pre := []);
      [now rewrite app_nil_r | constructor | reflexivity|].
    intros a at_ m. destruct at_; try discriminate; reflexivity.
  - unfold onImageReady.
    apply answersAtEnd_resume with (pre := []);
      [now rewrite app_nil_r | constructor | reflexivity|].
    intros a at_ m. destruct at_; try discriminate; reflexivity.
Qed.

(** C5, as the code has it. A [start-game] request that names no live
    room is answered at once with the failure "Room not found", and
    nothing else happens. A request that names a live room starts the game
    loop on it whatever the state of the room is: a new activation of
    [startGame] is recorded for the room, and the room leaves [WAITING] (or
    whatever state it was in) for [SHOWING_IMAGE], or for [GAME_OVER] when
    no round is configured. Such a request is answered in the turn in
    which its activation ends, with [{ success: true }] if the activation
    has returned and with the failure message if it has thrown; it is not
    answered before, and not a second time: in every turn, the answers to
    [start-game] requests are the rejection of a request that names no
    room and the answer for the activation that ends in that turn. *)
Theorem startGame_request :
  (forall (env : Env) (socket roomCode : string) (draw : nat) (s : State),
      match RoomManager.lookupRoom roomCode (store s) with
      | None =>
          onStartGame env socket roomCode draw s
          = reply socket StartGameReq false (Some "Room not found") None s
      | Some (a, room) =>
          exists room' res,
            startGame env (length (tasks s)) draw (Some room) = inr (room', res)
            /\ tasks (onStartGame env socket roomCode draw s)
               = (tasks s ++ [{| t_room := a; t_socket := socket;
                                 t_at := settledAt res |}])%list
            /\ deref (store (onStartGame env socket roomCode draw s)) a = Some room'
            /\ (state room' = SHOWING_IMAGE \/ state room' = GAME_OVER)
            /\ replies (onStartGame env socket roomCode draw s)
               = (replies s ++ answer socket (settledAt res))%list
      end)
  /\ (forall (env : Env) (e : Event) (s : State),
        answersAtEnd e s (handle env e s)).
Proof.
  split; [|apply handle_answersAtEnd].
  intros env socket roomCode draw s. unfold onStartGame.
  destruct (RoomManager.lookupRoom roomCode (store s)) as [[a room]|] eqn:Hl;
    [|reflexivity].
  apply lookupRoom_Some in Hl as [_ Hroom].
  cbn [startGame].
  destruct ((modify (fun r => with_state r STARTING);;;
             roundsFrom env (length (tasks s)) 1 draw) room) as [room' res] eqn:Hrun.
  exists room', res. split; [reflexivity|].
  rewrite settle_tasks, settle_store, settle_replies. simpl.
  split; [|split; [|split]].
  - apply insert_last.
  - apply deref_update_eq. eapply deref_Some_lt; eassumption.
  - revert Hrun. unfold bind at 1. unfold modify. apply roundsFrom_state.
  - reflexivity.
Qed.

(** C5, counterexample: a [start-game] request for a room that is not in
    state [WAITING] is not rejected, and not every request is answered.
    Ann's room is in [SHOWING_IMAGE], one second into her game; her second
    request gets no failure result and starts a second game loop on the
    same room. The gate of the second loop then replaces the resolver of
    the first in the room: when the game is played to its end and every
    timer has fired, the second loop has returned and its request is
    answered, while the first loop is suspended at its gate with no
    resolver and no timer left; of the two requests one is answered, and
    whatever happens afterwards the first loop stays where it is, so that
    its request is never answered. *)
Lemma start_game_while_running :
  let s := run demo_env restart_schedule initial in
  let s' := deliver demo_env (2000, StartGame "s1" "ABCDEF" 0%nat) s in
  let final := run demo_env reentrant_schedule initial in
  option_map state (roomAt s 0) = Some SHOWING_IMAGE
  /\ length (tasks s) = 1%nat
  /\ length (tasks s') = 2%nat
  /\ replies s' = replies s
  /\ ~ (forall (env : Env) (socket roomCode : string) (draw : nat) (s : State)
               (a : nat) (room : Room),
          RoomManager.lookupRoom roomCode (store s) = Some (a, room) ->
          state room <> WAITING ->
          tasks (onStartGame env socket roomCode draw s) = tasks s
          /\ exists failure,
               r_success failure = false
               /\ replies (onStartGame env socket roomCode draw s)
                  = (replies s ++ [failure])%list)
  /\ feasible demo_env reentrant_schedule initial = true
  /\ map t_at (tasks final)
     = [AwaitPrompts 1 "A detailed animals scene generated for a prompt battle game.";
        Finished]
  /\ timers final = []
  /\ option_map _resolvePromptPromise (roomAt final 0) = Some None
  /\ option_map state (roomAt final 0) = Some GAME_OVER
  /\ List.filter isStartGameReply (replies final)
     = [{| r_socket := "s1"; r_request := StartGameReq; r_success := true;
           r_message := None; r_roomCode := None |}]
  /\ (forall more : list (Z * Event),
        exists t round originalPrompt,
          tasks (run demo_env (reentrant_schedule ++ more) initial) !! 0%nat = Some t
          /\ t_at t = AwaitPrompts round originalPrompt).
Proof.
  cbv zeta.
  split; [vm_compute; reflexivity|]. split; [vm_compute; reflexivity|].
  split; [vm_compute; reflexivity|]. split; [vm_compute; reflexivity|].
  split.
  { intros H.
    destruct (H demo_env "s1" "ABCDEF" 0%nat
                (with_now (run demo_env restart_schedule initial) 2000)
                0%nat _ ltac:(vm_compute; reflexivity) ltac:(discriminate))
      as [Htasks _].
    apply (f_equal (@length Task)) in Htasks. vm_compute in Htasks. discriminate. }
  split; [vm_compute; reflexivity|]. split; [vm_compute; reflexivity|].
  split; [vm_compute; reflexivity|]. split; [vm_compute; reflexivity|].
  split; [vm_compute; reflexivity|]. split; [vm_compute; reflexivity|].
  intros more. rewrite run_app.
  apply (run_overtaken demo_env 0 more (run demo_env reentrant_schedule initial)).
  split.
  - eexists _, _, _. split; vm_compute; reflexivity.
  - intros a r Hr f Hf. destruct a as [|a]; vm_compute in Hr.
    + injection Hr as <-. discriminate Hf.
    + discriminate Hr.
Qed.

End Answering.

(* ===================================================================== *)
(** * A player who leaves during a round *)
(* ===================================================================== *)

Section Tolerance.
Import GameLogic Server.


(** ** The stretches after the gate *)





(** ** The other stretches *)






(** ** The server *)
















(** Bob submits and leaves in the writing phase of round 1, Ann submits
    afterwards: the snapshot of the image phase holds Ann alone, Bob gets
    no image and no round score, and the round is completed. *)
Example leaver_round_completes :
  let final := run demo_env_openai leaver_in_turn_schedule initial in
  feasible demo_env_openai leaver_in_turn_schedule initial = true
  /\ map t_at (tasks final) = [AwaitPause 1]
  /\ option_map state (roomAt final 0) = Some VOTING
  /\ option_map members (roomAt final 0) = Some ["s1"]
  /\ imageAt final 0 "s1" = Some (Some ImageGenerator.PLACEHOLDER)
  /\ imageAt final 0 "s2" = None
  /\ roundScoreAt final 0 "s1" = Some 36
  /\ roundScoreAt final 0 "s2" = None
  /\ scoreAt final 0 "s1" = Some 36
  /\ List.filter isStartGameReply (replies final) = [].
Proof.
  cbv zeta.
  split; [vm_compute; reflexivity|]. split; [vm_compute; reflexivity|].
  split; [vm_compute; reflexivity|]. split; [vm_compute; reflexivity|].
  split; [vm_compute; reflexivity|]. split; [vm_compute; reflexivity|].
  split; [vm_compute; reflexivity|]. split; [vm_compute; reflexivity|].
  split; vm_compute; reflexivity.
Qed.

End Tolerance.
